(** * Verification of the automation core: workflow scheduler, task registry,
    watchdog, Chrome session manager and download loop.

    Every definition below is a shallow embedding of one TypeScript function
    of the repository.  Promises are modelled by the value they settle with;
    the points at which the JavaScript event loop may interleave other work
    (each [await]) are made explicit, and everything that the environment
    decides (which promise settles first, what a callback returns, what the
    clock shows) is read from an explicit [World] record, over which all
    theorems quantify. *)

From Stdlib Require Import ZArith Lia.
From stdpp Require Import base decidable option list gmap strings pretty fin_maps.

Open Scope string_scope.
Open Scope list_scope.
Open Scope nat_scope.

(** ** Workflow scheduler ([runWorkflow]) *)
Module Workflow.

(** [WorkflowRunStatus] : the six literal statuses of the type. *)
Inductive WorkflowRunStatus :=
  | running | success | error | skipped | pending | warning.

#[global] Instance WorkflowRunStatus_eq_dec : EqDecision WorkflowRunStatus.
Proof. solve_decision. Defined.

(** The object a step body may resolve with. *)
Record RunValue := {
  message : option string;
  downloadedCount : option Z
}.

(** The two values from which no property can be read. *)
Inductive Nullish := null | undefined.

(** What becomes of the promise returned by [step.run()]: it is fulfilled
    with nothing ([None]) or a payload; it is rejected with a value other
    than [null] and [undefined], whose [message] may be missing; it is
    rejected with [null] or [undefined]; or it stays pending for ever. *)
Inductive Settlement :=
  | Fulfilled (value : option RunValue)
  | Rejected (errMessage : option string)
  | RejectedNullish (reason : Nullish)
  | NeverSettles.

(** What the call [step.run()] does.  The field has type
    [() => Promise<...>]: an [async] function always returns a promise, while
    a plain function may throw before it returns one (in [buildWorkflowSteps]
    the bodies [() => isDry ? ... : runOpenSession(resolveSession(step))]
    throw from [resolveSession] when the session is missing).  What is thrown
    is a value whose [message] may be missing, or [null] or [undefined]. *)
Inductive Body :=
  | Throws (errMessage : option string)
  | ThrowsNullish (thrown : Nullish)
  | Returns (promise : Settlement).

(** How a call ends when it ends: it returns, or it throws the [TypeError]
    that reading [message] from [null] or [undefined] raises. *)
Inductive Completion (A : Type) :=
  | Returned (a : A)
  | Crashed (errMessage : string).
Arguments Returned {A} a.
Arguments Crashed {A} errMessage.

Definition mapReturned {A B} (f : A → B) (c : Completion A) : Completion B :=
  match c with
  | Returned a => Returned (f a)
  | Crashed m => Crashed m
  end.

(** The message of the [TypeError] of the engine (V8). *)
Definition typeErrorMessage (v : Nullish) : string :=
  match v with
  | null => "Cannot read properties of null (reading 'message')"
  | undefined => "Cannot read properties of undefined (reading 'message')"
  end.

Record WorkflowStep := {
  id : string;
  label : string;
  enabled : bool;
  run : Body;
  dependsOn : option (list string);
  sessionId : option string
}.

Record WorkflowProgressEvent := {
  ev_stepId : string;
  ev_label : string;
  ev_status : WorkflowRunStatus;
  ev_message : string;
  ev_timestamp : Z;
  ev_sessionId : option string;
  ev_downloadedCount : option Z
}.

Record WorkflowRunResult := {
  stepId : string;
  r_label : string;
  status : WorkflowRunStatus;
  r_error : option string;
  durationMs : Z
}.

(** Everything [runWorkflow] reads from its environment.  [shouldCancel] is
    the optional predicate of the options, polled once per loop iteration;
    [raceWinner] and [raceAlso] say which in-flight bodies have settled by
    the time the loop resumes from [Promise.race] (the winner, then any
    others, in completion order); [elapsedMs] is
    [Math.round(performance.now() - start)] for a step and [dateNow] the
    clock read by the n-th progress event. *)
Record World := {
  shouldCancel : option (nat → bool);
  raceWinner : nat → nat;
  raceAlso : nat → list string;
  elapsedMs : string → Z;
  dateNow : nat → Z
}.

(** The local variables of [runWorkflow], plus the stream of progress events
    handed to [options.onProgress].  A [Map] iterates in insertion order:
    [runningPromises] holds the entries of the map and [keyOrder] its keys
    in that order. *)
Record State := {
  results : list WorkflowRunResult;
  statusById : gmap string WorkflowRunStatus;
  runningPromises : gmap string WorkflowStep;
  keyOrder : list string;
  pendingSteps : list WorkflowStep;
  progress : list WorkflowProgressEvent
}.

Definition setStatus (k : string) (v : WorkflowRunStatus) (st : State) : State :=
  {| results := results st; statusById := <[k := v]> (statusById st);
     runningPromises := runningPromises st; keyOrder := keyOrder st;
     pendingSteps := pendingSteps st; progress := progress st |}.

Definition pushResult (r : WorkflowRunResult) (st : State) : State :=
  {| results := results st ++ [r]; statusById := statusById st;
     runningPromises := runningPromises st; keyOrder := keyOrder st;
     pendingSteps := pendingSteps st; progress := progress st |}.

(** [emitProgress]: one event appended to the stream, stamped with the clock.
    The callbacks [options.logger] and [options.onProgress] are taken to
    return normally. *)
Definition emitProgress (w : World) (step : WorkflowStep) (s : WorkflowRunStatus)
    (msg : string) (count : option Z) (st : State) : State :=
  {| results := results st; statusById := statusById st;
     runningPromises := runningPromises st; keyOrder := keyOrder st;
     pendingSteps := pendingSteps st; progress := progress st ++
       [ {| ev_stepId := id step; ev_label := label step; ev_status := s;
            ev_message := msg; ev_timestamp := dateNow w (length (progress st));
            ev_sessionId := sessionId step; ev_downloadedCount := count |} ] |}.

(** [pendingSteps.delete(step)].  The set holds step objects; step identifiers
    are unique within a run, so an object is found by its identifier. *)
Definition deletePending (step : WorkflowStep) (st : State) : State :=
  {| results := results st; statusById := statusById st;
     runningPromises := runningPromises st; keyOrder := keyOrder st;
     pendingSteps := filter (λ s, id s ≠ id step) (pendingSteps st);
     progress := progress st |}.

Definition clearPending (st : State) : State :=
  {| results := results st; statusById := statusById st;
     runningPromises := runningPromises st; keyOrder := keyOrder st;
     pendingSteps := []; progress := progress st |}.

(** [runningPromises.set(k, promise)]: a key that is present keeps its
    place, a new key goes last. *)
Definition setRunning (k : string) (step : WorkflowStep) (st : State) : State :=
  {| results := results st; statusById := statusById st;
     runningPromises := <[k := step]> (runningPromises st);
     keyOrder := if decide (k ∈ keyOrder st) then keyOrder st else keyOrder st ++ [k];
     pendingSteps := pendingSteps st; progress := progress st |}.

Definition deleteRunning (k : string) (st : State) : State :=
  {| results := results st; statusById := statusById st;
     runningPromises := delete k (runningPromises st);
     keyOrder := filter (λ k', k' ≠ k) (keyOrder st);
     pendingSteps := pendingSteps st; progress := progress st |}.

Definition mkResult (step : WorkflowStep) (s : WorkflowRunStatus)
    (d : Z) (e : option string) : WorkflowRunResult :=
  {| stepId := id step; r_label := label step; status := s;
     r_error := e; durationMs := d |}.

(** The body of the first [for] loop: disabled steps are skipped at once. *)
Definition initStep (w : World) (st : State) (step : WorkflowStep) : State :=
  if enabled step then setStatus (id step) pending st
  else
    deletePending step
      (emitProgress w step skipped "Step disabled, skipping" None
        (pushResult (mkResult step skipped 0 None)
          (setStatus (id step) skipped st))).

Definition initState (steps : list WorkflowStep) : State :=
  {| results := []; statusById := ∅; runningPromises := ∅; keyOrder := [];
     pendingSteps := steps; progress := [] |}.

(** The cancellation branch marks every pending step. *)
Definition cancelStep (w : World) (st : State) (step : WorkflowStep) : State :=
  emitProgress w step skipped "Workflow cancelled" None
    (pushResult (mkResult step skipped 0 (Some "Cancelled"))
      (setStatus (id step) skipped st)).

Definition anyDepFailed (sb : gmap string WorkflowRunStatus) (deps : list string) : bool :=
  existsb (λ depId,
    match sb !! depId with
    | Some error | Some skipped => true
    | _ => false
    end) deps.

Definition allDepsSuccess (sb : gmap string WorkflowRunStatus) (deps : list string) : bool :=
  forallb (λ depId, bool_decide (sb !! depId = Some success)) deps.

(** One iteration of "find steps ready to run": the accumulator carries the
    state and [readySteps]; a step with a failed dependency is skipped on
    the spot. *)
Definition skipDependent (w : World) (st : State) (step : WorkflowStep) : State :=
  deletePending step
    (emitProgress w step skipped "Skipped due to dependency failure" None
      (pushResult (mkResult step skipped 0 (Some "Dependency failed"))
        (setStatus (id step) skipped st))).

Definition scanStep (w : World) (acc : State * list WorkflowStep)
    (step : WorkflowStep) : State * list WorkflowStep :=
  let deps := default [] (dependsOn step) in
  if anyDepFailed (statusById acc.1) deps then (skipDependent w acc.1 step, acc.2)
  else if allDepsSuccess (statusById acc.1) deps then (acc.1, acc.2 ++ [step])
  else acc.

Definition findReady (w : World) (st : State) : State * list WorkflowStep :=
  foldl (scanStep w) (st, []) (pendingSteps st).

(** The [try] branch after the [await], and the [catch] block. *)
Definition succeedStep (w : World) (step : WorkflowStep) (v : option RunValue)
    (st : State) : State :=
  let d := elapsedMs w (id step) in
  let count := v ≫= downloadedCount in
  let customMsg :=
    match v ≫= message with
    | Some m => if decide (m = "") then "Finished in " +:+ pretty d +:+ "ms" else m
    | None => "Finished in " +:+ pretty d +:+ "ms"
    end in
  emitProgress w step success customMsg count
    (pushResult (mkResult step success d None)
      (setStatus (id step) success st)).

(** The [catch] block for a caught value other than [null] and [undefined]:
    [(error as Error).message ?? 'Unknown error'], where [m] is the
    [message] of the value, if it has one. *)
Definition failStep (w : World) (step : WorkflowStep) (m : option string)
    (st : State) : State :=
  let d := elapsedMs w (id step) in
  let msg := default "Unknown error" m in
  emitProgress w step error msg None
    (pushResult (mkResult step error d (Some msg))
      (setStatus (id step) error st)).

(** Launching a ready step.  The async closure runs synchronously up to its
    [await]; when [step.run()] throws, the [catch] and [finally] blocks run at
    once, before the closure returns.  Only then is the promise of the closure
    stored in [runningPromises].  When the value caught is [null] or
    [undefined], reading its [message] throws out of the [catch] block:
    nothing is recorded, the [finally] block runs, and the promise of the
    closure is rejected. *)
Definition launchStep (w : World) (st : State) (step : WorkflowStep) : State :=
  let st1 :=
    emitProgress w step running "Starting" None
      (setStatus (id step) running
        (deletePending step st)) in
  setRunning (id step) step
    match run step with
    | Throws m => deleteRunning (id step) (failStep w step m st1)
    | ThrowsNullish _ => deleteRunning (id step) st1
    | Returns _ => st1
    end.

(** The continuation of the async closure once the awaited promise has
    settled, ending with the [finally] block.  The closure of a body that
    threw has no continuation left, and the closure of a body whose promise
    stays pending never resumes. *)
Definition settleStep (w : World) (step : WorkflowStep) (st : State) : State :=
  match run step with
  | Returns (Fulfilled v) => deleteRunning (id step) (succeedStep w step v st)
  | Returns (Rejected m) => deleteRunning (id step) (failStep w step m st)
  | Returns (RejectedNullish _) => deleteRunning (id step) st
  | Returns NeverSettles | Throws _ | ThrowsNullish _ => st
  end.

Definition settleId (w : World) (st : State) (k : string) : State :=
  match runningPromises st !! k with
  | Some step => settleStep w step st
  | None => st
  end.

(** The promise stored for a step is pending while its closure is suspended
    at the [await]; the closure of a body that threw has run to its end, and
    its promise is settled when it is stored. *)
Definition returnsPromise (b : Body) : bool :=
  match b with
  | Returns _ => true
  | Throws _ | ThrowsNullish _ => false
  end.

(** The promise returned by the body settles. *)
Definition promiseSettles (b : Body) : bool :=
  match b with
  | Returns NeverSettles => false
  | Returns _ => true
  | Throws _ | ThrowsNullish _ => false
  end.

(** The promise returned by the body settles with something the closure can
    record: it is fulfilled, or rejected with a value other than [null] and
    [undefined]. *)
Definition settles (b : Body) : bool :=
  match b with
  | Returns (Fulfilled _) | Returns (Rejected _) => true
  | _ => false
  end.

(** The stored promises that are pending and will settle. *)
Definition inFlight (st : State) : list (string * WorkflowStep) :=
  filter (λ kv, promiseSettles (run kv.2)) (map_to_list (runningPromises st)).

(** The stored promises that are settled already, in the order of the map. *)
Definition alreadySettled (st : State) : list WorkflowStep :=
  omap (λ k, runningPromises st !! k ≫=
             λ step, if returnsPromise (run step) then None else Some step)
       (keyOrder st).

(** A stored promise that never settles. *)
Definition staysPending (st : State) : bool :=
  existsb (λ kv : string * WorkflowStep,
             match run kv.2 with Returns NeverSettles => true | _ => false end)
          (map_to_list (runningPromises st)).

(** How [Promise.race(runningPromises.values())] settles.  Among promises
    that are settled when the race is called the first one in the order of
    the map decides; otherwise the first promise to settle does.  The
    promise of a closure is rejected when its [catch] block threw. *)
Inductive RaceEnd := Resolves | Rejects (v : Nullish) | Never.

Definition raceEnd (w : World) (tick : nat) (st : State) : RaceEnd :=
  match alreadySettled st with
  | step :: _ =>
      match run step with
      | ThrowsNullish v => Rejects v
      | _ => Resolves
      end
  | [] =>
      let entries := inFlight st in
      match entries !! (raceWinner w tick `mod` length entries) with
      | Some (_, step) =>
          match run step with
          | Returns (RejectedNullish v) => Rejects v
          | _ => Resolves
          end
      | None => Never
      end
  end.

(** [await Promise.race(runningPromises.values())], when the race resolves:
    the state in which the loop resumes.  When every stored promise is
    pending, the winner, and possibly further bodies, have run their
    continuation by then; when a stored promise is already settled the race
    is decided at once, and only bodies that settle in the meantime run
    theirs. *)
Definition awaitRace (w : World) (tick : nat) (st : State) : State :=
  match alreadySettled st with
  | _ :: _ => foldl (settleId w) st (raceAlso w tick)
  | [] =>
      let entries := inFlight st in
      match entries !! (raceWinner w tick `mod` length entries) with
      | Some (_, step) => foldl (settleId w) (settleStep w step st) (raceAlso w tick)
      | None => st
      end
  end.

(** [await Promise.allSettled(runningPromises.values())], when every stored
    promise settles: the continuations run in an order chosen by the
    environment. *)
Fixpoint awaitAllSettled (fuel : nat) (w : World) (tick : nat) (st : State) : State :=
  match fuel with
  | O => st
  | S fuel' =>
      let entries := inFlight st in
      match entries !! (raceWinner w tick `mod` length entries) with
      | Some (_, step) => awaitAllSettled fuel' w (S tick) (settleStep w step st)
      | None => st
      end
  end.

Definition deadlockStep (w : World) (st : State) (step : WorkflowStep) : State :=
  emitProgress w step error "Deadlock detected" None
    (pushResult (mkResult step error 0 (Some "Deadlock: dependencies never met"))
      (setStatus (id step) error st)).

Definition cancelRequested (w : World) (tick : nat) : bool :=
  match shouldCancel w with
  | Some f => f tick
  | None => false
  end.

(** The cancellation branch of the loop: pending steps are marked, the set is
    cleared, and in-flight bodies are awaited. *)
Definition cancelBranch (w : World) (tick : nat) (st : State) : State :=
  let st1 := clearPending (foldl (cancelStep w) st (pendingSteps st)) in
  if bool_decide (0 < size (runningPromises st1))
  then awaitAllSettled (size (runningPromises st1)) w tick st1
  else st1.

(** "Find steps ready to run", then "launch ready steps". *)
Definition launchReady (w : World) (st : State) : State :=
  foldl (launchStep w) (findReady w st).1 (findReady w st).2.

(** The [while] loop.  [fuel] bounds the number of iterations; [None] means
    that the loop has not left within the bound, or that it waits on a
    promise that never settles.  The loop leaves by returning, or by the
    exception of the [await] on a race that rejects. *)
Fixpoint loop (fuel : nat) (w : World) (tick : nat) (st : State)
    : option (Completion State) :=
  match fuel with
  | O => None
  | S fuel' =>
      if bool_decide (length (pendingSteps st) = 0 ∧ size (runningPromises st) = 0)
      then Some (Returned st)
      else if cancelRequested w tick then
        if staysPending st then None else Some (Returned (cancelBranch w tick st))
      else
        let st2 := launchReady w st in
        if bool_decide (size (runningPromises st2) = 0 ∧ 0 < length (pendingSteps st2))
        then Some (Returned (foldl (deadlockStep w) st2 (pendingSteps st2)))
        else if bool_decide (size (runningPromises st2) = 0 ∧ length (pendingSteps st2) = 0)
        then Some (Returned st2)
        else if bool_decide (0 < size (runningPromises st2))
        then
          match raceEnd w tick st2 with
          | Resolves => loop fuel' w (S tick) (awaitRace w tick st2)
          | Rejects v => Some (Crashed (typeErrorMessage v))
          | Never => None
          end
        else loop fuel' w (S tick) st2
  end.

(** [runWorkflow]; [fuel] bounds the number of loop iterations. *)
Definition runWorkflowState (fuel : nat) (steps : list WorkflowStep) (w : World)
    : option (Completion State) :=
  loop fuel w 0 (foldl (initStep w) (initState steps) steps).

Definition runWorkflow (fuel : nat) (steps : list WorkflowStep) (w : World)
    : option (Completion (list WorkflowRunResult)) :=
  mapReturned results <$> runWorkflowState fuel steps w.

(** More fuel does not change the outcome of a run that has ended. *)
Lemma loop_more_fuel (w : World) fuel fuel' tick st c :
  fuel ≤ fuel' → loop fuel w tick st = Some c → loop fuel' w tick st = Some c.
Proof.
  revert fuel' tick st. induction fuel as [|fuel IH]; intros fuel' tick st Hle H; [done|].
  destruct fuel' as [|fuel']; [lia|]. revert H. cbn [loop].
  destruct (bool_decide _); [done|]. destruct (cancelRequested w tick); [done|].
  cbv zeta. destruct (bool_decide _); [done|]. destruct (bool_decide _); [done|].
  destruct (bool_decide _); [destruct (raceEnd w tick _); [|done|done]|];
    apply IH; lia.
Qed.

Lemma runWorkflow_more_fuel (w : World) steps fuel fuel' c :
  fuel ≤ fuel' → runWorkflow fuel steps w = Some c → runWorkflow fuel' steps w = Some c.
Proof.
  unfold runWorkflow, runWorkflowState. intros Hle H.
  destruct (loop fuel w 0 _) as [c'|] eqn:E; [|done].
  by rewrite (loop_more_fuel w fuel fuel' _ _ _ Hle E).
Qed.

(** *** Invariants of the scheduler state *)

(** A step has started once a [running] event was emitted for it. *)
Definition started (ev : list WorkflowProgressEvent) (k : string) : Prop :=
  ∃ e, e ∈ ev ∧ ev_stepId e = k ∧ ev_status e = running.

Definition terminal (s : WorkflowRunStatus) : Prop :=
  s = success ∨ s = error ∨ s = skipped.

Definition deadlockReason : string := "Deadlock: dependencies never met".

(** The result of a step whose body was never invoked. *)
Definition unrun (r : WorkflowRunResult) : Prop :=
  status r = skipped ∨ (status r = error ∧ r_error r = Some deadlockReason).

Definition depsSuccess (sb : gmap string WorkflowRunStatus) (s : WorkflowStep) : Prop :=
  ∀ d, d ∈ default [] (dependsOn s) → sb !! d = Some success.

(** Dependency [d] has a [success] result recorded before position [i]. *)
Definition succeededBefore (rs : list WorkflowRunResult) (i : nat) (d : string) : Prop :=
  ∃ j r, j < i ∧ rs !! j = Some r ∧ stepId r = d ∧ status r = success.

(** [InvP S P st]: the enabled steps of [S] have bodies that return a promise
    which settles, fulfilled or rejected with a value other than [null] and
    [undefined]; the steps [S] are split between the results, the pending steps [P] and
    the in-flight map, and the status map agrees with that split. *)
Record InvP (S P : list WorkflowStep) (st : State) : Prop := {
  inv_nodup : NoDup (id <$> S);
  inv_perm :
    (stepId <$> results st) ++ (id <$> P) ++ (map_to_list (runningPromises st)).*1
      ≡ₚ id <$> S;
  inv_async : ∀ s, s ∈ S → enabled s = true → settles (run s) = true;
  inv_pending : ∀ s, s ∈ P →
    s ∈ S ∧ statusById st !! id s = Some pending ∧ ¬ started (progress st) (id s) ∧
    enabled s = true;
  inv_running : ∀ k s, runningPromises st !! k = Some s →
    k = id s ∧ s ∈ S ∧ statusById st !! k = Some running ∧ started (progress st) k ∧
    settles (run s) = true;
  inv_results : ∀ r, r ∈ results st →
    statusById st !! stepId r = Some (status r) ∧ terminal (status r) ∧
    (started (progress st) (stepId r) ∨ unrun r);
  inv_started : ∀ s, s ∈ S → started (progress st) (id s) →
    depsSuccess (statusById st) s;
  inv_unknown : ∀ k, k ∉ id <$> S → statusById st !! k = None;
  inv_known : ∀ k, started (progress st) k → k ∈ id <$> S;
  inv_order : ∀ i r s, results st !! i = Some r → started (progress st) (stepId r) →
    s ∈ S → id s = stepId r →
    ∀ d, d ∈ default [] (dependsOn s) → succeededBefore (results st) i d
}.

Definition Inv (S : list WorkflowStep) (st : State) : Prop :=
  InvP S (pendingSteps st) st.

Lemma settles_returns b : settles b = true → returnsPromise b = true.
Proof. by destruct b as [?|?|[]]. Qed.

Lemma settles_promise b : settles b = true → promiseSettles b = true.
Proof. by destruct b as [?|?|[]]. Qed.

Lemma filter_all {A} (Q : A → Prop) `{∀ x, Decision (Q x)} (l : list A) :
  (∀ x, x ∈ l → Q x) → filter Q l = l.
Proof.
  induction l as [|a l IH]; intros HQ; [done|].
  rewrite filter_cons_True by (apply HQ; left).
  f_equal. apply IH. intros x Hx. apply HQ. by right.
Qed.

Lemma filter_id_other (P : list WorkflowStep) (s : WorkflowStep) :
  id s ∉ id <$> P → filter (λ x, id x ≠ id s) P = P.
Proof.
  intros Hn. apply filter_all. intros x Hx Heq. apply Hn.
  rewrite <- Heq. by apply list_elem_of_fmap_2.
Qed.

Lemma filter_id_perm (P : list WorkflowStep) (s : WorkflowStep) :
  NoDup (id <$> P) → s ∈ P →
  id <$> P ≡ₚ id s :: (id <$> filter (λ x, id x ≠ id s) P).
Proof.
  induction P as [|a P IH]; intros Hnd Hin; [by apply elem_of_nil in Hin|].
  rewrite fmap_cons in Hnd. apply NoDup_cons in Hnd as [Ha Hnd].
  apply elem_of_cons in Hin as [->|Hin].
  - rewrite filter_cons_False by (intros Hne; by apply Hne).
    by rewrite filter_id_other.
  - assert (id a ≠ id s) as Hne.
    { intros Heq. apply Ha. rewrite Heq. by apply list_elem_of_fmap_2. }
    rewrite filter_cons_True by done.
    rewrite !fmap_cons, (IH Hnd Hin) at 1. apply Permutation_swap.
Qed.

Lemma started_snoc ev e k :
  started (ev ++ [e]) k ↔ started ev k ∨ (ev_stepId e = k ∧ ev_status e = running).
Proof.
  unfold started. split.
  - intros (e' & Hin & Hk & Hs). apply elem_of_app in Hin as [Hin|Hin].
    + left. eauto.
    + apply list_elem_of_singleton in Hin as ->. by right.
  - intros [(e' & Hin & Hk & Hs)|[Hk Hs]].
    + exists e'. split; [apply elem_of_app; by left|done].
    + exists e. split; [apply elem_of_app; right; by apply list_elem_of_singleton|done].
Qed.

Section Invariant.
Context (w : World) (S : list WorkflowStep).

Lemma inv_nodup_all P st :
    InvP S P st →
    NoDup ((stepId <$> results st) ++ (id <$> P) ++
           (map_to_list (runningPromises st)).*1).
Proof. intros H. rewrite (inv_perm _ _ _ H). apply (inv_nodup _ _ _ H). Qed.

Lemma inv_pending_not_result P st s r :
    InvP S P st → s ∈ P → r ∈ results st → stepId r ≠ id s.
Proof.
    intros H Hs Hr Heq. pose proof (inv_nodup_all _ _ H) as Hnd.
    apply NoDup_app in Hnd as (_ & Hd & _).
    apply (Hd (stepId r)); [by apply list_elem_of_fmap_2|].
    apply elem_of_app. left. rewrite Heq. by apply list_elem_of_fmap_2.
Qed.

Lemma inv_pending_not_running P st s :
    InvP S P st → s ∈ P → runningPromises st !! id s = None.
Proof.
    intros H Hs. destruct (runningPromises st !! id s) as [s'|] eqn:E; [|done].
    exfalso. pose proof (inv_nodup_all _ _ H) as Hnd.
    apply NoDup_app in Hnd as (_ & _ & Hnd).
    apply NoDup_app in Hnd as (_ & Hd & _).
    apply (Hd (id s)); [by apply list_elem_of_fmap_2|].
    apply (list_elem_of_fmap_2' fst _ (id s, s')); [|done].
    by apply elem_of_map_to_list.
Qed.

Lemma inv_running_not_result P st k s r :
    InvP S P st → runningPromises st !! k = Some s → r ∈ results st → stepId r ≠ k.
Proof.
    intros H Hk Hr Heq. pose proof (inv_nodup_all _ _ H) as Hnd.
    apply NoDup_app in Hnd as (_ & Hd & _).
    apply (Hd (stepId r)); [by apply list_elem_of_fmap_2|].
    apply elem_of_app. right.
    apply (list_elem_of_fmap_2' fst _ (k, s)); [|done].
    by apply elem_of_map_to_list.
Qed.

Lemma inv_pending_nodup P st : InvP S P st → NoDup (id <$> P).
Proof.
    intros H. pose proof (inv_nodup_all _ _ H) as Hnd.
    apply NoDup_app in Hnd as (_ & _ & Hnd).
    by apply NoDup_app in Hnd as (Hnd & _ & _).
Qed.

Lemma InvP_perm P P' st : P ≡ₚ P' → InvP S P st → InvP S P' st.
Proof.
    intros HP [H1 H2 H0 H3 H4 H5 H6 H7 H8 H9]. constructor; try done.
    - by rewrite <- HP.
    - intros s Hs. apply H3. by rewrite HP.
Qed.

Lemma InvP_pending_irrel P st st' :
    results st' = results st → statusById st' = statusById st →
    runningPromises st' = runningPromises st → progress st' = progress st →
    InvP S P st → InvP S P st'.
Proof.
    intros E1 E2 E3 E4 [H1 H2 H0 H3 H4 H5 H6 H7 H8 H9].
    constructor; rewrite ?E1, ?E2, ?E3, ?E4; done.
Qed.

Lemma succeededBefore_app rs rs' i d :
    succeededBefore rs i d → succeededBefore (rs ++ rs') i d.
Proof.
    intros (j & r & Hj & Hr & Hd & Hs). exists j, r.
    split_and!; [done|by apply lookup_app_l_Some|done|done].
Qed.

Lemma status_success_in_results P st d :
    InvP S P st → statusById st !! d = Some success →
    ∃ j r, results st !! j = Some r ∧ stepId r = d ∧ status r = success.
Proof.
    intros H Hd.
    assert (d ∈ id <$> S) as Hin.
    { destruct (decide (d ∈ id <$> S)) as [|Hn]; [done|].
      rewrite (inv_unknown _ _ _ H _ Hn) in Hd. done. }
    rewrite <- (inv_perm _ _ _ H) in Hin.
    apply elem_of_app in Hin as [Hin|Hin]; [|apply elem_of_app in Hin as [Hin|Hin]].
    - apply list_elem_of_fmap_1 in Hin as (r & -> & Hr).
      destruct (inv_results _ _ _ H r Hr) as (Hs & _).
      apply list_elem_of_lookup in Hr as [j Hj]. exists j, r. split_and!; congruence.
    - apply list_elem_of_fmap_1 in Hin as (s & -> & Hs).
      destruct (inv_pending _ _ _ H s Hs) as (_ & Hp & _). congruence.
    - apply list_elem_of_fmap_1 in Hin as ([k s] & -> & Hs).
      apply elem_of_map_to_list in Hs.
      destruct (inv_running _ _ _ H _ _ Hs) as (_ & _ & Hp & _). simpl in Hd. congruence.
Qed.

  (** A pending step leaves without having run: skipped or deadlocked. *)
Lemma retire_inv P st s stt e msg cnt :
    InvP S P st → s ∈ P →
    stt = skipped ∨ (stt = error ∧ e = Some deadlockReason) →
    InvP S (filter (λ x, id x ≠ id s) P)
      (emitProgress w s stt msg cnt
        (pushResult (mkResult s stt 0 e) (setStatus (id s) stt st))).
Proof.
    intros H Hs Hstt.
    assert (stt ≠ running) as Hnr by (destruct Hstt as [->|[-> _]]; done).
    assert (stt ≠ success) as Hns by (destruct Hstt as [->|[-> _]]; done).
    destruct (inv_pending _ _ _ H s Hs) as (HsS & Hsp & Hsn & _).
    constructor; simpl.
    - apply (inv_nodup _ _ _ H).
    - rewrite <- (inv_perm _ _ _ H), fmap_app. simpl.
      rewrite (filter_id_perm P s (inv_pending_nodup _ _ H) Hs).
      rewrite <- !app_assoc. simpl. by rewrite Permutation_middle.
    - apply (inv_async _ _ _ H).
    - intros s' Hs'. apply list_elem_of_filter in Hs' as [Hne Hs'].
      destruct (inv_pending _ _ _ H s' Hs') as (? & ? & Hn & ?).
      split_and!; [done|by rewrite lookup_insert_ne| |done].
      rewrite started_snoc. simpl. intros [?|[_ ?]]; [by apply Hn|done].
    - intros k s' Hk. destruct (inv_running _ _ _ H k s' Hk) as (? & ? & ? & ? & ?).
      assert (k ≠ id s) as Hne.
      { intros ->. rewrite (inv_pending_not_running _ _ _ H Hs) in Hk. done. }
      split_and!; [done|done|by rewrite lookup_insert_ne| |done].
      rewrite started_snoc. by left.
    - intros r Hr. apply elem_of_app in Hr as [Hr|Hr].
      + destruct (inv_results _ _ _ H r Hr) as (? & ? & Hsr).
        pose proof (inv_pending_not_result _ _ _ _ H Hs Hr).
        split_and!; [by rewrite lookup_insert_ne|done|].
        destruct Hsr; [left; rewrite started_snoc; by left|by right].
      + apply list_elem_of_singleton in Hr as ->. simpl.
        split_and!; [by rewrite lookup_insert_eq| |right].
        * destruct Hstt as [->|[-> _]]; unfold terminal; auto.
        * unfold unrun. simpl. destruct Hstt as [->|[-> ->]]; auto.
    - intros s' Hs' Hst d Hd. apply started_snoc in Hst as [Hst|[_ ?]]; [|done].
      pose proof (inv_started _ _ _ H s' Hs' Hst d Hd) as Hdd.
      rewrite lookup_insert_ne; [done|]. intros <-. congruence.
    - intros k Hk. rewrite lookup_insert_ne; [by apply (inv_unknown _ _ _ H)|].
      intros <-. apply Hk. by apply list_elem_of_fmap_2.
    - intros k Hst. apply started_snoc in Hst as [Hst|[_ ?]]; [|done].
      by apply (inv_known _ _ _ H).
    - intros i r s' Hi Hst Hs' Hid d Hd.
      apply started_snoc in Hst as [Hst|[_ ?]]; [|done].
      apply lookup_app_Some in Hi as [Hi|[_ Hi]].
      + apply succeededBefore_app. by eapply (inv_order _ _ _ H).
      + apply list_lookup_singleton_Some in Hi as [_ <-]. simpl in Hst. done.
Qed.

  (** Launching a step whose body returns a promise leaves it in flight. *)
Lemma launchStep_async st s :
    returnsPromise (run s) = true →
    launchStep w st s =
      setRunning (id s) s
        (emitProgress w s running "Starting" None
          (setStatus (id s) running (deletePending s st))).
Proof. unfold launchStep. by destruct (run s). Qed.

Lemma launchStep_pending st s :
    pendingSteps (launchStep w st s) = filter (λ x, id x ≠ id s) (pendingSteps st).
Proof. unfold launchStep. by destruct (run s). Qed.

  (** A ready step is launched. *)
Lemma launch_inv P st s :
    InvP S P st → s ∈ P → depsSuccess (statusById st) s →
    InvP S (filter (λ x, id x ≠ id s) P) (launchStep w st s).
Proof.
    intros H Hs Hdeps.
    destruct (inv_pending _ _ _ H s Hs) as (HsS & Hsp & Hsn & Hen).
    pose proof (inv_pending_not_running _ _ _ H Hs) as Hnone.
    pose proof (inv_async _ _ _ H s HsS Hen) as Hasync.
    unfold launchStep. destruct (run s) as [?|?|promise] eqn:Hrun; [done|done|].
    constructor; simpl.
    - apply (inv_nodup _ _ _ H).
    - rewrite <- (inv_perm _ _ _ H).
      rewrite (filter_id_perm P s (inv_pending_nodup _ _ H) Hs).
      rewrite (map_to_list_insert _ _ _ Hnone). simpl.
      apply Permutation_app_head. symmetry. apply Permutation_middle.
    - apply (inv_async _ _ _ H).
    - intros s' Hs'. apply list_elem_of_filter in Hs' as [Hne Hs'].
      destruct (inv_pending _ _ _ H s' Hs') as (? & ? & Hn & ?).
      split_and!; [done|by rewrite lookup_insert_ne| |done].
      rewrite started_snoc. simpl. intros [?|[? _]]; [by apply Hn|congruence].
    - intros k s' Hk. apply lookup_insert_Some in Hk as [[<- <-]|[Hne Hk]].
      + split_and!; [done|done|by rewrite lookup_insert_eq| |by rewrite Hrun].
        rewrite started_snoc. by right.
      + destruct (inv_running _ _ _ H k s' Hk) as (? & ? & ? & ? & ?).
        split_and!; [done|done|by rewrite lookup_insert_ne| |done].
        rewrite started_snoc. by left.
    - intros r Hr. destruct (inv_results _ _ _ H r Hr) as (? & ? & Hsr).
      pose proof (inv_pending_not_result _ _ _ _ H Hs Hr).
      split_and!; [by rewrite lookup_insert_ne|done|].
      destruct Hsr; [left; rewrite started_snoc; by left|by right].
    - intros s' Hs' Hst d Hd.
      assert (depsSuccess (statusById st) s') as Hds.
      { apply started_snoc in Hst as [Hst|[Hid _]].
        - by apply (inv_started _ _ _ H).
        - simpl in Hid.
          assert (s = s') as <-; [|done].
          pose proof (inv_nodup _ _ _ H) as Hnd.
          apply list_elem_of_lookup in HsS as [i Hi], Hs' as [j Hj].
          assert (i = j) as ->; [|congruence].
          eapply NoDup_lookup; [exact Hnd| |];
            rewrite list_lookup_fmap; [by rewrite Hi|by rewrite Hj, Hid]. }
      rewrite lookup_insert_ne; [by apply Hds|].
      intros <-. specialize (Hds _ Hd). congruence.
    - intros k Hk. rewrite lookup_insert_ne; [by apply (inv_unknown _ _ _ H)|].
      intros <-. apply Hk. by apply list_elem_of_fmap_2.
    - intros k Hst. apply started_snoc in Hst as [Hst|[<- _]].
      + by apply (inv_known _ _ _ H).
      + simpl. by apply list_elem_of_fmap_2.
    - intros i r s' Hi Hst Hs' Hid d Hd.
      apply started_snoc in Hst as [Hst|[Hst _]].
      + by eapply (inv_order _ _ _ H).
      + simpl in Hst. apply list_elem_of_lookup_2 in Hi.
        by destruct (inv_pending_not_result _ _ _ _ H Hs Hi).
Qed.

  (** An in-flight body settles. *)
Lemma finish_inv P st s X d e msg cnt :
    InvP S P st → runningPromises st !! id s = Some s →
    X = success ∨ X = error →
    InvP S P
      (deleteRunning (id s)
        (emitProgress w s X msg cnt
          (pushResult (mkResult s X d e) (setStatus (id s) X st)))).
Proof.
    intros H Hk HX.
    assert (X ≠ running) as Hnr by (destruct HX as [->| ->]; done).
    destruct (inv_running _ _ _ H _ _ Hk) as (_ & HsS & Hsr & Hst & _).
    constructor; simpl.
    - apply (inv_nodup _ _ _ H).
    - rewrite <- (inv_perm _ _ _ H), fmap_app. simpl.
      rewrite <- (map_to_list_delete _ _ _ Hk). simpl.
      rewrite <- !app_assoc. simpl.
      apply Permutation_app_head. by rewrite Permutation_middle.
    - apply (inv_async _ _ _ H).
    - intros s' Hs'. destruct (inv_pending _ _ _ H s' Hs') as (? & ? & Hn & ?).
      assert (id s' ≠ id s) as Hne.
      { intros Heq. rewrite <- Heq in Hk.
        rewrite (inv_pending_not_running _ _ _ H Hs') in Hk. done. }
      split_and!; [done|by rewrite lookup_insert_ne| |done].
      rewrite started_snoc. simpl. intros [?|[_ ?]]; [by apply Hn|done].
    - intros k s' Hk'. apply lookup_delete_Some in Hk' as [Hne Hk'].
      destruct (inv_running _ _ _ H k s' Hk') as (? & ? & ? & ? & ?).
      split_and!; [done|done|by rewrite lookup_insert_ne| |done].
      rewrite started_snoc. by left.
    - intros r Hr. apply elem_of_app in Hr as [Hr|Hr].
      + destruct (inv_results _ _ _ H r Hr) as (? & ? & Hsr').
        pose proof (inv_running_not_result _ _ _ _ _ H Hk Hr).
        split_and!; [by rewrite lookup_insert_ne|done|].
        destruct Hsr'; [left; rewrite started_snoc; by left|by right].
      + apply list_elem_of_singleton in Hr as ->. simpl.
        split_and!; [by rewrite lookup_insert_eq| |left].
        * destruct HX as [->| ->]; unfold terminal; auto.
        * rewrite started_snoc. by left.
    - intros s' Hs' Hst' dd Hd. apply started_snoc in Hst' as [Hst'|[_ ?]]; [|done].
      pose proof (inv_started _ _ _ H s' Hs' Hst' dd Hd) as Hdd.
      rewrite lookup_insert_ne; [done|]. intros <-. congruence.
    - intros k Hk'. rewrite lookup_insert_ne; [by apply (inv_unknown _ _ _ H)|].
      intros <-. apply Hk'. by apply list_elem_of_fmap_2.
    - intros k Hst'. apply started_snoc in Hst' as [Hst'|[_ ?]]; [|done].
      by apply (inv_known _ _ _ H).
    - intros i r s' Hi Hst' Hs' Hid dd Hd.
      apply started_snoc in Hst' as [Hst'|[_ ?]]; [|done].
      apply lookup_app_Some in Hi as [Hi|[Hlen Hi]].
      + apply succeededBefore_app. by eapply (inv_order _ _ _ H).
      + apply list_lookup_singleton_Some in Hi as [Hi0 <-]. simpl in Hid.
        pose proof (inv_started _ _ _ H s' Hs') as Hds. rewrite Hid in Hds.
        specialize (Hds Hst dd Hd).
        destruct (status_success_in_results _ _ _ H Hds) as (j & r' & Hj & Hr1 & Hr2).
        exists j, r'. split_and!; [|by apply lookup_app_l_Some|done|done].
        apply lookup_lt_Some in Hj. lia.
Qed.

Lemma settle_inv P st k s :
    InvP S P st → runningPromises st !! k = Some s →
    InvP S P (settleStep w s st).
Proof.
    intros H Hk. destruct (inv_running _ _ _ H _ _ Hk) as (-> & _ & _ & _ & Hr).
    unfold settleStep, succeedStep, failStep.
    destruct (run s) as [?|?|[v|m|?|]]; try done; apply finish_inv; auto.
Qed.

Lemma settle_results st s :
    settles (run s) = true →
    ∃ r, results (settleStep w s st) = results st ++ [r] ∧ stepId r = id s.
Proof.
    unfold settleStep. destruct (run s) as [?|?|[v|m|?|]]; try done; simpl; eauto.
Qed.

End Invariant.

(** *** The initial pass over the steps *)

Lemma add_pending_inv pre P st s :
  InvP pre P st → id s ∉ id <$> pre →
  enabled s = true → settles (run s) = true →
  InvP (pre ++ [s]) (P ++ [s]) (setStatus (id s) pending st).
Proof.
  intros H Hfresh Hen Hasync.
  assert (∀ k, k ∈ id <$> pre → k ≠ id s) as Hne by (intros k Hk ->; done).
  assert (∀ x, x ∈ pre → x ∈ pre ++ [s]) as Hin
    by (intros x Hx; apply elem_of_app; by left).
  pose proof (inv_unknown _ _ _ H _ Hfresh) as Hnone.
  constructor; simpl.
  - rewrite fmap_app. apply NoDup_app. split_and!.
    + apply (inv_nodup _ _ _ H).
    + intros x Hx Hx'. apply list_elem_of_singleton in Hx'. by apply (Hne x).
    + apply NoDup_singleton.
  - rewrite !fmap_app. simpl. rewrite <- (inv_perm _ _ _ H).
    rewrite <- !app_assoc. apply Permutation_app_head, Permutation_app_head.
    simpl. by rewrite <- Permutation_middle, app_nil_r.
  - intros s' Hs'. apply elem_of_app in Hs' as [Hs'|Hs'].
    + by apply (inv_async _ _ _ H).
    + by apply list_elem_of_singleton in Hs' as ->.
  - intros s' Hs'. apply elem_of_app in Hs' as [Hs'|Hs'].
    + destruct (inv_pending _ _ _ H s' Hs') as (? & ? & ? & ?).
      split_and!; [auto| |done|done].
      rewrite lookup_insert_ne; [done|]. apply not_eq_sym, Hne.
      by apply list_elem_of_fmap_2.
    + apply list_elem_of_singleton in Hs' as ->.
      split_and!; [apply elem_of_app; right; by apply list_elem_of_singleton
                  |by rewrite lookup_insert_eq| |done].
      intros Hst. by apply Hfresh, (inv_known _ _ _ H).
  - intros k s' Hk. destruct (inv_running _ _ _ H k s' Hk) as (-> & ? & ? & ? & ?).
    split_and!; [done|auto| |done|done].
    rewrite lookup_insert_ne; [done|]. apply not_eq_sym, Hne.
    by apply list_elem_of_fmap_2.
  - intros r Hr. destruct (inv_results _ _ _ H r Hr) as (? & ? & ?).
    split_and!; [|done|done].
    rewrite lookup_insert_ne; [done|]. apply not_eq_sym, Hne.
    rewrite <- (inv_perm _ _ _ H). apply elem_of_app. left.
    by apply list_elem_of_fmap_2.
  - intros s' Hs' Hst d Hd.
    pose proof (inv_known _ _ _ H _ Hst) as Hk.
    apply elem_of_app in Hs' as [Hs'|Hs'].
    + pose proof (inv_started _ _ _ H s' Hs' Hst d Hd) as Hdd.
      rewrite lookup_insert_ne; [done|]. intros <-. congruence.
    + apply list_elem_of_singleton in Hs' as ->. done.
  - intros k Hk. rewrite fmap_app in Hk. rewrite lookup_insert_ne.
    + apply (inv_unknown _ _ _ H). intros Hk'. apply Hk, elem_of_app. by left.
    + intros <-. apply Hk, elem_of_app. right. by apply list_elem_of_singleton.
  - intros k Hst. rewrite fmap_app. apply elem_of_app. left.
    by apply (inv_known _ _ _ H).
  - intros i r s' Hi Hst Hs' Hid d Hd.
    apply elem_of_app in Hs' as [Hs'|Hs']; [by eapply (inv_order _ _ _ H)|].
    apply list_elem_of_singleton in Hs' as ->.
    apply (inv_known _ _ _ H) in Hst. rewrite <- Hid in Hst. done.
Qed.

(** A disabled step is recorded as skipped at once; its body is never looked
    at, so nothing is asked of it. *)
Lemma add_skipped_inv (w : World) pre P st s :
  InvP pre P st → id s ∉ id <$> pre → enabled s = false →
  InvP (pre ++ [s]) P
    (emitProgress w s skipped "Step disabled, skipping" None
      (pushResult (mkResult s skipped 0 None) (setStatus (id s) skipped st))).
Proof.
  intros H Hfresh Hen.
  assert (∀ k, k ∈ id <$> pre → k ≠ id s) as Hne by (intros k Hk ->; done).
  assert (∀ x, x ∈ pre → x ∈ pre ++ [s]) as Hin
    by (intros x Hx; apply elem_of_app; by left).
  pose proof (inv_unknown _ _ _ H _ Hfresh) as Hnone.
  assert (¬ started (progress st) (id s)) as Hns
    by (intros Hst; by apply Hfresh, (inv_known _ _ _ H)).
  constructor; simpl.
  - rewrite fmap_app. apply NoDup_app. split_and!.
    + apply (inv_nodup _ _ _ H).
    + intros x Hx Hx'. apply list_elem_of_singleton in Hx'. by apply (Hne x).
    + apply NoDup_singleton.
  - rewrite !fmap_app. simpl. rewrite <- (inv_perm _ _ _ H).
    rewrite <- !app_assoc. apply Permutation_app_head. simpl.
    rewrite app_assoc. apply Permutation_cons_append.
  - intros s' Hs'. apply elem_of_app in Hs' as [Hs'|Hs'].
    + by apply (inv_async _ _ _ H).
    + apply list_elem_of_singleton in Hs' as ->. congruence.
  - intros s' Hs'. destruct (inv_pending _ _ _ H s' Hs') as (? & ? & Hn & ?).
    split_and!; [auto| | |done].
    + rewrite lookup_insert_ne; [done|]. apply not_eq_sym, Hne.
      by apply list_elem_of_fmap_2.
    + rewrite started_snoc. simpl. intros [?|[_ ?]]; [by apply Hn|done].
  - intros k s' Hk. destruct (inv_running _ _ _ H k s' Hk) as (-> & ? & ? & ? & ?).
    split_and!; [done|auto| | |done].
    + rewrite lookup_insert_ne; [done|]. apply not_eq_sym, Hne.
      by apply list_elem_of_fmap_2.
    + rewrite started_snoc. by left.
  - intros r Hr. apply elem_of_app in Hr as [Hr|Hr].
    + destruct (inv_results _ _ _ H r Hr) as (? & ? & Hsr).
      split_and!; [|done|].
      * rewrite lookup_insert_ne; [done|]. apply not_eq_sym, Hne.
        rewrite <- (inv_perm _ _ _ H). apply elem_of_app. left.
        by apply list_elem_of_fmap_2.
      * destruct Hsr; [left; rewrite started_snoc; by left|by right].
    + apply list_elem_of_singleton in Hr as ->. simpl.
      split_and!; [by rewrite lookup_insert_eq|unfold terminal; auto|right].
      unfold unrun. simpl. auto.
  - intros s' Hs' Hst d Hd. apply started_snoc in Hst as [Hst|[_ ?]]; [|done].
    pose proof (inv_known _ _ _ H _ Hst) as Hk.
    apply elem_of_app in Hs' as [Hs'|Hs'].
    + pose proof (inv_started _ _ _ H s' Hs' Hst d Hd) as Hdd.
      rewrite lookup_insert_ne; [done|]. intros <-. congruence.
    + apply list_elem_of_singleton in Hs' as ->. done.
  - intros k Hk. rewrite fmap_app in Hk. rewrite lookup_insert_ne.
    + apply (inv_unknown _ _ _ H). intros Hk'. apply Hk, elem_of_app. by left.
    + intros <-. apply Hk, elem_of_app. right. by apply list_elem_of_singleton.
  - intros k Hst. apply started_snoc in Hst as [Hst|[_ ?]]; [|done].
    rewrite fmap_app. apply elem_of_app. left. by apply (inv_known _ _ _ H).
  - intros i r s' Hi Hst Hs' Hid d Hd.
    apply started_snoc in Hst as [Hst|[_ ?]]; [|done].
    apply lookup_app_Some in Hi as [Hi|[_ Hi]].
    + apply succeededBefore_app.
      apply elem_of_app in Hs' as [Hs'|Hs']; [by eapply (inv_order _ _ _ H)|].
      apply list_elem_of_singleton in Hs' as ->.
      apply (inv_known _ _ _ H) in Hst. rewrite <- Hid in Hst. done.
    + apply list_lookup_singleton_Some in Hi as [_ <-]. simpl in Hst. done.
Qed.

Lemma init_inv_gen (w : World) pre suf :
  NoDup (id <$> pre ++ suf) →
  (∀ s, s ∈ pre → enabled s = true → settles (run s) = true) →
  let st := foldl (initStep w) (initState (pre ++ suf)) pre in
  InvP pre (filter (λ s, enabled s) pre) st ∧
  pendingSteps st = filter (λ s, enabled s) pre ++ suf.
Proof.
  revert suf. induction pre as [|s pre IH] using rev_ind; intros suf Hnd Hasync.
  - simpl. split; [|done]. constructor; simpl; try done.
    + apply NoDup_nil_2.
    + intros s Hs. by apply elem_of_nil in Hs.
    + intros r Hr. by apply elem_of_nil in Hr.
    + intros s Hs. by apply elem_of_nil in Hs.
    + intros k (e & He & _). by apply elem_of_nil in He.
  - rewrite <- app_assoc in Hnd |- *. simpl in Hnd |- *.
    assert (∀ x, x ∈ pre → enabled x = true → settles (run x) = true)
      as Hpre by (intros x Hx; apply Hasync, elem_of_app; by left).
    destruct (IH (s :: suf) Hnd Hpre) as [HI HP]. clear IH.
    rewrite foldl_snoc.
    set (st := foldl (initStep w) (initState (pre ++ s :: suf)) pre) in *.
    assert (id s ∉ id <$> pre) as Hfresh.
    { rewrite fmap_app in Hnd. apply NoDup_app in Hnd as (_ & Hd & _).
      intros Hin. apply (Hd _ Hin). rewrite fmap_cons. left. }
    assert (id s ∉ id <$> suf) as Hfresh'.
    { rewrite fmap_app, fmap_cons in Hnd. apply NoDup_app in Hnd as (_ & _ & Hd).
      by apply NoDup_cons in Hd as [? _]. }
    assert (id s ∉ id <$> filter (λ s, enabled s) pre) as HfreshP.
    { intros Hin. apply Hfresh. apply list_elem_of_fmap_1 in Hin as (y & -> & Hy).
      apply list_elem_of_filter in Hy as [_ Hy]. by apply list_elem_of_fmap_2. }
    rewrite filter_app. unfold initStep. destruct (enabled s) eqn:Hen.
    + rewrite filter_cons_True by (by rewrite Hen). split.
      * apply add_pending_inv; [done|done|done|].
        apply Hasync; [|done]. apply elem_of_app. right.
        by apply list_elem_of_singleton.
      * simpl. rewrite HP. by rewrite <- app_assoc.
    + rewrite filter_cons_False by (rewrite Hen; simpl; tauto). rewrite app_nil_r. split.
      * pose proof (add_skipped_inv w _ _ _ s HI Hfresh Hen) as Hret.
        revert Hret. by apply InvP_pending_irrel.
      * simpl. rewrite HP, filter_app, filter_id_other by done.
        rewrite filter_cons_False by (intros Hne; by apply Hne).
        by rewrite filter_id_other.
Qed.

Lemma init_inv (w : World) steps :
  NoDup (id <$> steps) →
  (∀ s, s ∈ steps → enabled s = true → settles (run s) = true) →
  Inv steps (foldl (initStep w) (initState steps) steps).
Proof.
  intros Hnd Hasync. pose proof (init_inv_gen w steps []) as H.
  rewrite !app_nil_r in H. destruct (H Hnd Hasync) as [HI HP].
  unfold Inv. by rewrite HP.
Qed.

(** *** The phases of one loop iteration *)

Lemma depsSuccess_insert sb s k v :
  depsSuccess sb s → sb !! k ≠ Some success → depsSuccess (<[k:=v]> sb) s.
Proof.
  intros H Hk d Hd. rewrite lookup_insert_ne; [by apply H|].
  intros <-. apply Hk. by apply H.
Qed.

Lemma allDepsSuccess_spec sb s :
  allDepsSuccess sb (default [] (dependsOn s)) = true ↔ depsSuccess sb s.
Proof.
  unfold allDepsSuccess, depsSuccess.
  rewrite <- Is_true_true, forallb_True, Forall_forall.
  split; intros H d Hd; specialize (H d Hd).
  - by apply bool_decide_unpack in H.
  - by apply bool_decide_pack.
Qed.

Lemma anyDepFailed_spec sb deps :
  anyDepFailed sb deps = true ↔
  ∃ d, d ∈ deps ∧ (sb !! d = Some error ∨ sb !! d = Some skipped).
Proof.
  unfold anyDepFailed. rewrite <- Is_true_true, existb_True, Exists_exists.
  split; intros (d & Hd & H); exists d; (split; [done|]).
  - destruct (sb !! d) as [[]|]; simpl in H; auto; done.
  - destruct H as [-> | ->]; done.
Qed.

Section Phases.
Context (w : World) (S : list WorkflowStep).

Lemma skipDependent_inv st s :
    Inv S st → s ∈ pendingSteps st → Inv S (skipDependent w st s).
Proof.
    intros HI Hsp. unfold Inv, skipDependent. simpl.
    pose proof (retire_inv w S _ _ s skipped (Some "Dependency failed")
      "Skipped due to dependency failure" None HI Hsp (or_introl eq_refl)) as Hr.
    revert Hr. by apply InvP_pending_irrel.
Qed.

  (** [Q] is any further property kept by skipping a step with a failed
      dependency and by launching a step whose dependencies all succeeded. *)
Section Scan.
Context (Q : State → Prop).
Hypothesis Q_skip : ∀ st s,
      Inv S st → s ∈ pendingSteps st →
      anyDepFailed (statusById st) (default [] (dependsOn s)) = true →
      Q st → Q (skipDependent w st s).
Hypothesis Q_launch : ∀ st s,
      Inv S st → s ∈ pendingSteps st → depsSuccess (statusById st) s →
      Q st → Q (launchStep w st s).

Lemma scan_inv todo st ready :
      Inv S st → Q st →
      (∀ s, s ∈ todo → s ∈ pendingSteps st) → NoDup (id <$> todo) →
      (∀ s, s ∈ ready → s ∈ pendingSteps st ∧ depsSuccess (statusById st) s) →
      NoDup (id <$> ready) → (∀ s, s ∈ ready → id s ∉ id <$> todo) →
      let acc := foldl (scanStep w) (st, ready) todo in
      Inv S acc.1 ∧ Q acc.1 ∧
      (∀ s, s ∈ acc.2 → s ∈ pendingSteps acc.1 ∧ depsSuccess (statusById acc.1) s) ∧
      NoDup (id <$> acc.2) ∧
      length (results st) ≤ length (results acc.1).
Proof.
      revert st ready.
      induction todo as [|s todo IH]; intros st ready HI HQ Htodo Hnd Hready Hndr Hdisj.
      { simpl. split_and!; auto. }
      rewrite fmap_cons in Hnd. apply NoDup_cons in Hnd as [Hs Hnd].
      assert (s ∈ pendingSteps st) as Hsp by (apply Htodo; left).
      destruct (inv_pending _ _ _ HI s Hsp) as (HsS & Hspend & _).
      assert (∀ s', s' ∈ todo → id s' ≠ id s) as Htodo_ne.
      { intros s' Hs' Heq. apply Hs. rewrite <- Heq. by apply list_elem_of_fmap_2. }
      assert (∀ s', s' ∈ ready → id s' ≠ id s) as Hready_ne.
      { intros s' Hs' Heq. apply (Hdisj s' Hs'). rewrite fmap_cons, Heq. left. }
      simpl.
      destruct (anyDepFailed (statusById st) (default [] (dependsOn s))) eqn:Hfail;
        [|destruct (allDepsSuccess (statusById st) (default [] (dependsOn s))) eqn:Hall].
      - assert (scanStep w (st, ready) s = (skipDependent w st s, ready)) as ->
          by (unfold scanStep; simpl; by rewrite Hfail).
        pose proof (skipDependent_inv _ _ HI Hsp) as HI1.
        destruct (IH (skipDependent w st s) ready HI1) as (H1 & H2 & H3 & H4 & H5);
          try done.
        + by apply Q_skip.
        + intros s' Hs'. simpl. apply list_elem_of_filter.
          split; [by apply Htodo_ne|]. apply Htodo. by right.
        + intros s' Hs'. destruct (Hready s' Hs') as [Hp Hd]. simpl. split.
          * apply list_elem_of_filter. split; [by apply Hready_ne|done].
          * apply depsSuccess_insert; [done|]. rewrite Hspend. done.
        + intros s' Hs' Hin. apply (Hdisj s' Hs'). rewrite fmap_cons. by right.
        + split_and!; [done|done|done|done|]. etrans; [|exact H5]. simpl.
          rewrite length_app. lia.
      - assert (scanStep w (st, ready) s = (st, ready ++ [s])) as ->
          by (unfold scanStep; simpl; by rewrite Hfail, Hall).
        apply allDepsSuccess_spec in Hall.
        destruct (IH st (ready ++ [s]) HI) as (H1 & H2 & H3 & H4 & H5); try done.
        + intros s' Hs'. apply Htodo. by right.
        + intros s' Hs'. apply elem_of_app in Hs' as [Hs'|Hs']; [by apply Hready|].
          apply list_elem_of_singleton in Hs' as ->. done.
        + rewrite fmap_app. apply NoDup_app. split_and!; [done| |apply NoDup_singleton].
          intros x Hx Hx'. apply list_elem_of_singleton in Hx' as ->.
          apply list_elem_of_fmap_1 in Hx as (y & Hy & Hyr). by apply (Hready_ne y).
        + intros s' Hs' Hin. apply elem_of_app in Hs' as [Hs'|Hs'].
          * apply (Hdisj s' Hs'). rewrite fmap_cons. by right.
          * apply list_elem_of_singleton in Hs' as ->. done.
      - assert (scanStep w (st, ready) s = (st, ready)) as ->
          by (unfold scanStep; simpl; by rewrite Hfail, Hall).
        destruct (IH st ready HI) as (H1 & H2 & H3 & H4 & H5); try done.
        + intros s' Hs'. apply Htodo. by right.
        + intros s' Hs' Hin. apply (Hdisj s' Hs'). rewrite fmap_cons. by right.
Qed.

Lemma findReady_inv st :
      Inv S st → Q st →
      Inv S (findReady w st).1 ∧ Q (findReady w st).1 ∧
      (∀ s, s ∈ (findReady w st).2 →
         s ∈ pendingSteps (findReady w st).1 ∧
         depsSuccess (statusById (findReady w st).1) s) ∧
      NoDup (id <$> (findReady w st).2) ∧
      length (results st) ≤ length (results (findReady w st).1).
Proof.
      intros HI HQ. unfold findReady. apply scan_inv; try done.
      - apply (inv_pending_nodup _ _ _ HI).
      - intros s Hs. by apply elem_of_nil in Hs.
      - apply NoDup_nil_2.
      - intros s Hs. by apply elem_of_nil in Hs.
Qed.

Lemma launch_all_inv ready st :
      Inv S st → Q st →
      (∀ s, s ∈ ready → s ∈ pendingSteps st ∧ depsSuccess (statusById st) s) →
      NoDup (id <$> ready) →
      Inv S (foldl (launchStep w) st ready) ∧ Q (foldl (launchStep w) st ready) ∧
      results (foldl (launchStep w) st ready) = results st.
Proof.
      revert st. induction ready as [|s ready IH]; intros st HI HQ Hready Hnd; [done|].
      rewrite fmap_cons in Hnd. apply NoDup_cons in Hnd as [Hs Hnd].
      destruct (Hready s) as [Hsp Hsd]; [left|].
      destruct (inv_pending _ _ _ HI s Hsp) as (HsS & Hspend & _ & Hen).
      pose proof (launchStep_async w st s
        (settles_returns _ (inv_async _ _ _ HI s HsS Hen))) as Hl.
      simpl. destruct (IH (launchStep w st s)) as (H1 & H2 & H3); try done.
      - unfold Inv.
        replace (pendingSteps (launchStep w st s))
          with (filter (λ x, id x ≠ id s) (pendingSteps st)) by (by rewrite Hl).
        by apply launch_inv.
      - by apply Q_launch.
      - rewrite Hl. intros s' Hs'. destruct (Hready s') as [Hp Hd]; [by right|]. simpl. split.
        + apply list_elem_of_filter. split; [|done].
          intros Heq. apply Hs. rewrite <- Heq. by apply list_elem_of_fmap_2.
        + apply depsSuccess_insert; [done|]. rewrite Hspend. done.
      - split_and!; [done|done|]. rewrite H3, Hl. done.
Qed.

Lemma launchReady_inv st :
      Inv S st → Q st →
      Inv S (launchReady w st) ∧ Q (launchReady w st) ∧
      length (results st) ≤ length (results (launchReady w st)).
Proof.
      intros HI HQ. destruct (findReady_inv st HI HQ) as (H1 & H2 & H3 & H4 & H5).
      destruct (launch_all_inv _ _ H1 H2 H3 H4) as (H6 & H7 & H8).
      unfold launchReady. split_and!; [done|done|]. by rewrite H8.
Qed.

End Scan.

Lemma settle_pending st s : pendingSteps (settleStep w s st) = pendingSteps st.
Proof. unfold settleStep. by destruct (run s) as [?|?|[?|?|?|]]. Qed.

Lemma settle_running st s :
    promiseSettles (run s) = true →
    runningPromises (settleStep w s st) = delete (id s) (runningPromises st).
Proof. unfold settleStep. by destruct (run s) as [?|?|[?|?|?|]]. Qed.

  (** Under the invariant every stored promise is pending and will
      settle, and the race resolves. *)
Lemma inFlight_all P st :
    InvP S P st → inFlight st = map_to_list (runningPromises st).
Proof.
    intros HI. unfold inFlight. apply filter_all. intros [k s] Hks.
    apply elem_of_map_to_list in Hks.
    destruct (inv_running _ _ _ HI _ _ Hks) as (_ & _ & _ & _ & Hr).
    simpl. by rewrite (settles_promise _ Hr).
Qed.

Lemma alreadySettled_nil P st : InvP S P st → alreadySettled st = [].
Proof.
    intros HI. unfold alreadySettled.
    induction (keyOrder st) as [|k ks IH]; [done|]. cbn [omap list_omap].
    destruct (runningPromises st !! k) as [s|] eqn:E; [|done]. simpl.
    destruct (inv_running _ _ _ HI _ _ E) as (_ & _ & _ & _ & Hr).
    by rewrite (settles_returns _ Hr).
Qed.

Lemma staysPending_false P st : InvP S P st → staysPending st = false.
Proof.
    intros HI. unfold staysPending. apply not_true_is_false. intros H.
    rewrite <- Is_true_true, existb_True, Exists_exists in H.
    destruct H as ([k s] & Hks & H). apply elem_of_map_to_list in Hks.
    destruct (inv_running _ _ _ HI _ _ Hks) as (_ & _ & _ & _ & Hr).
    simpl in H. by destruct (run s) as [?|?|[]].
Qed.

Lemma race_pick_None {A} (m : gmap string A) n :
    map_to_list m !! (n `mod` length (map_to_list m)) = None → m = ∅.
Proof.
    intros H. apply lookup_ge_None_1 in H. apply map_to_list_empty_iff.
    destruct (map_to_list m) as [|a l]; [done|]. exfalso.
    pose proof (Nat.mod_upper_bound n (length (a :: l))) as Hb.
    simpl in *. lia.
Qed.

Lemma race_pick_Some {A} (m : gmap string A) n k x :
    map_to_list m !! (n `mod` length (map_to_list m)) = Some (k, x) → m !! k = Some x.
Proof. intros H. by apply list_elem_of_lookup_2, elem_of_map_to_list in H. Qed.

Lemma settleId_inv P st k :
    InvP S P st →
    InvP S P (settleId w st k) ∧
    length (results st) ≤ length (results (settleId w st k)).
Proof.
    intros HI. unfold settleId.
    destruct (runningPromises st !! k) as [s|] eqn:E; [|done]. split.
    - by eapply settle_inv.
    - destruct (inv_running _ _ _ HI _ _ E) as (_ & _ & _ & _ & Hr).
      destruct (settle_results w st s Hr) as (r & -> & _). rewrite length_app. lia.
Qed.

Lemma settleId_pending st k : pendingSteps (settleId w st k) = pendingSteps st.
Proof.
    unfold settleId. destruct (runningPromises st !! k); [|done].
    apply settle_pending.
Qed.

Lemma settleIds_inv P ks st :
    InvP S P st →
    InvP S P (foldl (settleId w) st ks) ∧
    length (results st) ≤ length (results (foldl (settleId w) st ks)).
Proof.
    revert st. induction ks as [|k ks IH]; intros st HI; [done|].
    simpl. destruct (settleId_inv P st k HI) as [H1 H2].
    destruct (IH _ H1) as [H3 H4]. split; [done|lia].
Qed.

Lemma settleIds_pending ks st :
    pendingSteps (foldl (settleId w) st ks) = pendingSteps st.
Proof.
    revert st. induction ks as [|k ks IH]; intros st; [done|].
    simpl. by rewrite IH, settleId_pending.
Qed.

Lemma awaitRace_inv P tick st :
    InvP S P st →
    InvP S P (awaitRace w tick st) ∧
    (0 < size (runningPromises st) →
     length (results st) < length (results (awaitRace w tick st))).
Proof.
    intros HI. unfold awaitRace.
    rewrite (alreadySettled_nil _ _ HI), (inFlight_all _ _ HI).
    destruct (map_to_list (runningPromises st) !! _) as [[k s]|] eqn:E.
    - apply race_pick_Some in E.
      assert (InvP S P (settleStep w s st)) as HI1 by (by eapply settle_inv).
      destruct (settleIds_inv P (raceAlso w tick) _ HI1) as [H1 H2].
      split; [done|]. intros _.
      destruct (inv_running _ _ _ HI _ _ E) as (_ & _ & _ & _ & Hrp).
      destruct (settle_results w st s Hrp) as (r & Hr & _).
      rewrite Hr, length_app in H2. simpl in H2. lia.
    - apply race_pick_None in E. split; [done|].
      rewrite E, map_size_empty. lia.
Qed.

Lemma awaitRace_pending tick st :
    pendingSteps (awaitRace w tick st) = pendingSteps st.
Proof.
    unfold awaitRace. destruct (alreadySettled st); [|apply settleIds_pending].
    destruct (inFlight st !! _) as [[k s]|]; [|done].
    rewrite settleIds_pending. apply settle_pending.
Qed.

Lemma raceEnd_resolves P tick st :
    InvP S P st → 0 < size (runningPromises st) → raceEnd w tick st = Resolves.
Proof.
    intros HI Hsz. unfold raceEnd.
    rewrite (alreadySettled_nil _ _ HI), (inFlight_all _ _ HI).
    destruct (map_to_list (runningPromises st) !! _) as [[k s]|] eqn:E.
    - apply race_pick_Some in E.
      destruct (inv_running _ _ _ HI _ _ E) as (_ & _ & _ & _ & Hr).
      by destruct (run s) as [?|?|[]].
    - apply race_pick_None in E. rewrite E, map_size_empty in Hsz. lia.
Qed.

Lemma awaitAllSettled_inv P n tick st :
    InvP S P st → size (runningPromises st) ≤ n →
    InvP S P (awaitAllSettled n w tick st) ∧
    runningPromises (awaitAllSettled n w tick st) = ∅.
Proof.
    revert tick st. induction n as [|n IH]; intros tick st HI Hn.
    - simpl. split; [done|]. apply map_size_empty_iff. lia.
    - simpl. rewrite (inFlight_all _ _ HI).
      destruct (map_to_list (runningPromises st) !! _) as [[k s]|] eqn:E.
      + apply race_pick_Some in E.
        destruct (inv_running _ _ _ HI _ _ E) as (-> & _ & _ & _ & Hr).
        apply IH.
        * by eapply settle_inv.
        * rewrite (settle_running st s (settles_promise _ Hr)), map_size_delete, E.
          simpl. lia.
      + apply race_pick_None in E. done.
Qed.

  (** Marking pending steps without running them (cancellation, deadlock). *)
Definition retireWith (stt : WorkflowRunStatus) (e : option string)
      (msg : string) (st : State) (s : WorkflowStep) : State :=
    emitProgress w s stt msg None
      (pushResult (mkResult s stt 0 e) (setStatus (id s) stt st)).

Lemma retire_all_inv stt e msg P st :
    stt = skipped ∨ (stt = error ∧ e = Some deadlockReason) →
    InvP S P st →
    InvP S [] (foldl (retireWith stt e msg) st P) ∧
    runningPromises (foldl (retireWith stt e msg) st P) = runningPromises st ∧
    results (foldl (retireWith stt e msg) st P) =
      results st ++ ((λ s, mkResult s stt 0 e) <$> P).
Proof.
    intros Hstt. revert st. induction P as [|s P IH]; intros st HI.
    { simpl. by rewrite app_nil_r. }
    pose proof (inv_pending_nodup _ _ _ HI) as Hnd.
    rewrite fmap_cons in Hnd. apply NoDup_cons in Hnd as [Hs _].
    assert (s ∈ s :: P) as Hin by left.
    pose proof (retire_inv w S _ _ s stt e msg None HI Hin Hstt) as Hr.
    rewrite filter_cons_False in Hr by (intros Hne; by apply Hne).
    rewrite filter_id_other in Hr by done.
    change (InvP S P (retireWith stt e msg st s)) in Hr.
    rewrite fmap_cons. cbn [foldl].
    destruct (IH _ Hr) as (H1 & H2 & H3).
    split_and!; [done|by rewrite H2|]. rewrite H3. simpl.
    by rewrite <- app_assoc.
Qed.

Lemma inv_count P st :
    InvP S P st →
    length (results st) + length P + size (runningPromises st) = length S.
Proof.
    intros HI. pose proof (inv_perm _ _ _ HI) as Hp.
    apply Permutation_length in Hp.
    rewrite !length_app, !length_fmap, length_map_to_list in Hp. lia.
Qed.

  (** A state in which the loop has left: nothing pending, nothing in flight. *)
Definition Final (st : State) : Prop :=
    InvP S [] st ∧ runningPromises st = ∅.

Lemma cancelBranch_final tick st : Inv S st → Final (cancelBranch w tick st).
Proof.
    intros HI. unfold cancelBranch.
    destruct (retire_all_inv skipped (Some "Cancelled") "Workflow cancelled"
                _ _ (or_introl eq_refl) HI) as (H1 & H2 & _).
    change (foldl (retireWith _ _ _) st (pendingSteps st))
      with (foldl (cancelStep w) st (pendingSteps st)) in *.
    set (st1 := clearPending _).
    assert (InvP S [] st1) as HI1 by (revert H1; by apply InvP_pending_irrel).
    case_bool_decide as Hsz.
    - by apply awaitAllSettled_inv.
    - split; [done|]. apply map_size_empty_iff. lia.
Qed.

Lemma deadlock_final st :
    Inv S st → runningPromises st = ∅ →
    Final (foldl (deadlockStep w) st (pendingSteps st)).
Proof.
    intros HI Hr.
    destruct (retire_all_inv error (Some deadlockReason) "Deadlock detected"
                _ _ (or_intror (conj eq_refl eq_refl)) HI) as (H1 & H2 & _).
    split; [done|]. by rewrite <- Hr.
Qed.

  (** The proof rule of the loop: [I] holds at the top of every iteration,
      [J] after the launch phase, [F] at every exit. *)
Lemma loop_rule2 (I J F : State → Prop) :
    (∀ st, I st → pendingSteps st = [] → runningPromises st = ∅ → F st) →
    (∀ st tick, I st → cancelRequested w tick = true → F (cancelBranch w tick st)) →
    (∀ st, I st → J (launchReady w st)) →
    (∀ st, J st → runningPromises st = ∅ → pendingSteps st ≠ [] →
       F (foldl (deadlockStep w) st (pendingSteps st))) →
    (∀ st, J st → pendingSteps st = [] → runningPromises st = ∅ → F st) →
    (∀ st tick, J st → 0 < size (runningPromises st) → I (awaitRace w tick st)) →
    ∀ fuel tick st st', I st → loop fuel w tick st = Some (Returned st') → F st'.
Proof.
    intros Hexit Hcancel Hlaunch Hdead Hexit2 Hrace.
    induction fuel as [|fuel IH]; intros tick st st' HI Hloop; [done|].
    simpl in Hloop. case_bool_decide as Hb.
    { destruct Hb as [Hp Hr]. injection Hloop as <-.
      apply Hexit; [done|by apply nil_length_inv|by apply map_size_empty_iff]. }
    destruct (cancelRequested w tick) eqn:Hc.
    { destruct (staysPending st); [done|]. injection Hloop as <-. by apply Hcancel. }
    pose proof (Hlaunch _ HI) as HI2.
    case_bool_decide as Hb2.
    { destruct Hb2 as [Hr Hp]. injection Hloop as <-.
      apply Hdead; [done|by apply map_size_empty_iff|].
      intros Hnil. rewrite Hnil in Hp. simpl in Hp. lia. }
    case_bool_decide as Hb3.
    { destruct Hb3 as [Hr Hp]. injection Hloop as <-.
      apply Hexit2; [done|by apply nil_length_inv|by apply map_size_empty_iff]. }
    case_bool_decide as Hb4; [|exfalso; lia].
    destruct (raceEnd w tick _); [|done|done].
    eapply IH; [|exact Hloop]. by apply Hrace.
Qed.

Lemma loop_rule (I F : State → Prop) :
    (∀ st, I st → pendingSteps st = [] → runningPromises st = ∅ → F st) →
    (∀ st tick, I st → cancelRequested w tick = true → F (cancelBranch w tick st)) →
    (∀ st, I st → I (launchReady w st)) →
    (∀ st, I st → runningPromises st = ∅ → pendingSteps st ≠ [] →
       F (foldl (deadlockStep w) st (pendingSteps st))) →
    (∀ st tick, I st → 0 < size (runningPromises st) → I (awaitRace w tick st)) →
    ∀ fuel tick st st', I st → loop fuel w tick st = Some (Returned st') → F st'.
Proof.
    intros Hexit Hcancel Hlaunch Hdead Hrace.
    by apply (loop_rule2 I I F).
Qed.

Lemma loop_total fuel tick st :
    Inv S st → length S - length (results st) < fuel →
    ∃ st', loop fuel w tick st = Some (Returned st').
Proof.
    revert tick st. induction fuel as [|fuel IH]; intros tick st HI Hf; [lia|].
    simpl. case_bool_decide; [by eexists|].
    destruct (cancelRequested w tick);
      [rewrite (staysPending_false _ _ HI); by eexists|].
    destruct (launchReady_inv (λ _, True) (λ _ _ _ _ _ _, I) (λ _ _ _ _ _ _, I) _ HI I)
      as (HI2 & _ & Hle).
    case_bool_decide; [by eexists|]. case_bool_decide; [by eexists|].
    case_bool_decide as Hb4; [|exfalso; lia].
    rewrite (raceEnd_resolves _ tick _ HI2 Hb4).
    destruct (awaitRace_inv _ tick _ HI2) as [HI3 Hlt]. specialize (Hlt Hb4).
    apply IH.
    - unfold Inv. by rewrite awaitRace_pending.
    - pose proof (inv_count _ _ HI3). lia.
Qed.

Lemma loop_final fuel tick st st' :
    Inv S st → loop fuel w tick st = Some (Returned st') → Final st'.
Proof.
    apply (loop_rule (Inv S) Final).
    - intros st0 HI Hp Hr. split; [|done]. unfold Inv in HI. by rewrite Hp in HI.
    - intros st0 tick0 HI _. by apply cancelBranch_final.
    - intros st0 HI.
      by apply (launchReady_inv (λ _, True) (λ _ _ _ _ _ _, I) (λ _ _ _ _ _ _, I)).
    - intros st0 HI Hr _. by apply deadlock_final.
    - intros st0 tick0 HI _. unfold Inv. rewrite awaitRace_pending.
      by apply awaitRace_inv.
Qed.

End Phases.

(** *** Facts about every completed run *)

Section FinalFacts.
Context (steps : list WorkflowStep) (st : State).
Hypothesis HF : Final steps st.

Lemma final_results_perm : stepId <$> results st ≡ₚ id <$> steps.
Proof.
    destruct HF as [HI Hr]. pose proof (inv_perm _ _ _ HI) as Hp.
    rewrite Hr, map_to_list_empty in Hp. simpl in Hp. by rewrite app_nil_r in Hp.
Qed.

Lemma final_results_nodup : NoDup (stepId <$> results st).
Proof. rewrite final_results_perm. apply (inv_nodup _ _ _ (proj1 HF)). Qed.

Lemma final_result_exists s :
    s ∈ steps → ∃ r, r ∈ results st ∧ stepId r = id s.
Proof.
    intros Hs. apply (list_elem_of_fmap_2 id) in Hs.
    rewrite <- final_results_perm in Hs.
    apply list_elem_of_fmap_1 in Hs as (r & Hr & Hin). eauto.
Qed.

Lemma final_result_index_unique i j r r' :
    results st !! i = Some r → results st !! j = Some r' →
    stepId r = stepId r' → i = j.
Proof.
    intros Hi Hj Heq. eapply NoDup_lookup; [exact final_results_nodup| |];
      rewrite list_lookup_fmap; [by rewrite Hi|by rewrite Hj, Heq].
Qed.

Lemma final_result_unique r r' :
    r ∈ results st → r' ∈ results st → stepId r = stepId r' → r = r'.
Proof.
    intros Hr Hr' Heq.
    apply list_elem_of_lookup in Hr as [i Hi], Hr' as [j Hj].
    pose proof (final_result_index_unique _ _ _ _ Hi Hj Heq) as ->. congruence.
Qed.

Lemma final_terminal r : r ∈ results st → terminal (status r).
Proof. intros Hr. by destruct (inv_results _ _ _ (proj1 HF) r Hr) as (_ & ? & _). Qed.

Lemma final_unstarted_unrun r :
    r ∈ results st → ¬ started (progress st) (stepId r) → unrun r.
Proof.
    intros Hr Hn. by destruct (inv_results _ _ _ (proj1 HF) r Hr) as (_ & _ & [?|?]).
Qed.

Lemma final_success_started r :
    r ∈ results st → status r = success → started (progress st) (stepId r).
Proof.
    intros Hr Hs. destruct (inv_results _ _ _ (proj1 HF) r Hr) as (_ & _ & [?|Hu]); [done|].
    destruct Hu as [?|[? _]]; congruence.
Qed.

Lemma final_started_deps s d :
    s ∈ steps → started (progress st) (id s) → d ∈ default [] (dependsOn s) →
    ∃ r, r ∈ results st ∧ stepId r = d ∧ status r = success.
Proof.
    intros Hs Hst Hd.
    pose proof (inv_started _ _ _ (proj1 HF) s Hs Hst d Hd) as Hsucc.
    destruct (status_success_in_results _ _ _ _ (proj1 HF) Hsucc) as (j & r & Hj & ? & ?).
    exists r. split_and!; [by eapply list_elem_of_lookup_2|done|done].
Qed.

  (** A step that never started has exactly the result of an unrun step. *)
Lemma final_unstarted_result s :
    s ∈ steps → ¬ started (progress st) (id s) →
    ∃ r, r ∈ results st ∧ stepId r = id s ∧ unrun r.
Proof.
    intros Hs Hn. destruct (final_result_exists s Hs) as (r & Hr & Hid).
    exists r. split_and!; [done|done|]. apply final_unstarted_unrun; [done|].
    by rewrite Hid.
Qed.

  (** Steps that wait on each other, or on an identifier that names no step,
      never start: a started step saw all its dependencies succeed earlier. *)
Lemma final_blocked_unstarted (B : list WorkflowStep) :
    (∀ s, s ∈ B → s ∈ steps ∧
       ∃ d, d ∈ default [] (dependsOn s) ∧ (d ∈ id <$> B ∨ d ∉ id <$> steps)) →
    ∀ s, s ∈ B → ¬ started (progress st) (id s).
Proof.
    intros HB.
    assert (∀ i r s, results st !! i = Some r → s ∈ B → stepId r = id s →
              ¬ started (progress st) (id s)) as Hind.
    { induction i as [i IH] using lt_wf_ind. intros r s Hi Hs Hid Hst.
      destruct (HB s Hs) as (HsS & d & Hd & Hdd).
      rewrite <- Hid in Hst.
      destruct (inv_order _ _ _ (proj1 HF) i r s Hi Hst HsS (eq_sym Hid) d Hd)
        as (j & r' & Hj & Hr' & Hrd & Hrs).
      pose proof (list_elem_of_lookup_2 _ _ _ Hr') as Hin.
      destruct Hdd as [Hdd|Hdd].
      - apply list_elem_of_fmap_1 in Hdd as (m & -> & Hm).
        apply (IH j Hj r' m Hr' Hm Hrd). rewrite <- Hrd.
        by apply final_success_started.
      - apply Hdd. rewrite <- Hrd, <- final_results_perm.
        by apply list_elem_of_fmap_2. }
    intros s Hs. destruct (HB s Hs) as (HsS & _).
    destruct (final_result_exists s HsS) as (r & Hr & Hid).
    apply list_elem_of_lookup in Hr as [i Hi]. by eapply Hind.
Qed.

End FinalFacts.

(** The body of every enabled step returns a promise ([step.run()] does not
    throw before it has returned one) and that promise settles: it is
    fulfilled, or it is rejected with a value other than [null] and
    [undefined]. *)
Definition settlingBodies (steps : list WorkflowStep) : Prop :=
  Forall (λ s, enabled s = true → settles (run s) = true) steps.

Section Run.
Context (w : World) (steps : list WorkflowStep).
Hypothesis steps_nodup : NoDup (id <$> steps).
Hypothesis steps_async : settlingBodies steps.

Lemma init_Inv : Inv steps (foldl (initStep w) (initState steps) steps).
Proof.
    apply init_inv; [done|]. intros s Hs.
    by apply (proj1 (Forall_forall _ _) steps_async).
Qed.

Lemma runWorkflowState_total fuel :
    length steps < fuel →
    ∃ st, runWorkflowState fuel steps w = Some (Returned st) ∧ Final steps st.
Proof.
    intros Hfuel. unfold runWorkflowState.
    destruct (loop_total w steps fuel 0 _ init_Inv) as [st Hst]; [lia|].
    exists st. split; [done|]. eapply loop_final; [exact init_Inv|done].
Qed.

End Run.

(** Step [b] depends on step [a], directly or through a chain of
    [dependsOn] edges between steps of the run. *)
Inductive dependsOnTrans (steps : list WorkflowStep) : WorkflowStep → WorkflowStep → Prop :=
  | dep_direct b a :
      a ∈ steps → b ∈ steps → id a ∈ default [] (dependsOn b) →
      dependsOnTrans steps b a
  | dep_chain b m a :
      dependsOnTrans steps b m → dependsOnTrans steps m a →
      dependsOnTrans steps b a.

(** *** Steps stranded by a deadlock *)

(** [B] is a set of enabled steps each of which has dependencies, all of them
    either members of [B] or identifiers that name no step: the steps of a
    dependency cycle, or a step waiting on an unknown identifier. *)
Section Stranded.
Context (w : World) (steps : list WorkflowStep) (B : list WorkflowStep).
Hypothesis no_cancel : ∀ t, cancelRequested w t = false.
Hypothesis B_steps : ∀ s, s ∈ B → s ∈ steps ∧ enabled s = true.
Hypothesis B_closed : ∀ s, s ∈ B →
  default [] (dependsOn s) ≠ [] ∧
  ∀ d, d ∈ default [] (dependsOn s) → d ∈ id <$> B ∨ d ∉ id <$> steps.

Definition stillPending (st : State) : Prop :=
  ∀ s, s ∈ B → s ∈ pendingSteps st.

Lemma stranded_dep_status st s d :
  Inv steps st → stillPending st → s ∈ B → d ∈ default [] (dependsOn s) →
  statusById st !! d = Some pending ∨ statusById st !! d = None.
Proof.
  intros HI HJ Hs Hd. destruct (B_closed s Hs) as [_ Hc].
  destruct (Hc d Hd) as [Hin|Hout].
  - apply list_elem_of_fmap_1 in Hin as (m & -> & Hm). left.
    by destruct (inv_pending _ _ _ HI m (HJ m Hm)) as (_ & ? & _).
  - right. by apply (inv_unknown _ _ _ HI).
Qed.

Lemma stranded_not_failed st s :
  Inv steps st → stillPending st → s ∈ B →
  anyDepFailed (statusById st) (default [] (dependsOn s)) = false.
Proof.
  intros HI HJ Hs. apply not_true_is_false. intros Hf.
  apply anyDepFailed_spec in Hf as (d & Hd & Hst).
  destruct (stranded_dep_status st s d HI HJ Hs Hd) as [E|E];
    rewrite E in Hst; by destruct Hst.
Qed.

Lemma stranded_not_ready st s :
  Inv steps st → stillPending st → s ∈ B → ¬ depsSuccess (statusById st) s.
Proof.
  intros HI HJ Hs Hd. destruct (B_closed s Hs) as [Hne _].
  destruct (default [] (dependsOn s)) as [|d ds] eqn:E; [done|].
  assert (d ∈ default [] (dependsOn s)) as Hin by (rewrite E; left).
  specialize (Hd d Hin).
  destruct (stranded_dep_status st s d HI HJ Hs Hin) as [E'|E']; congruence.
Qed.

Lemma pending_same_id st s s' :
  Inv steps st → s ∈ pendingSteps st → s' ∈ pendingSteps st → id s = id s' → s = s'.
Proof.
  intros HI Hs Hs' Heq. pose proof (inv_pending_nodup _ _ _ HI) as Hnd.
  apply list_elem_of_lookup in Hs as [i Hi], Hs' as [j Hj].
  assert (i = j) as ->; [|congruence].
  eapply NoDup_lookup; [exact Hnd| |];
    rewrite list_lookup_fmap; [by rewrite Hi|by rewrite Hj, Heq].
Qed.

Lemma stillPending_skip st s :
  Inv steps st → s ∈ pendingSteps st →
  anyDepFailed (statusById st) (default [] (dependsOn s)) = true →
  stillPending st → stillPending (skipDependent w st s).
Proof.
  intros HI Hs Hf HJ m Hm. simpl. apply list_elem_of_filter.
  split; [|by apply HJ]. intros Heq.
  assert (m = s) as -> by (eapply pending_same_id; eauto).
  rewrite (stranded_not_failed st s HI HJ Hm) in Hf. done.
Qed.

Lemma stillPending_launch st s :
  Inv steps st → s ∈ pendingSteps st → depsSuccess (statusById st) s →
  stillPending st → stillPending (launchStep w st s).
Proof.
  intros HI Hs Hd HJ m Hm. rewrite launchStep_pending. apply list_elem_of_filter.
  split; [|by apply HJ]. intros Heq.
  assert (m = s) as -> by (eapply pending_same_id; eauto).
  by apply (stranded_not_ready st s HI HJ Hm).
Qed.

Lemma stranded_deadlock fuel :
  NoDup (id <$> steps) → settlingBodies steps → length steps < fuel →
  ∃ st, runWorkflowState fuel steps w = Some (Returned st) ∧ Final steps st ∧
        ∀ s, s ∈ B → mkResult s error 0 (Some deadlockReason) ∈ results st.
Proof.
  intros Hnd Hasync Hfuel.
  destruct (runWorkflowState_total w steps Hnd Hasync fuel Hfuel) as (st & Hrun & HF).
  exists st. split_and!; [done|done|].
  unfold runWorkflowState in Hrun. revert Hrun.
  apply (loop_rule w (λ st, Inv steps st ∧ stillPending st)
           (λ st, ∀ s, s ∈ B → mkResult s error 0 (Some deadlockReason) ∈ results st)).
  - intros st0 [HI HJ] Hp _ s Hs. specialize (HJ s Hs). rewrite Hp in HJ.
    by apply elem_of_nil in HJ.
  - intros st0 t _ Hc. by rewrite no_cancel in Hc.
  - intros st0 [HI HJ].
    destruct (launchReady_inv w steps stillPending
                (stillPending_skip) (stillPending_launch) st0 HI HJ) as (? & ? & _).
    done.
  - intros st0 [HI HJ] _ _ s Hs.
    destruct (retire_all_inv w steps error (Some deadlockReason) "Deadlock detected"
                _ _ (or_intror (conj eq_refl eq_refl)) HI) as (_ & _ & Hres).
    change (foldl (retireWith w _ _ _) st0 (pendingSteps st0))
      with (foldl (deadlockStep w) st0 (pendingSteps st0)) in Hres.
    rewrite Hres. apply elem_of_app. right.
    apply (list_elem_of_fmap_2 (λ s, mkResult s error 0 (Some deadlockReason))).
    by apply HJ.
  - intros st0 t [HI HJ] _. split.
    + unfold Inv. rewrite awaitRace_pending. by apply awaitRace_inv.
    + intros s Hs. rewrite awaitRace_pending. by apply HJ.
  - split; [by apply init_Inv|].
    intros s Hs. destruct (init_inv_gen w steps [] ) as [_ HP].
    { by rewrite app_nil_r. }
    { intros x Hx. by apply (proj1 (Forall_forall _ _) Hasync). }
    rewrite !app_nil_r in HP. rewrite HP.
    destruct (B_steps s Hs) as [HsS Hen].
    apply list_elem_of_filter. split; [by rewrite Hen|done].
Qed.

End Stranded.

(** *** A body that throws before it has returned a promise *)

(** The [finally] block of the closure removes the step from
    [runningPromises]; the promise of the closure is stored by the statement
    after the closure.  When [step.run()] throws, the closure has run to its
    end by then, so the entry is stored after its removal and stays. *)
Section SyncThrow.
Context (w : World) (s : WorkflowStep).
Hypothesis s_throws : returnsPromise (run s) = false.
Hypothesis no_cancel : ∀ t, cancelRequested w t = false.

(** The body does not throw [null] or [undefined]. *)
Definition plainThrow (b : Body) : Prop := ∀ v, b ≠ ThrowsNullish v.

Hypothesis s_plain : plainThrow (run s).

(** Every entry is stored under the identifier of its step, and no step
    stored or pending throws [null] or [undefined]. *)
Definition keysOK (st : State) : Prop :=
  (∀ k x, runningPromises st !! k = Some x → k = id x ∧ plainThrow (run x)) ∧
  (∀ x, x ∈ pendingSteps st → plainThrow (run x)).

Record Stale (st : State) : Prop := {
  stale_entry : runningPromises st !! id s = Some s;
  stale_order : id s ∈ keyOrder st;
  stale_pending : ∀ x, x ∈ pendingSteps st → id x ≠ id s;
  stale_keys : keysOK st
}.

Lemma keysOK_launch st x : plainThrow (run x) → keysOK st → keysOK (launchStep w st x).
Proof.
  intros Hx [H H']. split.
  - intros k y. unfold launchStep. destruct (run x) eqn:E; simpl; intros Hk;
      apply lookup_insert_Some in Hk as [[<- <-]|[Hne Hk]];
      try (split; [done|by rewrite E]); try (by apply H);
      apply lookup_delete_Some in Hk as [_ Hk]; by apply H.
  - intros y. rewrite launchStep_pending. intros Hy.
    apply list_elem_of_filter in Hy as [_ Hy]. by apply H'.
Qed.

Lemma keyOrder_launch st x k :
  k ∈ keyOrder st → k ≠ id x → k ∈ keyOrder (launchStep w st x).
Proof.
  intros Hk Hne. unfold launchStep. destruct (run x); simpl;
    case_decide; try done; try (apply elem_of_app; left);
    try (apply list_elem_of_filter; split); done.
Qed.

Lemma keyOrder_launch_self st : id s ∈ keyOrder (launchStep w st s).
Proof.
  unfold launchStep. destruct (run s); simpl; (case_decide; [done|]);
    apply elem_of_app; right; by apply list_elem_of_singleton.
Qed.

Lemma stale_launch_self st : keysOK st → Stale (launchStep w st s).
Proof.
  intros H. constructor; [| | |by apply keysOK_launch].
  - unfold launchStep. destruct (run s); simpl; by rewrite lookup_insert_eq.
  - apply keyOrder_launch_self.
  - intros x. rewrite launchStep_pending. intros Hx.
    by apply list_elem_of_filter in Hx as [? _].
Qed.

Lemma stale_launch_other st x :
  plainThrow (run x) → Stale st → id x ≠ id s → Stale (launchStep w st x).
Proof.
  intros Hx [H1 H0 H2 H3] Hne. constructor; [| | |by apply keysOK_launch].
  - unfold launchStep. destruct (run x); simpl;
      rewrite lookup_insert_ne by done; try done;
      by rewrite lookup_delete_ne.
  - apply keyOrder_launch; [done|]. by apply not_eq_sym.
  - intros y. rewrite launchStep_pending. intros Hy.
    apply list_elem_of_filter in Hy as [_ Hy]. by apply H2.
Qed.

Lemma stale_skip st x : Stale st → Stale (skipDependent w st x).
Proof.
  intros [H1 H0 H2 [H3 H4]]. constructor; simpl; [done|done| |split; [done|]].
  - intros y Hy. apply list_elem_of_filter in Hy as [_ Hy]. by apply H2.
  - intros y Hy. apply list_elem_of_filter in Hy as [_ Hy]. by apply H4.
Qed.

Lemma stale_delete st x :
  Stale st → id x ≠ id s → Stale (deleteRunning (id x) st).
Proof.
  intros [H1 H0 H2 [H3 H4]] Hne. constructor; simpl.
  - by rewrite lookup_delete_ne.
  - apply list_elem_of_filter. split; [by apply not_eq_sym|done].
  - done.
  - split; [|done]. intros k y Hy. simpl in Hy.
    apply lookup_delete_Some in Hy as [_ Hy]. by apply H3.
Qed.

Lemma stale_record st x X d e msg cnt :
  Stale st →
  Stale (emitProgress w x X msg cnt (pushResult (mkResult x X d e) (setStatus (id x) X st))).
Proof. by intros [H1 H0 H2 H3]. Qed.

Lemma stale_settle st k x :
  Stale st → runningPromises st !! k = Some x → Stale (settleStep w x st).
Proof.
  intros H Hk. destruct (proj1 (stale_keys _ H) _ _ Hk) as [-> _].
  assert (returnsPromise (run x) = true → id x ≠ id s) as Hne.
  { intros Hr Heq. rewrite Heq, (stale_entry _ H) in Hk. injection Hk as <-.
    congruence. }
  unfold settleStep, succeedStep, failStep.
  destruct (run x) as [?|?|[v|m|?|]]; try done; specialize (Hne eq_refl);
    apply stale_delete; try done; by apply stale_record.
Qed.

Lemma stale_settleIds ks st : Stale st → Stale (foldl (settleId w) st ks).
Proof.
  revert st. induction ks as [|k ks IH]; intros st H; [done|].
  cbn [foldl]. apply IH. unfold settleId.
  destruct (runningPromises st !! k) eqn:E; [|done]. by eapply stale_settle.
Qed.

(** The stale entry is among the promises that are settled already, and
    every one of those is fulfilled. *)
Lemma stale_alreadySettled st :
  Stale st →
  ∃ x rest, alreadySettled st = x :: rest ∧ returnsPromise (run x) = false ∧
            plainThrow (run x).
Proof.
  intros H.
  assert (s ∈ alreadySettled st) as Hs.
  { apply list_elem_of_omap. exists (id s). split; [apply (stale_order _ H)|].
    rewrite (stale_entry _ H). simpl. by rewrite s_throws. }
  destruct (alreadySettled st) as [|x rest] eqn:E; [by apply elem_of_nil in Hs|].
  exists x, rest. split; [done|].
  assert (x ∈ alreadySettled st) as Hx by (rewrite E; left).
  apply list_elem_of_omap in Hx as (k & _ & Hk).
  destruct (runningPromises st !! k) as [y|] eqn:Ey; [|done]. simpl in Hk.
  destruct (returnsPromise (run y)) eqn:Er; [done|]. injection Hk as <-.
  split; [done|]. by apply (proj1 (stale_keys _ H) k y).
Qed.

Lemma stale_awaitRace tick st : Stale st → Stale (awaitRace w tick st).
Proof.
  intros H. unfold awaitRace.
  destruct (stale_alreadySettled st H) as (x & rest & -> & _).
  by apply stale_settleIds.
Qed.

Lemma stale_raceEnd tick st : Stale st → raceEnd w tick st = Resolves.
Proof.
  intros H. unfold raceEnd.
  destruct (stale_alreadySettled st H) as (x & rest & -> & _ & Hx).
  destruct (run x) as [?|v|?]; [done| |done]. by destruct (Hx v).
Qed.

Lemma stale_running st : Stale st → 0 < size (runningPromises st).
Proof.
  intros H. pose proof (stale_entry _ H) as He.
  assert (size (runningPromises st) ≠ 0); [|lia].
  by apply (map_size_ne_0_lookup_2 _ (id s)).
Qed.

Lemma keysOK_skip st x : keysOK st → keysOK (skipDependent w st x).
Proof.
  intros [H H']. split; [done|]. simpl. intros y Hy.
  apply list_elem_of_filter in Hy as [_ Hy]. by apply H'.
Qed.

Lemma scan_keysOK todo st ready :
  keysOK st →
  keysOK (foldl (scanStep w) (st, ready) todo).1 ∧
  ∀ x, x ∈ (foldl (scanStep w) (st, ready) todo).2 → x ∈ ready ∨ x ∈ todo.
Proof.
  revert st ready. induction todo as [|x todo IH]; intros st ready H; [by auto|].
  cbn [foldl].
  destruct (anyDepFailed (statusById st) (default [] (dependsOn x))) eqn:Hf;
    [|destruct (allDepsSuccess (statusById st) (default [] (dependsOn x))) eqn:Ha].
  - assert (scanStep w (st, ready) x = (skipDependent w st x, ready)) as ->
      by (unfold scanStep; simpl; by rewrite Hf).
    destruct (IH (skipDependent w st x) ready (keysOK_skip _ _ H)) as [H1 H2].
    split; [done|]. intros y Hy. destruct (H2 y Hy); [by left|right; by right].
  - assert (scanStep w (st, ready) x = (st, ready ++ [x])) as ->
      by (unfold scanStep; simpl; by rewrite Hf, Ha).
    destruct (IH st (ready ++ [x]) H) as [H1 H2].
    split; [done|]. intros y Hy. destruct (H2 y Hy) as [Hy'|Hy']; [|right; by right].
    apply elem_of_app in Hy' as [?|Hy']; [by left|].
    apply list_elem_of_singleton in Hy' as ->. right. left.
  - assert (scanStep w (st, ready) x = (st, ready)) as ->
      by (unfold scanStep; simpl; by rewrite Hf, Ha).
    destruct (IH _ ready H) as [H1 H2].
    split; [done|]. intros y Hy. destruct (H2 y Hy); [by left|right; by right].
Qed.

Lemma stale_scan todo st ready :
  Stale st → Stale (foldl (scanStep w) (st, ready) todo).1.
Proof.
  revert st ready. induction todo as [|x todo IH]; intros st ready H; [done|].
  cbn [foldl].
  destruct (anyDepFailed (statusById st) (default [] (dependsOn x))) eqn:Hf;
    [|destruct (allDepsSuccess (statusById st) (default [] (dependsOn x))) eqn:Ha].
  - assert (scanStep w (st, ready) x = (skipDependent w st x, ready)) as ->
      by (unfold scanStep; simpl; by rewrite Hf).
    apply IH. by apply stale_skip.
  - assert (scanStep w (st, ready) x = (st, ready ++ [x])) as ->
      by (unfold scanStep; simpl; by rewrite Hf, Ha).
    by apply IH.
  - assert (scanStep w (st, ready) x = (st, ready)) as ->
      by (unfold scanStep; simpl; by rewrite Hf, Ha).
    by apply IH.
Qed.

Lemma stale_launch_all ready st :
  Stale st → (∀ x, x ∈ ready → id x ≠ id s ∧ plainThrow (run x)) →
  Stale (foldl (launchStep w) st ready).
Proof.
  revert st. induction ready as [|x ready IH]; intros st H Hne; [done|].
  cbn [foldl]. apply IH.
  - destruct (Hne x) as [? ?]; [left|]. by apply stale_launch_other.
  - intros y Hy. apply Hne. by right.
Qed.

Lemma stale_launchReady st : Stale st → Stale (launchReady w st).
Proof.
  intros H. unfold launchReady, findReady.
  pose proof (stale_scan (pendingSteps st) st [] H) as H1.
  destruct (scan_keysOK (pendingSteps st) st [] (stale_keys _ H)) as [_ H2].
  apply stale_launch_all; [done|].
  intros x Hx. destruct (H2 x Hx) as [Hn|Hp]; [by apply elem_of_nil in Hn|].
  split; [by apply (stale_pending _ H)|by apply (proj2 (stale_keys _ H))].
Qed.

(** Once the entry is stale the loop cannot leave: the set of running
    promises never becomes empty again, and every race is decided at once
    by a promise that is fulfilled. *)
Lemma stale_loop fuel tick st : Stale st → loop fuel w tick st = None.
Proof.
  revert tick st. induction fuel as [|fuel IH]; intros tick st H; [done|].
  pose proof (stale_running _ H) as Hsz.
  pose proof (stale_launchReady _ H) as H2.
  pose proof (stale_running _ H2) as Hsz2.
  cbn [loop]. rewrite bool_decide_eq_false_2 by lia. rewrite no_cancel.
  cbv zeta. rewrite !bool_decide_eq_false_2 by lia.
  rewrite bool_decide_eq_true_2 by done. rewrite (stale_raceEnd _ _ H2).
  apply IH. by apply stale_awaitRace.
Qed.

(** The first iteration launches [s] when it is enabled and waits on
    nothing. *)
Hypothesis s_free : default [] (dependsOn s) = [].

Lemma first_scan todo st ready :
  NoDup (id <$> ready ++ todo) → s ∈ ready ∨ s ∈ todo →
  NoDup (id <$> (foldl (scanStep w) (st, ready) todo).2) ∧
  s ∈ (foldl (scanStep w) (st, ready) todo).2 ∧
  runningPromises (foldl (scanStep w) (st, ready) todo).1 = runningPromises st.
Proof.
  revert st ready. induction todo as [|x todo IH]; intros st ready Hnd Hs.
  { rewrite app_nil_r in Hnd. destruct Hs as [?|Hs]; [done|].
    by apply elem_of_nil in Hs. }
  assert (NoDup (id <$> ready ++ todo)) as Hnd'.
  { rewrite fmap_app, fmap_cons in Hnd. rewrite fmap_app.
    rewrite <- Permutation_middle in Hnd. by apply NoDup_cons in Hnd as [_ ?]. }
  assert (x ≠ s → s ∈ ready ∨ s ∈ todo) as Hs'.
  { intros Hne. destruct Hs as [?|Hs]; [by left|]. right.
    apply elem_of_cons in Hs as [?|?]; [congruence|done]. }
  cbn [foldl].
  destruct (anyDepFailed (statusById st) (default [] (dependsOn x))) eqn:Hf;
    [|destruct (allDepsSuccess (statusById st) (default [] (dependsOn x))) eqn:Ha].
  - assert (scanStep w (st, ready) x = (skipDependent w st x, ready)) as ->
      by (unfold scanStep; simpl; by rewrite Hf).
    destruct (IH (skipDependent w st x) ready Hnd') as (H1 & H2 & H3); [|done].
    apply Hs'. intros ->. rewrite s_free in Hf. done.
  - assert (scanStep w (st, ready) x = (st, ready ++ [x])) as ->
      by (unfold scanStep; simpl; by rewrite Hf, Ha).
    apply IH.
    + by rewrite <- app_assoc.
    + destruct Hs as [?|Hs]; [left; apply elem_of_app; by left|].
      apply elem_of_cons in Hs as [Heq|?]; [subst x|by right].
      left. apply elem_of_app. right. by apply list_elem_of_singleton.
  - assert (scanStep w (st, ready) x = (st, ready)) as ->
      by (unfold scanStep; simpl; by rewrite Hf, Ha).
    apply IH; [done|].
    apply Hs'. intros ->. rewrite s_free in Ha. done.
Qed.

Lemma first_launch_all ready st :
  keysOK st → NoDup (id <$> ready) → (∀ x, x ∈ ready → plainThrow (run x)) →
  s ∈ ready ∨ (Stale st ∧ id s ∉ id <$> ready) →
  Stale (foldl (launchStep w) st ready).
Proof.
  revert st. induction ready as [|x ready IH]; intros st Hk Hnd Hplain Hs.
  { destruct Hs as [Hs|[? _]]; [by apply elem_of_nil in Hs|done]. }
  rewrite fmap_cons in Hnd. apply NoDup_cons in Hnd as [Hx Hnd].
  assert (plainThrow (run x)) as Hpx by (apply Hplain; left).
  cbn [foldl]. apply IH; [by apply keysOK_launch|done| |].
  { intros y Hy. apply Hplain. by right. }
  destruct Hs as [Hs|[H Hn]].
  - apply elem_of_cons in Hs as [Heq|Hs]; [subst x|by left].
    right. split; [by apply stale_launch_self|done].
  - right. rewrite fmap_cons in Hn. apply not_elem_of_cons in Hn as [Hne Hn].
    split; [|done]. apply stale_launch_other; [done|done|]. by apply not_eq_sym.
Qed.

Lemma first_launchReady st :
  keysOK st → NoDup (id <$> pendingSteps st) → s ∈ pendingSteps st →
  Stale (launchReady w st).
Proof.
  intros Hk Hnd Hs. unfold launchReady, findReady.
  destruct (first_scan (pendingSteps st) st []) as (H1 & H2 & H3); [done|by right|].
  destruct (scan_keysOK (pendingSteps st) st [] Hk) as [Hk' Hfrom].
  apply first_launch_all; [done|done| |by left].
  intros x Hx. destruct (Hfrom x Hx) as [Hn|Hp]; [by apply elem_of_nil in Hn|].
  by apply (proj2 Hk).
Qed.

End SyncThrow.

Lemma init_running (w : World) l st :
  runningPromises (foldl (initStep w) st l) = runningPromises st.
Proof.
  revert st. induction l as [|x l IH]; intros st; [done|].
  cbn [foldl]. rewrite IH. unfold initStep. by destruct (enabled x).
Qed.

Lemma init_pending (w : World) pre suf :
  NoDup (id <$> pre ++ suf) →
  pendingSteps (foldl (initStep w) (initState (pre ++ suf)) pre)
  = filter (λ s, enabled s) pre ++ suf.
Proof.
  revert suf. induction pre as [|s pre IH] using rev_ind; intros suf Hnd; [done|].
  rewrite <- app_assoc in Hnd |- *. simpl in Hnd |- *.
  pose proof (IH (s :: suf) Hnd) as HP. clear IH.
  rewrite foldl_snoc.
  set (st := foldl (initStep w) (initState (pre ++ s :: suf)) pre) in *.
  assert (id s ∉ id <$> pre) as Hfresh.
  { rewrite fmap_app in Hnd. apply NoDup_app in Hnd as (_ & Hd & _).
    intros Hin. apply (Hd _ Hin). rewrite fmap_cons. left. }
  assert (id s ∉ id <$> suf) as Hfresh'.
  { rewrite fmap_app, fmap_cons in Hnd. apply NoDup_app in Hnd as (_ & _ & Hd).
    by apply NoDup_cons in Hd as [? _]. }
  assert (id s ∉ id <$> filter (λ s, enabled s) pre) as HfreshP.
  { intros Hin. apply Hfresh. apply list_elem_of_fmap_1 in Hin as (y & -> & Hy).
    apply list_elem_of_filter in Hy as [_ Hy]. by apply list_elem_of_fmap_2. }
  rewrite filter_app. unfold initStep. destruct (enabled s) eqn:Hen.
  - rewrite filter_cons_True by (by rewrite Hen).
    simpl. rewrite HP. by rewrite <- app_assoc.
  - rewrite filter_cons_False by (rewrite Hen; simpl; tauto). rewrite app_nil_r.
    simpl. rewrite HP, filter_app, filter_id_other by done.
    rewrite filter_cons_False by (intros Hne; by apply Hne).
    by rewrite filter_id_other.
Qed.

(** With unique identifiers, an enabled step that waits on nothing and whose
    body throws before returning a promise keeps [runWorkflow] from
    returning, as long as cancellation is not requested. *)
Lemma sync_throw_never_returns (w : World) (steps : list WorkflowStep)
    (s : WorkflowStep) (fuel : nat) :
  NoDup (id <$> steps) → s ∈ steps → enabled s = true →
  default [] (dependsOn s) = [] → returnsPromise (run s) = false →
  (∀ x, x ∈ steps → plainThrow (run x)) →
  (∀ t, cancelRequested w t = false) →
  runWorkflow fuel steps w = None.
Proof.
  intros Hnd Hs Hen Hfree Hthrow Hplain Hnc.
  unfold runWorkflow, runWorkflowState.
  set (st0 := foldl (initStep w) (initState steps) steps).
  assert (pendingSteps st0 = filter (λ s, enabled s) steps) as Hp.
  { pose proof (init_pending w steps []) as H. rewrite !app_nil_r in H. by apply H. }
  assert (runningPromises st0 = ∅) as Hr by apply init_running.
  assert (s ∈ pendingSteps st0) as Hsp.
  { rewrite Hp. apply list_elem_of_filter. by rewrite Hen. }
  assert (plainThrow (run s)) as Hps by (by apply Hplain).
  assert (Stale s (launchReady w st0)) as Hstale.
  { apply first_launchReady; try done.
    - split.
      + intros k x. by rewrite Hr, lookup_empty.
      + intros x Hx. apply Hplain. rewrite Hp in Hx.
        by apply list_elem_of_filter in Hx as [_ ?].
    - rewrite Hp. eapply sublist_NoDup; [exact Hnd|].
      apply fmap_sublist, sublist_filter. }
  destruct fuel as [|fuel]; [done|].
  pose proof (stale_running s _ Hstale) as Hsz.
  cbn [loop]. rewrite bool_decide_eq_false_2.
  2:{ intros [Hl _]. apply nil_length_inv in Hl. rewrite Hl in Hsp.
      by apply elem_of_nil in Hsp. }
  rewrite Hnc. cbv zeta. rewrite !bool_decide_eq_false_2 by lia.
  rewrite bool_decide_eq_true_2 by done.
  rewrite (stale_raceEnd w s Hthrow _ _ Hstale).
  rewrite (stale_loop w s Hthrow Hnc); [done|]. by apply stale_awaitRace.
Qed.

(** *** Steps listed after the steps they depend on *)

(** Every identifier in a step's [dependsOn] names a step listed earlier. *)
Fixpoint depsFirst (seen : list string) (steps : list WorkflowStep) : bool :=
  match steps with
  | [] => true
  | s :: rest =>
      forallb (λ d, bool_decide (d ∈ seen)) (default [] (dependsOn s))
      && depsFirst (seen ++ [id s]) rest
  end.

Definition dependenciesFirst (steps : list WorkflowStep) : bool :=
  depsFirst [] steps.

Lemma depsFirst_spec seen steps :
  depsFirst seen steps = true →
  ∀ pre s suf, steps = pre ++ s :: suf →
    ∀ d, d ∈ default [] (dependsOn s) → d ∈ seen ++ (id <$> pre).
Proof.
  revert seen. induction steps as [|x steps IH]; intros seen H pre s suf Heq d Hd.
  { by destruct pre. }
  simpl in H. apply andb_true_iff in H as [H1 H2].
  destruct pre as [|y pre]; simpl in Heq; injection Heq as -> ->.
  - rewrite app_nil_r. rewrite <- Is_true_true, forallb_True, Forall_forall in H1.
    exact (bool_decide_unpack _ (H1 d Hd)).
  - specialize (IH _ H2 pre s suf eq_refl d Hd).
    rewrite <- app_assoc in IH. done.
Qed.

(** With unique identifiers, no step then depends on itself or on a step
    listed after it. *)
Lemma depsFirst_no_later steps b x :
  NoDup (id <$> steps) → dependenciesFirst steps = true →
  [b; x] `sublist_of` steps → id x ∉ default [] (dependsOn b).
Proof.
  intros Hnd Hord Hsub Hin.
  apply sublist_cons_l in Hsub as (k1 & k2 & -> & Hx).
  apply singleton_sublist_l in Hx.
  pose proof (depsFirst_spec [] _ Hord k1 b k2 eq_refl _ Hin) as Hpre. simpl in Hpre.
  rewrite fmap_app, fmap_cons in Hnd. apply NoDup_app in Hnd as (_ & Hd & _).
  apply (Hd _ Hpre). right. by apply list_elem_of_fmap_2.
Qed.

Lemma depsFirst_no_self steps b :
  NoDup (id <$> steps) → dependenciesFirst steps = true →
  b ∈ steps → id b ∉ default [] (dependsOn b).
Proof.
  intros Hnd Hord Hb Hin.
  apply list_elem_of_split in Hb as (k1 & k2 & ->).
  pose proof (depsFirst_spec [] _ Hord k1 b k2 eq_refl _ Hin) as Hpre. simpl in Hpre.
  rewrite fmap_app, fmap_cons in Hnd. apply NoDup_app in Hnd as (_ & Hd & _).
  apply (Hd _ Hpre). left.
Qed.

Lemma depsFirst_known steps b d :
  dependenciesFirst steps = true →
  b ∈ steps → d ∈ default [] (dependsOn b) → d ∈ id <$> steps.
Proof.
  intros Hord Hb Hin.
  apply list_elem_of_split in Hb as (k1 & k2 & ->).
  pose proof (depsFirst_spec [] _ Hord k1 b k2 eq_refl _ Hin) as Hpre. simpl in Hpre.
  rewrite fmap_app. apply elem_of_app. by left.
Qed.

Lemma anyDepFailed_insert_other sb deps k v :
  k ∉ deps → anyDepFailed (<[k:=v]> sb) deps = anyDepFailed sb deps.
Proof.
  intros Hk. unfold anyDepFailed. induction deps as [|d deps IH]; [done|].
  apply not_elem_of_cons in Hk as [Hne Hk]. simpl.
  rewrite lookup_insert_ne by done. by rewrite IH.
Qed.

Lemma anyDepFailed_insert_running sb deps k :
  anyDepFailed sb deps = false → anyDepFailed (<[k:=running]> sb) deps = false.
Proof.
  intros H. apply not_true_is_false. intros Hf. apply not_true_iff_false in H.
  apply H. apply anyDepFailed_spec in Hf as (d & Hd & Hst).
  apply anyDepFailed_spec. exists d. split; [done|].
  destruct (decide (d = k)) as [->|Hne].
  - rewrite lookup_insert_eq in Hst. by destruct Hst.
  - by rewrite lookup_insert_ne in Hst.
Qed.

Lemma depsSuccess_insert_not_success sb s k v :
  v ≠ success ∨ k ∉ default [] (dependsOn s) →
  depsSuccess (<[k:=v]> sb) s → depsSuccess sb s.
Proof.
  intros Hv H d Hd. specialize (H d Hd).
  destruct (decide (d = k)) as [->|Hne].
  - rewrite lookup_insert_eq in H. destruct Hv as [Hv|Hv]; [congruence|done].
  - by rewrite lookup_insert_ne in H.
Qed.

Section Ordered.
Context (w : World) (steps : list WorkflowStep).
Hypothesis steps_nodup : NoDup (id <$> steps).
Hypothesis steps_ordered : dependenciesFirst steps = true.

(** No pending step has a failed dependency, and none is ready. *)
Definition Settled (st : State) : Prop :=
  ∀ b, b ∈ pendingSteps st →
    anyDepFailed (statusById st) (default [] (dependsOn b)) = false ∧
    ¬ depsSuccess (statusById st) b.

(** A result of a step that was never started is [skipped]: the deadlock
    branch has marked nothing. *)
Definition UnstartedSkipped (st : State) : Prop :=
  ∀ r, r ∈ results st → started (progress st) (stepId r) ∨ status r = skipped.

(** The readiness pass: [kept] are the steps visited and left pending. *)
Lemma scan_settled todo st ready kept :
  pendingSteps st = kept ++ todo →
  NoDup (id <$> (kept ++ todo)) →
  (kept ++ todo) `sublist_of` steps →
  (∀ b, b ∈ kept →
     anyDepFailed (statusById st) (default [] (dependsOn b)) = false ∧
     (b ∈ ready ∨ ¬ depsSuccess (statusById st) b)) →
  ∀ b, b ∈ pendingSteps (foldl (scanStep w) (st, ready) todo).1 →
    anyDepFailed (statusById (foldl (scanStep w) (st, ready) todo).1)
      (default [] (dependsOn b)) = false ∧
    (b ∈ (foldl (scanStep w) (st, ready) todo).2 ∨
     ¬ depsSuccess (statusById (foldl (scanStep w) (st, ready) todo).1) b).
Proof.
  revert st ready kept.
  induction todo as [|x todo IH]; intros st ready kept Hp Hnd Hsub Hkept.
  { rewrite app_nil_r in Hp. simpl. intros b Hb. rewrite Hp in Hb. by apply Hkept. }
  cbn [foldl].
  assert (¬ (id x ∈ id <$> kept) ∧ ¬ (id x ∈ id <$> todo)) as [Hxk Hxt].
  { rewrite fmap_app, fmap_cons in Hnd. apply NoDup_app in Hnd as (_ & Hd & Hn).
    apply NoDup_cons in Hn as [? _]. split; [|done].
    intros Hin. apply (Hd _ Hin). left. }
  destruct (anyDepFailed (statusById st) (default [] (dependsOn x))) eqn:Hf;
    [|destruct (allDepsSuccess (statusById st) (default [] (dependsOn x))) eqn:Ha].
  - assert (scanStep w (st, ready) x = (skipDependent w st x, ready)) as ->
      by (unfold scanStep; simpl; by rewrite Hf).
    apply (IH _ _ kept).
    + simpl. rewrite Hp, filter_app, filter_id_other by done.
      rewrite filter_cons_False by (intros Hne; by apply Hne).
      by rewrite filter_id_other.
    + rewrite fmap_app, fmap_cons in Hnd. rewrite fmap_app.
      rewrite <- Permutation_middle in Hnd. by apply NoDup_cons in Hnd as [_ ?].
    + etrans; [|exact Hsub]. apply sublist_app; [done|]. by apply sublist_cons.
    + intros b Hb. destruct (Hkept b Hb) as [H1 H2].
      assert (id x ∉ default [] (dependsOn b)) as Hnot.
      { apply (depsFirst_no_later steps); [done|done|].
        etrans; [|exact Hsub].
        apply (sublist_app [b] kept [x] (x :: todo)).
        - by apply singleton_sublist_l.
        - apply sublist_skip, sublist_nil_l. }
      simpl. split; [by rewrite anyDepFailed_insert_other|].
      destruct H2 as [?|H2]; [by left|right]. intros Hs. apply H2.
      revert Hs. apply depsSuccess_insert_not_success. by right.
  - assert (scanStep w (st, ready) x = (st, ready ++ [x])) as ->
      by (unfold scanStep; simpl; by rewrite Hf, Ha).
    apply (IH _ _ (kept ++ [x])).
    + by rewrite <- app_assoc.
    + by rewrite <- app_assoc.
    + by rewrite <- app_assoc.
    + intros b Hb. apply elem_of_app in Hb as [Hb|Hb].
      * destruct (Hkept b Hb) as [H1 H2]. split; [done|].
        destruct H2 as [?|?]; [left; apply elem_of_app; by left|by right].
      * apply list_elem_of_singleton in Hb as ->. split; [done|].
        left. apply elem_of_app. right. by apply list_elem_of_singleton.
  - assert (scanStep w (st, ready) x = (st, ready)) as ->
      by (unfold scanStep; simpl; by rewrite Hf, Ha).
    apply (IH _ _ (kept ++ [x])).
    + by rewrite <- app_assoc.
    + by rewrite <- app_assoc.
    + by rewrite <- app_assoc.
    + intros b Hb. apply elem_of_app in Hb as [Hb|Hb]; [by apply Hkept|].
      apply list_elem_of_singleton in Hb as ->. split; [done|].
      right. intros Hs. apply allDepsSuccess_spec in Hs. congruence.
Qed.

(** The launch phase: the steps left pending are those that were not
    ready. *)
Lemma launch_settled ready st :
  (∀ x, x ∈ ready → returnsPromise (run x) = true) →
  (∀ b, b ∈ pendingSteps st →
     anyDepFailed (statusById st) (default [] (dependsOn b)) = false ∧
     (b ∈ ready ∨ ¬ depsSuccess (statusById st) b)) →
  Settled (foldl (launchStep w) st ready).
Proof.
  revert st. induction ready as [|x ready IH]; intros st Hasync H.
  { intros b Hb. destruct (H b Hb) as [H1 [H2|H2]]; [|done].
    by apply elem_of_nil in H2. }
  cbn [foldl]. apply IH.
  { intros y Hy. apply Hasync. by right. }
  rewrite (launchStep_async w st x) by (apply Hasync; left).
  simpl. intros b Hb. apply list_elem_of_filter in Hb as [Hne Hb].
  destruct (H b Hb) as [H1 H2]. split; [by apply anyDepFailed_insert_running|].
  destruct H2 as [H2|H2].
  - apply elem_of_cons in H2 as [->|?]; [done|by left].
  - right. intros Hs. apply H2. revert Hs.
    apply depsSuccess_insert_not_success. by left.
Qed.

Lemma launchReady_settled st :
  Inv steps st → pendingSteps st `sublist_of` steps → Settled (launchReady w st).
Proof.
  intros HI Hsub. unfold launchReady.
  destruct (findReady_inv w steps (λ _, True) (λ _ _ _ _ _ _, I) st HI I)
    as (HI1 & _ & Hready & _ & _).
  apply launch_settled.
  - intros x Hx. destruct (Hready x Hx) as [Hp _].
    destruct (inv_pending _ _ _ HI1 x Hp) as (HxS & _ & _ & Hen).
    by apply settles_returns, (inv_async _ _ _ HI1).
  - unfold findReady. apply (scan_settled _ _ _ []); try done.
    + apply (inv_pending_nodup _ _ _ HI).
    + intros b Hb. by apply elem_of_nil in Hb.
Qed.

(** Once the pass has settled, something is running or nothing is pending:
    the first pending step would otherwise be ready. *)
Lemma settled_no_deadlock st :
  Inv steps st → pendingSteps st `sublist_of` steps → Settled st →
  runningPromises st = ∅ → pendingSteps st = [].
Proof.
  intros HI Hsub Hset Hr.
  destruct (pendingSteps st) as [|b rest] eqn:Hp; [done|]. exfalso.
  assert (b ∈ pendingSteps st) as Hb by (rewrite Hp; left).
  destruct (Hset b Hb) as [Hf Hs]. apply Hs. intros d Hd.
  destruct (inv_pending _ _ _ HI b Hb) as (HbS & _).
  pose proof (depsFirst_known steps b d steps_ordered HbS Hd) as Hknown.
  rewrite <- (inv_perm _ _ _ HI), Hr, map_to_list_empty in Hknown.
  simpl in Hknown. rewrite app_nil_r in Hknown.
  apply elem_of_app in Hknown as [Hres|Hpend].
  - apply list_elem_of_fmap_1 in Hres as (r & -> & Hrin).
    destruct (inv_results _ _ _ HI r Hrin) as (Hst & Hterm & _).
    destruct Hterm as [Hsucc|Hbad]; [by rewrite Hst, Hsucc|].
    apply not_true_iff_false in Hf. exfalso. apply Hf.
    apply anyDepFailed_spec. exists (stepId r). split; [done|].
    rewrite Hst. destruct Hbad as [->| ->]; auto.
  - exfalso. rewrite Hp in Hpend.
    apply list_elem_of_fmap_1 in Hpend as (y & -> & Hy).
    apply elem_of_cons in Hy as [->|Hy].
    + by apply (depsFirst_no_self steps b).
    + apply (depsFirst_no_later steps b y); [done|done| |done].
      etrans; [|exact Hsub]. apply sublist_skip. by apply singleton_sublist_l.
Qed.

Lemma unstarted_retire st s e msg cnt :
  UnstartedSkipped st →
  UnstartedSkipped
    (emitProgress w s skipped msg cnt
      (pushResult (mkResult s skipped 0 e) (setStatus (id s) skipped st))).
Proof.
  intros H r Hr. simpl in Hr |- *. apply elem_of_app in Hr as [Hr|Hr].
  - destruct (H r Hr); [left|by right]. rewrite started_snoc. by left.
  - apply list_elem_of_singleton in Hr as ->. by right.
Qed.

Lemma unstarted_launch st s :
  returnsPromise (run s) = true →
  UnstartedSkipped st → UnstartedSkipped (launchStep w st s).
Proof.
  intros Hr H r Hin. rewrite launchStep_async in Hin |- * by done.
  simpl in Hin |- *. destruct (H r Hin); [left|by right].
  rewrite started_snoc. by left.
Qed.

Lemma unstarted_settle st s :
  started (progress st) (id s) →
  UnstartedSkipped st → UnstartedSkipped (settleStep w s st).
Proof.
  intros Hst H. unfold settleStep, succeedStep, failStep.
  destruct (run s) as [?|?|[v|m|?|]]; try done;
    try (intros r Hr; exact (H r Hr)); intros r Hr; simpl in Hr |- *;
    (apply elem_of_app in Hr as [Hr|Hr];
     [destruct (H r Hr); [left|by right]; rewrite started_snoc; by left
     |apply list_elem_of_singleton in Hr as ->; left; rewrite started_snoc; by left]).
Qed.

Lemma unstarted_settleIds P ks st :
  InvP steps P st → UnstartedSkipped st →
  UnstartedSkipped (foldl (settleId w) st ks).
Proof.
  revert st. induction ks as [|k ks IH]; intros st HI H; [done|].
  cbn [foldl]. destruct (settleId_inv w steps P st k HI) as [HI1 _].
  apply IH; [done|]. unfold settleId.
  destruct (runningPromises st !! k) as [x|] eqn:E; [|done].
  destruct (inv_running _ _ _ HI _ _ E) as (-> & _ & _ & Hst & _).
  by apply unstarted_settle.
Qed.

Lemma inFlight_lookup st i k x :
  inFlight st !! i = Some (k, x) → runningPromises st !! k = Some x.
Proof.
  intros E. apply list_elem_of_lookup_2 in E. unfold inFlight in E.
  apply list_elem_of_filter in E as [_ E]. by apply elem_of_map_to_list in E.
Qed.

Lemma unstarted_awaitRace P tick st :
  InvP steps P st → UnstartedSkipped st → UnstartedSkipped (awaitRace w tick st).
Proof.
  intros HI H. unfold awaitRace.
  destruct (alreadySettled st); [|by apply (unstarted_settleIds P)].
  destruct (inFlight st !! _) as [[k x]|] eqn:E; [|done].
  apply inFlight_lookup in E.
  destruct (inv_running _ _ _ HI _ _ E) as (-> & _ & _ & Hst & _).
  apply (unstarted_settleIds P).
  - by eapply settle_inv.
  - by apply unstarted_settle.
Qed.

Lemma unstarted_awaitAllSettled P n tick st :
  InvP steps P st → UnstartedSkipped st →
  UnstartedSkipped (awaitAllSettled n w tick st).
Proof.
  revert tick st. induction n as [|n IH]; intros tick st HI H; [done|].
  simpl. destruct (inFlight st !! _) as [[k x]|] eqn:E; [|done].
  apply inFlight_lookup in E.
  destruct (inv_running _ _ _ HI _ _ E) as (-> & _ & _ & Hst & _).
  apply IH; [by eapply settle_inv|by apply unstarted_settle].
Qed.

Lemma unstarted_cancelSteps P st :
  UnstartedSkipped st → UnstartedSkipped (foldl (cancelStep w) st P).
Proof.
  revert st. induction P as [|x P IH]; intros st H; [done|].
  cbn [foldl]. apply IH. by apply unstarted_retire.
Qed.

Lemma unstarted_cancelBranch tick st :
  Inv steps st → UnstartedSkipped st → UnstartedSkipped (cancelBranch w tick st).
Proof.
  intros HI H. unfold cancelBranch.
  destruct (retire_all_inv w steps skipped (Some "Cancelled") "Workflow cancelled"
              _ _ (or_introl eq_refl) HI) as (H1 & _ & _).
  change (foldl (retireWith w _ _ _) st (pendingSteps st))
    with (foldl (cancelStep w) st (pendingSteps st)) in H1.
  pose proof (unstarted_cancelSteps (pendingSteps st) st H) as H2.
  set (st1 := clearPending _).
  assert (InvP steps [] st1) as HI1 by (revert H1; by apply InvP_pending_irrel).
  assert (UnstartedSkipped st1) as H3 by exact H2.
  case_bool_decide; [|done]. by apply (unstarted_awaitAllSettled []).
Qed.

Lemma unstarted_init l st :
  UnstartedSkipped st → UnstartedSkipped (foldl (initStep w) st l).
Proof.
  revert st. induction l as [|x l IH]; intros st H; [done|].
  cbn [foldl]. apply IH. unfold initStep. destruct (enabled x); [done|].
  by apply (unstarted_retire st x None).
Qed.

Hypothesis steps_async : settlingBodies steps.

(** When the steps are listed after their dependencies, the deadlock branch
    is never taken: a completed run has marked every step it did not start
    as [skipped]. *)
Lemma ordered_unstarted_skipped fuel st :
  runWorkflowState fuel steps w = Some (Returned st) → UnstartedSkipped st.
Proof.
  unfold runWorkflowState.
  set (Q := λ st, UnstartedSkipped st ∧ pendingSteps st `sublist_of` steps).
  assert (∀ st s, Inv steps st → s ∈ pendingSteps st →
            anyDepFailed (statusById st) (default [] (dependsOn s)) = true →
            Q st → Q (skipDependent w st s)) as Q_skip.
  { intros st0 s _ _ _ [H1 H2]. split; [by apply unstarted_retire|].
    simpl. etrans; [apply sublist_filter|done]. }
  assert (∀ st s, Inv steps st → s ∈ pendingSteps st →
            depsSuccess (statusById st) s → Q st → Q (launchStep w st s)) as Q_launch.
  { intros st0 s HI Hs _ [H1 H2].
    destruct (inv_pending _ _ _ HI s Hs) as (HsS & _ & _ & Hen).
    split; [apply unstarted_launch; [by apply settles_returns, (inv_async _ _ _ HI)|done]|].
    rewrite launchStep_pending. etrans; [apply sublist_filter|done]. }
  apply (loop_rule2 w (λ st, Inv steps st ∧ Q st)
           (λ st, (Inv steps st ∧ Q st) ∧ Settled st) UnstartedSkipped).
  - by intros st0 (_ & H & _) _ _.
  - intros st0 tick (HI & H & _) _. by apply unstarted_cancelBranch.
  - intros st0 (HI & H & Hsub).
    destruct (launchReady_inv w steps Q Q_skip Q_launch st0 HI (conj H Hsub))
      as (HI2 & HQ2 & _).
    split; [done|]. by apply launchReady_settled.
  - intros st0 ((HI & H & Hsub) & Hset) Hr Hne. exfalso. apply Hne.
    by apply settled_no_deadlock.
  - by intros st0 ((_ & H & _) & _) _ _.
  - intros st0 tick ((HI & H & Hsub) & _) _. split; [|split].
    + unfold Inv. rewrite awaitRace_pending. by apply awaitRace_inv.
    + by apply (unstarted_awaitRace (pendingSteps st0)).
    + by rewrite awaitRace_pending.
  - split; [|split].
    + by apply init_Inv.
    + apply unstarted_init. intros r Hr. by apply elem_of_nil in Hr.
    + pose proof (init_pending w steps [] ) as HP. rewrite !app_nil_r in HP.
      rewrite HP by done. apply sublist_filter.
Qed.

End Ordered.

(** *** Sample runs *)

(** A world in which nobody cancels and the first in-flight body always
    settles first. *)
Definition quietWorld : World :=
  {| shouldCancel := None; raceWinner := λ _, 0; raceAlso := λ _, [];
     elapsedMs := λ _, 0%Z; dateNow := λ _, 0%Z |}.

Definition plainStep (i : string) (en : bool) (deps : option (list string))
    (body : Body) : WorkflowStep :=
  {| id := i; label := i; enabled := en; run := body;
     dependsOn := deps; sessionId := None |}.

(** The pipeline of the specification's example scenario. *)
Definition pipelineSteps : list WorkflowStep :=
  [ plainStep "open" true None (Returns (Fulfilled None));
    plainStep "downloadA" true (Some ["open"]) (Returns (Fulfilled None));
    plainStep "downloadB" true (Some ["open"]) (Returns (Rejected (Some "boom")));
    plainStep "merge" true (Some ["downloadA"; "downloadB"]) (Returns (Fulfilled None)) ].

(** A step waiting on an identifier that names no step. *)
Definition ghostSteps : list WorkflowStep :=
  [ plainStep "A" true (Some ["ghost"]) (Returns (Fulfilled None)) ].

(** Two enabled steps that depend on each other. *)
Definition cycleSteps : list WorkflowStep :=
  [ plainStep "A" true (Some ["B"]) (Returns (Fulfilled None));
    plainStep "B" true (Some ["A"]) (Returns (Fulfilled None)) ].

(** The same cycle, one member of which also depends on a disabled step. *)
Definition cycleWithDisabledDep : list WorkflowStep :=
  [ plainStep "X" false None (Returns (Fulfilled None));
    plainStep "A" true (Some ["B"; "X"]) (Returns (Fulfilled None));
    plainStep "B" true (Some ["A"]) (Returns (Fulfilled None)) ].

(** A dependent listed before its dependency, which is skipped in the first
    readiness pass. *)
Definition dependentFirstSteps : list WorkflowStep :=
  [ plainStep "B" true (Some ["A"]) (Returns (Fulfilled None));
    plainStep "A" true (Some ["X"]) (Returns (Fulfilled None));
    plainStep "X" false None (Returns (Fulfilled None)) ].

(** The identifier, status and reason of each result. *)
Definition summary (rs : list WorkflowRunResult)
    : list (string * WorkflowRunStatus * option string) :=
  (λ r : WorkflowRunResult, (stepId r, status r, r_error r)) <$> rs.

Lemma pipelineSteps_nodup : NoDup (id <$> pipelineSteps).
Proof. refine (bool_decide_unpack _ _). vm_compute. exact I. Defined.

Lemma ghostSteps_nodup : NoDup (id <$> ghostSteps).
Proof. refine (bool_decide_unpack _ _). vm_compute. exact I. Defined.

Lemma cycleSteps_nodup : NoDup (id <$> cycleSteps).
Proof. refine (bool_decide_unpack _ _). vm_compute. exact I. Defined.

Lemma pipelineSteps_settle : settlingBodies pipelineSteps.
Proof. refine (bool_decide_unpack _ _). vm_compute. exact I. Defined.

Lemma ghostSteps_settle : settlingBodies ghostSteps.
Proof. refine (bool_decide_unpack _ _). vm_compute. exact I. Defined.

Lemma cycleSteps_settle : settlingBodies cycleSteps.
Proof. refine (bool_decide_unpack _ _). vm_compute. exact I. Defined.

Example pipeline_statuses :
  mapReturned summary <$> runWorkflow 5 pipelineSteps quietWorld
  = Some (Returned [("open", success, None); ("downloadA", success, None);
          ("downloadB", error, Some "boom");
          ("merge", skipped, Some "Dependency failed")]).
Proof. vm_compute. reflexivity. Qed.

(** What [settlingBodies] leaves out.  A promise rejected with [undefined]
    makes the [catch] block throw: no result is recorded for the step, and
    the rejection of the closure's promise comes out of the [await] on the
    race, so that [runWorkflow] throws. *)
Definition rejectingSteps : list WorkflowStep :=
  [ plainStep "a" true (Some ["ghost"]) (Returns (Fulfilled None));
    plainStep "b" true None (Returns (RejectedNullish undefined)) ].

Example nullish_rejection_crashes :
  ∀ fuel, runWorkflow (1 + fuel) rejectingSteps quietWorld
          = Some (Crashed "Cannot read properties of undefined (reading 'message')").
Proof. intros fuel. vm_compute. reflexivity. Qed.

(** When another body settles first and the rejected one has run its
    continuation by the time the loop resumes, the run returns, with no
    result for the rejected step. *)
Definition raceLostSteps : list WorkflowStep :=
  [ plainStep "a" true None (Returns (Fulfilled None));
    plainStep "b" true None (Returns (RejectedNullish undefined)) ].

(** The promise of step a settles first, and that of step b before the
    loop resumes. *)
Definition bothSettleWorld : World :=
  {| shouldCancel := None; raceWinner := λ _, 0; raceAlso := λ _, ["b"];
     elapsedMs := λ _, 0%Z; dateNow := λ _, 0%Z |}.

Example nullish_rejection_loses_result :
  (fst <$> inFlight (launchReady bothSettleWorld
                       (foldl (initStep bothSettleWorld) (initState raceLostSteps)
                              raceLostSteps))) !! 0 = Some "a" ∧
  ∀ fuel, mapReturned summary <$> runWorkflow (2 + fuel) raceLostSteps bothSettleWorld
          = Some (Returned [("a", success, None)]).
Proof. split; [|intros fuel]; vm_compute; reflexivity. Qed.

(** A promise that stays pending keeps the loop at its [await]. *)
Example pending_promise_never_returns :
  ∀ fuel, runWorkflow fuel [plainStep "a" true None (Returns NeverSettles)] quietWorld
          = None.
Proof. intros [|fuel]; vm_compute; reflexivity. Qed.

(** *** Theorems about [runWorkflow] *)

(** One enabled step whose body throws before it has returned a promise
    (as [() => runOpenSession(resolveSession(step))] does when the session is
    missing). *)
Definition throwingSteps : list WorkflowStep :=
  [ plainStep "a" true None (Throws (Some "boom")) ].

(** The state after the first "launch ready steps" phase of a run. *)
Definition afterFirstLaunch (w : World) (steps : list WorkflowStep) : State :=
  launchReady w (foldl (initStep w) (initState steps) steps).

(** C1 fails on [throwingSteps].  The first iteration records the one
    [error] result and leaves nothing pending, but the promise of the closure
    is stored after the closure has removed its entry, so [runningPromises]
    keeps one entry and the run does not return, whatever the fuel. *)
Theorem runWorkflow_sync_throw_never_returns :
  NoDup (id <$> throwingSteps) ∧
  summary (results (afterFirstLaunch quietWorld throwingSteps))
    = [("a", error, Some "boom")] ∧
  pendingSteps (afterFirstLaunch quietWorld throwingSteps) = [] ∧
  size (runningPromises (afterFirstLaunch quietWorld throwingSteps)) = 1 ∧
  ∀ fuel, runWorkflow fuel throwingSteps quietWorld = None.
Proof.
  split_and!.
  - refine (bool_decide_unpack _ _). vm_compute. exact I.
  - vm_compute. reflexivity.
  - vm_compute. reflexivity.
  - vm_compute. reflexivity.
  - intros fuel.
    apply (sync_throw_never_returns quietWorld throwingSteps
             (plainStep "a" true None (Throws (Some "boom"))) fuel); try done.
    + refine (bool_decide_unpack _ _). vm_compute. exact I.
    + left.
    + intros x Hx v. by apply list_elem_of_singleton in Hx as ->.
Qed.

(** X1.  What holds when the body of every enabled step returns a promise
    that is fulfilled, or rejected with a value other than [null] and
    [undefined].  For every such list of steps with unique identifiers
    [runWorkflow] returns, and its results hold exactly one entry per input
    step: the result identifiers are a permutation of the input identifiers,
    without duplicates, and every result status is [success], [error] or
    [skipped]. *)
Theorem async_steps_one_result_per_step (w : World) (steps : list WorkflowStep)
    (fuel : nat) :
  NoDup (id <$> steps) → settlingBodies steps → length steps < fuel →
  ∃ rs, runWorkflow fuel steps w = Some (Returned rs) ∧
        stepId <$> rs ≡ₚ id <$> steps ∧
        NoDup (stepId <$> rs) ∧
        Forall (λ r, status r = success ∨ status r = error ∨ status r = skipped) rs.
Proof.
  intros Hnd Hasync Hfuel.
  destruct (runWorkflowState_total w steps Hnd Hasync fuel Hfuel) as (st & Hrun & HF).
  exists (results st). split_and!.
  - unfold runWorkflow. by rewrite Hrun.
  - by apply final_results_perm.
  - by eapply final_results_nodup.
  - apply Forall_forall. intros r Hr. by eapply final_terminal.
Qed.

Lemma async_steps_one_result_per_step_witness :
  NoDup (id <$> pipelineSteps) ∧ settlingBodies pipelineSteps ∧
  length pipelineSteps < 5 ∧
  ∃ rs, runWorkflow 5 pipelineSteps quietWorld = Some (Returned rs) ∧
        stepId <$> rs ≡ₚ id <$> pipelineSteps ∧
        NoDup (stepId <$> rs) ∧
        Forall (λ r, status r = success ∨ status r = error ∨ status r = skipped) rs.
Proof.
  assert (length pipelineSteps < 5) as Hfuel by (simpl; lia).
  split_and!; [exact pipelineSteps_nodup|exact pipelineSteps_settle|exact Hfuel|].
  exact (async_steps_one_result_per_step quietWorld pipelineSteps 5
           pipelineSteps_nodup pipelineSteps_settle Hfuel).
Defined.

(** C2, as stated, fails: an enabled step whose only dependency names no step
    is still pending when nothing is running and nothing is ready, so the
    deadlock branch gives it status [error], not [skipped]. *)
Lemma unknown_dependency_ends_error :
  ¬ ("ghost" ∈ id <$> ghostSteps) ∧
  runWorkflow 2 ghostSteps quietWorld =
    Some (Returned [ {| stepId := "A"; r_label := "A"; status := error;
                        r_error := Some "Deadlock: dependencies never met";
                        durationMs := 0 |} ]).
Proof.
  split.
  - intros H. apply list_elem_of_singleton in H. discriminate H.
  - vm_compute. reflexivity.
Qed.

(** C2, amended.  Over steps with unique identifiers whose enabled bodies
    each return a promise that is fulfilled, or rejected with a value other
    than [null] and [undefined], the run returns; a step with a dependency
    that names no step is never started; its result is [skipped] or [error]
    with the deadlock reason; and when it is enabled, all its dependencies
    are unknown and cancellation is never requested, the result is exactly
    the deadlock error. *)
Theorem unknown_dependency_never_runs (w : World) (steps : list WorkflowStep)
    (fuel : nat) :
  NoDup (id <$> steps) → settlingBodies steps → length steps < fuel →
  ∃ st, runWorkflowState fuel steps w = Some (Returned st) ∧
    ∀ s d, s ∈ steps → d ∈ default [] (dependsOn s) → d ∉ id <$> steps →
      ¬ started (progress st) (id s) ∧
      (∃ r, r ∈ results st ∧ stepId r = id s ∧ unrun r) ∧
      (enabled s = true → (∀ t, cancelRequested w t = false) →
       (∀ d', d' ∈ default [] (dependsOn s) → d' ∉ id <$> steps) →
       mkResult s error 0 (Some deadlockReason) ∈ results st).
Proof.
  intros Hnd Hasync Hfuel.
  destruct (runWorkflowState_total w steps Hnd Hasync fuel Hfuel) as (st & Hrun & HF).
  exists st. split; [done|]. intros s d Hs Hd Hunk.
  assert (¬ started (progress st) (id s)) as Hns.
  { apply (final_blocked_unstarted steps st HF [s]); [|by left].
    intros s' Hs'. apply list_elem_of_singleton in Hs' as ->. eauto. }
  split_and!; [done|by apply (final_unstarted_result steps st HF)|].
  intros Hen Hnc Hall.
  destruct (stranded_deadlock w steps [s] Hnc) with (fuel := fuel)
    as (st' & Hrun' & _ & Hres); try done.
  - intros s' Hs'. by apply list_elem_of_singleton in Hs' as ->.
  - intros s' Hs'. apply list_elem_of_singleton in Hs' as ->. split.
    + intros Hnil. rewrite Hnil in Hd. by apply elem_of_nil in Hd.
    + intros d' Hd'. right. by apply Hall.
  - assert (st' = st) as -> by congruence. apply Hres. by left.
Qed.

Lemma unknown_dependency_never_runs_witness :
  NoDup (id <$> ghostSteps) ∧ settlingBodies ghostSteps ∧ length ghostSteps < 2 ∧
  ∃ st, runWorkflowState 2 ghostSteps quietWorld = Some (Returned st) ∧
    ∀ s d, s ∈ ghostSteps → d ∈ default [] (dependsOn s) → d ∉ id <$> ghostSteps →
      ¬ started (progress st) (id s) ∧
      (∃ r, r ∈ results st ∧ stepId r = id s ∧ unrun r) ∧
      (enabled s = true → (∀ t, cancelRequested quietWorld t = false) →
       (∀ d', d' ∈ default [] (dependsOn s) → d' ∉ id <$> ghostSteps) →
       mkResult s error 0 (Some deadlockReason) ∈ results st).
Proof.
  assert (length ghostSteps < 2) as Hfuel by (simpl; lia).
  split_and!; [exact ghostSteps_nodup|exact ghostSteps_settle|exact Hfuel|].
  exact (unknown_dependency_never_runs quietWorld ghostSteps 2
           ghostSteps_nodup ghostSteps_settle Hfuel).
Defined.

(** In the pipeline every step is listed after its dependencies, and the
    dependent of the failed download is [skipped]. *)
Example pipeline_dependencies_first : dependenciesFirst pipelineSteps = true.
Proof. reflexivity. Qed.

(** Listed before its dependency, a dependent misses the skip of the
    dependency in the pass that visits it, and the deadlock branch marks
    it. *)
Example dependent_listed_first_is_stranded :
  dependenciesFirst dependentFirstSteps = false ∧
  mapReturned summary <$> runWorkflow 4 dependentFirstSteps quietWorld
  = Some (Returned [("X", skipped, None);
          ("A", skipped, Some "Dependency failed");
          ("B", error, Some "Deadlock: dependencies never met")]).
Proof. split; vm_compute; reflexivity. Qed.

(** In the two-step cycle B depends on A and A ends [error], and B ends
    [error] too: both are stranded by the deadlock. *)
Example cycle_dependent_ends_error :
  mapReturned summary <$> runWorkflow 3 cycleSteps quietWorld
  = Some (Returned [("A", error, Some "Deadlock: dependencies never met");
          ("B", error, Some "Deadlock: dependencies never met")]).
Proof. vm_compute. reflexivity. Qed.

(** What the code does guarantee to the dependents of a failed step.  Over
    steps whose enabled bodies each return a promise that is fulfilled, or
    rejected with a value other than [null] and [undefined], if B depends on
    A, directly or through a chain, and A's result is [error] or [skipped],
    then B is never started and B's result is [skipped] or the deadlock
    [error]; it is [skipped] when every step is listed after the steps it
    depends on. *)
Lemma failed_dependency_blocks_dependents (w : World) (steps : list WorkflowStep)
    (fuel : nat) :
  NoDup (id <$> steps) → settlingBodies steps → length steps < fuel →
  ∃ st, runWorkflowState fuel steps w = Some (Returned st) ∧
    ∀ a b ra, dependsOnTrans steps b a →
      ra ∈ results st → stepId ra = id a →
      status ra = error ∨ status ra = skipped →
      ¬ started (progress st) (id b) ∧
      ∃ rb, rb ∈ results st ∧ stepId rb = id b ∧ unrun rb ∧
        (dependenciesFirst steps = true → status rb = skipped).
Proof.
  intros Hnd Hasync Hfuel.
  destruct (runWorkflowState_total w steps Hnd Hasync fuel Hfuel) as (st & Hrun & HF).
  exists st. split; [done|].
  assert (∀ a b ra, dependsOnTrans steps b a →
            ra ∈ results st → stepId ra = id a →
            status ra = error ∨ status ra = skipped →
            ¬ started (progress st) (id b) ∧
            ∃ rb, rb ∈ results st ∧ stepId rb = id b ∧ unrun rb) as Hblocked.
  { intros a b ra Hdep. revert ra.
    induction Hdep as [b a Ha Hb Hd|b m a _ IHbm _ IHma]; intros ra Hra Hid Hst.
    - assert (¬ started (progress st) (id b)) as Hns.
      { intros Hstarted.
        destruct (final_started_deps steps st HF b (id a) Hb Hstarted Hd)
          as (r & Hr & Hrid & Hrs).
        assert (r = ra) as -> by (eapply final_result_unique; eauto; congruence).
        destruct Hst; congruence. }
      split; [done|]. by apply (final_unstarted_result steps st HF).
    - destruct (IHma ra Hra Hid Hst) as (_ & rm & Hrm & Hrmid & Hu).
      apply (IHbm rm Hrm Hrmid). destruct Hu as [?|[? _]]; auto. }
  intros a b ra Hdep Hra Hid Hst.
  destruct (Hblocked a b ra Hdep Hra Hid Hst) as (Hns & rb & Hrb & Hrbid & Hu).
  split; [done|]. exists rb. split_and!; [done|done|done|]. intros Hord.
  destruct (ordered_unstarted_skipped w steps Hnd Hord Hasync fuel st Hrun rb Hrb)
    as [Hstarted|?]; [|done].
  rewrite Hrbid in Hstarted. done.
Qed.

(** A chain without a cycle, listed dependents first: C waits on B, B waits
    on A, and the promise of A is rejected. *)
Definition backwardChain : list WorkflowStep :=
  [ plainStep "C" true (Some ["B"]) (Returns (Fulfilled None));
    plainStep "B" true (Some ["A"]) (Returns (Fulfilled None));
    plainStep "A" true None (Returns (Rejected (Some "boom"))) ].

(** The same steps, each listed after the step it waits on. *)
Definition forwardChain : list WorkflowStep := reverse backwardChain.

(** C3 fails on [backwardChain].  A ends [error]; the pass that follows
    visits C while B is still pending, then skips B, and leaves C pending
    with nothing running, so the deadlock branch gives C the status [error]
    although no step of the chain waits on itself.  B is never started.
    Listed the other way round, the same steps end as the claim says: B and
    C are both [skipped]. *)
Theorem dependent_listed_first_ends_deadlock :
  NoDup (id <$> backwardChain) ∧
  dependenciesFirst forwardChain = true ∧
  dependsOnTrans backwardChain
    (plainStep "C" true (Some ["B"]) (Returns (Fulfilled None)))
    (plainStep "A" true None (Returns (Rejected (Some "boom")))) ∧
  (∀ fuel,
     mapReturned summary <$> runWorkflow (3 + fuel) backwardChain quietWorld
     = Some (Returned [("A", error, Some "boom");
                       ("B", skipped, Some "Dependency failed");
                       ("C", error, Some "Deadlock: dependencies never met")])) ∧
  (∀ fuel,
     mapReturned summary <$> runWorkflow (3 + fuel) forwardChain quietWorld
     = Some (Returned [("A", error, Some "boom");
                       ("B", skipped, Some "Dependency failed");
                       ("C", skipped, Some "Dependency failed")])).
Proof.
  split_and!.
  - refine (bool_decide_unpack _ _). vm_compute. exact I.
  - vm_compute. reflexivity.
  - apply dep_chain with
      (m := plainStep "B" true (Some ["A"]) (Returns (Fulfilled None))).
    + apply dep_direct; [right; left|left|left].
    + apply dep_direct; [right; right; left|right; left|left].
  - intros fuel.
    destruct (runWorkflow 3 backwardChain quietWorld) as [c|] eqn:E;
      [|by vm_compute in E].
    rewrite (runWorkflow_more_fuel quietWorld backwardChain 3 (3 + fuel) c);
      [|lia|done].
    vm_compute in E. by injection E as <-.
  - intros fuel.
    destruct (runWorkflow 3 forwardChain quietWorld) as [c|] eqn:E;
      [|by vm_compute in E].
    rewrite (runWorkflow_more_fuel quietWorld forwardChain 3 (3 + fuel) c);
      [|lia|done].
    vm_compute in E. by injection E as <-.
Qed.

(** C4, as stated, fails: A and B form a cycle of enabled steps, but A also
    depends on a disabled step, so both members end [skipped] (dependency
    failure) rather than [error]. *)
Lemma cycle_members_can_end_skipped :
  mapReturned summary <$> runWorkflow 4 cycleWithDisabledDep quietWorld
  = Some (Returned [("X", skipped, None);
          ("A", skipped, Some "Dependency failed");
          ("B", skipped, Some "Dependency failed")]).
Proof. vm_compute. reflexivity. Qed.

(** C4, amended.  [runWorkflow] returns on every list of steps with unique
    identifiers whose enabled bodies each return a promise that is
    fulfilled, or rejected with a value other than [null] and [undefined].
    The members of a set of enabled steps each of which depends on a member
    of the set (the steps of a dependency cycle) are never started and end
    [skipped] or with the deadlock [error]; when they depend only on each
    other and cancellation is never requested, every one of them ends
    [error] with the deadlock reason. *)
Theorem dependency_cycle_terminates (w : World) (steps : list WorkflowStep)
    (fuel : nat) :
  NoDup (id <$> steps) → settlingBodies steps → length steps < fuel →
  ∃ st, runWorkflowState fuel steps w = Some (Returned st) ∧
    ∀ cyc : list WorkflowStep,
      (∀ s, s ∈ cyc → s ∈ steps ∧ enabled s = true ∧
         ∃ d, d ∈ default [] (dependsOn s) ∧ d ∈ id <$> cyc) →
      (∀ s, s ∈ cyc → ¬ started (progress st) (id s) ∧
         ∃ r, r ∈ results st ∧ stepId r = id s ∧ unrun r) ∧
      ((∀ t, cancelRequested w t = false) →
       (∀ s d, s ∈ cyc → d ∈ default [] (dependsOn s) → d ∈ id <$> cyc) →
       ∀ s, s ∈ cyc → mkResult s error 0 (Some deadlockReason) ∈ results st).
Proof.
  intros Hnd Hasync Hfuel.
  destruct (runWorkflowState_total w steps Hnd Hasync fuel Hfuel) as (st & Hrun & HF).
  exists st. split; [done|]. intros cyc Hcyc. split.
  - intros s Hs. destruct (Hcyc s Hs) as (HsS & _ & _).
    assert (¬ started (progress st) (id s)) as Hns.
    { apply (final_blocked_unstarted steps st HF cyc); [|done].
      intros s' Hs'. destruct (Hcyc s' Hs') as (? & _ & d & ? & ?). eauto. }
    split; [done|]. by apply (final_unstarted_result steps st HF).
  - intros Hnc Hclosed s Hs.
    destruct (stranded_deadlock w steps cyc Hnc) with (fuel := fuel)
      as (st' & Hrun' & _ & Hres); try done.
    + intros s' Hs'. by destruct (Hcyc s' Hs') as (? & ? & _).
    + intros s' Hs'. destruct (Hcyc s' Hs') as (_ & _ & d & Hd & _). split.
      * intros Hnil. rewrite Hnil in Hd. by apply elem_of_nil in Hd.
      * intros d' Hd'. left. by eapply Hclosed.
    + assert (st' = st) as -> by congruence. by apply Hres.
Qed.

Lemma dependency_cycle_terminates_witness :
  NoDup (id <$> cycleSteps) ∧ settlingBodies cycleSteps ∧ length cycleSteps < 3 ∧
  ∃ st, runWorkflowState 3 cycleSteps quietWorld = Some (Returned st) ∧
    ∀ cyc : list WorkflowStep,
      (∀ s, s ∈ cyc → s ∈ cycleSteps ∧ enabled s = true ∧
         ∃ d, d ∈ default [] (dependsOn s) ∧ d ∈ id <$> cyc) →
      (∀ s, s ∈ cyc → ¬ started (progress st) (id s) ∧
         ∃ r, r ∈ results st ∧ stepId r = id s ∧ unrun r) ∧
      ((∀ t, cancelRequested quietWorld t = false) →
       (∀ s d, s ∈ cyc → d ∈ default [] (dependsOn s) → d ∈ id <$> cyc) →
       ∀ s, s ∈ cyc → mkResult s error 0 (Some deadlockReason) ∈ results st).
Proof.
  assert (length cycleSteps < 3) as Hfuel by (simpl; lia).
  split_and!; [exact cycleSteps_nodup|exact cycleSteps_settle|exact Hfuel|].
  exact (dependency_cycle_terminates quietWorld cycleSteps 3
           cycleSteps_nodup cycleSteps_settle Hfuel).
Defined.

(** *** Further properties of [runWorkflow] *)

(** Properties kept by every continuation of a settled body. *)
Section Preserved.
Context (w : World) (steps : list WorkflowStep) (Q : State → Prop).
Hypothesis Q_settle : ∀ P st s,
  InvP steps P st → runningPromises st !! id s = Some s → Q st →
  Q (settleStep w s st).

Lemma preserved_settleIds P ks st :
  InvP steps P st → Q st → Q (foldl (settleId w) st ks).
Proof.
  revert st. induction ks as [|k ks IH]; intros st HI H; [done|].
  cbn [foldl]. destruct (settleId_inv w steps P st k HI) as [HI1 _].
  apply IH; [done|]. unfold settleId.
  destruct (runningPromises st !! k) as [x|] eqn:E; [|done].
  destruct (inv_running _ _ _ HI _ _ E) as (-> & _).
  by apply (Q_settle P).
Qed.

Lemma preserved_awaitRace P tick st :
  InvP steps P st → Q st → Q (awaitRace w tick st).
Proof.
  intros HI H. unfold awaitRace.
  destruct (alreadySettled st); [|by apply (preserved_settleIds P)].
  destruct (inFlight st !! _) as [[k x]|] eqn:E; [|done].
  apply inFlight_lookup in E.
  destruct (inv_running _ _ _ HI _ _ E) as (-> & _).
  apply (preserved_settleIds P); [by eapply settle_inv|by apply (Q_settle P)].
Qed.

Lemma preserved_awaitAllSettled P n tick st :
  InvP steps P st → Q st → Q (awaitAllSettled n w tick st).
Proof.
  revert tick st. induction n as [|n IH]; intros tick st HI H; [done|].
  simpl. destruct (inFlight st !! _) as [[k x]|] eqn:E; [|done].
  apply inFlight_lookup in E.
  destruct (inv_running _ _ _ HI _ _ E) as (-> & _).
  apply IH; [by eapply settle_inv|by apply (Q_settle P)].
Qed.

Hypothesis Q_cancel : ∀ st s, Q st → Q (cancelStep w st s).
Hypothesis Q_clear : ∀ st, Q st → Q (clearPending st).

Lemma preserved_cancelBranch tick st :
  Inv steps st → Q st → Q (cancelBranch w tick st).
Proof.
  intros HI H. unfold cancelBranch.
  destruct (retire_all_inv w steps skipped (Some "Cancelled") "Workflow cancelled"
              _ _ (or_introl eq_refl) HI) as (H1 & _ & _).
  change (foldl (retireWith w _ _ _) st (pendingSteps st))
    with (foldl (cancelStep w) st (pendingSteps st)) in H1.
  assert (∀ P st0, Q st0 → Q (foldl (cancelStep w) st0 P)) as Hfold.
  { induction P as [|x P IH]; intros st0 H0; [done|].
    cbn [foldl]. by apply IH, Q_cancel. }
  pose proof (Q_clear _ (Hfold (pendingSteps st) st H)) as H2.
  set (st1 := clearPending _) in *.
  assert (InvP steps [] st1) as HI1 by (revert H1; by apply InvP_pending_irrel).
  case_bool_decide; [|done]. by apply (preserved_awaitAllSettled []).
Qed.

End Preserved.

(** The continuations and the marking of pending steps start nothing. *)
Lemma started_retire (w : World) st s stt e msg cnt k :
  stt ≠ running →
  started (progress (emitProgress w s stt msg cnt
                      (pushResult (mkResult s stt 0 e) (setStatus (id s) stt st)))) k →
  started (progress st) k.
Proof.
  intros Hne H. simpl in H. apply started_snoc in H as [?|[_ ?]]; [done|].
  simpl in *. congruence.
Qed.

Lemma started_settleStep (w : World) st s k :
  started (progress (settleStep w s st)) k → started (progress st) k.
Proof.
  unfold settleStep, succeedStep, failStep.
  destruct (run s) as [?|?|[v|m|?|]]; try done; simpl; intros H;
    apply started_snoc in H as [?|[_ ?]]; done.
Qed.

Lemma results_settleStep (w : World) st s r :
  r ∈ results st → r ∈ results (settleStep w s st).
Proof.
  unfold settleStep, succeedStep, failStep.
  destruct (run s) as [?|?|[v|m|?|]]; try done; simpl; intros H;
    apply elem_of_app; by left.
Qed.

Lemma step_same_id (steps : list WorkflowStep) s s' :
  NoDup (id <$> steps) → s ∈ steps → s' ∈ steps → id s = id s' → s = s'.
Proof.
  intros Hnd Hs Hs' Heq.
  apply list_elem_of_lookup in Hs as [i Hi], Hs' as [j Hj].
  assert (i = j) as ->; [|congruence].
  eapply NoDup_lookup; [exact Hnd| |];
    rewrite list_lookup_fmap; [by rewrite Hi|by rewrite Hj, Heq].
Qed.

Lemma init_results (w : World) l st :
  results (foldl (initStep w) st l) =
    results st ++
      ((λ s, mkResult s skipped 0 None) <$> filter (λ s, enabled s = false) l).
Proof.
  revert st. induction l as [|x l IH]; intros st; [by rewrite app_nil_r|].
  cbn [foldl]. rewrite IH. unfold initStep. destruct (enabled x) eqn:E.
  - rewrite filter_cons_False by (by rewrite E). done.
  - rewrite filter_cons_True by (by rewrite E). simpl. by rewrite <- app_assoc.
Qed.

Lemma init_started (w : World) l st k :
  started (progress (foldl (initStep w) st l)) k → started (progress st) k.
Proof.
  revert st. induction l as [|x l IH]; intros st; [done|].
  cbn [foldl]. intros H. apply IH in H. unfold initStep in H.
  destruct (enabled x); [done|]. by apply started_retire in H.
Qed.

(** X2.  In a completed run over steps with unique identifiers whose enabled
    bodies each return a promise that is fulfilled, or rejected with a value
    other than [null] and [undefined], a step whose body was invoked (and so every step that
    ended [success]) sees, for each identifier in its [dependsOn], a
    [success] result of that identifier earlier in the returned list. *)
Theorem started_steps_follow_dependencies (w : World) (steps : list WorkflowStep)
    (fuel : nat) :
  NoDup (id <$> steps) → settlingBodies steps → length steps < fuel →
  ∃ st, runWorkflowState fuel steps w = Some (Returned st) ∧
    ∀ i r s, results st !! i = Some r → s ∈ steps → id s = stepId r →
      started (progress st) (id s) ∨ status r = success →
      ∀ d, d ∈ default [] (dependsOn s) →
        ∃ j r', j < i ∧ results st !! j = Some r' ∧ stepId r' = d ∧
                status r' = success.
Proof.
  intros Hnd Hasync Hfuel.
  destruct (runWorkflowState_total w steps Hnd Hasync fuel Hfuel) as (st & Hrun & HF).
  exists st. split; [done|]. intros i r s Hi Hs Hid Hst d Hd.
  assert (started (progress st) (stepId r)) as Hstarted.
  { destruct Hst as [Hst|Hst]; [by rewrite <- Hid|].
    apply (final_success_started steps st HF); [|done].
    by eapply list_elem_of_lookup_2. }
  exact (inv_order _ _ _ (proj1 HF) i r s Hi Hstarted Hs Hid d Hd).
Qed.

Lemma started_steps_follow_dependencies_witness :
  NoDup (id <$> pipelineSteps) ∧ settlingBodies pipelineSteps ∧
  length pipelineSteps < 5 ∧
  ∃ st, runWorkflowState 5 pipelineSteps quietWorld = Some (Returned st) ∧
    ∀ i r s, results st !! i = Some r → s ∈ pipelineSteps → id s = stepId r →
      started (progress st) (id s) ∨ status r = success →
      ∀ d, d ∈ default [] (dependsOn s) →
        ∃ j r', j < i ∧ results st !! j = Some r' ∧ stepId r' = d ∧
                status r' = success.
Proof.
  assert (length pipelineSteps < 5) as Hfuel by (simpl; lia).
  split_and!; [exact pipelineSteps_nodup|exact pipelineSteps_settle|exact Hfuel|].
  exact (started_steps_follow_dependencies quietWorld pipelineSteps 5
           pipelineSteps_nodup pipelineSteps_settle Hfuel).
Defined.

(** Only enabled steps of the list are ever started, and the results of the
    initial pass stay in the list. *)
Definition StartsEnabledOnly (steps : list WorkflowStep)
    (R0 : list WorkflowRunResult) (st : State) : Prop :=
  (∀ k, started (progress st) k → ∃ s, s ∈ steps ∧ id s = k ∧ enabled s = true) ∧
  (∀ r, r ∈ R0 → r ∈ results st).

Lemma starts_enabled_only (w : World) (steps : list WorkflowStep) fuel st :
  NoDup (id <$> steps) → settlingBodies steps →
  runWorkflowState fuel steps w = Some (Returned st) →
  StartsEnabledOnly steps
    ((λ s, mkResult s skipped 0 None) <$> filter (λ s, enabled s = false) steps) st.
Proof.
  intros Hnd Hasync. unfold runWorkflowState.
  set (R0 := (λ s, mkResult s skipped 0 None) <$> filter (λ s, enabled s = false) steps).
  set (Q := StartsEnabledOnly steps R0).
  assert (∀ st0 s stt e msg cnt, stt ≠ running → Q st0 →
            Q (emitProgress w s stt msg cnt
                (pushResult (mkResult s stt 0 e) (setStatus (id s) stt st0))))
    as Q_retire.
  { intros st0 s stt e msg cnt Hne [H1 H2]. split.
    - intros k Hk. apply H1. by eapply started_retire.
    - intros r Hr. simpl. apply elem_of_app. left. by apply H2. }
  assert (∀ st s, Inv steps st → s ∈ pendingSteps st →
            anyDepFailed (statusById st) (default [] (dependsOn s)) = true →
            Q st → Q (skipDependent w st s)) as Q_skip.
  { intros st0 s _ _ _ H. by apply (Q_retire st0 s skipped). }
  assert (∀ st s, Inv steps st → s ∈ pendingSteps st →
            depsSuccess (statusById st) s → Q st → Q (launchStep w st s)) as Q_launch.
  { intros st0 s HI Hs _ [H1 H2].
    destruct (inv_pending _ _ _ HI s Hs) as (HsS & _ & _ & Hen).
    rewrite launchStep_async by (by apply settles_returns, (inv_async _ _ _ HI)). split.
    - intros k Hk. simpl in Hk. apply started_snoc in Hk as [Hk|[Hk _]]; [by apply H1|].
      simpl in Hk. subst k. eauto.
    - intros r Hr. simpl. by apply H2. }
  assert (∀ P st s, InvP steps P st → runningPromises st !! id s = Some s →
            Q st → Q (settleStep w s st)) as Q_settle.
  { intros P st0 s _ _ [H1 H2]. split.
    - intros k Hk. apply H1. by eapply started_settleStep.
    - intros r Hr. by apply results_settleStep, H2. }
  apply (loop_rule w (λ st, Inv steps st ∧ Q st) Q).
  - by intros st0 [_ H] _ _.
  - intros st0 tick [HI H] _.
    apply (preserved_cancelBranch w steps Q Q_settle); try done.
    intros st1 s H1. by apply (Q_retire st1 s skipped).
  - intros st0 [HI H].
    by destruct (launchReady_inv w steps Q Q_skip Q_launch st0 HI H) as (? & ? & _).
  - intros st0 [HI H] _ _. clear HI. generalize (pendingSteps st0). intros P.
    revert st0 H. induction P as [|x P IH]; intros st0 H; [done|].
    cbn [foldl]. apply IH. by apply (Q_retire st0 x error).
  - intros st0 tick [HI H] _. split.
    + unfold Inv. rewrite awaitRace_pending. by apply awaitRace_inv.
    + by apply (preserved_awaitRace w steps Q Q_settle (pendingSteps st0)).
  - split; [by apply init_Inv|]. split.
    + intros k Hk. apply init_started in Hk. destruct Hk as (e & He & _).
      by apply elem_of_nil in He.
    + intros r Hr. by rewrite init_results.
Qed.

(** X3.  In a completed run over steps with unique identifiers (the bodies of
    the enabled ones returning a promise that is fulfilled, or rejected with
    a value other than [null] and [undefined]), the body of a disabled step is
    never invoked, whatever it would do, and its result is [skipped] with a
    duration of 0 and no error text. *)
Theorem disabled_steps_never_run (w : World) (steps : list WorkflowStep)
    (fuel : nat) :
  NoDup (id <$> steps) → settlingBodies steps → length steps < fuel →
  ∃ st, runWorkflowState fuel steps w = Some (Returned st) ∧
    ∀ s, s ∈ steps → enabled s = false →
      ¬ started (progress st) (id s) ∧
      mkResult s skipped 0 None ∈ results st ∧
      ∀ r, r ∈ results st → stepId r = id s → r = mkResult s skipped 0 None.
Proof.
  intros Hnd Hasync Hfuel.
  destruct (runWorkflowState_total w steps Hnd Hasync fuel Hfuel) as (st & Hrun & HF).
  destruct (starts_enabled_only w steps fuel st Hnd Hasync Hrun) as [H1 H2].
  exists st. split; [done|]. intros s Hs Hen.
  assert (mkResult s skipped 0 None ∈ results st) as Hres.
  { apply H2. apply (list_elem_of_fmap_2 (λ s, mkResult s skipped 0 None)).
    by apply list_elem_of_filter. }
  split_and!; [|done|].
  - intros Hst. destruct (H1 _ Hst) as (s' & Hs' & Hid & Hen').
    assert (s' = s) as -> by (by apply (step_same_id steps)). congruence.
  - intros r Hr Hid. by apply (final_result_unique steps st HF).
Qed.

(** A disabled step whose body would throw, followed by a step that depends
    on nothing. *)
Definition disabledThrowingSteps : list WorkflowStep :=
  [ plainStep "off" false None (Throws (Some "boom"));
    plainStep "on" true None (Returns (Fulfilled None)) ].

Lemma disabled_steps_never_run_witness :
  NoDup (id <$> disabledThrowingSteps) ∧ settlingBodies disabledThrowingSteps ∧
  length disabledThrowingSteps < 3 ∧
  ∃ st, runWorkflowState 3 disabledThrowingSteps quietWorld = Some (Returned st) ∧
    ∀ s, s ∈ disabledThrowingSteps → enabled s = false →
      ¬ started (progress st) (id s) ∧
      mkResult s skipped 0 None ∈ results st ∧
      ∀ r, r ∈ results st → stepId r = id s → r = mkResult s skipped 0 None.
Proof.
  assert (NoDup (id <$> disabledThrowingSteps)) as Hnd
    by (refine (bool_decide_unpack _ _); vm_compute; exact I).
  assert (settlingBodies disabledThrowingSteps) as Hasync
    by (refine (bool_decide_unpack _ _); vm_compute; exact I).
  assert (length disabledThrowingSteps < 3) as Hfuel by (simpl; lia).
  split_and!; [exact Hnd|exact Hasync|exact Hfuel|].
  exact (disabled_steps_never_run quietWorld disabledThrowingSteps 3 Hnd Hasync Hfuel).
Defined.

Lemma cancelSteps_fields (w : World) P st :
  results (foldl (cancelStep w) st P) =
    results st ++ ((λ s, mkResult s skipped 0 (Some "Cancelled")) <$> P) ∧
  runningPromises (foldl (cancelStep w) st P) = runningPromises st ∧
  ∀ k, started (progress (foldl (cancelStep w) st P)) k → started (progress st) k.
Proof.
  revert st. induction P as [|x P IH]; intros st.
  { simpl. by rewrite app_nil_r. }
  cbn [foldl]. destruct (IH (cancelStep w st x)) as (H1 & H2 & H3).
  split_and!.
  - rewrite H1. simpl. by rewrite <- app_assoc.
  - by rewrite H2.
  - intros k Hk. apply H3 in Hk. by apply started_retire in Hk.
Qed.

(** A run whose [shouldCancel] answers true from the first poll on. *)
Definition cancelledWorld : World :=
  {| shouldCancel := Some (λ _, true); raceWinner := λ _, 0; raceAlso := λ _, [];
     elapsedMs := λ _, 0%Z; dateNow := λ _, 0%Z |}.

(** X4.  When [shouldCancel] answers true at its first poll, [runWorkflow]
    returns in its first iteration without invoking any body (also when a
    body would throw): the results are the disabled steps, [skipped] without
    error text, followed by the enabled steps, [skipped] with error
    [Cancelled], each group in list order. *)
Theorem cancel_before_start_runs_nothing (w : World) (steps : list WorkflowStep)
    (f : nat → bool) (fuel : nat) :
  NoDup (id <$> steps) → shouldCancel w = Some f → f 0 = true →
  ∃ st, runWorkflowState (S fuel) steps w = Some (Returned st) ∧
    results st =
      ((λ s, mkResult s skipped 0 None) <$> filter (λ s, enabled s = false) steps) ++
      ((λ s, mkResult s skipped 0 (Some "Cancelled")) <$> filter (λ s, enabled s) steps) ∧
    ∀ k, ¬ started (progress st) k.
Proof.
  intros Hnd Hf Hf0. unfold runWorkflowState.
  set (st0 := foldl (initStep w) (initState steps) steps).
  assert (pendingSteps st0 = filter (λ s, enabled s) steps) as Hp.
  { pose proof (init_pending w steps []) as H. rewrite !app_nil_r in H. by apply H. }
  assert (runningPromises st0 = ∅) as Hr by apply init_running.
  assert (results st0 =
            (λ s, mkResult s skipped 0 None) <$> filter (λ s, enabled s = false) steps)
    as Hres by apply init_results.
  assert (∀ k, ¬ started (progress st0) k) as Hst.
  { intros k Hk. apply init_started in Hk. destruct Hk as (e & He & _).
    by apply elem_of_nil in He. }
  cbn [loop]. case_bool_decide as Hexit.
  - exists st0. split; [done|]. split; [|done].
    destruct Hexit as [Hlen _]. apply nil_length_inv in Hlen.
    rewrite Hres, <- Hp, Hlen. simpl. by rewrite app_nil_r.
  - assert (cancelRequested w 0 = true) as -> by (unfold cancelRequested; by rewrite Hf).
    assert (staysPending st0 = false) as ->
      by (unfold staysPending; by rewrite Hr, map_to_list_empty).
    eexists. split; [reflexivity|]. unfold cancelBranch.
    destruct (cancelSteps_fields w (pendingSteps st0) st0) as (H1 & H2 & H3).
    rewrite bool_decide_eq_false_2.
    2:{ simpl. rewrite H2, Hr, map_size_empty. lia. }
    simpl. split.
    + by rewrite H1, Hres, Hp.
    + intros k Hk. by apply H3, Hst in Hk.
Qed.

Lemma cancel_before_start_runs_nothing_witness :
  NoDup (id <$> throwingSteps) ∧
  shouldCancel cancelledWorld = Some (λ _, true) ∧
  ∃ st, runWorkflowState 1 throwingSteps cancelledWorld = Some (Returned st) ∧
    results st =
      ((λ s, mkResult s skipped 0 None)
         <$> filter (λ s, enabled s = false) throwingSteps) ++
      ((λ s, mkResult s skipped 0 (Some "Cancelled"))
         <$> filter (λ s, enabled s) throwingSteps) ∧
    ∀ k, ¬ started (progress st) k.
Proof.
  assert (NoDup (id <$> throwingSteps)) as Hnd
    by (refine (bool_decide_unpack _ _); vm_compute; exact I).
  split_and!; [exact Hnd|reflexivity|].
  exact (cancel_before_start_runs_nothing cancelledWorld throwingSteps (λ _, true) 0
           Hnd eq_refl eq_refl).
Defined.

(** The promise returned by the body is fulfilled. *)
Definition fulfils (b : Body) : bool :=
  match b with
  | Returns (Fulfilled _) => true
  | _ => false
  end.

(** No step has failed or been skipped so far. *)
Definition AllWell (st : State) : Prop :=
  (∀ k v, statusById st !! k = Some v → v ≠ error ∧ v ≠ skipped) ∧
  (∀ r, r ∈ results st → status r = success ∧ r_error r = None).

Lemma all_well_run (w : World) (steps : list WorkflowStep) fuel st :
  NoDup (id <$> steps) →
  Forall (λ s, enabled s = true ∧ fulfils (run s) = true) steps →
  dependenciesFirst steps = true →
  (∀ t, cancelRequested w t = false) →
  runWorkflowState fuel steps w = Some (Returned st) → AllWell st.
Proof.
  intros Hnd Hgood Hord Hnc. unfold runWorkflowState.
  assert (settlingBodies steps) as Hasync.
  { unfold settlingBodies. eapply Forall_impl; [exact Hgood|].
    intros s [_ Hf] _. by destruct (run s) as [?|?|[?|?|?|]]. }
  set (Q := λ st, AllWell st ∧ pendingSteps st `sublist_of` steps).
  assert (∀ st s, Inv steps st → s ∈ pendingSteps st →
            anyDepFailed (statusById st) (default [] (dependsOn s)) = true →
            Q st → Q (skipDependent w st s)) as Q_skip.
  { intros st0 s _ _ Hf [[H1 _] _]. exfalso.
    apply anyDepFailed_spec in Hf as (d & _ & [Hd|Hd]);
      destruct (H1 _ _ Hd); done. }
  assert (∀ st s, Inv steps st → s ∈ pendingSteps st →
            depsSuccess (statusById st) s → Q st → Q (launchStep w st s)) as Q_launch.
  { intros st0 s HI Hs _ [[H1 H2] H3].
    destruct (inv_pending _ _ _ HI s Hs) as (HsS & _ & _ & Hen).
    split; [|rewrite launchStep_pending; etrans; [apply sublist_filter|done]].
    rewrite launchStep_async by (by apply settles_returns, (inv_async _ _ _ HI)). split.
    - intros k v Hk. simpl in Hk.
      apply lookup_insert_Some in Hk as [[_ <-]|[_ Hk]]; [done|by apply (H1 k)].
    - intros r Hr. by apply H2. }
  assert (∀ P st s, InvP steps P st → runningPromises st !! id s = Some s →
            AllWell st → AllWell (settleStep w s st)) as Q_settle.
  { intros P st0 s HI Hs [H1 H2].
    destruct (inv_running _ _ _ HI _ _ Hs) as (_ & HsS & _).
    destruct (proj1 (Forall_forall _ _) Hgood s HsS) as [_ Hf].
    unfold settleStep, succeedStep. destruct (run s) as [?|?|[v|?|?|]]; try done.
    split.
    - intros k x Hk. simpl in Hk.
      apply lookup_insert_Some in Hk as [[_ <-]|[_ Hk]]; [done|by apply (H1 k)].
    - intros r Hr. simpl in Hr. apply elem_of_app in Hr as [Hr|Hr]; [by apply H2|].
      by apply list_elem_of_singleton in Hr as ->. }
  apply (loop_rule2 w (λ st, Inv steps st ∧ Q st)
           (λ st, (Inv steps st ∧ Q st) ∧ Settled st) AllWell).
  - by intros st0 (_ & H & _) _ _.
  - intros st0 tick _ Hc. by rewrite Hnc in Hc.
  - intros st0 (HI & H & Hsub).
    destruct (launchReady_inv w steps Q Q_skip Q_launch st0 HI (conj H Hsub))
      as (HI2 & HQ2 & _).
    split; [done|]. by apply (launchReady_settled w steps Hnd Hord).
  - intros st0 ((HI & H & Hsub) & Hset) Hr Hne. exfalso. apply Hne.
    by apply (settled_no_deadlock steps Hnd Hord).
  - by intros st0 ((_ & H & _) & _) _ _.
  - intros st0 tick ((HI & H & Hsub) & _) _. split; [|split].
    + unfold Inv. rewrite awaitRace_pending. by apply awaitRace_inv.
    + by apply (preserved_awaitRace w steps AllWell Q_settle (pendingSteps st0)).
    + by rewrite awaitRace_pending.
  - split; [|split].
    + by apply init_Inv.
    + split.
      * assert (∀ l st0,
                  (∀ s, s ∈ l → enabled s = true) →
                  (∀ k v, statusById st0 !! k = Some v → v ≠ error ∧ v ≠ skipped) →
                  ∀ k v, statusById (foldl (initStep w) st0 l) !! k = Some v →
                         v ≠ error ∧ v ≠ skipped) as Hinit.
        { induction l as [|x l IH]; intros st0 Hen H0; [done|].
          cbn [foldl]. apply IH; [intros y Hy; apply Hen; by right|].
          unfold initStep. rewrite (Hen x) by left. intros k v Hk. simpl in Hk.
          apply lookup_insert_Some in Hk as [[_ <-]|[_ Hk]]; [done|by apply (H0 k)]. }
        apply Hinit.
        -- intros y Hy. by destruct (proj1 (Forall_forall _ _) Hgood y Hy).
        -- intros k v Hk. simpl in Hk. by rewrite lookup_empty in Hk.
      * intros r Hr. rewrite init_results in Hr. simpl in Hr.
        apply list_elem_of_fmap_1 in Hr as (y & _ & Hy).
        apply list_elem_of_filter in Hy as [Hen Hy].
        destruct (proj1 (Forall_forall _ _) Hgood y Hy). congruence.
    + pose proof (init_pending w steps [] ) as HP. rewrite !app_nil_r in HP.
      rewrite HP by done. apply sublist_filter.
Qed.

(** X5.  When every step is enabled, is listed after the steps it depends on
    and has a body whose promise is fulfilled, and cancellation is never
    requested, the run returns one result per step and every result is
    [success] without error text. *)
Theorem ordered_fulfilled_steps_all_succeed (w : World) (steps : list WorkflowStep)
    (fuel : nat) :
  NoDup (id <$> steps) →
  Forall (λ s, enabled s = true ∧ fulfils (run s) = true) steps →
  dependenciesFirst steps = true →
  (∀ t, cancelRequested w t = false) →
  length steps < fuel →
  ∃ rs, runWorkflow fuel steps w = Some (Returned rs) ∧
        stepId <$> rs ≡ₚ id <$> steps ∧
        Forall (λ r, status r = success ∧ r_error r = None) rs.
Proof.
  intros Hnd Hgood Hord Hnc Hfuel.
  assert (settlingBodies steps) as Hasync.
  { unfold settlingBodies. eapply Forall_impl; [exact Hgood|].
    intros s [_ Hf] _. by destruct (run s) as [?|?|[?|?|?|]]. }
  destruct (runWorkflowState_total w steps Hnd Hasync fuel Hfuel) as (st & Hrun & HF).
  destruct (all_well_run w steps fuel st Hnd Hgood Hord Hnc Hrun) as [_ H2].
  exists (results st). split_and!.
  - unfold runWorkflow. by rewrite Hrun.
  - by apply final_results_perm.
  - by apply Forall_forall.
Qed.

(** The pipeline of the example scenario with every download succeeding. *)
Definition healthySteps : list WorkflowStep :=
  [ plainStep "open" true None (Returns (Fulfilled None));
    plainStep "downloadA" true (Some ["open"]) (Returns (Fulfilled None));
    plainStep "downloadB" true (Some ["open"]) (Returns (Fulfilled None));
    plainStep "merge" true (Some ["downloadA"; "downloadB"]) (Returns (Fulfilled None)) ].

Lemma ordered_fulfilled_steps_all_succeed_witness :
  NoDup (id <$> healthySteps) ∧
  Forall (λ s, enabled s = true ∧ fulfils (run s) = true) healthySteps ∧
  dependenciesFirst healthySteps = true ∧
  (∀ t, cancelRequested quietWorld t = false) ∧
  length healthySteps < 5 ∧
  ∃ rs, runWorkflow 5 healthySteps quietWorld = Some (Returned rs) ∧
        stepId <$> rs ≡ₚ id <$> healthySteps ∧
        Forall (λ r, status r = success ∧ r_error r = None) rs.
Proof.
  assert (NoDup (id <$> healthySteps)) as Hnd
    by (refine (bool_decide_unpack _ _); vm_compute; exact I).
  assert (Forall (λ s, enabled s = true ∧ fulfils (run s) = true) healthySteps) as Hgood
    by (repeat constructor).
  assert (∀ t, cancelRequested quietWorld t = false) as Hnc by done.
  assert (length healthySteps < 5) as Hfuel by (simpl; lia).
  split_and!; [exact Hnd|exact Hgood|reflexivity|exact Hnc|exact Hfuel|].
  exact (ordered_fulfilled_steps_all_succeed quietWorld healthySteps 5
           Hnd Hgood eq_refl Hnc Hfuel).
Defined.

(** *** What a result says about the body *)

(** The result recorded by the closure of a step: [success] when the
    promise of the body was fulfilled; [error], with the message of the
    error or 'Unknown error', when the body threw or its promise was rejected
    with a value other than [null] and [undefined]; and none when the value
    thrown or rejected with is [null] or [undefined], or when the promise
    never settles. *)
Definition bodyResult (w : World) (s : WorkflowStep) : option WorkflowRunResult :=
  match run s with
  | Returns (Fulfilled _) => Some (mkResult s success (elapsedMs w (id s)) None)
  | Returns (Rejected m) | Throws m =>
      Some (mkResult s error (elapsedMs w (id s)) (Some (default "Unknown error" m)))
  | Returns (RejectedNullish _) | Returns NeverSettles | ThrowsNullish _ => None
  end.

(** The result of every step started so far is the one its body gave. *)
Definition Reported (w : World) (steps : list WorkflowStep) (st : State) : Prop :=
  ∀ r s, r ∈ results st → s ∈ steps → id s = stepId r →
         started (progress st) (id s) → bodyResult w s = Some r.

(** Properties kept when a pending step is marked without having run. *)
Section Retired.
Context (w : World) (steps : list WorkflowStep) (Q : State → Prop).
Hypothesis Q_retire : ∀ P st x stt e msg,
  InvP steps P st → x ∈ P →
  stt = skipped ∨ (stt = error ∧ e = Some deadlockReason) →
  Q st → Q (retireWith w stt e msg st x).

Lemma kept_retire_all stt e msg P st :
  stt = skipped ∨ (stt = error ∧ e = Some deadlockReason) →
  InvP steps P st → Q st → Q (foldl (retireWith w stt e msg) st P).
Proof.
  intros Hstt. revert st. induction P as [|x P IH]; intros st HI H; [done|].
  pose proof (inv_pending_nodup _ _ _ HI) as Hnd.
  rewrite fmap_cons in Hnd. apply NoDup_cons in Hnd as [Hx _].
  assert (x ∈ x :: P) as Hin by left.
  pose proof (retire_inv w steps _ _ x stt e msg None HI Hin Hstt) as Hr.
  rewrite filter_cons_False in Hr by (intros Hne; by apply Hne).
  rewrite filter_id_other in Hr by done.
  cbn [foldl]. apply IH; [exact Hr|]. by apply (Q_retire (x :: P)).
Qed.

Hypothesis Q_settle : ∀ P st s,
  InvP steps P st → runningPromises st !! id s = Some s → Q st →
  Q (settleStep w s st).
Hypothesis Q_clear : ∀ st, Q st → Q (clearPending st).

Lemma kept_cancelBranch tick st :
  Inv steps st → Q st → Q (cancelBranch w tick st).
Proof.
  intros HI H. unfold cancelBranch.
  destruct (retire_all_inv w steps skipped (Some "Cancelled") "Workflow cancelled"
              _ _ (or_introl eq_refl) HI) as (H1 & _ & _).
  pose proof (kept_retire_all skipped (Some "Cancelled") "Workflow cancelled"
                _ _ (or_introl eq_refl) HI H) as H2.
  change (foldl (retireWith w _ _ _) st (pendingSteps st))
    with (foldl (cancelStep w) st (pendingSteps st)) in H1, H2.
  apply Q_clear in H2. set (st1 := clearPending _) in *.
  assert (InvP steps [] st1) as HI1 by (revert H1; by apply InvP_pending_irrel).
  case_bool_decide; [|done].
  by apply (preserved_awaitAllSettled w steps Q Q_settle []).
Qed.

Lemma kept_deadlock st :
  Inv steps st → Q st → Q (foldl (deadlockStep w) st (pendingSteps st)).
Proof.
  intros HI H.
  exact (kept_retire_all error (Some deadlockReason) "Deadlock detected"
           _ _ (or_intror (conj eq_refl eq_refl)) HI H).
Qed.

End Retired.

Section ReportedRun.
Context (w : World) (steps : list WorkflowStep).
Hypothesis steps_nodup : NoDup (id <$> steps).

Lemma reported_retire P st x stt e msg :
  InvP steps P st → x ∈ P →
  stt = skipped ∨ (stt = error ∧ e = Some deadlockReason) →
  Reported w steps st → Reported w steps (retireWith w stt e msg st x).
Proof.
  intros HI Hx Hstt HR r s Hr Hs Hid Hst.
  assert (stt ≠ running) as Hne by (destruct Hstt as [->|[-> _]]; done).
  apply started_retire in Hst; [|done]. simpl in Hr.
  apply elem_of_app in Hr as [Hr|Hr]; [by apply HR|].
  apply list_elem_of_singleton in Hr as ->. simpl in Hid. exfalso.
  destruct (inv_pending _ _ _ HI x Hx) as (_ & _ & Hn & _). apply Hn. by rewrite <- Hid.
Qed.

Lemma reported_launch st x :
  Inv steps st → x ∈ pendingSteps st →
  Reported w steps st → Reported w steps (launchStep w st x).
Proof.
  intros HI Hx HR r s Hr Hs Hid Hst.
  destruct (inv_pending _ _ _ HI x Hx) as (HxS & _ & _ & Hen).
  rewrite launchStep_async in Hr, Hst
    by (by apply settles_returns, (inv_async _ _ _ HI)).
  simpl in Hr, Hst. apply started_snoc in Hst as [Hst|[Hk _]]; [by apply HR|].
  simpl in Hk. exfalso.
  apply (inv_pending_not_result steps _ _ _ _ HI Hx Hr). congruence.
Qed.

Lemma reported_settle P st x :
  InvP steps P st → runningPromises st !! id x = Some x →
  Reported w steps st → Reported w steps (settleStep w x st).
Proof.
  intros HI Hx HR r s Hr Hs Hid Hst.
  destruct (inv_running _ _ _ HI _ _ Hx) as (_ & HxS & _ & _ & Hasync).
  apply started_settleStep in Hst.
  assert (∃ r0, bodyResult w x = Some r0 ∧ stepId r0 = id x ∧
                results (settleStep w x st) = results st ++ [r0])
    as (r0 & Hbody & Hbid & Hres).
  { unfold settleStep, bodyResult, succeedStep, failStep.
    destruct (run x) as [?|?|[v|m|?|]]; try done; by eexists. }
  rewrite Hres in Hr. apply elem_of_app in Hr as [Hr|Hr]; [by apply HR|].
  apply list_elem_of_singleton in Hr as ->.
  assert (s = x) as -> by (apply (step_same_id steps); congruence). done.
Qed.

Lemma reported_run fuel st :
  settlingBodies steps → runWorkflowState fuel steps w = Some (Returned st) → Reported w steps st.
Proof.
  intros Hasync. unfold runWorkflowState.
  apply (loop_rule w (λ st, Inv steps st ∧ Reported w steps st) (Reported w steps)).
  - by intros st0 [_ H] _ _.
  - intros st0 tick [HI H] _.
    apply (kept_cancelBranch w steps (Reported w steps)); try done.
    + apply reported_retire.
    + apply reported_settle.
  - intros st0 [HI H].
    destruct (launchReady_inv w steps (Reported w steps)) with (st := st0)
      as (? & ? & _); try done.
    + intros st1 x HI1 Hx _ H1.
      by apply (reported_retire (pendingSteps st1) st1 x skipped
                  (Some "Dependency failed") "Skipped due to dependency failure");
        [| |left|].
    + intros st1 x HI1 Hx _ H1. by apply reported_launch.
  - intros st0 [HI H] _ _.
    apply (kept_deadlock w steps (Reported w steps)); try done. apply reported_retire.
  - intros st0 tick [HI H] _. split.
    + unfold Inv. rewrite awaitRace_pending. by apply awaitRace_inv.
    + apply (preserved_awaitRace w steps (Reported w steps)) with (P := pendingSteps st0);
        [apply reported_settle|done|done].
  - split; [by apply init_Inv|]. intros r s Hr Hs Hid Hst.
    apply init_started in Hst. destruct Hst as (e & He & _). by apply elem_of_nil in He.
Qed.

End ReportedRun.

(** X23.  In a completed run over steps with unique identifiers whose enabled
    bodies each return a promise that is fulfilled, or rejected with a value
    other than [null] and [undefined], the result of a step tells what its
    body did: when the
    body was invoked the result is [success] if its promise was fulfilled
    and [error], with the message of the error or 'Unknown error', if it was
    rejected, with the measured duration; when the body was never invoked
    the result is [skipped], or [error] with the deadlock reason. *)
Theorem result_reports_body_outcome (w : World) (steps : list WorkflowStep)
    (fuel : nat) :
  NoDup (id <$> steps) → settlingBodies steps → length steps < fuel →
  ∃ st, runWorkflowState fuel steps w = Some (Returned st) ∧
    ∀ r s, r ∈ results st → s ∈ steps → id s = stepId r →
      (started (progress st) (id s) → bodyResult w s = Some r) ∧
      (¬ started (progress st) (id s) → unrun r).
Proof.
  intros Hnd Hasync Hfuel.
  destruct (runWorkflowState_total w steps Hnd Hasync fuel Hfuel) as (st & Hrun & HF).
  exists st. split; [done|]. intros r s Hr Hs Hid. split.
  - intros Hst. by apply (reported_run w steps Hnd fuel st Hasync Hrun).
  - intros Hn. apply (final_unstarted_unrun steps st HF r Hr). by rewrite <- Hid.
Qed.

(** A download that fails between two steps that succeed. *)
Definition mixedSteps : list WorkflowStep :=
  [ plainStep "open" true None (Returns (Fulfilled None));
    plainStep "download" true (Some ["open"]) (Returns (Rejected (Some "no files")));
    plainStep "merge" true (Some ["download"]) (Returns (Fulfilled None)) ].

Lemma result_reports_body_outcome_witness :
  NoDup (id <$> mixedSteps) ∧ settlingBodies mixedSteps ∧ length mixedSteps < 4 ∧
  ∃ st, runWorkflowState 4 mixedSteps quietWorld = Some (Returned st) ∧
    ∀ r s, r ∈ results st → s ∈ mixedSteps → id s = stepId r →
      (started (progress st) (id s) → bodyResult quietWorld s = Some r) ∧
      (¬ started (progress st) (id s) → unrun r).
Proof.
  assert (NoDup (id <$> mixedSteps)) as Hnd
    by (refine (bool_decide_unpack _ _); vm_compute; exact I).
  assert (settlingBodies mixedSteps) as Hasync by (repeat constructor).
  assert (length mixedSteps < 4) as Hfuel by (simpl; lia).
  split_and!; [exact Hnd|exact Hasync|exact Hfuel|].
  exact (result_reports_body_outcome quietWorld mixedSteps 4 Hnd Hasync Hfuel).
Defined.

(** *** Steps that wait on nothing *)

Lemma started_kept_retire (w : World) stt e msg st x k :
  started (progress st) k → started (progress (retireWith w stt e msg st x)) k.
Proof. intros H. simpl. apply started_snoc. by left. Qed.

Lemma started_kept_settle (w : World) st x k :
  started (progress st) k → started (progress (settleStep w x st)) k.
Proof.
  intros H. unfold settleStep, succeedStep, failStep.
  destruct (run x) as [?|?|[v|m|?|]]; try done; simpl; apply started_snoc; by left.
Qed.

Lemma started_kept_launch (w : World) st x k :
  started (progress st) k → started (progress (launchStep w st x)) k.
Proof.
  intros H. unfold launchStep, failStep.
  destruct (run x) as [m|?|?]; simpl; repeat (apply started_snoc; left); done.
Qed.

Lemma started_by_launch (w : World) st x :
  started (progress (launchStep w st x)) (id x).
Proof.
  unfold launchStep, failStep. destruct (run x) as [m|?|?]; simpl.
  - apply started_snoc. left. apply started_snoc. by right.
  - apply started_snoc. by right.
  - apply started_snoc. by right.
Qed.

Lemma started_launch_all (w : World) ready st s :
  s ∈ ready ∨ started (progress st) (id s) →
  started (progress (foldl (launchStep w) st ready)) (id s).
Proof.
  revert st. induction ready as [|x ready IH]; intros st Hs.
  { destruct Hs as [Hs|?]; [by apply elem_of_nil in Hs|done]. }
  cbn [foldl]. apply IH. destruct Hs as [Hs|Hs].
  - apply elem_of_cons in Hs as [->|Hs]; [right; apply started_by_launch|by left].
  - right. by apply started_kept_launch.
Qed.

Lemma started_kept_loop (w : World) (steps : list WorkflowStep) k fuel tick st st' :
  Inv steps st → started (progress st) k →
  loop fuel w tick st = Some (Returned st') → started (progress st') k.
Proof.
  intros HI Hst.
  set (Q := λ st : State, started (progress st) k).
  assert (∀ P st0 x, InvP steps P st0 → runningPromises st0 !! id x = Some x →
            Q st0 → Q (settleStep w x st0)) as Q_settle
    by (intros P st0 x _ _ H; by apply started_kept_settle).
  apply (loop_rule w (λ st, Inv steps st ∧ Q st) Q); [| | | | |by split].
  - by intros st0 [_ H] _ _.
  - intros st0 tick0 [HI0 H] _.
    apply (preserved_cancelBranch w steps Q Q_settle); try done.
    intros st1 x H1. by apply (started_kept_retire w skipped).
  - intros st0 [HI0 H].
    destruct (launchReady_inv w steps Q) with (st := st0) as (? & ? & _); try done.
    + intros st1 x _ _ _ H1. by apply (started_kept_retire w skipped).
    + intros st1 x _ _ _ H1. by apply started_kept_launch.
  - intros st0 [HI0 H] _ _. clear HI0. generalize (pendingSteps st0). intros P.
    revert st0 H. induction P as [|x P IH]; intros st0 H; [done|].
    cbn [foldl]. apply IH. by apply (started_kept_retire w error).
  - intros st0 tick0 [HI0 H] _. split.
    + unfold Inv. rewrite awaitRace_pending. by apply awaitRace_inv.
    + by apply (preserved_awaitRace w steps Q Q_settle (pendingSteps st0)).
Qed.

(** An enabled step that waits on nothing is launched in the first
    iteration, unless cancellation is requested before. *)
Lemma free_step_started (w : World) (steps : list WorkflowStep) (s : WorkflowStep)
    fuel st :
  NoDup (id <$> steps) → settlingBodies steps →
  s ∈ steps → enabled s = true → default [] (dependsOn s) = [] →
  cancelRequested w 0 = false →
  runWorkflowState fuel steps w = Some (Returned st) → started (progress st) (id s).
Proof.
  intros Hnd Hasync Hs Hen Hfree Hnc. unfold runWorkflowState.
  set (st0 := foldl (initStep w) (initState steps) steps).
  pose proof (init_Inv w steps Hnd Hasync) as HI0. fold st0 in HI0.
  assert (pendingSteps st0 = filter (λ s, enabled s) steps) as Hp.
  { pose proof (init_pending w steps []) as H. rewrite !app_nil_r in H. by apply H. }
  assert (s ∈ pendingSteps st0) as Hsp.
  { rewrite Hp. apply list_elem_of_filter. by rewrite Hen. }
  destruct fuel as [|fuel]; [done|]. cbn [loop].
  rewrite bool_decide_eq_false_2.
  2:{ intros [Hl _]. apply nil_length_inv in Hl. rewrite Hl in Hsp.
      by apply elem_of_nil in Hsp. }
  rewrite Hnc. cbv zeta.
  assert (started (progress (launchReady w st0)) (id s)) as Hst.
  { unfold launchReady, findReady. apply started_launch_all. left.
    destruct (first_scan w s Hfree (pendingSteps st0) st0 []) as (_ & H & _);
      [apply (inv_pending_nodup _ _ _ HI0)|by right|done]. }
  destruct (launchReady_inv w steps (λ _, True) (λ _ _ _ _ _ _, I) (λ _ _ _ _ _ _, I)
              st0 HI0 I) as (HI2 & _ & _).
  set (st2 := launchReady w st0) in *.
  case_bool_decide.
  { intros [= <-]. clear HI2. generalize (pendingSteps st2). intros P.
    revert Hst. generalize st2. induction P as [|x P IH]; intros st1 H1; [done|].
    cbn [foldl]. apply IH. by apply (started_kept_retire w error). }
  case_bool_decide; [by intros [= <-]|].
  case_bool_decide as Hsz; [|exfalso; lia].
  rewrite (raceEnd_resolves w steps _ 0 _ HI2 Hsz).
  apply (started_kept_loop w steps).
  - unfold Inv. rewrite awaitRace_pending. by apply awaitRace_inv.
  - apply (preserved_awaitRace w steps (λ st, started (progress st) (id s)))
      with (P := pendingSteps st2); [|done|done].
    intros P st1 x _ _ Hx. by apply started_kept_settle.
Qed.

(** X24.  Over steps with unique identifiers whose enabled bodies each
    return a promise that is fulfilled, or rejected with a value other than
    [null] and [undefined], the run returns, and an enabled step that waits
    on nothing is launched in the first iteration of the loop, unless
    cancellation is requested at the first poll; its result is then the
    outcome of its body. *)
Theorem independent_step_settles_as_its_body (w : World)
    (steps : list WorkflowStep) (s : WorkflowStep) (fuel : nat) :
  NoDup (id <$> steps) → settlingBodies steps →
  s ∈ steps → enabled s = true → default [] (dependsOn s) = [] →
  cancelRequested w 0 = false → length steps < fuel →
  ∃ st r, runWorkflowState fuel steps w = Some (Returned st) ∧
          started (progress st) (id s) ∧
          bodyResult w s = Some r ∧ r ∈ results st.
Proof.
  intros Hnd Hasync Hs Hen Hfree Hnc Hfuel.
  destruct (runWorkflowState_total w steps Hnd Hasync fuel Hfuel) as (st & Hrun & HF).
  pose proof (free_step_started w steps s fuel st Hnd Hasync Hs Hen Hfree Hnc Hrun)
    as Hst.
  destruct (final_result_exists steps st HF s Hs) as (r & Hr & Hid).
  exists st, r. split_and!; [done|done| |done].
  exact (reported_run w steps Hnd fuel st Hasync Hrun r s Hr Hs (eq_sym Hid) Hst).
Qed.

Lemma independent_step_settles_as_its_body_witness :
  NoDup (id <$> mixedSteps) ∧ settlingBodies mixedSteps ∧
  plainStep "open" true None (Returns (Fulfilled None)) ∈ mixedSteps ∧
  cancelRequested quietWorld 0 = false ∧ length mixedSteps < 4 ∧
  ∃ st r, runWorkflowState 4 mixedSteps quietWorld = Some (Returned st) ∧
          started (progress st) "open" ∧
          bodyResult quietWorld (plainStep "open" true None (Returns (Fulfilled None)))
            = Some r ∧
          r ∈ results st.
Proof.
  assert (NoDup (id <$> mixedSteps)) as Hnd
    by (refine (bool_decide_unpack _ _); vm_compute; exact I).
  assert (settlingBodies mixedSteps) as Hasync by (repeat constructor).
  assert (plainStep "open" true None (Returns (Fulfilled None)) ∈ mixedSteps) as Hin
    by left.
  assert (length mixedSteps < 4) as Hfuel by (simpl; lia).
  split_and!; [exact Hnd|exact Hasync|exact Hin|reflexivity|exact Hfuel|].
  exact (independent_step_settles_as_its_body quietWorld mixedSteps
           (plainStep "open" true None (Returns (Fulfilled None))) 4
           Hnd Hasync Hin eq_refl eq_refl eq_refl Hfuel).
Defined.

End Workflow.

(** ** Task registry ([startTask], [stopTask], [cancelAllTasks]) *)
Module TaskRegistry.

Inductive TaskType := prompts | download | pipeline.

(** An [AbortController] is an object shared between the registry and every
    holder of its signal.  Controllers live in a store indexed by allocation
    order; the store cell is [signal.aborted], and a signal is the index of
    its controller. *)
Definition Signal := nat.

Record ActiveTask := {
  type : TaskType;
  controller : Signal;
  startTime : Z
}.

(** The module-level [registry] map and the controller store. *)
Record State := {
  registry : gmap string ActiveTask;
  controllers : list bool
}.

Definition empty : State := {| registry := ∅; controllers := [] |}.

(** [controller.abort()] *)
Definition abort (c : Signal) (cs : list bool) : list bool := <[c := true]> cs.

Definition stopTask (sessionId : string) (st : State) : State :=
  match registry st !! sessionId with
  | Some task =>
      {| registry := delete sessionId (registry st);
         controllers := abort (controller task) (controllers st) |}
  | None => st
  end.

(** [startTask] returns the new state and the signal of the new controller;
    [now] is [Date.now()]. *)
Definition startTask (sessionId : string) (ty : TaskType) (now : Z) (st : State)
    : State * Signal :=
  let st1 :=
    if bool_decide (is_Some (registry st !! sessionId))
    then stopTask sessionId st else st in
  let c := length (controllers st1) in
  ({| registry :=
        <[sessionId := {| type := ty; controller := c; startTime := now |}]>
          (registry st1);
      controllers := controllers st1 ++ [false] |}, c).

(** The body of the loop of [cancelAllTasks], run on every entry. *)
Definition cancelEntry (st : State) (entry : string * ActiveTask) : State :=
  {| registry := delete entry.1 (registry st);
     controllers := abort (controller entry.2) (controllers st) |}.

Definition cancelAllTasks (st : State) : State :=
  foldl cancelEntry st (map_to_list (registry st)).

Definition isTaskRunning (sessionId : string) (st : State) : bool :=
  bool_decide (is_Some (registry st !! sessionId)).

Definition getRunningTaskType (sessionId : string) (st : State) : option TaskType :=
  type <$> registry st !! sessionId.

(** [signal.aborted] *)
Definition aborted (c : Signal) (st : State) : bool :=
  default false (controllers st !! c).

(** Calls made on the registry by the rest of the application. *)
Inductive Call :=
  | StartTask (sessionId : string) (ty : TaskType) (now : Z)
  | StopTask (sessionId : string)
  | CancelAllTasks.

(** Running a sequence of calls; the second component collects every signal
    handed out by [startTask], with the entity it was handed out for. *)
Definition call (acc : State * list (string * Signal)) (c : Call)
    : State * list (string * Signal) :=
  match c with
  | StartTask sid ty now =>
      let r := startTask sid ty now acc.1 in (r.1, acc.2 ++ [(sid, r.2)])
  | StopTask sid => (stopTask sid acc.1, acc.2)
  | CancelAllTasks => (cancelAllTasks acc.1, acc.2)
  end.

Definition exec (calls : list Call) : State * list (string * Signal) :=
  foldl call (empty, []) calls.

(** Every registered controller is live and was handed out to its entity;
    a handed-out signal that is not aborted is the registered one; and no
    controller is handed out twice. *)
Record Inv (st : State) (issued : list (string * Signal)) : Prop := {
  inv_registered : ∀ sid task, registry st !! sid = Some task →
    controllers st !! controller task = Some false ∧ (sid, controller task) ∈ issued;
  inv_issued : ∀ sid c, (sid, c) ∈ issued →
    c < length (controllers st) ∧
    (controllers st !! c = Some false →
     ∃ task, registry st !! sid = Some task ∧ controller task = c);
  inv_owner : ∀ sid sid' c, (sid, c) ∈ issued → (sid', c) ∈ issued → sid = sid'
}.

Lemma inv_empty : Inv empty [].
Proof.
  constructor; simpl.
  - intros sid task H. by rewrite lookup_empty in H.
  - intros sid c H. by apply elem_of_nil in H.
  - intros sid sid' c H. by apply elem_of_nil in H.
Qed.

(** Aborting the controller of entity [sid] and removing its entry. *)
Lemma inv_remove st issued sid task :
  Inv st issued → registry st !! sid = Some task →
  Inv {| registry := delete sid (registry st);
         controllers := abort (controller task) (controllers st) |} issued.
Proof.
  intros HI Hreg. destruct (inv_registered _ _ HI _ _ Hreg) as [Hlive Hiss].
  constructor; simpl; unfold abort.
  - intros k t Hk. apply lookup_delete_Some in Hk as [Hne Hk].
    destruct (inv_registered _ _ HI _ _ Hk) as [Hl Hi]. split; [|done].
    rewrite list_lookup_insert_ne; [done|]. intros Heq. apply Hne.
    rewrite Heq in Hiss. by eapply inv_owner.
  - intros k c Hk. destruct (inv_issued _ _ HI _ _ Hk) as [Hlt Hl].
    rewrite length_insert. split; [done|]. intros Hc.
    destruct (decide (controller task = c)) as [<-|Hne].
    + rewrite list_lookup_insert_eq in Hc by done. done.
    + rewrite list_lookup_insert_ne in Hc by done.
      destruct (Hl Hc) as (t & Ht & Htc). exists t. split; [|done].
      apply lookup_delete_Some. split; [|done]. intros <-. congruence.
  - apply (inv_owner _ _ HI).
Qed.

Lemma stopTask_inv st issued sid :
  Inv st issued → Inv (stopTask sid st) issued.
Proof.
  intros HI. unfold stopTask. destruct (registry st !! sid) eqn:E; [|done].
  by apply inv_remove.
Qed.

Lemma startTask_inv st issued sid ty now :
  Inv st issued →
  Inv (startTask sid ty now st).1 (issued ++ [(sid, (startTask sid ty now st).2)]).
Proof.
  intros HI. unfold startTask. simpl.
  set (st1 := if bool_decide _ then _ else _).
  assert (Inv st1 issued ∧ registry st1 !! sid = None) as [HI1 Hnone].
  { subst st1. case_bool_decide as Hb.
    - split; [by apply stopTask_inv|]. destruct Hb as [t Ht].
      unfold stopTask. rewrite Ht. simpl. apply lookup_delete_eq.
    - split; [done|]. by apply eq_None_not_Some. }
  clearbody st1. clear HI.
  constructor; simpl.
  - intros k t Hk. apply lookup_insert_Some in Hk as [[<- <-]|[Hne Hk]]; simpl.
    + split; [|apply elem_of_app; right; by apply list_elem_of_singleton].
      by rewrite lookup_app_r, Nat.sub_diag.
    + destruct (inv_registered _ _ HI1 _ _ Hk) as [Hl Hi].
      split; [by apply lookup_app_l_Some|apply elem_of_app; by left].
  - intros k c Hk. rewrite length_app. simpl.
    apply elem_of_app in Hk as [Hk|Hk].
    + destruct (inv_issued _ _ HI1 _ _ Hk) as [Hlt Hl]. split; [lia|].
      rewrite lookup_app_l by done. intros Hc. destruct (Hl Hc) as (t & Ht & Htc).
      exists t. split; [|done]. rewrite lookup_insert_ne; [done|].
      intros <-. congruence.
    + apply list_elem_of_singleton in Hk. injection Hk as -> ->.
      split; [lia|]. intros _. eexists. by rewrite lookup_insert_eq.
  - intros k k' c Hk Hk'.
    apply elem_of_app in Hk as [Hk|Hk], Hk' as [Hk'|Hk'].
    + by eapply inv_owner.
    + apply list_elem_of_singleton in Hk'. injection Hk' as -> ->.
      destruct (inv_issued _ _ HI1 _ _ Hk). lia.
    + apply list_elem_of_singleton in Hk. injection Hk as -> ->.
      destruct (inv_issued _ _ HI1 _ _ Hk'). lia.
    + apply list_elem_of_singleton in Hk, Hk'. congruence.
Qed.

Lemma cancelEntries_inv entries st issued :
  Inv st issued →
  (∀ e, e ∈ entries → registry st !! e.1 = Some e.2) → NoDup entries.*1 →
  Inv (foldl cancelEntry st entries) issued ∧
  ∀ k, registry (foldl cancelEntry st entries) !! k =
       if bool_decide (k ∈ entries.*1) then None else registry st !! k.
Proof.
  revert st. induction entries as [|[sid task] entries IH]; intros st HI Hreg Hnd.
  { split; [done|]. intros k. cbn [foldl].
    rewrite bool_decide_eq_false_2; [done|]. apply not_elem_of_nil. }
  rewrite fmap_cons in Hnd. apply NoDup_cons in Hnd as [Hsid Hnd].
  simpl. destruct (IH (cancelEntry st (sid, task))) as [H1 H2]; try done.
  - apply inv_remove; [done|]. apply (Hreg (sid, task)). left.
  - intros [k t] He. simpl. apply lookup_delete_Some. split.
    + intros <-. apply Hsid. by apply (list_elem_of_fmap_2 fst _ (sid, t)).
    + apply (Hreg (k, t)). by right.
  - split; [done|]. intros k. rewrite H2. simpl.
    destruct (decide (k = sid)) as [->|Hne].
    + rewrite lookup_delete_eq. rewrite (bool_decide_eq_true_2 (sid ∈ sid :: _)) by left.
      by case_bool_decide.
    + rewrite lookup_delete_ne by done.
      case_bool_decide as Hk.
      * rewrite bool_decide_eq_true_2; [done|]. by right.
      * rewrite bool_decide_eq_false_2; [done|].
        intros Hin. apply elem_of_cons in Hin as [?|?]; done.
Qed.

Lemma cancelAllTasks_inv st issued :
  Inv st issued →
  Inv (cancelAllTasks st) issued ∧ registry (cancelAllTasks st) = ∅.
Proof.
  intros HI. unfold cancelAllTasks.
  destruct (cancelEntries_inv (map_to_list (registry st)) st issued HI) as [H1 H2].
  - intros [k t] He. by apply elem_of_map_to_list in He.
  - apply NoDup_fst_map_to_list.
  - split; [done|]. apply map_eq. intros k. rewrite H2, lookup_empty.
    case_bool_decide as Hk; [done|]. apply eq_None_not_Some. intros [t Ht].
    apply Hk. apply (list_elem_of_fmap_2' fst _ (k, t)); [|done].
    by apply elem_of_map_to_list.
Qed.

Lemma exec_inv calls : Inv (exec calls).1 (exec calls).2.
Proof.
  unfold exec. induction calls as [|c calls IH] using rev_ind.
  - apply inv_empty.
  - rewrite foldl_snoc. destruct c as [sid ty now|sid|]; simpl.
    + by apply startTask_inv.
    + by apply stopTask_inv.
    + by apply cancelAllTasks_inv.
Qed.

Lemma startTask_signal sid ty now st :
  (startTask sid ty now st).2 = length (controllers st).
Proof.
  unfold startTask, stopTask. simpl. case_bool_decide; [|done].
  destruct (registry st !! sid); [|done]. simpl. unfold abort.
  by rewrite length_insert.
Qed.

Lemma exec_startTask calls sid ty now :
  exec (calls ++ [StartTask sid ty now]) =
  ((startTask sid ty now (exec calls).1).1,
   (exec calls).2 ++ [(sid, (startTask sid ty now (exec calls).1).2)]).
Proof. unfold exec. by rewrite foldl_snoc. Qed.

Lemma aborted_false c st : aborted c st = false → c < length (controllers st) →
  controllers st !! c = Some false.
Proof.
  unfold aborted. intros H Hlt. destruct (controllers st !! c) as [b|] eqn:E.
  - simpl in H. by subst b.
  - apply lookup_ge_None_1 in E. lia.
Qed.

(** Restarting the task of an entity, as a run of the definitions: the
    first controller is aborted, the entry holds the second. *)
Example restart_replaces_task :
  let r := exec [StartTask "s" prompts 1; StartTask "s" download 2] in
  map_to_list (registry r.1)
    = [("s", {| type := download; controller := 1; startTime := 2 |})] ∧
  controllers r.1 = [true; false] ∧ r.2 = [("s", 0); ("s", 1)].
Proof. vm_compute. done. Qed.

(** C5.  After any sequence of calls on the registry: every signal handed out
    for an entity that is not yet aborted is the one registered for that
    entity, so that at most one live task exists per entity, and every
    registered task is live.  [startTask], whatever the entity, installs the
    new entry for it, leaves the other entries alone and their signals
    live, and returns the signal of a controller that did not exist before
    and is not aborted; when the entity had a task, that task's signal is
    aborted and the registry keeps its size, otherwise the registry grows by
    one.  [stopTask] leaves no entry for the entity and touches no other
    entry; it aborts the signal of the entry it removes, and does nothing
    when there is none. *)
Theorem registry_single_task_per_entity (calls : list Call) :
  let st := (exec calls).1 in
  let issued := (exec calls).2 in
  (∀ sid c, (sid, c) ∈ issued → aborted c st = false →
     ∃ task, registry st !! sid = Some task ∧ controller task = c) ∧
  (∀ sid c c', (sid, c) ∈ issued → (sid, c') ∈ issued →
     aborted c st = false → aborted c' st = false → c = c') ∧
  (∀ sid task, registry st !! sid = Some task →
     aborted (controller task) st = false ∧ (sid, controller task) ∈ issued) ∧
  (∀ sid ty now,
     let st' := (startTask sid ty now st).1 in
     let sig := (startTask sid ty now st).2 in
     exec (calls ++ [StartTask sid ty now]) = (st', issued ++ [(sid, sig)]) ∧
     registry st' !! sid = Some {| type := ty; controller := sig; startTime := now |} ∧
     controllers st !! sig = None ∧
     (∀ sid', (sid', sig) ∉ issued) ∧
     aborted sig st' = false ∧
     (∀ k, k ≠ sid → registry st' !! k = registry st !! k) ∧
     (∀ k task, k ≠ sid → registry st !! k = Some task →
        aborted (controller task) st' = false) ∧
     match registry st !! sid with
     | Some old =>
         aborted (controller old) st = false ∧
         aborted (controller old) st' = true ∧
         size (registry st') = size (registry st)
     | None => size (registry st') = S (size (registry st))
     end) ∧
  (∀ sid,
     registry (stopTask sid st) !! sid = None ∧
     (∀ k, k ≠ sid → registry (stopTask sid st) !! k = registry st !! k) ∧
     match registry st !! sid with
     | Some task => aborted (controller task) (stopTask sid st) = true
     | None => stopTask sid st = st
     end).
Proof.
  intros st issued. pose proof (exec_inv calls) as HI. fold st issued in HI.
  assert (∀ sid c, (sid, c) ∈ issued → aborted c st = false →
            ∃ task, registry st !! sid = Some task ∧ controller task = c) as Hlive.
  { intros sid c Hc Hab. destruct (inv_issued _ _ HI _ _ Hc) as [Hlt Hl].
    apply Hl. by apply aborted_false. }
  split_and!.
  - exact Hlive.
  - intros sid c c' Hc Hc' Hab Hab'.
    destruct (Hlive _ _ Hc Hab) as (t & Ht & <-).
    destruct (Hlive _ _ Hc' Hab') as (t' & Ht' & <-). congruence.
  - intros sid task Htask. destruct (inv_registered _ _ HI _ _ Htask) as [Hl Hi].
    split; [|done]. unfold aborted. by rewrite Hl.
  - intros sid ty now st' sig.
    pose proof (exec_startTask calls sid ty now) as Hexec. fold st issued st' sig in Hexec.
    pose proof (exec_inv (calls ++ [StartTask sid ty now])) as HI'.
    rewrite Hexec in HI'. simpl in HI'.
    assert (sig = length (controllers st)) as Hsig by apply startTask_signal.
    assert (registry st' !! sid
            = Some {| type := ty; controller := sig; startTime := now |}) as Hnew.
    { unfold st', sig, startTask. simpl. by rewrite lookup_insert_eq. }
    assert (∀ k, k ≠ sid → registry st' !! k = registry st !! k) as Hother.
    { intros k Hne. unfold st', startTask. simpl. rewrite lookup_insert_ne by done.
      case_bool_decide; [|done]. unfold stopTask.
      destruct (registry st !! sid); [|done]. simpl. by rewrite lookup_delete_ne. }
    split_and!.
    + exact Hexec.
    + exact Hnew.
    + apply lookup_ge_None_2. lia.
    + intros sid' Hin. destruct (inv_issued _ _ HI _ _ Hin). lia.
    + destruct (inv_registered _ _ HI' _ _ Hnew) as [Hl _].
      exact (f_equal (default false) Hl).
    + exact Hother.
    + intros k task Hne Hk. rewrite <- Hother in Hk by done.
      destruct (inv_registered _ _ HI' _ _ Hk) as [Hl _].
      exact (f_equal (default false) Hl).
    + destruct (registry st !! sid) as [old|] eqn:Hold.
      * destruct (inv_registered _ _ HI _ _ Hold) as [Hl _].
        pose proof (lookup_lt_Some _ _ _ Hl) as Hlt.
        unfold st', startTask, aborted. simpl.
        rewrite bool_decide_eq_true_2 by (by rewrite Hold).
        unfold stopTask. rewrite Hold. simpl. unfold abort. split_and!.
        -- by rewrite Hl.
        -- rewrite lookup_app_l by (by rewrite length_insert).
           by rewrite list_lookup_insert_eq.
        -- rewrite map_size_insert_None by apply lookup_delete_eq.
           rewrite map_size_delete_Some by (by rewrite Hold).
           assert (size (registry st) ≠ 0); [|lia].
           intros Hz. apply map_size_empty_iff in Hz. rewrite Hz in Hold.
           by rewrite lookup_empty in Hold.
      * unfold st', startTask. simpl.
        rewrite bool_decide_eq_false_2 by (rewrite Hold; by intros [? ?]).
        by rewrite map_size_insert_None.
  - intros sid. unfold stopTask.
    destruct (registry st !! sid) as [task|] eqn:Htask; simpl.
    + split_and!.
      * apply lookup_delete_eq.
      * intros k Hne. by rewrite lookup_delete_ne.
      * destruct (inv_registered _ _ HI _ _ Htask) as [Hl _].
        pose proof (lookup_lt_Some _ _ _ Hl) as Hlt.
        unfold aborted, abort. simpl. by rewrite list_lookup_insert_eq.
    + done.
Qed.

(** *** What cancelling leaves behind *)

(** An aborted controller stays aborted, and no controller disappears. *)
Definition Kept (st st' : State) : Prop :=
  ∀ c, controllers st !! c = Some true → controllers st' !! c = Some true.

Lemma abort_kept c cs k : cs !! k = Some true → abort c cs !! k = Some true.
Proof.
  intros H. unfold abort. destruct (decide (c = k)) as [->|Hne].
  - rewrite list_lookup_insert_eq; [done|]. by eapply lookup_lt_Some.
  - by rewrite list_lookup_insert_ne.
Qed.

Lemma stopTask_kept sid st : Kept st (stopTask sid st).
Proof.
  intros c Hc. unfold stopTask. destruct (registry st !! sid); [|done].
  simpl. by apply abort_kept.
Qed.

Lemma startTask_kept sid ty now st : Kept st (startTask sid ty now st).1.
Proof.
  intros c Hc. unfold startTask. simpl. apply lookup_app_l_Some.
  case_bool_decide; [by apply stopTask_kept|done].
Qed.

Lemma cancelEntries_kept entries st : Kept st (foldl cancelEntry st entries).
Proof.
  revert st. induction entries as [|e entries IH]; intros st c Hc; [done|].
  cbn [foldl]. apply IH. simpl. by apply abort_kept.
Qed.

Lemma call_kept acc c : Kept acc.1 (call acc c).1.
Proof.
  destruct c as [sid ty now|sid|]; simpl.
  - apply startTask_kept.
  - apply stopTask_kept.
  - apply cancelEntries_kept.
Qed.

Lemma calls_kept calls acc : Kept acc.1 (foldl call acc calls).1.
Proof.
  revert acc. induction calls as [|c calls IH]; intros acc k Hk; [done|].
  cbn [foldl]. apply IH. by apply call_kept.
Qed.

(** X14.  After any sequence of calls, [cancelAllTasks] leaves no task
    registered and every signal handed out so far aborted; and a signal that
    is aborted stays aborted whatever calls follow. *)
Theorem cancel_all_aborts_every_signal (calls later : list Call) :
  registry (exec (calls ++ [CancelAllTasks])).1 = ∅ ∧
  (∀ sid, isTaskRunning sid (exec (calls ++ [CancelAllTasks])).1 = false) ∧
  (∀ sid c, (sid, c) ∈ (exec calls).2 →
     aborted c (exec (calls ++ [CancelAllTasks])).1 = true) ∧
  (∀ c, aborted c (exec calls).1 = true → aborted c (exec (calls ++ later)).1 = true).
Proof.
  pose proof (exec_inv calls) as HI.
  destruct (cancelAllTasks_inv _ _ HI) as [HI' Hempty].
  assert ((exec (calls ++ [CancelAllTasks])).1 = cancelAllTasks (exec calls).1) as Hst
    by (unfold exec; by rewrite foldl_snoc).
  split_and!.
  - by rewrite Hst.
  - intros sid. unfold isTaskRunning. rewrite Hst, Hempty, lookup_empty.
    apply bool_decide_eq_false_2. by intros [? ?].
  - intros sid c Hc. rewrite Hst. unfold aborted.
    destruct (inv_issued _ _ HI' _ _ Hc) as [Hlt Hlive].
    destruct (controllers (cancelAllTasks (exec calls).1) !! c) as [[|]|] eqn:E.
    + done.
    + destruct (Hlive E) as (task & Htask & _).
      by rewrite Hempty, lookup_empty in Htask.
    + apply lookup_ge_None_1 in E. lia.
  - intros c Hc. unfold aborted in *.
    destruct (controllers (exec calls).1 !! c) as [[|]|] eqn:E; try done.
    assert ((exec (calls ++ later)).1 = (foldl call (exec calls) later).1) as ->
      by (unfold exec; by rewrite foldl_app).
    exact (f_equal (default false) (calls_kept later (exec calls) c E)).
Qed.

End TaskRegistry.

(** ** Watchdog ([startWatchdog], [heartbeat], [stopWatchdog]) *)
Module Watchdog.

Definition WATCHDOG_CHECK_INTERVAL_MS : Z := 5000.

(** [interval] is the handle returned by [setInterval]; [onTimeout] names the
    callback. *)
Record WatchdogEntry := {
  lastHeartbeat : Z;
  timeoutMs : Z;
  interval : nat;
  onTimeout : nat
}.

(** The [watchers] map, and the timers created by [setInterval] that have not
    been cleared, each with the [runId] captured by its callback. *)
Record State := {
  watchers : gmap string WatchdogEntry;
  timers : gmap nat string;
  nextTimer : nat
}.

Definition idle : State := {| watchers := ∅; timers := ∅; nextTimer := 0 |}.

Definition stopWatchdog (runId : string) (st : State) : State :=
  match watchers st !! runId with
  | Some entry =>
      {| watchers := delete runId (watchers st);
         timers := delete (interval entry) (timers st);
         nextTimer := nextTimer st |}
  | None => st
  end.

(** [now] is the value of [Date.now()] when the entry is built. *)
Definition startWatchdog (runId : string) (timeout : Z) (cb : nat) (now : Z)
    (st : State) : State :=
  let st1 := stopWatchdog runId st in
  let h := nextTimer st1 in
  {| watchers :=
       <[runId := {| lastHeartbeat := now; timeoutMs := timeout;
                     interval := h; onTimeout := cb |}]> (watchers st1);
     timers := <[h := runId]> (timers st1);
     nextTimer := S h |}.

Definition setLastHeartbeat (runId : string) (now : Z) (st : State) : State :=
  match watchers st !! runId with
  | Some entry =>
      {| watchers :=
           <[runId := {| lastHeartbeat := now; timeoutMs := timeoutMs entry;
                         interval := interval entry;
                         onTimeout := onTimeout entry |}]> (watchers st);
         timers := timers st; nextTimer := nextTimer st |}
  | None => st
  end.

Definition heartbeat (runId : string) (now : Z) (st : State) : State :=
  setLastHeartbeat runId now st.

(** The timer callback up to its [await]: [Some cb] when [onTimeout] is
    invoked at time [now]. *)
Definition intervalCheck (runId : string) (now : Z) (st : State) : option nat :=
  match watchers st !! runId with
  | Some current =>
      if bool_decide (now - lastHeartbeat current > timeoutMs current)%Z
      then Some (onTimeout current) else None
  | None => None
  end.

(** The [finally] block, run once the awaited callback has settled; [now] is
    [Date.now()] at that moment. *)
Definition snooze (runId : string) (now : Z) (st : State) : State :=
  setLastHeartbeat runId now st.

(** What happens to the module, in order: calls of its three functions, a
    timer firing, and the settling of an [onTimeout] call awaited by a timer
    callback. *)
Inductive Event :=
  | StartWatchdog (runId : string) (now : Z) (timeout : Z) (cb : nat)
  | Heartbeat (runId : string) (now : Z)
  | StopWatchdog (runId : string)
  | IntervalTick (timer : nat) (now : Z)
  | TimeoutSettled (runId : string) (now : Z).

(** An invocation of [onTimeout]. *)
Record Fired := {
  f_runId : string;
  f_callback : nat;
  f_at : Z
}.

Definition step (st : State) (e : Event) : State * list Fired :=
  match e with
  | StartWatchdog runId now timeout cb => (startWatchdog runId timeout cb now st, [])
  | Heartbeat runId now => (heartbeat runId now st, [])
  | StopWatchdog runId => (stopWatchdog runId st, [])
  | IntervalTick h now =>
      match timers st !! h with
      | Some runId =>
          match intervalCheck runId now st with
          | Some cb => (st, [ {| f_runId := runId; f_callback := cb; f_at := now |} ])
          | None => (st, [])
          end
      | None => (st, [])
      end
  | TimeoutSettled runId now => (snooze runId now st, [])
  end.

Fixpoint run (evs : list Event) (st : State) : State * list Fired :=
  match evs with
  | [] => (st, [])
  | e :: evs' =>
      let r := step st e in
      let r' := run evs' r.1 in
      (r'.1, r.2 ++ r'.2)
  end.

(** The time at which an event happens, when it carries one. *)
Definition eventTime (e : Event) : option Z :=
  match e with
  | StartWatchdog _ now _ _ | Heartbeat _ now | IntervalTick _ now
  | TimeoutSettled _ now => Some now
  | StopWatchdog _ => None
  end.

(** An event that arms or disarms [runId]. *)
Definition rearms (runId : string) (e : Event) : Prop :=
  match e with
  | StartWatchdog r _ _ _ | StopWatchdog r => r = runId
  | _ => False
  end.

Lemma setLastHeartbeat_lookup runId now st e :
  watchers st !! runId = Some e →
  watchers (setLastHeartbeat runId now st) !! runId =
    Some {| lastHeartbeat := now; timeoutMs := timeoutMs e;
            interval := interval e; onTimeout := onTimeout e |}.
Proof. intros H. unfold setLastHeartbeat. rewrite H. simpl. apply lookup_insert_eq. Qed.

Lemma setLastHeartbeat_other r runId now st :
  r ≠ runId →
  watchers (setLastHeartbeat r now st) !! runId = watchers st !! runId.
Proof.
  intros Hne. unfold setLastHeartbeat. destruct (watchers st !! r); [|done].
  simpl. by apply lookup_insert_ne.
Qed.

Lemma stopWatchdog_other r runId st :
  r ≠ runId → watchers (stopWatchdog r st) !! runId = watchers st !! runId.
Proof.
  intros Hne. unfold stopWatchdog. destruct (watchers st !! r); [|done].
  simpl. by apply lookup_delete_ne.
Qed.

(** An event that does not arm or disarm [runId] keeps its entry and budget,
    and moves its last heartbeat only to the time of the event. *)
Lemma step_keeps_entry (runId : string) (h : Z) st e ev :
  watchers st !! runId = Some e → (h ≤ lastHeartbeat e)%Z →
  ¬ rearms runId ev → (∀ t, eventTime ev = Some t → (h ≤ t)%Z) →
  ∃ e', watchers (step st ev).1 !! runId = Some e' ∧
        timeoutMs e' = timeoutMs e ∧ (h ≤ lastHeartbeat e')%Z.
Proof.
  intros He Hh Hre Htime.
  destruct ev as [r now timeout cb|r now|r|timer now|r now]; simpl in *.
  - exists e. split_and!; [|done|done]. unfold startWatchdog. simpl.
    rewrite lookup_insert_ne by done. by rewrite stopWatchdog_other.
  - destruct (decide (r = runId)) as [->|Hne].
    + eexists. split_and!; [by apply setLastHeartbeat_lookup|done|]. simpl.
      by apply Htime.
    + exists e. split_and!; [|done|done]. unfold heartbeat.
      by rewrite setLastHeartbeat_other.
  - exists e. split_and!; [|done|done]. by rewrite stopWatchdog_other.
  - exists e. split_and!; [|done|done].
    destruct (timers st !! timer); [|done]. by destruct (intervalCheck _ _ _).
  - destruct (decide (r = runId)) as [->|Hne].
    + eexists. split_and!; [by apply setLastHeartbeat_lookup|done|]. simpl.
      by apply Htime.
    + exists e. split_and!; [|done|done]. unfold snooze.
      by rewrite setLastHeartbeat_other.
Qed.

(** While [runId] stays armed and the clock does not run backwards from [h],
    an entry whose last heartbeat is at least [h] never fires before a full
    budget has passed since [h]. *)
Lemma window_after (runId : string) (h T : Z) (evs : list Event) :
  ∀ st e,
    watchers st !! runId = Some e → timeoutMs e = T → (h ≤ lastHeartbeat e)%Z →
    Forall (λ ev, ¬ rearms runId ev ∧ ∀ t, eventTime ev = Some t → (h ≤ t)%Z) evs →
    ∀ f, f ∈ (run evs st).2 → f_runId f = runId → (f_at f - h > T)%Z.
Proof.
  induction evs as [|ev evs IH]; intros st e He HT Hh Hevs f Hf Hr.
  { simpl in Hf. by apply elem_of_nil in Hf. }
  apply Forall_cons in Hevs as [[Hre Htime] Hevs].
  simpl in Hf. apply elem_of_app in Hf as [Hf|Hf].
  - destruct ev as [r now timeout cb|r now|r|timer now|r now]; simpl in Hf;
      try (by apply elem_of_nil in Hf).
    destruct (timers st !! timer) as [r|] eqn:Et; [|by apply elem_of_nil in Hf].
    destruct (intervalCheck r now st) as [cb|] eqn:Ec; [|by apply elem_of_nil in Hf].
    apply list_elem_of_singleton in Hf as ->. simpl in Hr. subst r. simpl.
    unfold intervalCheck in Ec. rewrite He in Ec.
    case_bool_decide as Hstale; [|done]. lia.
  - destruct (step_keeps_entry runId h st e ev He Hh Hre Htime) as (e' & He' & HT' & Hh').
    eapply (IH _ e' He'); eauto. congruence.
Qed.

(** The timer of the module fires every five seconds; the entry is armed at
    time 0 with a budget of ten seconds and never receives a heartbeat.  The
    callback invoked at 15000 settles at 22000 only. *)
Definition slowCallbackTrace : list Event :=
  [ StartWatchdog "run" 0 10000 0;
    IntervalTick 0 5000; IntervalTick 0 10000; IntervalTick 0 15000;
    IntervalTick 0 20000; TimeoutSettled "run" 22000 ].

(** C6, as stated, fails: the heartbeat is reset only when the awaited
    callback settles, and a timer tick that comes before that sees the stale
    heartbeat again.  [onTimeout] is invoked at 15000 and at 20000, twice
    inside one window of 10000. *)
Lemma slow_callback_fires_twice :
  (run slowCallbackTrace idle).2 =
    [ {| f_runId := "run"; f_callback := 0; f_at := 15000 |};
      {| f_runId := "run"; f_callback := 0; f_at := 20000 |} ] ∧
  (20000 - 15000 < 10000)%Z.
Proof. split; [vm_compute; reflexivity|lia]. Qed.

(** C6, amended.  For an armed entry: a timer tick invokes [onTimeout]
    exactly when more than the budget has passed since the last heartbeat;
    when the callback settles (at time [h]) the heartbeat is set to that time
    and the entry stays armed with the same budget and timer; from such a
    reset, and likewise from a heartbeat recorded at [h], no further
    invocation happens until more than a full budget has passed since [h];
    and when the callback invoked at [t1] settles before anything else happens
    to the entry, every later invocation is more than a budget after [t1]. *)
Theorem watchdog_snooze_window (st : State) (runId : string) (e : WatchdogEntry)
    (h : Z) (evs : list Event) :
  watchers st !! runId = Some e →
  Forall (λ ev, ¬ rearms runId ev ∧ ∀ t, eventTime ev = Some t → (h ≤ t)%Z) evs →
  (∀ now, intervalCheck runId now st =
          if bool_decide (now - lastHeartbeat e > timeoutMs e)%Z
          then Some (onTimeout e) else None) ∧
  watchers (snooze runId h st) !! runId =
    Some {| lastHeartbeat := h; timeoutMs := timeoutMs e;
            interval := interval e; onTimeout := onTimeout e |} ∧
  timers (snooze runId h st) = timers st ∧
  (∀ f, f ∈ (run evs (snooze runId h st)).2 → f_runId f = runId →
        (f_at f - h > timeoutMs e)%Z) ∧
  (∀ f, f ∈ (run evs (heartbeat runId h st)).2 → f_runId f = runId →
        (f_at f - h > timeoutMs e)%Z) ∧
  (∀ timer t1 cb,
     timers st !! timer = Some runId → intervalCheck runId t1 st = Some cb →
     (t1 ≤ h)%Z →
     (run (IntervalTick timer t1 :: TimeoutSettled runId h :: evs) st).2 =
       {| f_runId := runId; f_callback := cb; f_at := t1 |}
         :: (run evs (snooze runId h st)).2 ∧
     ∀ f, f ∈ (run evs (snooze runId h st)).2 → f_runId f = runId →
          (f_at f - t1 > timeoutMs e)%Z).
Proof.
  intros He Hevs.
  assert (∀ f, f ∈ (run evs (setLastHeartbeat runId h st)).2 → f_runId f = runId →
               (f_at f - h > timeoutMs e)%Z) as Hwin.
  { eapply window_after; [by apply setLastHeartbeat_lookup|done|simpl; lia|done]. }
  split_and!.
  - intros now. unfold intervalCheck. by rewrite He.
  - by apply setLastHeartbeat_lookup.
  - unfold snooze, setLastHeartbeat. by rewrite He.
  - exact Hwin.
  - exact Hwin.
  - intros timer t1 cb Ht Hc Hle. split.
    + simpl. by rewrite Ht, Hc.
    + intros f Hf Hr. pose proof (Hwin f Hf Hr). lia.
Qed.

(** An armed entry, and ticks every five seconds after a reset at 15000. *)
Definition armedState : State := startWatchdog "run" 10000 0 0 idle.

Definition armedEntry : WatchdogEntry :=
  {| lastHeartbeat := 0; timeoutMs := 10000; interval := 0; onTimeout := 0 |}.

Definition laterTicks : list Event :=
  [ IntervalTick 0 20000; IntervalTick 0 25000; IntervalTick 0 30000 ].

Lemma laterTicks_ok :
  Forall (λ ev, ¬ rearms "run" ev ∧ ∀ t, eventTime ev = Some t → (15000 ≤ t)%Z)
    laterTicks.
Proof.
  repeat constructor; simpl; try tauto; intros t Ht; injection Ht as <-; lia.
Defined.

Lemma watchdog_snooze_window_witness :
  watchers armedState !! "run" = Some armedEntry ∧
  (run (IntervalTick 0 15000 :: TimeoutSettled "run" 15000 :: laterTicks) armedState).2 =
     {| f_runId := "run"; f_callback := 0; f_at := 15000 |}
       :: (run laterTicks (snooze "run" 15000 armedState)).2 ∧
  ∀ f, f ∈ (run laterTicks (snooze "run" 15000 armedState)).2 → f_runId f = "run" →
       (f_at f - 15000 > timeoutMs armedEntry)%Z.
Proof.
  assert (watchers armedState !! "run" = Some armedEntry) as He
    by (vm_compute; reflexivity).
  split; [exact He|].
  destruct (watchdog_snooze_window armedState "run" armedEntry 15000 laterTicks
              He laterTicks_ok) as (_ & _ & _ & _ & _ & H).
  apply (H 0 15000%Z 0); [vm_compute; reflexivity|vm_compute; reflexivity|lia].
Defined.

(** *** Timers and entries *)

(** Every timer that has not been cleared is the timer of the entry
    registered for its run, and every entry has its timer. *)
Record Linked (st : State) : Prop := {
  timer_owner : ∀ h r, timers st !! h = Some r →
    ∃ e, watchers st !! r = Some e ∧ interval e = h;
  watcher_timer : ∀ r e, watchers st !! r = Some e → timers st !! interval e = Some r;
  timer_fresh : ∀ h r, timers st !! h = Some r → h < nextTimer st
}.

Lemma linked_idle : Linked idle.
Proof. constructor; simpl; intros *; by rewrite lookup_empty. Qed.

Lemma stopWatchdog_linked runId st : Linked st → Linked (stopWatchdog runId st).
Proof.
  intros [H1 H2 H3]. unfold stopWatchdog.
  destruct (watchers st !! runId) as [e|] eqn:E; [|done].
  constructor; simpl.
  - intros h r Hh. apply lookup_delete_Some in Hh as [Hne Hh].
    destruct (H1 _ _ Hh) as (e' & He' & Hi). exists e'. split; [|done].
    rewrite lookup_delete_ne; [done|]. intros <-. congruence.
  - intros r e' Hr. apply lookup_delete_Some in Hr as [Hne Hr].
    rewrite lookup_delete_ne; [by apply H2|]. intros Heq.
    pose proof (H2 _ _ E) as Ht. pose proof (H2 _ _ Hr) as Ht'.
    rewrite Heq in Ht. congruence.
  - intros h r Hh. apply lookup_delete_Some in Hh as [_ Hh]. by eapply H3.
Qed.

Lemma stopWatchdog_lookup runId st : watchers (stopWatchdog runId st) !! runId = None.
Proof.
  unfold stopWatchdog. destruct (watchers st !! runId) eqn:E; [|done].
  simpl. apply lookup_delete_eq.
Qed.

Lemma startWatchdog_linked runId timeout cb now st :
  Linked st → Linked (startWatchdog runId timeout cb now st).
Proof.
  intros HL. apply (stopWatchdog_linked runId) in HL.
  pose proof (stopWatchdog_lookup runId st) as Hnone.
  unfold startWatchdog. destruct HL as [H1 H2 H3].
  set (st1 := stopWatchdog runId st) in *. constructor; simpl.
  - intros h r Hh. apply lookup_insert_Some in Hh as [[<- <-]|[Hne Hh]].
    + eexists. by rewrite lookup_insert_eq.
    + destruct (H1 _ _ Hh) as (e' & He' & Hi). exists e'. split; [|done].
      rewrite lookup_insert_ne; [done|]. intros <-. congruence.
  - intros r e' Hr. apply lookup_insert_Some in Hr as [[<- <-]|[Hne Hr]]; simpl.
    + by rewrite lookup_insert_eq.
    + pose proof (H2 _ _ Hr) as Ht. rewrite lookup_insert_ne; [done|].
      intros Heq. rewrite <- Heq in Ht. apply H3 in Ht. lia.
  - intros h r Hh. apply lookup_insert_Some in Hh as [[<- _]|[_ Hh]]; [lia|].
    apply H3 in Hh. lia.
Qed.

Lemma setLastHeartbeat_linked runId now st :
  Linked st → Linked (setLastHeartbeat runId now st).
Proof.
  intros [H1 H2 H3]. unfold setLastHeartbeat.
  destruct (watchers st !! runId) as [e|] eqn:E; [|done].
  constructor; simpl; [| |done].
  - intros h r Hh. destruct (H1 _ _ Hh) as (e' & He' & Hi).
    destruct (decide (r = runId)) as [->|Hne].
    + eexists. rewrite lookup_insert_eq. split; [done|]. simpl. congruence.
    + exists e'. by rewrite lookup_insert_ne.
  - intros r e' Hr. apply lookup_insert_Some in Hr as [[<- <-]|[Hne Hr]]; simpl.
    + by apply H2.
    + by apply H2.
Qed.

Lemma step_linked st ev : Linked st → Linked (step st ev).1.
Proof.
  intros HL. destruct ev as [r now timeout cb|r now|r|timer now|r now]; simpl.
  - by apply startWatchdog_linked.
  - by apply setLastHeartbeat_linked.
  - by apply stopWatchdog_linked.
  - destruct (timers st !! timer); [|done]. by destruct (intervalCheck _ _ _).
  - by apply setLastHeartbeat_linked.
Qed.

Lemma run_linked evs st : Linked st → Linked (run evs st).1.
Proof.
  revert st. induction evs as [|ev evs IH]; intros st HL; [done|].
  simpl. by apply IH, step_linked.
Qed.

(** X15.  Whatever calls, timer ticks and callback completions the module
    has seen since it was loaded, its timers and its entries match: a timer
    that has not been cleared belongs to the entry registered for its run,
    and every registered entry has its timer.  Starting a watchdog for a
    run that is already watched, or stopping one, leaves no timer behind. *)
Theorem watchdog_timers_match_entries (evs : list Event) :
  ∀ h r, timers (run evs idle).1 !! h = Some r ↔
         ∃ e, watchers (run evs idle).1 !! r = Some e ∧ interval e = h.
Proof.
  intros h r. destruct (run_linked evs idle linked_idle) as [H1 H2 _]. split.
  - apply H1.
  - intros (e & He & <-). by apply H2.
Qed.

(** An event that arms [runId]. *)
Definition arms (runId : string) (e : Event) : Prop :=
  match e with
  | StartWatchdog r _ _ _ => r = runId
  | _ => False
  end.

Lemma step_unarmed runId st ev :
  watchers st !! runId = None → ¬ arms runId ev →
  watchers (step st ev).1 !! runId = None ∧
  ∀ f, f ∈ (step st ev).2 → f_runId f ≠ runId.
Proof.
  intros Hnone Harm.
  destruct ev as [r now timeout cb|r now|r|timer now|r now]; simpl in *.
  - split; [|intros f Hf; by apply elem_of_nil in Hf].
    unfold startWatchdog. simpl. rewrite lookup_insert_ne by done.
    destruct (decide (r = runId)) as [->|Hne]; [done|].
    by rewrite stopWatchdog_other.
  - split; [|intros f Hf; by apply elem_of_nil in Hf].
    unfold heartbeat, setLastHeartbeat.
    destruct (watchers st !! r) eqn:E; [|done]. simpl.
    rewrite lookup_insert_ne; [done|]. intros ->. congruence.
  - split; [|intros f Hf; by apply elem_of_nil in Hf].
    destruct (decide (r = runId)) as [->|Hne]; [apply stopWatchdog_lookup|].
    by rewrite stopWatchdog_other.
  - destruct (timers st !! timer) as [r|]; [|split; [done|]; intros f Hf;
      by apply elem_of_nil in Hf].
    destruct (intervalCheck r now st) as [cb|] eqn:Ec;
      [|split; [done|]; intros f Hf; by apply elem_of_nil in Hf].
    split; [done|]. intros f Hf. apply list_elem_of_singleton in Hf as ->. simpl.
    intros ->. unfold intervalCheck in Ec. by rewrite Hnone in Ec.
  - split; [|intros f Hf; by apply elem_of_nil in Hf].
    unfold snooze, setLastHeartbeat.
    destruct (watchers st !! r) eqn:E; [|done]. simpl.
    rewrite lookup_insert_ne; [done|]. intros ->. congruence.
Qed.

Lemma run_unarmed runId evs st :
  watchers st !! runId = None → Forall (λ ev, ¬ arms runId ev) evs →
  watchers (run evs st).1 !! runId = None ∧
  ∀ f, f ∈ (run evs st).2 → f_runId f ≠ runId.
Proof.
  revert st. induction evs as [|ev evs IH]; intros st Hnone Hevs.
  { split; [done|]. intros f Hf. by apply elem_of_nil in Hf. }
  apply Forall_cons in Hevs as [Hev Hevs].
  destruct (step_unarmed runId st ev Hnone Hev) as [H1 H2].
  destruct (IH _ H1 Hevs) as [H3 H4]. simpl. split; [done|].
  intros f Hf. apply elem_of_app in Hf as [Hf|Hf]; [by apply H2|by apply H4].
Qed.

(** X16.  Once [stopWatchdog] has been called for a run, [onTimeout] is not
    invoked for that run again and the run has no entry, whatever happens
    next (late timer ticks, heartbeats, the completion of a callback that
    was still running), until [startWatchdog] is called for it. *)
Theorem stopped_watchdog_stays_silent (st : State) (runId : string)
    (evs : list Event) :
  Forall (λ ev, ¬ arms runId ev) evs →
  watchers (run evs (stopWatchdog runId st)).1 !! runId = None ∧
  ∀ f, f ∈ (run evs (stopWatchdog runId st)).2 → f_runId f ≠ runId.
Proof. intros Hevs. apply run_unarmed; [apply stopWatchdog_lookup|done]. Qed.

(** A callback that is still running when the watchdog is stopped. *)
Definition lateEvents : list Event :=
  [ IntervalTick 0 20000; TimeoutSettled "run" 22000; Heartbeat "run" 23000;
    IntervalTick 0 40000 ].

Lemma lateEvents_unarmed : Forall (λ ev, ¬ arms "run" ev) lateEvents.
Proof. repeat constructor; simpl; tauto. Defined.

Lemma stopped_watchdog_stays_silent_witness :
  Forall (λ ev, ¬ arms "run" ev) lateEvents ∧
  watchers (run lateEvents (stopWatchdog "run" armedState)).1 !! "run" = None ∧
  ∀ f, f ∈ (run lateEvents (stopWatchdog "run" armedState)).2 → f_runId f ≠ "run".
Proof.
  split; [exact lateEvents_unarmed|].
  exact (stopped_watchdog_stays_silent armedState "run" lateEvents lateEvents_unarmed).
Defined.

End Watchdog.

(** ** Chrome session manager ([getOrLaunchChromeForProfile]) and launcher
    ([launchChromeWithCdp]) *)
Module ChromeManager.

(** The result of an awaited call: a value, or a thrown [Error] with its
    [message]. *)
Inductive Outcome (A : Type) :=
  | Ok (a : A)
  | Throw (message : string).
Arguments Ok {A} a.
Arguments Throw {A} message.

(** *** The string operations used on error messages *)

(** [s.startsWith(p)] *)
Fixpoint startsWith (p s : string) : bool :=
  match p, s with
  | EmptyString, _ => true
  | String a p', String b s' => Ascii.eqb a b && startsWith p' s'
  | String _ _, EmptyString => false
  end.

Fixpoint dropString (n : nat) (s : string) : string :=
  match n, s with
  | O, _ => s
  | S n', String _ s' => dropString n' s'
  | S _, EmptyString => EmptyString
  end.

(** The text after the first occurrence of [sep] in [s]. *)
Fixpoint afterFirst (sep s : string) : option string :=
  if startsWith sep s then Some (dropString (String.length sep) s)
  else match s with
       | EmptyString => None
       | String _ s' => afterFirst sep s'
       end.

(** The text before the first occurrence of [sep] in [s] (all of [s] when
    there is none). *)
Fixpoint beforeFirst (sep s : string) : string :=
  if startsWith sep s then EmptyString
  else match s with
       | EmptyString => EmptyString
       | String c s' => String c (beforeFirst sep s')
       end.

(** [s.split(sep)[1]] for a non-empty separator: the piece between the first
    occurrence of [sep] and the next one; [None] is [undefined]. *)
Definition splitSecond (sep s : string) : option string :=
  beforeFirst sep <$> afterFirst sep s.

(** Whether [sep] occurs in [s]. *)
Fixpoint occurs (sep s : string) : bool :=
  if startsWith sep s then true
  else match s with
       | EmptyString => false
       | String _ s' => occurs sep s'
       end.

Definition ALREADY_RUNNING : string := "ALREADY_RUNNING:".

(** *** The launcher *)

(** What one [GET /json/version] on the port comes back with: a response with
    its status code and the [webSocketDebuggerUrl] of its body (absent when
    the body does not parse or has none), a timeout, or a socket error. *)
Inductive HttpResult :=
  | HttpResponse (statusCode : nat) (webSocketDebuggerUrl : option string)
  | HttpTimeout
  | HttpError.

(** [checkCdpPort]: the endpoint descriptor, or [null]. *)
Definition checkCdpPort (r : HttpResult) : option string :=
  match r with
  | HttpResponse 200 (Some url) => if decide (url = "") then None else Some url
  | _ => None
  end.

(** Everything one call of [getOrLaunchChromeForProfile] reads from its
    environment: the outcome of the reconnect probe and of the final connect
    for an endpoint, of the profile helpers, of resolving the executable and
    creating the directory, the answer to the n-th request on the port,
    whether the child has exited at the n-th poll, and how many times the
    polling loop finds [Date.now() - start < timeout]. *)
Record World := {
  probe : string → Outcome unit;
  attach : string → Outcome unit;
  resolveProfileLaunchTarget : Outcome string;
  verifyProfileClone : bool;
  ensureCloneSeededFromProfile : Outcome unit;
  resolveChromeExecutablePath : Outcome string;
  mkdirSync : Outcome unit;
  cdpVersion : nat → HttpResult;
  hasExited : nat → bool;
  pollsBeforeDeadline : nat
}.

Record ActiveSession := {
  port : Z;
  wsEndpoint : string
}.

(** The handle returned by [puppeteer.connect]. *)
Record Browser := {
  browserWSEndpoint : string
}.

(** The [activeSessions] map and the processes spawned so far (port and
    profile directory of each). *)
Record State := {
  activeSessions : gmap string ActiveSession;
  spawned : list (Z * string)
}.

Definition setSession (sessionId : string) (a : ActiveSession) (st : State) : State :=
  {| activeSessions := <[sessionId := a]> (activeSessions st);
     spawned := spawned st |}.

Definition deleteSession (sessionId : string) (st : State) : State :=
  {| activeSessions := delete sessionId (activeSessions st);
     spawned := spawned st |}.

Definition spawn (p : Z) (profileDir : string) (st : State) : State :=
  {| activeSessions := activeSessions st;
     spawned := spawned st ++ [(p, profileDir)] |}.

(** The polling loop of the launcher; [polls] is the number of iterations
    left before the deadline and [i] the index of the next request. *)
Fixpoint pollCdp (w : World) (p : Z) (polls : nat) (i : nat) : Outcome string :=
  match polls with
  | O => Throw ("Chrome timed out launching on port " +:+ pretty p +:+ " after 30s")
  | S polls' =>
      if hasExited w i
      then Throw "Chrome process crashed immediately after launch. Check paths and permissions."
      else match checkCdpPort (cdpVersion w i) with
           | Some wsUrl => Ok wsUrl
           | None => pollCdp w p polls' (S i)
           end
  end.

(** [launchChromeWithCdp]: the state (a process may have been spawned) and
    the endpoint of the launched process. *)
Definition launchChromeWithCdp (w : World) (p : Z) (profileDir : string)
    (st : State) : State * Outcome string :=
  match resolveChromeExecutablePath w with
  | Throw m => (st, Throw m)
  | Ok chromePath =>
      match mkdirSync w with
      | Throw m => (st, Throw m)
      | Ok _ =>
          match checkCdpPort (cdpVersion w 0) with
          | Some existingWs => (st, Throw (ALREADY_RUNNING +:+ existingWs))
          | None => (spawn p profileDir st, pollCdp w p (pollsBeforeDeadline w) 1)
          end
      end
  end.

(** *** The manager *)

Definition connectWith (f : string → Outcome unit) (endpoint : string)
    : Outcome Browser :=
  match f endpoint with
  | Ok _ => Ok {| browserWSEndpoint := endpoint |}
  | Throw m => Throw m
  end.

(** The [catch] block around the launch. *)
Definition onLaunchError (w : World) (p : Z) (sessionId : string)
    (message : string) (st : State) : State * Outcome Browser :=
  if negb (String.eqb message "") && startsWith ALREADY_RUNNING message then
    match splitSecond ALREADY_RUNNING message with
    | Some wsUrl =>
        (setSession sessionId {| port := p; wsEndpoint := wsUrl |} st,
         connectWith (attach w) wsUrl)
    | None => (st, Throw message)
    end
  else (st, Throw message).

(** Steps 2 and 3: resolve and seed the profile directory, launch, record the
    endpoint, connect. *)
Definition relaunch (w : World) (p : Z) (sessionId : string) (st : State)
    : State * Outcome Browser :=
  match resolveProfileLaunchTarget w with
  | Throw m => (st, Throw m)
  | Ok userDataDir =>
      match (if verifyProfileClone w then Ok tt else ensureCloneSeededFromProfile w) with
      | Throw m => (st, Throw m)
      | Ok _ =>
          match launchChromeWithCdp w p userDataDir st with
          | (st1, Ok ws) =>
              let st2 := setSession sessionId {| port := p; wsEndpoint := ws |} st1 in
              match connectWith (attach w) ws with
              | Ok browser => (st2, Ok browser)
              | Throw m => onLaunchError w p sessionId m st2
              end
          | (st1, Throw m) => onLaunchError w p sessionId m st1
          end
      end
  end.

Definition getOrLaunchChromeForProfile (w : World) (p : Z) (sessionId : string)
    (st : State) : State * Outcome Browser :=
  if String.eqb sessionId "" then
    (st, Throw "sessionId is required for Chrome management")
  else
    match activeSessions st !! sessionId with
    | Some active =>
        match connectWith (probe w) (wsEndpoint active) with
        | Ok browser => (st, Ok browser)
        | Throw _ => relaunch w p sessionId (deleteSession sessionId st)
        end
    | None => relaunch w p sessionId st
    end.

(** [shutdownAllChrome] *)
Definition shutdownAllChrome (st : State) : State :=
  {| activeSessions := ∅; spawned := spawned st |}.

(** *** Facts about the string operations *)

Lemma startsWith_app (p s : string) : startsWith p (p +:+ s) = true.
Proof.
  induction p as [|a p IH]; simpl; [done|].
  by rewrite Ascii.eqb_refl, IH.
Qed.

Lemma dropString_app (p s : string) : dropString (String.length p) (p +:+ s) = s.
Proof. induction p as [|a p IH]; simpl; [by destruct s|done]. Qed.

Lemma afterFirst_app (p s : string) : afterFirst p (p +:+ s) = Some s.
Proof.
  destruct p as [|a p].
  - simpl. by destruct s.
  - change (afterFirst (String a p) (String a p +:+ s))
      with (if startsWith (String a p) (String a p +:+ s)
            then Some (dropString (String.length (String a p)) (String a p +:+ s))
            else afterFirst (String a p) (p +:+ s)).
    by rewrite startsWith_app, dropString_app.
Qed.

Lemma beforeFirst_absent (sep s : string) :
  occurs sep s = false → beforeFirst sep s = s.
Proof.
  induction s as [|c s IH]; simpl.
  - by destruct (startsWith sep "").
  - destruct (startsWith sep (String c s)); [done|].
    intros H. by rewrite IH.
Qed.

Lemma splitSecond_marker (sep s : string) :
  occurs sep s = false → splitSecond sep (sep +:+ s) = Some s.
Proof.
  intros H. unfold splitSecond. rewrite afterFirst_app. simpl.
  by rewrite beforeFirst_absent.
Qed.

(** *** Facts about spawning *)

Lemma onLaunchError_spawned w p sid m st :
  spawned (onLaunchError w p sid m st).1 = spawned st.
Proof.
  unfold onLaunchError. destruct (_ && _); [|done].
  by destruct (splitSecond _ _).
Qed.

Lemma onLaunchError_other w p sid m st k :
  k ≠ sid →
  activeSessions (onLaunchError w p sid m st).1 !! k = activeSessions st !! k.
Proof.
  intros Hne. unfold onLaunchError. destruct (_ && _); [|done].
  destruct (splitSecond _ _); [|done]. simpl. by rewrite lookup_insert_ne.
Qed.

Lemma launch_spawned w p dir st :
  (launchChromeWithCdp w p dir st).1 = st ∨
  (launchChromeWithCdp w p dir st).1 = spawn p dir st.
Proof.
  unfold launchChromeWithCdp.
  destruct (resolveChromeExecutablePath w); [|by left].
  destruct (mkdirSync w); [|by left].
  destruct (checkCdpPort _); [by left|by right].
Qed.

Lemma relaunch_spawned w p sid st :
  spawned (relaunch w p sid st).1 = spawned st ∨
  ∃ dir, spawned (relaunch w p sid st).1 = spawned st ++ [(p, dir)].
Proof.
  unfold relaunch. destruct (resolveProfileLaunchTarget w) as [dir|]; [|by left].
  destruct (if verifyProfileClone w then _ else _); [|by left].
  destruct (launchChromeWithCdp w p dir st) as [st1 [ws|m]] eqn:E.
  - assert (spawned st1 = spawned st ∨ spawned st1 = spawned st ++ [(p, dir)]) as Hs.
    { destruct (launch_spawned w p dir st) as [H|H]; rewrite E in H; simpl in H;
        subst st1; [by left|by right]. }
    destruct (connectWith (attach w) ws); simpl.
    + destruct Hs as [->| ->]; [by left|right; by exists dir].
    + rewrite onLaunchError_spawned. simpl.
      destruct Hs as [->| ->]; [by left|right; by exists dir].
  - rewrite onLaunchError_spawned.
    destruct (launch_spawned w p dir st) as [H|H]; rewrite E in H; simpl in H;
      subst st1; [by left|right; by exists dir].
Qed.

Lemma relaunch_other w p sid st k :
  k ≠ sid →
  activeSessions (relaunch w p sid st).1 !! k = activeSessions st !! k.
Proof.
  intros Hne. unfold relaunch.
  destruct (resolveProfileLaunchTarget w) as [dir|]; [|done].
  destruct (if verifyProfileClone w then _ else _); [|done].
  destruct (launchChromeWithCdp w p dir st) as [st1 [ws|m]] eqn:E.
  - assert (activeSessions st1 = activeSessions st) as Ha.
    { destruct (launch_spawned w p dir st) as [H|H]; rewrite E in H; simpl in H;
        by subst st1. }
    destruct (connectWith (attach w) ws); simpl.
    + by rewrite lookup_insert_ne, Ha.
    + rewrite onLaunchError_other by done. simpl. by rewrite lookup_insert_ne, Ha.
  - rewrite onLaunchError_other by done.
    destruct (launch_spawned w p dir st) as [H|H]; rewrite E in H; simpl in H;
      by subst st1.
Qed.

(** The profile directory is usable: already seeded, or seeded now. *)
Definition profileReady (w : World) : Prop :=
  verifyProfileClone w = true ∨ ensureCloneSeededFromProfile w = Ok tt.

Lemma profileReady_ok w :
  profileReady w →
  (if verifyProfileClone w then Ok tt else ensureCloneSeededFromProfile w) = Ok tt.
Proof. intros [H|H]; [by rewrite H|]. by destruct (verifyProfileClone w). Qed.

Lemma relaunch_spawns_one w p sid st dir exe :
  resolveProfileLaunchTarget w = Ok dir → profileReady w →
  resolveChromeExecutablePath w = Ok exe → mkdirSync w = Ok tt →
  checkCdpPort (cdpVersion w 0) = None →
  spawned (relaunch w p sid st).1 = spawned st ++ [(p, dir)].
Proof.
  intros Hdir Hready Hexe Hmk Hport. unfold relaunch, launchChromeWithCdp.
  rewrite Hdir, (profileReady_ok w Hready), Hexe, Hmk, Hport.
  destruct (pollCdp w p (pollsBeforeDeadline w) 1) as [ws|m].
  - destruct (connectWith (attach w) ws); [done|].
    by rewrite onLaunchError_spawned.
  - by rewrite onLaunchError_spawned.
Qed.

Lemma relaunch_attaches w p sid st dir exe ws :
  resolveProfileLaunchTarget w = Ok dir → profileReady w →
  resolveChromeExecutablePath w = Ok exe → mkdirSync w = Ok tt →
  cdpVersion w 0 = HttpResponse 200 (Some ws) → ws ≠ "" →
  occurs ALREADY_RUNNING ws = false →
  relaunch w p sid st =
    (setSession sid {| port := p; wsEndpoint := ws |} st, connectWith (attach w) ws).
Proof.
  intros Hdir Hready Hexe Hmk Hport Hne Hocc. unfold relaunch, launchChromeWithCdp.
  rewrite Hdir, (profileReady_ok w Hready), Hexe, Hmk, Hport. simpl.
  destruct (decide (ws = "")) as [|_]; [done|].
  unfold onLaunchError.
  rewrite startsWith_app, splitSecond_marker by done. done.
Qed.

Lemma relaunch_port_answers_no_spawn w p sid st ws :
  checkCdpPort (cdpVersion w 0) = Some ws →
  spawned (relaunch w p sid st).1 = spawned st.
Proof.
  intros Hport. unfold relaunch, launchChromeWithCdp.
  destruct (resolveProfileLaunchTarget w) as [dir|]; [|done].
  destruct (if verifyProfileClone w then _ else _); [|done].
  destruct (resolveChromeExecutablePath w); [|by rewrite onLaunchError_spawned].
  destruct (mkdirSync w); [|by rewrite onLaunchError_spawned].
  rewrite Hport. by rewrite onLaunchError_spawned.
Qed.

(** *** Sample calls *)

Definition oldEndpoint : string := "ws://127.0.0.1:9222/devtools/browser/old".
Definition newEndpoint : string := "ws://127.0.0.1:9222/devtools/browser/new".

(** The registry remembers a session whose endpoint no longer answers. *)
Definition staleState : State :=
  {| activeSessions := {[ "s1" := {| port := 9222%Z; wsEndpoint := oldEndpoint |} ]};
     spawned := [] |}.

(** A browser left over from a previous run answers on the port; the old
    endpoint refuses the probe. *)
Definition leftoverWorld : World :=
  {| probe := λ _, Throw "connect ECONNREFUSED";
     attach := λ _, Ok tt;
     resolveProfileLaunchTarget := Ok "/clones/default_s1";
     verifyProfileClone := true;
     ensureCloneSeededFromProfile := Ok tt;
     resolveChromeExecutablePath := Ok "/usr/bin/google-chrome";
     mkdirSync := Ok tt;
     cdpVersion := λ _, HttpResponse 200 (Some newEndpoint);
     hasExited := λ _, false;
     pollsBeforeDeadline := 60 |}.

(** The cached endpoint still answers the probe. *)
Definition liveWorld : World :=
  {| probe := λ _, Ok tt;
     attach := λ _, Ok tt;
     resolveProfileLaunchTarget := Ok "/clones/default_s1";
     verifyProfileClone := true;
     ensureCloneSeededFromProfile := Ok tt;
     resolveChromeExecutablePath := Ok "/usr/bin/google-chrome";
     mkdirSync := Ok tt;
     cdpVersion := λ _, HttpError;
     hasExited := λ _, false;
     pollsBeforeDeadline := 60 |}.

(** *** Theorems about the session manager *)

(** C7, as stated, fails in its second half: the cached endpoint fails the
    probe, but a browser already answers on the port, so the call attaches to
    it and spawns no process at all. *)
Lemma stale_probe_can_spawn_nothing :
  activeSessions staleState !! "s1" = Some {| port := 9222%Z; wsEndpoint := oldEndpoint |} ∧
  probe leftoverWorld oldEndpoint = Throw "connect ECONNREFUSED" ∧
  (getOrLaunchChromeForProfile leftoverWorld 9222%Z "s1" staleState).2 =
    Ok {| browserWSEndpoint := newEndpoint |} ∧
  spawned (getOrLaunchChromeForProfile leftoverWorld 9222%Z "s1" staleState).1 = [].
Proof. split_and!; vm_compute; reflexivity. Qed.

(** C7, amended.  For an entity with a registry entry: if the entry's endpoint
    answers the reconnect probe, the call returns a handle to that endpoint
    and changes nothing (no process is spawned); if the probe fails, the call
    spawns at most one process, leaves the entries of other entities alone,
    and replaces the stale entry by nothing or by an endpoint recorded in
    this call; it spawns exactly one process when the profile directory and
    the executable are ready and the port does not answer yet, and none when
    the port already answers. *)
Theorem session_reuse_or_single_relaunch (w : World) (p : Z) (sid : string)
    (st : State) (a : ActiveSession) :
  sid ≠ "" → activeSessions st !! sid = Some a →
  (probe w (wsEndpoint a) = Ok tt →
   getOrLaunchChromeForProfile w p sid st =
     (st, Ok {| browserWSEndpoint := wsEndpoint a |})) ∧
  (∀ m, probe w (wsEndpoint a) = Throw m →
     let r := getOrLaunchChromeForProfile w p sid st in
     (spawned r.1 = spawned st ∨ ∃ dir, spawned r.1 = spawned st ++ [(p, dir)]) ∧
     (∀ k, k ≠ sid → activeSessions r.1 !! k = activeSessions st !! k) ∧
     (activeSessions r.1 !! sid = None ∨
      ∃ ws, activeSessions r.1 !! sid = Some {| port := p; wsEndpoint := ws |}) ∧
     (∀ dir exe, resolveProfileLaunchTarget w = Ok dir → profileReady w →
        resolveChromeExecutablePath w = Ok exe → mkdirSync w = Ok tt →
        checkCdpPort (cdpVersion w 0) = None →
        spawned r.1 = spawned st ++ [(p, dir)]) ∧
     (∀ ws, checkCdpPort (cdpVersion w 0) = Some ws → spawned r.1 = spawned st)).
Proof.
  intros Hsid Ha.
  assert (String.eqb sid "" = false) as Heq by (by apply String.eqb_neq).
  split.
  - intros Hp. unfold getOrLaunchChromeForProfile, connectWith.
    by rewrite Heq, Ha, Hp.
  - intros m Hp r.
    assert (r = relaunch w p sid (deleteSession sid st)) as Hr.
    { subst r. unfold getOrLaunchChromeForProfile, connectWith.
      by rewrite Heq, Ha, Hp. }
    rewrite Hr. split_and!.
    + apply (relaunch_spawned w p sid (deleteSession sid st)).
    + intros k Hk. rewrite relaunch_other by done. simpl.
      by rewrite lookup_delete_ne.
    + unfold relaunch.
      destruct (resolveProfileLaunchTarget w) as [dir|];
        [|left; simpl; apply lookup_delete_eq].
      destruct (if verifyProfileClone w then _ else _);
        [|left; simpl; apply lookup_delete_eq].
      assert (∀ msg st1, activeSessions st1 !! sid = None ∨
                (∃ ws, activeSessions st1 !! sid = Some {| port := p; wsEndpoint := ws |}) →
              activeSessions (onLaunchError w p sid msg st1).1 !! sid = None ∨
              ∃ ws, activeSessions (onLaunchError w p sid msg st1).1 !! sid
                      = Some {| port := p; wsEndpoint := ws |}) as Herr.
      { intros msg st1 H1. unfold onLaunchError. destruct (_ && _); [|done].
        destruct (splitSecond _ _) as [ws|]; [|done].
        right. exists ws. simpl. apply lookup_insert_eq. }
      destruct (launchChromeWithCdp w p dir (deleteSession sid st)) as [st1 [ws|msg]] eqn:E.
      * destruct (connectWith (attach w) ws).
        -- right. exists ws. simpl. apply lookup_insert_eq.
        -- apply Herr. right. exists ws. simpl. apply lookup_insert_eq.
      * apply Herr. left.
        destruct (launch_spawned w p dir (deleteSession sid st)) as [H|H];
          rewrite E in H; simpl in H; subst st1; simpl; apply lookup_delete_eq.
    + intros dir exe Hdir Hready Hexe Hmk Hport.
      by rewrite (relaunch_spawns_one w p sid _ dir exe).
    + intros ws Hport. by rewrite (relaunch_port_answers_no_spawn w p sid _ ws).
Qed.

Lemma session_reuse_or_single_relaunch_witness :
  "s1" ≠ "" ∧
  activeSessions staleState !! "s1" = Some {| port := 9222%Z; wsEndpoint := oldEndpoint |} ∧
  probe liveWorld oldEndpoint = Ok tt ∧
  getOrLaunchChromeForProfile liveWorld 9222%Z "s1" staleState =
    (staleState, Ok {| browserWSEndpoint := oldEndpoint |}).
Proof.
  assert ("s1" ≠ "") as H1 by discriminate.
  assert (activeSessions staleState !! "s1"
          = Some {| port := 9222%Z; wsEndpoint := oldEndpoint |}) as H2
    by (vm_compute; reflexivity).
  split_and!; [exact H1|exact H2|reflexivity|].
  exact (proj1 (session_reuse_or_single_relaunch liveWorld 9222%Z "s1" staleState
                  _ H1 H2) eq_refl).
Defined.

(** A browser answers on the port and accepts connections, but the profile
    directory cannot be created. *)
Definition readOnlyWorld : World :=
  {| probe := λ _, Throw "connect ECONNREFUSED";
     attach := λ _, Ok tt;
     resolveProfileLaunchTarget := Ok "/clones/default_s1";
     verifyProfileClone := true;
     ensureCloneSeededFromProfile := Ok tt;
     resolveChromeExecutablePath := Ok "/usr/bin/google-chrome";
     mkdirSync := Throw "EACCES: permission denied, mkdir '/clones/default_s1'";
     cdpVersion := λ _, HttpResponse 200 (Some newEndpoint);
     hasExited := λ _, false;
     pollsBeforeDeadline := 60 |}.

(** C8, as stated, fails: the port answers the status endpoint with a
    descriptor to which a connection can be made, yet the launch fails,
    because [fs.mkdirSync] runs before the port is checked and throws.
    Nothing is recorded for the entity. *)
Lemma answering_port_launch_can_fail :
  checkCdpPort (cdpVersion readOnlyWorld 0) = Some newEndpoint ∧
  attach readOnlyWorld newEndpoint = Ok tt ∧
  (getOrLaunchChromeForProfile readOnlyWorld 9222%Z "s1" staleState).2 =
    Throw "EACCES: permission denied, mkdir '/clones/default_s1'" ∧
  activeSessions (getOrLaunchChromeForProfile readOnlyWorld 9222%Z "s1" staleState).1
    !! "s1" = None ∧
  (getOrLaunchChromeForProfile readOnlyWorld 9222%Z "s2"
     {| activeSessions := ∅; spawned := [] |}).2 =
    Throw "EACCES: permission denied, mkdir '/clones/default_s1'".
Proof. split_and!; vm_compute; reflexivity. Qed.

(** C8, amended.  When a launch is requested for an entity with a non-empty
    identifier (no cached session answers the probe) and the steps that run
    before the port check succeed (the profile directory is resolved and
    seeded, the executable is found, the directory is created), on a port
    that already answers the status endpoint with a non-empty endpoint
    descriptor that does not contain the text 'ALREADY_RUNNING:' and to
    which a connection can be made, the call does not fail: the launcher
    throws 'ALREADY_RUNNING:' followed by the descriptor, and the manager
    spawns nothing, records that endpoint in the registry under the entity
    id, and returns a handle connected to it. *)
Theorem already_running_endpoint_is_attached (w : World) (p : Z) (sid : string)
    (st : State) (dir exe ws : string) :
  sid ≠ "" →
  (activeSessions st !! sid = None ∨
   ∃ a m, activeSessions st !! sid = Some a ∧ probe w (wsEndpoint a) = Throw m) →
  resolveProfileLaunchTarget w = Ok dir → profileReady w →
  resolveChromeExecutablePath w = Ok exe → mkdirSync w = Ok tt →
  cdpVersion w 0 = HttpResponse 200 (Some ws) → ws ≠ "" →
  occurs ALREADY_RUNNING ws = false →
  attach w ws = Ok tt →
  (launchChromeWithCdp w p dir st).2 = Throw (ALREADY_RUNNING +:+ ws) ∧
  getOrLaunchChromeForProfile w p sid st =
    ({| activeSessions := <[sid := {| port := p; wsEndpoint := ws |}]> (activeSessions st);
        spawned := spawned st |},
     Ok {| browserWSEndpoint := ws |}).
Proof.
  intros Hsid Hcache Hdir Hready Hexe Hmk Hport Hne Hocc Hatt.
  assert (String.eqb sid "" = false) as Heq by (by apply String.eqb_neq).
  split.
  { unfold launchChromeWithCdp. rewrite Hexe, Hmk, Hport. simpl.
    by destruct (decide (ws = "")). }
  unfold getOrLaunchChromeForProfile. rewrite Heq.
  destruct Hcache as [Hnone|(a & m & Ha & Hp)].
  - rewrite Hnone, (relaunch_attaches w p sid st dir exe ws) by done.
    unfold connectWith. by rewrite Hatt.
  - rewrite Ha. unfold connectWith at 1. rewrite Hp.
    rewrite (relaunch_attaches w p sid _ dir exe ws) by done.
    unfold connectWith. rewrite Hatt. unfold setSession, deleteSession. simpl.
    by rewrite insert_delete_eq.
Qed.

Lemma leftover_endpoint_plain : occurs ALREADY_RUNNING newEndpoint = false.
Proof. vm_compute. reflexivity. Defined.

Lemma already_running_endpoint_is_attached_witness :
  (∃ a m, activeSessions staleState !! "s1" = Some a ∧
          probe leftoverWorld (wsEndpoint a) = Throw m) ∧
  cdpVersion leftoverWorld 0 = HttpResponse 200 (Some newEndpoint) ∧
  attach leftoverWorld newEndpoint = Ok tt ∧
  getOrLaunchChromeForProfile leftoverWorld 9222%Z "s1" staleState =
    ({| activeSessions :=
          <["s1" := {| port := 9222%Z; wsEndpoint := newEndpoint |}]>
            (activeSessions staleState);
        spawned := spawned staleState |},
     Ok {| browserWSEndpoint := newEndpoint |}).
Proof.
  assert (∃ a m, activeSessions staleState !! "s1" = Some a ∧
                 probe leftoverWorld (wsEndpoint a) = Throw m) as Hc.
  { exists {| port := 9222%Z; wsEndpoint := oldEndpoint |}, "connect ECONNREFUSED".
    split; [vm_compute; reflexivity|reflexivity]. }
  split_and!; [exact Hc|reflexivity|reflexivity|].
  refine (proj2 (already_running_endpoint_is_attached leftoverWorld 9222%Z "s1" staleState
            "/clones/default_s1" "/usr/bin/google-chrome" newEndpoint
            _ (or_intror Hc) eq_refl (or_introl eq_refl) eq_refl eq_refl eq_refl _
            leftover_endpoint_plain eq_refl)); discriminate.
Defined.

(** *** The handle and the registry *)

Lemma onLaunchError_ok w p sid m st b :
  (onLaunchError w p sid m st).2 = Ok b →
  activeSessions (onLaunchError w p sid m st).1 !! sid =
    Some {| port := p; wsEndpoint := browserWSEndpoint b |}.
Proof.
  unfold onLaunchError. destruct (_ && _); [|done].
  destruct (splitSecond _ _) as [ws|]; [|done]. simpl. unfold connectWith.
  destruct (attach w ws); [|done]. intros [= <-]. simpl. apply lookup_insert_eq.
Qed.

Lemma relaunch_ok w p sid st b :
  (relaunch w p sid st).2 = Ok b →
  activeSessions (relaunch w p sid st).1 !! sid =
    Some {| port := p; wsEndpoint := browserWSEndpoint b |}.
Proof.
  unfold relaunch. destruct (resolveProfileLaunchTarget w) as [dir|]; [|done].
  destruct (if verifyProfileClone w then _ else _); [|done].
  destruct (launchChromeWithCdp w p dir st) as [st1 [ws|m]].
  - destruct (connectWith (attach w) ws) as [b'|m] eqn:E.
    + intros [= <-]. unfold connectWith in E. destruct (attach w ws); [|done].
      injection E as <-. simpl. apply lookup_insert_eq.
    + apply onLaunchError_ok.
  - apply onLaunchError_ok.
Qed.

(** X17.  Whatever the registry holds and whatever the environment answers,
    when [getOrLaunchChromeForProfile] returns a browser handle the registry
    entry of that session holds the endpoint of the handle; the entries of
    other sessions are not touched; and a call spawns at most one process,
    on the requested port. *)
Theorem returned_handle_is_registered (w : World) (p : Z) (sid : string) (st : State) :
  (∀ b, (getOrLaunchChromeForProfile w p sid st).2 = Ok b →
     ∃ a, activeSessions (getOrLaunchChromeForProfile w p sid st).1 !! sid = Some a ∧
          wsEndpoint a = browserWSEndpoint b) ∧
  (∀ k, k ≠ sid →
     activeSessions (getOrLaunchChromeForProfile w p sid st).1 !! k =
     activeSessions st !! k) ∧
  (spawned (getOrLaunchChromeForProfile w p sid st).1 = spawned st ∨
   ∃ dir, spawned (getOrLaunchChromeForProfile w p sid st).1 =
          spawned st ++ [(p, dir)]).
Proof.
  unfold getOrLaunchChromeForProfile.
  destruct (String.eqb sid "") eqn:Hsid; [split_and!; [done|done|by left]|].
  destruct (activeSessions st !! sid) as [active|] eqn:Ha.
  - destruct (connectWith (probe w) (wsEndpoint active)) as [b'|m] eqn:E.
    + split_and!; [|done|by left]. intros b [= <-]. exists active. split; [done|].
      unfold connectWith in E. destruct (probe w (wsEndpoint active)); [|done].
      by injection E as <-.
    + split_and!.
      * intros b Hb. eexists. split; [by apply relaunch_ok|done].
      * intros k Hk. rewrite relaunch_other by done. simpl. by rewrite lookup_delete_ne.
      * apply (relaunch_spawned w p sid (deleteSession sid st)).
  - split_and!.
    + intros b Hb. eexists. split; [by apply relaunch_ok|done].
    + intros k Hk. by rewrite relaunch_other.
    + apply relaunch_spawned.
Qed.

(** *** The polling loop of the launcher *)

Lemma pollCdp_Ok w p polls i ws :
  pollCdp w p polls i = Ok ws ↔
  ∃ n, n < polls ∧ checkCdpPort (cdpVersion w (i + n)) = Some ws ∧
       (∀ j, j ≤ n → hasExited w (i + j) = false) ∧
       (∀ j, j < n → checkCdpPort (cdpVersion w (i + j)) = None).
Proof.
  revert i. induction polls as [|polls IH]; intros i.
  { simpl. split; [done|]. intros (n & Hn & _). lia. }
  simpl. destruct (hasExited w i) eqn:Hex.
  { split; [done|]. intros (n & _ & _ & Hlive & _).
    specialize (Hlive 0). rewrite Nat.add_0_r in Hlive. rewrite Hlive in Hex; [done|lia]. }
  destruct (checkCdpPort (cdpVersion w i)) as [url|] eqn:Hport.
  - split.
    + intros [= ->]. exists 0. rewrite Nat.add_0_r. split_and!; [lia|done| |].
      * intros j Hj. by replace j with 0 by lia; rewrite Nat.add_0_r.
      * intros j Hj. lia.
    + intros (n & _ & Hn & _ & Hnone). destruct n as [|n].
      * rewrite Nat.add_0_r in Hn. congruence.
      * specialize (Hnone 0). rewrite Nat.add_0_r in Hnone.
        rewrite Hnone in Hport; [done|lia].
  - rewrite IH. split.
    + intros (n & Hn & Hws & Hlive & Hnone). exists (S n).
      replace (i + S n) with (S i + n) by lia. split_and!; [lia|done| |].
      * intros [|j] Hj; [by rewrite Nat.add_0_r|].
        replace (i + S j) with (S i + j) by lia. apply Hlive. lia.
      * intros [|j] Hj; [by rewrite Nat.add_0_r|].
        replace (i + S j) with (S i + j) by lia. apply Hnone. lia.
    + intros (n & Hn & Hws & Hlive & Hnone). destruct n as [|n].
      { rewrite Nat.add_0_r in Hws. congruence. }
      exists n. replace (S i + n) with (i + S n) by lia. split_and!; [lia|done| |].
      * intros j Hj. replace (S i + j) with (i + S j) by lia. apply Hlive. lia.
      * intros j Hj. replace (S i + j) with (i + S j) by lia. apply Hnone. lia.
Qed.

(** X18.  [launchChromeWithCdp] returns an endpoint exactly when the
    executable is found, the profile directory can be created, the port does
    not answer before the launch, and one of the polls made before the
    deadline gets an answer while the child has not exited at that poll or
    any earlier one; the endpoint returned is the first answer, and exactly
    one process has then been spawned, on the requested port and profile
    directory. *)
Theorem launch_returns_first_answer (w : World) (p : Z) (profileDir : string)
    (st : State) (ws : string) :
  (launchChromeWithCdp w p profileDir st).2 = Ok ws ↔
  (∃ exe, resolveChromeExecutablePath w = Ok exe) ∧
  mkdirSync w = Ok tt ∧
  checkCdpPort (cdpVersion w 0) = None ∧
  (launchChromeWithCdp w p profileDir st).1 = spawn p profileDir st ∧
  ∃ i, 1 ≤ i ≤ pollsBeforeDeadline w ∧
       checkCdpPort (cdpVersion w i) = Some ws ∧
       (∀ j, 1 ≤ j ≤ i → hasExited w j = false) ∧
       (∀ j, 1 ≤ j < i → checkCdpPort (cdpVersion w j) = None).
Proof.
  unfold launchChromeWithCdp.
  destruct (resolveChromeExecutablePath w) as [exe|m];
    [|split; [done|intros [[? ?] _]; done]].
  destruct (mkdirSync w) as [[]|m]; [|split; [done|intros (_ & ? & _); done]].
  destruct (checkCdpPort (cdpVersion w 0)) as [existing|];
    [split; [done|intros (_ & _ & ? & _); done]|].
  simpl. rewrite pollCdp_Ok. split.
  - intros (n & Hn & Hws & Hlive & Hnone).
    split_and!; [by eexists|done|done|done|]. exists (1 + n).
    split_and!; [lia|lia|done| |].
    + intros j Hj. replace j with (1 + (j - 1)) by lia. apply Hlive. lia.
    + intros j Hj. replace j with (1 + (j - 1)) by lia. apply Hnone. lia.
  - intros (_ & _ & _ & _ & i & Hi & Hws & Hlive & Hnone). exists (i - 1).
    replace (1 + (i - 1)) with i by lia. split_and!; [lia|done| |].
    + intros j Hj. apply Hlive. lia.
    + intros j Hj. apply Hnone. lia.
Qed.

End ChromeManager.

(** ** Download loop ([runDownloadLoop]) *)
Module DownloadFlow.

Import ChromeManager(Outcome, Ok, Throw).

Inductive DownloadState :=
  | Idle | OpenCard | WaitCardReady | StartDownload | WaitDownloadStart
  | WaitFileSaved | PostDownloadDelay | SwipeNext | Done.

Record DownloadLoopResult := {
  completed : nat;
  savedFiles : list string;
  lastState : DownloadState
}.

(** Calls made on the page. *)
Inductive PageCall :=
  | OpenCardAtIndex (index : Z)
  | WaitUntilCardReady
  | ClickDownload
  | PerformSafeSwipe.

(** What the awaited helpers of one loop iteration come back with:
    [isCancelled] at the top of the iteration, then [waitUntilCardReady],
    [clickDownload], [waitForDownloadStart] (the path of the started file),
    [waitUntilFileSaved] (the path of the saved file), [performSafeSwipe] after
    the download, and [performSafeSwipe] in the [catch] block. *)
Record Iteration := {
  cancelled : bool;
  cardReady : Outcome unit;
  clicked : Outcome unit;
  downloadStart : Outcome string;
  fileSaved : Outcome string;
  swipe : Outcome unit;
  recoverySwipe : Outcome unit
}.

(** The environment of one call: [fs.mkdir], [openCardAtIndex] for an index,
    the initial [fs.readdir] (the empty list when it fails), [path.basename],
    whether [options.isCancelled] is given, and the n-th iteration. *)
Record World := {
  mkdir : Outcome unit;
  openCardAtIndex : Z → Outcome unit;
  initialFiles : list string;
  basename : string → string;
  hasIsCancelled : bool;
  iterations : nat → Iteration
}.

(** The local variables of the call, with the states passed to [notify] and
    the calls made on the page. *)
Record LoopState := {
  state : DownloadState;
  saved : list string;
  seenNames : list string;
  notified : list DownloadState;
  pageCalls : list PageCall
}.

Definition notify (next : DownloadState) (st : LoopState) : LoopState :=
  {| state := next; saved := saved st; seenNames := seenNames st;
     notified := notified st ++ [next]; pageCalls := pageCalls st |}.

Definition page (c : PageCall) (st : LoopState) : LoopState :=
  {| state := state st; saved := saved st; seenNames := seenNames st;
     notified := notified st; pageCalls := pageCalls st ++ [c] |}.

(** [Set.prototype.add] on an insertion-ordered set. *)
Definition setAdd (x : string) (l : list string) : list string :=
  if decide (x ∈ l) then l else l ++ [x].

Definition addSeen (name : string) (st : LoopState) : LoopState :=
  {| state := state st; saved := saved st; seenNames := setAdd name (seenNames st);
     notified := notified st; pageCalls := pageCalls st |}.

Definition pushSaved (path : string) (st : LoopState) : LoopState :=
  {| state := state st; saved := saved st ++ [path]; seenNames := seenNames st;
     notified := notified st; pageCalls := pageCalls st |}.

(** "Memory management for seen set": the oldest names are deleted once the
    set is larger than [MAX_SEEN]. *)
Definition evictSeen (MAX_SEEN : nat) (st : LoopState) : LoopState :=
  {| state := state st; saved := saved st;
     seenNames :=
       if bool_decide (MAX_SEEN < length (seenNames st))
       then drop (length (seenNames st) - MAX_SEEN) (seenNames st)
       else seenNames st;
     notified := notified st; pageCalls := pageCalls st |}.

(** [array.slice(-n)]: the last [n] elements, and the whole array for [-0]. *)
Definition sliceLast {A} (n : nat) (l : list A) : list A :=
  if decide (n = 0) then l else drop (length l - n) l.

(** How one pass through the loop body ends. *)
Inductive BodyEnd :=
  | Continue (st : LoopState)
  | Break (st : LoopState).

(** The [catch] block: one recovery swipe. *)
Definition recover (it : Iteration) (st : LoopState) : BodyEnd :=
  let st := page PerformSafeSwipe (notify SwipeNext st) in
  match recoverySwipe it with
  | Ok _ => Continue st
  | Throw _ => Break st
  end.

(** The loop body after the cancellation check. *)
Definition body (w : World) (it : Iteration) (videosToDownload : Z) (MAX_SEEN : nat)
    (st : LoopState) : BodyEnd :=
  let st := evictSeen MAX_SEEN st in
  let st := page WaitUntilCardReady (notify WaitCardReady st) in
  match cardReady it with
  | Throw _ => recover it st
  | Ok _ =>
  let st := page ClickDownload (notify StartDownload st) in
  match clicked it with
  | Throw _ => recover it st
  | Ok _ =>
  let st := notify WaitDownloadStart st in
  match downloadStart it with
  | Throw _ => recover it st
  | Ok startedFile =>
  let st := notify WaitFileSaved (addSeen (basename w startedFile) st) in
  match fileSaved it with
  | Throw _ => recover it st
  | Ok savedPath =>
  let st := notify PostDownloadDelay
              (pushSaved savedPath (addSeen (basename w savedPath) st)) in
  if bool_decide (videosToDownload ≤ Z.of_nat (length (saved st)))%Z
  then Break (notify Done st)
  else
    let st := page PerformSafeSwipe (notify SwipeNext st) in
    match swipe it with
    | Ok _ => Continue st
    | Throw _ => recover it st
    end
  end end end end.

(** The [while] loop; [i] counts the iterations begun so far and [fuel]
    bounds those still allowed ([None]: the bound was reached). *)
Fixpoint loop (fuel : nat) (w : World) (videosToDownload : Z) (MAX_SEEN : nat)
    (i : nat) (st : LoopState) : option LoopState :=
  match fuel with
  | O => None
  | S fuel' =>
      if bool_decide (Z.of_nat (length (saved st)) < videosToDownload)%Z then
        if hasIsCancelled w && cancelled (iterations w i) then Some st
        else
          match body w (iterations w i) videosToDownload MAX_SEEN st with
          | Continue st' => loop fuel' w videosToDownload MAX_SEEN (S i) st'
          | Break st' => Some st'
          end
      else Some st
  end.

Definition videosToDownload (maxDownloads skipCount : Z) : Z :=
  Z.max 0 (maxDownloads - skipCount).

(** What a call leaves behind: what it returned or threw, the states passed
    to [notify] and the calls made on the page. *)
Record Run := {
  outcome : Outcome DownloadLoopResult;
  r_notified : list DownloadState;
  r_pageCalls : list PageCall
}.

Definition finish (target : Z) (st : LoopState) : Run :=
  {| outcome :=
       Ok {| completed := length (saved st); savedFiles := saved st;
             lastState :=
               if bool_decide (target ≤ Z.of_nat (length (saved st)))%Z
               then Done else state st |};
     r_notified := notified st; r_pageCalls := pageCalls st |}.

(** [runDownloadLoop]; [skipCount] and [maxSeenFiles] are optional. *)
Definition runDownloadLoop (fuel : nat) (w : World) (maxDownloads : Z)
    (skipCount : option Z) (maxSeenFiles : option nat) : option Run :=
  let skip := default 0%Z skipCount in
  let st0 := {| state := Idle; saved := []; seenNames := [];
                notified := []; pageCalls := [] |} in
  match mkdir w with
  | Throw m => Some {| outcome := Throw m; r_notified := []; r_pageCalls := [] |}
  | Ok _ =>
      let st1 := page (OpenCardAtIndex skip) (notify OpenCard st0) in
      match openCardAtIndex w skip with
      | Throw m =>
          Some {| outcome := Throw m; r_notified := notified st1;
                  r_pageCalls := pageCalls st1 |}
      | Ok _ =>
          let MAX_SEEN := default 1000 maxSeenFiles in
          let st2 :=
            {| state := state st1; saved := saved st1;
               seenNames := foldl (λ l x, setAdd x l) [] (sliceLast MAX_SEEN (initialFiles w));
               notified := notified st1; pageCalls := pageCalls st1 |} in
          let target := videosToDownload maxDownloads skip in
          finish target <$> loop fuel w target MAX_SEEN 0 st2
      end
  end.

(** *** What one pass through the body does to [savedFiles] *)

(** The path saved by an iteration whose four waits all succeed. *)
Definition savedPathOf (it : Iteration) : option string :=
  match cardReady it, clicked it, downloadStart it, fileSaved it with
  | Ok _, Ok _, Ok _, Ok savedPath => Some savedPath
  | _, _, _, _ => None
  end.

(** The paths saved by the iterations [i], [i+1], ..., [i+n-1], in order. *)
Definition goodPaths (w : World) (i n : nat) : list string :=
  omap (λ j, savedPathOf (iterations w j)) (seq i n).

Definition bodyState (e : BodyEnd) : LoopState :=
  match e with Continue st | Break st => st end.

Lemma recover_saved it st : saved (bodyState (recover it st)) = saved st.
Proof. unfold recover. by destruct (recoverySwipe it). Qed.

(** The body appends at most one path. *)
Lemma body_saved w it target M st :
  saved (bodyState (body w it target M st)) = saved st ∨
  ∃ p, saved (bodyState (body w it target M st)) = saved st ++ [p].
Proof.
  unfold body.
  destruct (cardReady it); [|left; by rewrite recover_saved].
  destruct (clicked it); [|left; by rewrite recover_saved].
  destruct (downloadStart it); [|left; by rewrite recover_saved].
  destruct (fileSaved it) as [p|]; [|left; by rewrite recover_saved].
  right. exists p. case_bool_decide; [done|].
  destruct (swipe it); [done|]. by rewrite recover_saved.
Qed.

Lemma body_failed w it target M st :
  savedPathOf it = None → recoverySwipe it = Ok tt →
  ∃ st', body w it target M st = Continue st' ∧ saved st' = saved st.
Proof.
  unfold savedPathOf, body, recover. intros Hp Hr. rewrite Hr.
  destruct (cardReady it); [|eauto].
  destruct (clicked it); [|eauto].
  destruct (downloadStart it); [|eauto].
  destruct (fileSaved it); [done|eauto].
Qed.

Lemma body_succeeded w it target M st p :
  savedPathOf it = Some p → recoverySwipe it = Ok tt →
  ∃ st', saved st' = saved st ++ [p] ∧
    (((target ≤ Z.of_nat (length (saved st)) + 1)%Z ∧
      body w it target M st = Break st') ∨
     (¬ (target ≤ Z.of_nat (length (saved st)) + 1)%Z ∧
      body w it target M st = Continue st')).
Proof.
  unfold savedPathOf, body, recover. intros Hp Hr. rewrite Hr.
  destruct (cardReady it); [|done].
  destruct (clicked it); [|done].
  destruct (downloadStart it); [|done].
  destruct (fileSaved it) as [q|]; [|done]. injection Hp as ->.
  cbn [saved notify pushSaved addSeen page evictSeen].
  rewrite length_app. cbn [length]. rewrite Nat2Z.inj_add. cbn [Z.of_nat Pos.of_succ_nat].
  case_bool_decide as Hdone.
  - eexists. split; [|left; split; [done|reflexivity]]. done.
  - destruct (swipe it); eexists; (split; [|right; split; [done|reflexivity]]); done.
Qed.

(** *** The loop *)

Lemma goodPaths_step w i n :
  goodPaths w i (S n) =
    match savedPathOf (iterations w i) with
    | Some p => p :: goodPaths w (S i) n
    | None => goodPaths w (S i) n
    end.
Proof. unfold goodPaths. simpl. by destruct (savedPathOf (iterations w i)). Qed.

(** With no cancellation and no failing recovery swipe, the loop returns as
    soon as enough iterations have succeeded, with their paths in order. *)
Lemma loop_collects w target M
    (Hcancel : ∀ i, hasIsCancelled w && cancelled (iterations w i) = false)
    (Hrecover : ∀ i, recoverySwipe (iterations w i) = Ok tt) :
  ∀ fuel i st,
    Z.to_nat (target - Z.of_nat (length (saved st))) ≤ length (goodPaths w i fuel) →
    ∃ st', loop (S fuel) w target M i st = Some st' ∧
           saved st' = saved st ++
             take (Z.to_nat (target - Z.of_nat (length (saved st)))) (goodPaths w i fuel).
Proof.
  induction fuel as [|fuel IH]; intros i st Hneed.
  - simpl in *. exists st. rewrite bool_decide_eq_false_2 by lia.
    split; [done|]. unfold goodPaths. simpl. by rewrite take_nil, app_nil_r.
  - cbn [loop]. case_bool_decide as Hlt.
    + rewrite Hcancel. rewrite goodPaths_step in Hneed |- *.
      destruct (savedPathOf (iterations w i)) as [p|] eqn:Hp.
      * destruct (body_succeeded w _ target M st p Hp (Hrecover i))
          as (st1 & Hs1 & [[Hdone ->]|[Hdone ->]]).
        -- exists st1. split; [done|]. rewrite Hs1.
           replace (Z.to_nat (target - Z.of_nat (length (saved st)))) with 1 by lia.
           done.
        -- simpl in Hneed. destruct (IH (S i) st1) as (st' & Hloop & Hsaved).
           { rewrite Hs1, length_app. simpl. lia. }
           exists st'. split; [done|]. rewrite Hsaved, Hs1, length_app. simpl.
           replace (Z.to_nat (target - Z.of_nat (length (saved st))))
             with (S (Z.to_nat (target - Z.of_nat (length (saved st) + 1)))) by lia.
           simpl. by rewrite <- app_assoc.
      * destruct (body_failed w _ target M st Hp (Hrecover i)) as (st1 & -> & Hs1).
        destruct (IH (S i) st1) as (st' & Hloop & Hsaved).
        { by rewrite Hs1. }
        exists st'. split; [done|]. by rewrite Hsaved, Hs1.
    + exists st. split; [done|].
      replace (Z.to_nat (target - Z.of_nat (length (saved st)))) with 0 by lia.
      by rewrite take_0, app_nil_r.
Qed.

Lemma goodPaths_app w i n m :
  goodPaths w i (n + m) = goodPaths w i n ++ goodPaths w (i + n) m.
Proof. unfold goodPaths. by rewrite seq_app, omap_app. Qed.

Lemma goodPaths_all_good w i n :
  (∀ j, i ≤ j → is_Some (savedPathOf (iterations w j))) →
  length (goodPaths w i n) = n.
Proof.
  revert i. induction n as [|n IH]; intros i Hgood; [done|].
  rewrite goodPaths_step. destruct (Hgood i) as [p ->]; [lia|].
  simpl. rewrite IH; [done|]. intros j Hj. apply Hgood. lia.
Qed.

(** The loop never saves more than the target. *)
Lemma loop_bounded w target M :
  ∀ fuel i st st',
    (Z.of_nat (length (saved st)) ≤ Z.max 0 target)%Z →
    loop fuel w target M i st = Some st' →
    (Z.of_nat (length (saved st')) ≤ Z.max 0 target)%Z.
Proof.
  induction fuel as [|fuel IH]; intros i st st' Hle Hloop; [done|].
  cbn [loop] in Hloop. case_bool_decide as Hlt; [|by injection Hloop as <-].
  destruct (hasIsCancelled w && cancelled (iterations w i)); [by injection Hloop as <-|].
  pose proof (body_saved w (iterations w i) target M st) as Hb.
  assert (Z.of_nat (length (saved (bodyState (body w (iterations w i) target M st))))
          ≤ Z.max 0 target)%Z as Hle'.
  { destruct Hb as [->|[p ->]]; [done|]. rewrite length_app. simpl. lia. }
  destruct (body w (iterations w i) target M st) as [st1|st1]; simpl in Hle'.
  - by eapply IH.
  - by injection Hloop as <-.
Qed.

(** *** Sample worlds *)

Definition goodIteration (path : string) : Iteration :=
  {| cancelled := false; cardReady := Ok tt; clicked := Ok tt;
     downloadStart := Ok (path +:+ ".crdownload"); fileSaved := Ok path;
     swipe := Ok tt; recoverySwipe := Ok tt |}.

(** Every iteration downloads one more video. *)
Definition smoothWorld : World :=
  {| mkdir := Ok tt; openCardAtIndex := λ _, Ok tt; initialFiles := [];
     basename := λ s, s; hasIsCancelled := true;
     iterations := λ i, goodIteration ("/downloads/video_" +:+ pretty i +:+ ".mp4") |}.

(** The card never becomes ready and the recovery swipe fails. *)
Definition brokenIteration : Iteration :=
  {| cancelled := false; cardReady := Throw "Timeout waiting for selector";
     clicked := Ok tt; downloadStart := Ok "x"; fileSaved := Ok "x";
     swipe := Ok tt; recoverySwipe := Throw "Target closed" |}.

Definition brokenWorld : World :=
  {| mkdir := Ok tt; openCardAtIndex := λ _, Ok tt; initialFiles := [];
     basename := λ s, s; hasIsCancelled := true;
     iterations := λ _, brokenIteration |}.

Example resume_downloads_three :
  outcome <$> runDownloadLoop 10 smoothWorld 5 (Some 2%Z) None =
  Some (Ok {| completed := 3;
              savedFiles := ["/downloads/video_0.mp4"; "/downloads/video_1.mp4";
                             "/downloads/video_2.mp4"];
              lastState := Done |}).
Proof. vm_compute. reflexivity. Qed.

(** *** Theorems about [runDownloadLoop] *)

(** C9, as stated, fails: with target 5 and resume offset 2, and cancellation
    never observed, an iteration that fails and whose recovery swipe fails
    too ends the loop early; the call returns [completed = 0], not 3. *)
Lemma failed_recovery_ends_loop_early :
  (∀ i, cancelled (iterations brokenWorld i) = false) ∧
  outcome <$> runDownloadLoop 10 brokenWorld 5 (Some 2%Z) None =
  Some (Ok {| completed := 0; savedFiles := []; lastState := SwipeNext |}).
Proof. split; [done|]. vm_compute. reflexivity. Qed.

(** C9, amended.  Whatever the environment does, a call that returns
    never reports more than the remaining target [max 0 (t - k)], which is
    [t - k] when [0 <= k <= t], and [completed] is the length of
    [savedFiles].  With [0 <= k <= t], when the directory and the initial
    card open, cancellation is never observed, no recovery swipe fails and
    from some iteration [N] on every iteration succeeds, the call returns
    [completed = t - k] with exactly the paths saved by the first [t - k]
    successful iterations, in order, and [lastState = Done], however many
    more iterations could succeed. *)
Theorem download_loop_reaches_target (w : World) (t k : Z) (maxSeen : option nat) :
  (∀ fuel r x, runDownloadLoop fuel w t (Some k) maxSeen = Some r → outcome r = Ok x →
     completed x = length (savedFiles x) ∧
     (Z.of_nat (completed x) ≤ Z.max 0 (t - k))%Z ∧
     ((0 ≤ k ≤ t)%Z → (Z.of_nat (completed x) ≤ t - k)%Z)) ∧
  ∀ N : nat,
    (0 ≤ k ≤ t)%Z →
    mkdir w = Ok tt → openCardAtIndex w k = Ok tt →
    (∀ i, hasIsCancelled w && cancelled (iterations w i) = false) →
    (∀ i, recoverySwipe (iterations w i) = Ok tt) →
    (∀ i, N ≤ i → is_Some (savedPathOf (iterations w i))) →
    ∃ r, runDownloadLoop (S (N + Z.to_nat (t - k))) w t (Some k) maxSeen = Some r ∧
         outcome r =
           Ok {| completed := Z.to_nat (t - k);
                 savedFiles :=
                   take (Z.to_nat (t - k)) (goodPaths w 0 (N + Z.to_nat (t - k)));
                 lastState := Done |} ∧
         length (take (Z.to_nat (t - k)) (goodPaths w 0 (N + Z.to_nat (t - k))))
           = Z.to_nat (t - k).
Proof.
  split.
  - intros fuel r x Hrun Hout. unfold runDownloadLoop in Hrun. simpl in Hrun.
    destruct (mkdir w); [|injection Hrun as <-; discriminate Hout].
    destruct (openCardAtIndex w k); [|injection Hrun as <-; discriminate Hout].
    destruct (loop fuel w (videosToDownload t k) _ 0 _) as [st'|] eqn:Hloop; [|done].
    injection Hrun as <-. simpl in Hout. injection Hout as <-. simpl.
    split; [done|].
    apply loop_bounded in Hloop; [|simpl; lia].
    unfold videosToDownload in Hloop. lia.
  - intros N Hk Hmk Hopen Hcancel Hrecover Hgood.
    assert (videosToDownload t k = (t - k)%Z) as Htarget
      by (unfold videosToDownload; lia).
    assert (Z.to_nat (t - k) ≤ length (goodPaths w 0 (N + Z.to_nat (t - k)))) as Hlen.
    { rewrite goodPaths_app, length_app, (goodPaths_all_good w (0 + N)); [lia|].
      intros j Hj. apply Hgood. lia. }
    unfold runDownloadLoop. cbn [default from_option id]. rewrite Hmk, Hopen, Htarget.
    match goal with |- context [loop _ w _ ?M 0 ?st] =>
      destruct (loop_collects w (t - k)%Z M Hcancel Hrecover
                  (N + Z.to_nat (t - k)) 0 st) as (st' & Hloop & Hsaved)
    end.
    { simpl. by rewrite Z.sub_0_r. }
    simpl in Hsaved. rewrite Z.sub_0_r in Hsaved.
    rewrite Hloop. eexists. split; [reflexivity|]. split.
    + unfold finish. simpl. rewrite Hsaved.
      rewrite length_take, Nat.min_l by done.
      rewrite bool_decide_eq_true_2 by lia. done.
    + by rewrite length_take, Nat.min_l.
Qed.

Lemma download_loop_reaches_target_witness :
  (0 ≤ 2 ≤ 5)%Z ∧
  ∃ r, runDownloadLoop (S (0 + Z.to_nat (5 - 2))) smoothWorld 5 (Some 2%Z) None = Some r ∧
       outcome r =
         Ok {| completed := Z.to_nat (5 - 2);
               savedFiles := take (Z.to_nat (5 - 2))
                               (goodPaths smoothWorld 0 (0 + Z.to_nat (5 - 2)));
               lastState := Done |} ∧
       length (take (Z.to_nat (5 - 2)) (goodPaths smoothWorld 0 (0 + Z.to_nat (5 - 2))))
         = Z.to_nat (5 - 2).
Proof.
  assert (0 ≤ 2 ≤ 5)%Z as Hk by lia.
  split; [exact Hk|].
  refine (proj2 (download_loop_reaches_target smoothWorld 5 2 None) 0
                Hk eq_refl eq_refl _ _ _).
  - intros i. reflexivity.
  - intros i. reflexivity.
  - intros i _. eexists. reflexivity.
Defined.

(** The initial navigation fails. *)
Definition lostPageWorld : World :=
  {| mkdir := Ok tt; openCardAtIndex := λ _, Throw "Target closed";
     initialFiles := []; basename := λ s, s; hasIsCancelled := true;
     iterations := λ i, goodIteration ("/downloads/video_" +:+ pretty i +:+ ".mp4") |}.

(** C10, as stated, fails: with [skipCount >= maxDownloads] the call need
    not return [completed = 0]; when the initial navigation throws, the
    error is rethrown and the call returns nothing. *)
Lemma skip_beyond_target_can_throw :
  (5 ≤ 7)%Z ∧
  ∀ fuel, runDownloadLoop fuel lostPageWorld 5 (Some 7%Z) None =
    Some {| outcome := Throw "Target closed";
            r_notified := [OpenCard];
            r_pageCalls := [OpenCardAtIndex 7] |}.
Proof. split; [lia|]. intros fuel. vm_compute. reflexivity. Qed.

(** C10, amended.  When [skipCount >= maxDownloads] the remaining target is
    zero and the loop body never runs.  When [fs.mkdir] succeeds, [OpenCard]
    is the only state passed to [notify] and the initial
    [openCardAtIndex(skipCount)] is the one call made on the page, so no
    download is triggered; the call then returns [completed = 0] with an
    empty [savedFiles] and [lastState = Done] if that navigation succeeds,
    and rethrows its error otherwise.  When [fs.mkdir] throws, the call
    rethrows without touching the page. *)
Theorem skip_beyond_target_downloads_nothing (w : World) (maxDownloads skipCount : Z)
    (maxSeen : option nat) (fuel : nat) :
  (maxDownloads ≤ skipCount)%Z →
  videosToDownload maxDownloads skipCount = 0%Z ∧
  runDownloadLoop (S fuel) w maxDownloads (Some skipCount) maxSeen =
    Some match mkdir w with
         | Throw m => {| outcome := Throw m; r_notified := []; r_pageCalls := [] |}
         | Ok _ =>
             {| outcome :=
                  match openCardAtIndex w skipCount with
                  | Throw m => Throw m
                  | Ok _ =>
                      Ok {| completed := 0; savedFiles := []; lastState := Done |}
                  end;
                r_notified := [OpenCard];
                r_pageCalls := [OpenCardAtIndex skipCount] |}
         end.
Proof.
  intros Hle.
  assert (videosToDownload maxDownloads skipCount = 0%Z) as Htarget
    by (unfold videosToDownload; lia).
  split; [done|]. unfold runDownloadLoop. cbn [default from_option id]. rewrite Htarget.
  destruct (mkdir w); [|done].
  destruct (openCardAtIndex w skipCount); [|done].
  cbn [loop]. done.
Qed.

Lemma skip_beyond_target_downloads_nothing_witness :
  (5 ≤ 7)%Z ∧
  videosToDownload 5 7 = 0%Z ∧
  runDownloadLoop 1 smoothWorld 5 (Some 7%Z) None =
    Some {| outcome := Ok {| completed := 0; savedFiles := []; lastState := Done |};
            r_notified := [OpenCard];
            r_pageCalls := [OpenCardAtIndex 7] |}.
Proof.
  assert (5 ≤ 7)%Z as Hle by lia.
  split; [exact Hle|].
  exact (skip_beyond_target_downloads_nothing smoothWorld 5 7 None 0 Hle).
Defined.

Example skip_beyond_target_run :
  runDownloadLoop 1 smoothWorld 5 (Some 7%Z) None =
    Some {| outcome := Ok {| completed := 0; savedFiles := []; lastState := Done |};
            r_notified := [OpenCard];
            r_pageCalls := [OpenCardAtIndex 7] |}.
Proof. vm_compute. reflexivity. Qed.

(** *** How the loop ends *)

Definition isClick (c : PageCall) : bool :=
  match c with ClickDownload => true | _ => false end.

(** The number of times the download button was clicked. *)
Definition clicks (calls : list PageCall) : nat :=
  length (filter (λ c, isClick c = true) calls).

Lemma clicks_snoc calls c :
  clicks (calls ++ [c]) = clicks calls + (if isClick c then 1 else 0).
Proof.
  unfold clicks. rewrite filter_app, length_app. f_equal. by destruct c.
Qed.

Lemma recover_clicks it st :
  clicks (pageCalls (bodyState (recover it st))) = clicks (pageCalls st).
Proof.
  unfold recover. destruct (recoverySwipe it); simpl;
    rewrite clicks_snoc; simpl; lia.
Qed.

(** One pass through the body clicks the download button at most once. *)
Lemma body_clicks w it target M st :
  clicks (pageCalls (bodyState (body w it target M st))) ≤ S (clicks (pageCalls st)).
Proof.
  unfold body.
  destruct (cardReady it);
    [|rewrite recover_clicks; simpl; rewrite clicks_snoc; simpl; lia].
  destruct (clicked it);
    [|rewrite recover_clicks; simpl; rewrite !clicks_snoc; simpl; lia].
  destruct (downloadStart it);
    [|rewrite recover_clicks; simpl; rewrite !clicks_snoc; simpl; lia].
  destruct (fileSaved it);
    [|rewrite recover_clicks; simpl; rewrite !clicks_snoc; simpl; lia].
  case_bool_decide; [simpl; rewrite !clicks_snoc; simpl; lia|].
  destruct (swipe it); [|rewrite recover_clicks];
    simpl; rewrite !clicks_snoc; simpl; lia.
Qed.

(** Once [isCancelled] answers true at the top of iteration [i + n], the
    loop started at iteration [i] returns, having begun at most [n]
    iterations. *)
Lemma loop_cancelled w target M n :
  hasIsCancelled w = true →
  ∀ i st, cancelled (iterations w (i + n)) = true →
    ∃ st', loop (S n) w target M i st = Some st' ∧
           length (saved st') ≤ length (saved st) + n ∧
           clicks (pageCalls st') ≤ clicks (pageCalls st) + n.
Proof.
  intros Hhas. induction n as [|n IH]; intros i st Hc.
  - rewrite Nat.add_0_r in Hc. cbn [loop]. rewrite Hhas, Hc. simpl.
    exists st. split; [by case_bool_decide|lia].
  - cbn [loop]. case_bool_decide; [|exists st; split; [done|lia]].
    destruct (hasIsCancelled w && cancelled (iterations w i));
      [exists st; split; [done|lia]|].
    pose proof (body_saved w (iterations w i) target M st) as Hs.
    pose proof (body_clicks w (iterations w i) target M st) as Hk.
    destruct (body w (iterations w i) target M st) as [st1|st1]; simpl in Hs, Hk.
    + destruct (IH (S i) st1) as (st' & Hloop & Hs' & Hk').
      { by replace (S i + n) with (i + S n) by lia. }
      exists st'. split; [exact Hloop|].
      destruct Hs as [Hs|[p Hs]]; rewrite Hs in Hs';
        [|rewrite length_app in Hs'; simpl in Hs']; lia.
    + exists st1. split; [done|].
      destruct Hs as [Hs|[p Hs]]; rewrite Hs;
        [|rewrite length_app; simpl]; lia.
Qed.

(** While every iteration fails and every recovery swipe succeeds, the loop
    goes on. *)
Lemma loop_keeps_failing w target M
    (Hcancel : ∀ i, hasIsCancelled w && cancelled (iterations w i) = false)
    (Hfail : ∀ i, savedPathOf (iterations w i) = None ∧
                  recoverySwipe (iterations w i) = Ok tt) :
  ∀ fuel i st, (Z.of_nat (length (saved st)) < target)%Z →
    loop fuel w target M i st = None.
Proof.
  induction fuel as [|fuel IH]; intros i st Hlt; [done|].
  cbn [loop]. rewrite bool_decide_eq_true_2 by done. rewrite Hcancel.
  destruct (Hfail i) as [Hnone Hrec].
  destruct (body_failed w _ target M st Hnone Hrec) as (st1 & -> & Hs).
  apply IH. by rewrite Hs.
Qed.

(** X29.  Once [isCancelled] answers true at the top of an iteration,
    [runDownloadLoop] returns normally without beginning that iteration: if
    that is iteration [n] (counted from 0), the call returns at most [n]
    saved files, all of them counted in [completed], and the download button
    was clicked at most [n] times. *)
Theorem cancelled_download_loop_returns (w : World) (maxDownloads : Z)
    (skipCount : option Z) (maxSeen : option nat) (n : nat) :
  mkdir w = Ok tt → openCardAtIndex w (default 0%Z skipCount) = Ok tt →
  hasIsCancelled w = true → cancelled (iterations w n) = true →
  ∃ r x, runDownloadLoop (S n) w maxDownloads skipCount maxSeen = Some r ∧
         outcome r = Ok x ∧
         completed x = length (savedFiles x) ∧ completed x ≤ n ∧
         clicks (r_pageCalls r) ≤ n.
Proof.
  intros Hmk Hopen Hhas Hc. unfold runDownloadLoop. rewrite Hmk, Hopen.
  match goal with |- context [loop _ w ?t ?M 0 ?st] =>
    destruct (loop_cancelled w t M n Hhas 0 st Hc) as (st' & -> & Hs & Hk)
  end.
  simpl in Hs, Hk. eexists _, _. split_and!; [reflexivity|reflexivity|done|done|].
  simpl. exact Hk.
Qed.

(** X30.  [runDownloadLoop] has no bound on failed attempts: when files
    remain to be downloaded, cancellation is never observed, and every
    iteration fails before a file is saved while its recovery swipe
    succeeds, the loop never ends, whatever the number of iterations
    allowed. *)
Theorem failing_download_loop_never_ends (w : World) (maxDownloads : Z)
    (skipCount : option Z) (maxSeen : option nat) :
  mkdir w = Ok tt → openCardAtIndex w (default 0%Z skipCount) = Ok tt →
  (default 0%Z skipCount < maxDownloads)%Z →
  (∀ i, hasIsCancelled w && cancelled (iterations w i) = false) →
  (∀ i, savedPathOf (iterations w i) = None ∧ recoverySwipe (iterations w i) = Ok tt) →
  ∀ fuel, runDownloadLoop fuel w maxDownloads skipCount maxSeen = None.
Proof.
  intros Hmk Hopen Hlt Hcancel Hfail fuel. unfold runDownloadLoop.
  rewrite Hmk, Hopen. rewrite loop_keeps_failing; [done|done|done|].
  simpl. unfold videosToDownload. lia.
Qed.

(** The third check of [isCancelled] answers true. *)
Definition cancelledWorld : World :=
  {| mkdir := Ok tt; openCardAtIndex := λ _, Ok tt; initialFiles := [];
     basename := λ s, s; hasIsCancelled := true;
     iterations := λ i,
       {| cancelled := bool_decide (i = 2); cardReady := Ok tt; clicked := Ok tt;
          downloadStart := Ok "a.crdownload"; fileSaved := Ok "a.mp4";
          swipe := Ok tt; recoverySwipe := Ok tt |} |}.

(** The card never becomes ready, and the recovery swipe works. *)
Definition stuckWorld : World :=
  {| mkdir := Ok tt; openCardAtIndex := λ _, Ok tt; initialFiles := [];
     basename := λ s, s; hasIsCancelled := true;
     iterations := λ _,
       {| cancelled := false; cardReady := Throw "Timeout waiting for selector";
          clicked := Ok tt; downloadStart := Ok "x"; fileSaved := Ok "x";
          swipe := Ok tt; recoverySwipe := Ok tt |} |}.

Lemma cancelled_download_loop_returns_witness :
  cancelled (iterations cancelledWorld 2) = true ∧
  outcome <$> runDownloadLoop 3 cancelledWorld 10 None None =
    Some (Ok {| completed := 2; savedFiles := ["a.mp4"; "a.mp4"];
                lastState := SwipeNext |}) ∧
  ∃ r x, runDownloadLoop 3 cancelledWorld 10 None None = Some r ∧
         outcome r = Ok x ∧
         completed x = length (savedFiles x) ∧ completed x ≤ 2 ∧
         clicks (r_pageCalls r) ≤ 2.
Proof.
  split_and!; [reflexivity|vm_compute; reflexivity|].
  exact (cancelled_download_loop_returns cancelledWorld 10 None None 2
           eq_refl eq_refl eq_refl eq_refl).
Defined.

Lemma failing_download_loop_never_ends_witness :
  (default 0 (Some 2) < 5)%Z ∧
  ∀ fuel, runDownloadLoop fuel stuckWorld 5 (Some 2%Z) None = None.
Proof.
  assert (default 0 (Some 2) < 5)%Z as Hlt by (simpl; lia).
  split; [exact Hlt|].
  refine (failing_download_loop_never_ends stuckWorld 5 (Some 2%Z) None
            eq_refl eq_refl Hlt _ _).
  - intros i. reflexivity.
  - intros i. split; reflexivity.
Defined.

End DownloadFlow.

(** ** Pipeline ([assignRuntimePorts], [buildDynamicWorkflow],
    [buildWorkflowSteps], [runPipeline]) *)
Module Pipeline.

(** The fields of a [Session] that the pipeline reads.  [cdpPort] is
    [number | null]; ports are integers.  [enableAutoPrompts] is an optional
    boolean. *)
Record Session := {
  id : string;
  name : string;
  cdpPort : option Z;
  maxVideos : Z;
  enableAutoPrompts : option bool
}.

(** *** [assignRuntimePorts] *)

(** [s.cdpPort && Number.isFinite(s.cdpPort) && s.cdpPort > 0] *)
Definition hasFixedPort (s : Session) : bool :=
  match cdpPort s with
  | Some p => bool_decide (0 < p)%Z
  | None => false
  end.

(** [{ ...s, cdpPort: p }] *)
Definition setPort (p : Z) (s : Session) : Session :=
  {| id := id s; name := name s; cdpPort := Some p; maxVideos := maxVideos s;
     enableAutoPrompts := enableAutoPrompts s |}.

(** The first loop: "reserve explicitly configured ports". *)
Definition reservePort (used : gset Z) (s : Session) : gset Z :=
  if hasFixedPort s then {[ default 0%Z (cdpPort s) ]} ∪ used else used.

(** [while (usedPorts.has(nextPort)) nextPort++]; [fuel] bounds the number of
    iterations ([None]: the bound was reached). *)
Fixpoint findFree (fuel : nat) (used : gset Z) (nextPort : Z) : option Z :=
  match fuel with
  | O => None
  | S fuel' =>
      if decide (nextPort ∈ used) then findFree fuel' used (nextPort + 1)%Z
      else Some nextPort
  end.

(** The callback of [sessions.map], with the [usedPorts] and [nextPort] it
    closes over. *)
Fixpoint assignFrom (fuel : nat) (used : gset Z) (nextPort : Z)
    (sessions : list Session) : option (list Session) :=
  match sessions with
  | [] => Some []
  | s :: rest =>
      if hasFixedPort s then (s ::.) <$> assignFrom fuel used nextPort rest
      else
        match findFree fuel used nextPort with
        | Some p => (setPort p s ::.) <$> assignFrom fuel ({[ p ]} ∪ used) p rest
        | None => None
        end
  end.

Definition assignRuntimePorts (fuel : nat) (sessions : list Session)
    : option (list Session) :=
  assignFrom fuel (foldl reservePort ∅ sessions) 9222 sessions.

(** The explicitly configured ports, in list order. *)
Definition fixedPorts (sessions : list Session) : list Z :=
  omap (λ s, if hasFixedPort s then cdpPort s else None) sessions.

(** What the function does to one session. *)
Definition portAssigned (s o : Session) : Prop :=
  if hasFixedPort s then o = s
  else ∃ p, (9222 ≤ p)%Z ∧ o = setPort p s.

Lemma findFree_total fuel used p :
  size (filter (λ x, (p ≤ x)%Z) used) < fuel →
  ∃ q, findFree fuel used p = Some q.
Proof.
  revert p. induction fuel as [|fuel IH]; intros p Hsz; [lia|].
  simpl. destruct (decide (p ∈ used)) as [Hin|Hout]; [|by eexists].
  apply IH.
  assert (filter (λ x, (p + 1 ≤ x)%Z) used ⊂ filter (λ x, (p ≤ x)%Z) used) as Hsub.
  { split.
    - intros x Hx. apply elem_of_filter in Hx as [? ?]. apply elem_of_filter.
      split; [lia|done].
    - intros Hsup. assert (p ∈ filter (λ x, (p + 1 ≤ x)%Z) used) as Hp.
      { apply Hsup, elem_of_filter. split; [lia|done]. }
      apply elem_of_filter in Hp as [? _]. lia. }
  apply subset_size in Hsub. lia.
Qed.

Lemma findFree_Some fuel used p q :
  findFree fuel used p = Some q →
  (p ≤ q)%Z ∧ ¬ (q ∈ used) ∧ ∀ r, (p ≤ r < q)%Z → r ∈ used.
Proof.
  revert p. induction fuel as [|fuel IH]; intros p H; [done|].
  simpl in H. destruct (decide (p ∈ used)) as [Hin|Hout].
  - destruct (IH _ H) as (Hle & Hnot & Hbetween). split_and!; [lia|done|].
    intros r Hr. destruct (decide (r = p)) as [->|Hne]; [done|].
    apply Hbetween. lia.
  - injection H as <-. split_and!; [lia|done|]. intros r Hr. lia.
Qed.

Lemma fixedPorts_cons s rest :
  fixedPorts (s :: rest) =
    if hasFixedPort s then default 0%Z (cdpPort s) :: fixedPorts rest
    else fixedPorts rest.
Proof.
  unfold fixedPorts. simpl. unfold hasFixedPort.
  destruct (cdpPort s) as [p|]; [|done]. simpl. by case_bool_decide.
Qed.

Lemma reserve_all sessions used p :
  p ∈ foldl reservePort used sessions ↔ p ∈ used ∨ p ∈ fixedPorts sessions.
Proof.
  revert used. induction sessions as [|s rest IH]; intros used.
  { simpl. split; [by left|]. intros [?|H]; [done|]. by apply elem_of_nil in H. }
  cbn [foldl]. rewrite IH, fixedPorts_cons. unfold reservePort.
  destruct (hasFixedPort s).
  - rewrite elem_of_union, elem_of_singleton, elem_of_cons. tauto.
  - done.
Qed.

Lemma reserve_size sessions used :
  size (foldl reservePort used sessions) ≤ size used + length (fixedPorts sessions).
Proof.
  revert used. induction sessions as [|s rest IH]; intros used; [simpl; lia|].
  cbn [foldl]. rewrite fixedPorts_cons. etrans; [apply IH|]. unfold reservePort.
  destruct (hasFixedPort s); [|lia].
  pose proof (size_union_alt {[default 0%Z (cdpPort s)]} used) as Hu.
  pose proof (subseteq_size (used ∖ {[default 0%Z (cdpPort s)]}) used) as Hd.
  rewrite size_singleton in Hu. simpl.
  assert (used ∖ {[default 0%Z (cdpPort s)]} ⊆ used) as Hsub
    by (by apply subseteq_difference_l).
  specialize (Hd Hsub). lia.
Qed.

(** The number of sessions without a configured port. *)
Definition freeCount (sessions : list Session) : nat :=
  length (filter (λ s, hasFixedPort s = false) sessions).

Lemma counts_split sessions :
  length (fixedPorts sessions) + freeCount sessions = length sessions.
Proof.
  unfold freeCount. induction sessions as [|s rest IH]; [done|].
  rewrite fixedPorts_cons. destruct (hasFixedPort s) eqn:E.
  - rewrite filter_cons_False by (by rewrite E). simpl. lia.
  - rewrite filter_cons_True by (by rewrite E). simpl. lia.
Qed.

Lemma assignFrom_total fuel sessions used next :
  size used + freeCount sessions ≤ fuel → (9222 ≤ next)%Z →
  ∃ out, assignFrom fuel used next sessions = Some out ∧
         Forall2 portAssigned sessions out.
Proof.
  revert used next. induction sessions as [|s rest IH]; intros used next Hfuel Hnext.
  { exists []. split; [done|]. constructor. }
  unfold freeCount in Hfuel. simpl. destruct (hasFixedPort s) eqn:E.
  - rewrite filter_cons_False in Hfuel by (by rewrite E).
    destruct (IH used next Hfuel Hnext) as (out & -> & Hall).
    exists (s :: out). split; [done|]. constructor; [|done].
    unfold portAssigned. by rewrite E.
  - rewrite filter_cons_True in Hfuel by (by rewrite E). simpl in Hfuel.
    destruct (findFree_total fuel used next) as [q Hq].
    { pose proof (subseteq_size (filter (λ x, (next ≤ x)%Z) used) used) as Hs.
      assert (filter (λ x, (next ≤ x)%Z) used ⊆ used) as Hsub
        by (intros x Hx; by apply elem_of_filter in Hx as [_ ?]).
      specialize (Hs Hsub). lia. }
    rewrite Hq. destruct (findFree_Some _ _ _ _ Hq) as (Hle & Hnot & _).
    destruct (IH ({[q]} ∪ used) q) as (out & -> & Hall).
    + rewrite size_union by set_solver. rewrite size_singleton.
      fold (freeCount rest) in Hfuel. unfold freeCount in *. lia.
    + lia.
    + exists (setPort q s :: out). split; [done|]. constructor; [|done].
      unfold portAssigned. rewrite E. exists q. split; [lia|done].
Qed.

(** Every port of the result is a configured one or a fresh one. *)
Lemma assignFrom_ports fuel sessions used next out :
  assignFrom fuel used next sessions = Some out → (0 < next)%Z →
  (∀ p, p ∈ fixedPorts sessions → p ∈ used) →
  ∀ x, x ∈ cdpPort <$> out →
    ∃ p, x = Some p ∧ (0 < p)%Z ∧
         (p ∈ fixedPorts sessions ∨ ((next ≤ p)%Z ∧ ¬ (p ∈ used))).
Proof.
  revert used next out.
  induction sessions as [|s rest IH]; intros used next out H Hnext Hfixed x Hx.
  { injection H as <-. by apply elem_of_nil in Hx. }
  simpl in H. rewrite fixedPorts_cons in Hfixed |- *.
  destruct (hasFixedPort s) eqn:E.
  - destruct (assignFrom fuel used next rest) as [out'|] eqn:E'; [|done].
    injection H as <-. rewrite fmap_cons in Hx.
    apply elem_of_cons in Hx as [->|Hx].
    + unfold hasFixedPort in E. destruct (cdpPort s) as [p|]; [|done].
      exists p. split_and!; [done|by apply bool_decide_eq_true_1 in E|].
      left. simpl. left.
    + destruct (IH used next out' E') with (x := x) as (p & -> & Hpos & Hp);
        [done| |done|].
      { intros p Hp. apply Hfixed. by right. }
      exists p. split_and!; [done|done|]. destruct Hp as [?|?]; [left; by right|by right].
  - destruct (findFree fuel used next) as [q|] eqn:Eq; [|done].
    destruct (findFree_Some _ _ _ _ Eq) as (Hle & Hnot & _).
    destruct (assignFrom fuel ({[q]} ∪ used) q rest) as [out'|] eqn:E'; [|done].
    injection H as <-. rewrite fmap_cons in Hx.
    apply elem_of_cons in Hx as [->|Hx].
    + exists q. simpl. split_and!; [done|lia|by right].
    + destruct (IH ({[q]} ∪ used) q out' E') with (x := x) as (p & -> & Hpos & Hp);
        [lia| |done|].
      { intros p Hp. apply elem_of_union. right. by apply Hfixed. }
      exists p. split_and!; [done|done|]. destruct Hp as [?|[? Hn]]; [by left|right].
      split; [lia|]. intros Hin. apply Hn, elem_of_union. by right.
Qed.

(** A session without a configured port gets a port that is not in use. *)
Lemma assignFrom_shape fuel sessions used next out :
  assignFrom fuel used next sessions = Some out →
  Forall2 (λ s o, if hasFixedPort s then o = s
                  else ∃ p, o = setPort p s ∧ (next ≤ p)%Z ∧ ¬ (p ∈ used))
    sessions out.
Proof.
  revert used next out. induction sessions as [|s rest IH]; intros used next out H.
  { injection H as <-. constructor. }
  simpl in H. destruct (hasFixedPort s) eqn:E.
  - destruct (assignFrom fuel used next rest) as [out'|] eqn:E'; [|done].
    injection H as <-. constructor; [by rewrite E|]. by eapply IH.
  - destruct (findFree fuel used next) as [q|] eqn:Eq; [|done].
    destruct (findFree_Some _ _ _ _ Eq) as (Hle & Hnot & _).
    destruct (assignFrom fuel ({[q]} ∪ used) q rest) as [out'|] eqn:E'; [|done].
    injection H as <-. constructor; [rewrite E; by exists q|].
    eapply Forall2_impl; [by eapply IH|]. intros s' o'. simpl.
    destruct (hasFixedPort s'); [done|]. intros (p & -> & Hp & Hn).
    exists p. split_and!; [done|lia|]. intros Hin. apply Hn, elem_of_union. by right.
Qed.

Lemma assignFrom_fresh fuel sessions used next out :
  assignFrom fuel used next sessions = Some out → (0 < next)%Z →
  (∀ p, p ∈ fixedPorts sessions → p ∈ used) →
  ∀ i j si oi oj,
    sessions !! i = Some si → hasFixedPort si = false →
    out !! i = Some oi → out !! j = Some oj → i ≠ j →
    cdpPort oi ≠ cdpPort oj.
Proof.
  revert used next out.
  induction sessions as [|s rest IH];
    intros used next out H Hnext Hfixed i j si oi oj Hsi Hfree Hoi Hoj Hij; [done|].
  simpl in H. rewrite fixedPorts_cons in Hfixed.
  destruct (hasFixedPort s) eqn:E.
  - destruct (assignFrom fuel used next rest) as [out'|] eqn:E'; [|done].
    injection H as <-.
    assert (∀ p, p ∈ fixedPorts rest → p ∈ used) as Hfixed'
      by (intros p Hp; apply Hfixed; by right).
    destruct i as [|i]; simpl in Hsi, Hoi; [congruence|].
    destruct j as [|j]; simpl in Hoj.
    + injection Hoj as <-.
      pose proof (Forall2_lookup_lr _ _ _ _ _ _ (assignFrom_shape _ _ _ _ _ E') Hsi Hoi)
        as Hshape. simpl in Hshape. rewrite Hfree in Hshape.
      destruct Hshape as (p & -> & _ & Hn). simpl. intros Heq. apply Hn.
      apply Hfixed. rewrite <- Heq. simpl. left.
    + eapply (IH used next out'); eauto.
  - destruct (findFree fuel used next) as [q|] eqn:Eq; [|done].
    destruct (findFree_Some _ _ _ _ Eq) as (Hle & Hnot & _).
    destruct (assignFrom fuel ({[q]} ∪ used) q rest) as [out'|] eqn:E'; [|done].
    injection H as <-.
    assert (∀ p, p ∈ fixedPorts rest → p ∈ {[q]} ∪ used) as Hfixed'
      by (intros p Hp; apply elem_of_union; right; by apply Hfixed).
    destruct i as [|i], j as [|j]; simpl in Hsi, Hoi, Hoj; [done| | |].
    + injection Hoi as <-. simpl. intros Heq.
      destruct (assignFrom_ports _ _ _ _ _ E') with (x := cdpPort oj)
        as (p & Hp & _ & Hwhere); [lia|done| |].
      { apply list_elem_of_fmap_2. by eapply list_elem_of_lookup_2. }
      rewrite Hp in Heq. injection Heq as <-.
      destruct Hwhere as [Hin|[_ Hn]].
      * by apply Hnot, Hfixed.
      * apply Hn, elem_of_union. left. by apply elem_of_singleton.
    + injection Hoj as <-. simpl.
      pose proof (Forall2_lookup_lr _ _ _ _ _ _ (assignFrom_shape _ _ _ _ _ E') Hsi Hoi)
        as Hshape. simpl in Hshape. rewrite Hfree in Hshape.
      destruct Hshape as (p & -> & _ & Hn). simpl. intros Heq. injection Heq as ->.
      apply Hn, elem_of_union. left. by apply elem_of_singleton.
    + eapply (IH ({[q]} ∪ used) q out'); eauto. lia.
Qed.

Lemma assignFrom_NoDup fuel sessions used next out :
  assignFrom fuel used next sessions = Some out → (0 < next)%Z →
  (∀ p, p ∈ fixedPorts sessions → p ∈ used) →
  NoDup (fixedPorts sessions) → NoDup (cdpPort <$> out).
Proof.
  revert used next out.
  induction sessions as [|s rest IH]; intros used next out H Hnext Hfixed Hnd.
  { injection H as <-. constructor. }
  simpl in H. rewrite fixedPorts_cons in Hfixed, Hnd.
  destruct (hasFixedPort s) eqn:E.
  - destruct (assignFrom fuel used next rest) as [out'|] eqn:E'; [|done].
    injection H as <-. apply NoDup_cons in Hnd as [Hhead Hnd].
    assert (∀ p, p ∈ fixedPorts rest → p ∈ used) as Hfixed'
      by (intros p Hp; apply Hfixed; by right).
    rewrite fmap_cons. apply NoDup_cons. split; [|by eapply IH].
    intros Hin.
    destruct (assignFrom_ports _ _ _ _ _ E' Hnext Hfixed' _ Hin)
      as (p & Hp & _ & Hwhere).
    unfold hasFixedPort in E. destruct (cdpPort s) as [p0|]; [|done].
    injection Hp as ->. simpl in *. destruct Hwhere as [?|[_ Hn]]; [done|].
    apply Hn, Hfixed. left.
  - destruct (findFree fuel used next) as [q|] eqn:Eq; [|done].
    destruct (findFree_Some _ _ _ _ Eq) as (Hle & Hnot & _).
    destruct (assignFrom fuel ({[q]} ∪ used) q rest) as [out'|] eqn:E'; [|done].
    injection H as <-.
    assert (∀ p, p ∈ fixedPorts rest → p ∈ {[q]} ∪ used) as Hfixed'
      by (intros p Hp; apply elem_of_union; right; by apply Hfixed).
    rewrite fmap_cons. apply NoDup_cons. split; [|eapply IH; eauto; lia].
    intros Hin.
    destruct (assignFrom_ports _ _ _ _ _ E') with (x := cdpPort (setPort q s))
      as (p & Hp & _ & Hwhere); [lia|done|done|].
    simpl in Hp. injection Hp as <-. destruct Hwhere as [?|[_ Hn]].
    + by apply Hnot, Hfixed.
    + apply Hn, elem_of_union. left. by apply elem_of_singleton.
Qed.

Lemma reserved_fixed sessions p :
  p ∈ fixedPorts sessions → p ∈ foldl reservePort ∅ sessions.
Proof. intros Hp. apply reserve_all. by right. Qed.

(** Two sessions with configured ports and three without. *)
Definition sampleSessions : list Session :=
  [ {| id := "a"; name := "A"; cdpPort := Some 9222%Z; maxVideos := 0;
       enableAutoPrompts := None |};
    {| id := "b"; name := "B"; cdpPort := None; maxVideos := 0;
       enableAutoPrompts := Some true |};
    {| id := "c"; name := "C"; cdpPort := Some 0%Z; maxVideos := 0;
       enableAutoPrompts := Some false |};
    {| id := "d"; name := "D"; cdpPort := Some 9224%Z; maxVideos := 0;
       enableAutoPrompts := None |};
    {| id := "e"; name := "E"; cdpPort := None; maxVideos := 0;
       enableAutoPrompts := None |} ].

Example sample_ports :
  fmap (M := option) (fmap (M := list) cdpPort) (assignRuntimePorts 5 sampleSessions) =
  Some [Some 9222; Some 9223; Some 9225; Some 9224; Some 9226]%Z.
Proof. vm_compute. reflexivity. Qed.

(** X6.  [assignRuntimePorts] returns for every list of sessions (its search
    for a free port ends): the result has one session per input session, in
    the same order; a session with a configured positive port is returned
    unchanged, and any other session is returned with only its port
    replaced, by a port that is at least 9222. *)
Theorem assignRuntimePorts_keeps_sessions (sessions : list Session) (fuel : nat) :
  length sessions ≤ fuel →
  ∃ out, assignRuntimePorts fuel sessions = Some out ∧
         Forall2 portAssigned sessions out ∧
         id <$> out = id <$> sessions.
Proof.
  intros Hfuel. unfold assignRuntimePorts.
  destruct (assignFrom_total fuel sessions (foldl reservePort ∅ sessions) 9222)
    as (out & Hout & Hall); [|lia|].
  { pose proof (reserve_size sessions ∅) as Hs. rewrite size_empty in Hs.
    pose proof (counts_split sessions). lia. }
  exists out. split_and!; [done|done|].
  clear Hout Hfuel. induction Hall as [|s o rest out' Hso _ IH]; [done|].
  rewrite !fmap_cons, IH. f_equal. unfold portAssigned in Hso.
  destruct (hasFixedPort s); [by subst o|]. by destruct Hso as (p & _ & ->).
Qed.

Lemma assignRuntimePorts_keeps_sessions_witness :
  length sampleSessions ≤ 5 ∧
  ∃ out, assignRuntimePorts 5 sampleSessions = Some out ∧
         Forall2 portAssigned sampleSessions out ∧
         id <$> out = id <$> sampleSessions.
Proof.
  assert (length sampleSessions ≤ 5) as Hfuel by (simpl; lia).
  split; [exact Hfuel|].
  exact (assignRuntimePorts_keeps_sessions sampleSessions 5 Hfuel).
Defined.

(** X7.  In the result of [assignRuntimePorts] every session has a positive
    port; a port given to a session that had none configured differs from
    the port of every other session of the result; and when the configured
    ports are pairwise distinct, no two sessions of the result share a
    port. *)
Theorem assignRuntimePorts_no_collision (sessions out : list Session) (fuel : nat) :
  assignRuntimePorts fuel sessions = Some out →
  (∀ o, o ∈ out → ∃ p, cdpPort o = Some p ∧ (0 < p)%Z) ∧
  (∀ i j si oi oj,
     sessions !! i = Some si → hasFixedPort si = false →
     out !! i = Some oi → out !! j = Some oj → i ≠ j →
     cdpPort oi ≠ cdpPort oj) ∧
  (NoDup (fixedPorts sessions) → NoDup (cdpPort <$> out)).
Proof.
  intros H. unfold assignRuntimePorts in H.
  assert (∀ p, p ∈ fixedPorts sessions → p ∈ foldl reservePort ∅ sessions)
    as Hfixed by apply reserved_fixed.
  split_and!.
  - intros o Ho.
    destruct (assignFrom_ports _ _ _ _ _ H) with (x := cdpPort o)
      as (p & Hp & Hpos & _); [lia|done|by apply list_elem_of_fmap_2|].
    by exists p.
  - by apply (assignFrom_fresh _ _ _ _ _ H).
  - by apply (assignFrom_NoDup _ _ _ _ _ H).
Qed.

Lemma assignRuntimePorts_no_collision_witness :
  ∃ out, assignRuntimePorts 5 sampleSessions = Some out ∧
    (∀ o, o ∈ out → ∃ p, cdpPort o = Some p ∧ (0 < p)%Z) ∧
    (∀ i j si oi oj,
       sampleSessions !! i = Some si → hasFixedPort si = false →
       out !! i = Some oi → out !! j = Some oj → i ≠ j →
       cdpPort oi ≠ cdpPort oj) ∧
    (NoDup (fixedPorts sampleSessions) → NoDup (cdpPort <$> out)).
Proof.
  eexists. split; [vm_compute; reflexivity|].
  apply (assignRuntimePorts_no_collision sampleSessions _ 5).
  vm_compute. reflexivity.
Defined.

(** *** [buildDynamicWorkflow] *)

(** The properties of a [WorkflowClientStep] that the pipeline reads. *)
Module Client.
Record WorkflowClientStep := {
  id : string;
  label : string;
  enabled : bool;
  dependsOn : option (list string);
  sessionId : option string;
  type : option string;
  action : option string;
  blurProfileId : option string;
  mergeBatchSize : option Z
}.
End Client.
Abbreviation WorkflowClientStep := Client.WorkflowClientStep.

Inductive PipelineMode :=
  | parallel_phases
  | sequential_session
  | parallel_prompts
  | parallel_prompts_seq_downloads.

(** An object literal with the five properties the builder writes. *)
Definition clientStep (i l : string) (en : bool) (deps : option (list string))
    (sid : option string) : WorkflowClientStep :=
  {| Client.id := i; Client.label := l; Client.enabled := en;
     Client.dependsOn := deps; Client.sessionId := sid;
     Client.type := None; Client.action := None;
     Client.blurProfileId := None; Client.mergeBatchSize := None |}.

(** [session.id.replace(/-/g, '')]; 45 is the code of the dash. *)
Fixpoint removeDashes (s : string) : string :=
  match s with
  | EmptyString => EmptyString
  | String c rest =>
      if Ascii.eqb c (Ascii.ascii_of_nat 45) then removeDashes rest
      else String c (removeDashes rest)
  end.

(** [session.id.replace(/-/g, '').slice(0, 8)] *)
Definition sIdSuffix (session : Session) : string :=
  String.substring 0 8 (removeDashes (id session)).

Definition promptsId (session : Session) : string :=
  "promptsSession" +:+ sIdSuffix session.
Definition downloadId (session : Session) : string :=
  "downloadSession" +:+ sIdSuffix session.
Definition processId (session : Session) : string :=
  "processSession" +:+ sIdSuffix session.

Definition promptsStep (session : Session) (deps : list string) : WorkflowClientStep :=
  clientStep (promptsId session) ("Prompts (" +:+ name session +:+ ")")
    (default false (enableAutoPrompts session)) (Some deps) (Some (id session)).

Definition downloadStep (session : Session) (deps : list string) : WorkflowClientStep :=
  clientStep (downloadId session) ("Download (" +:+ name session +:+ ")")
    true (Some deps) (Some (id session)).

Definition processStep (session : Session) (deps : list string) : WorkflowClientStep :=
  clientStep (processId session) ("Process (" +:+ name session +:+ ")")
    true (Some deps) (Some (id session)).

Definition openSessionsStep : WorkflowClientStep :=
  clientStep "openSessions" "Open all sessions" true None None.

(** [selectedSessionIds && selectedSessionIds.length > 0 ? sessions.filter(...)
    : sessions] *)
Definition selectSessions (sessions : list Session)
    (selectedSessionIds : option (list string)) : list Session :=
  match selectedSessionIds with
  | Some (x :: l) => filter (λ session, id session ∈ x :: l) sessions
  | _ => sessions
  end.

(** Mode 'parallel-phases': the download steps are numbered from 1. *)
Definition phaseDownload (index : nat) (session : Session) : WorkflowClientStep :=
  clientStep ("downloadSession" +:+ pretty (index + 1))
    ("Download (" +:+ name session +:+ ")") true (Some ["openSessions"])
    (Some (id session)).

Definition parallelPhases (selected : list Session) : list WorkflowClientStep :=
  let downloads := imap phaseDownload selected in
  downloads ++
  [ clientStep "blurVideos" "Blur videos" true (Some (Client.id <$> downloads)) None;
    clientStep "mergeVideos" "Merge videos" true (Some ["blurVideos"]) None ].

(** Mode 'sequential-session': the [forEach] with its
    [previousSessionStepId]. *)
Fixpoint sequentialSession (previousSessionStepId : string)
    (selected : list Session) : list WorkflowClientStep :=
  match selected with
  | [] => []
  | session :: rest =>
      [ promptsStep session [previousSessionStepId];
        downloadStep session [promptsId session];
        processStep session [downloadId session] ]
      ++ sequentialSession (processId session) rest
  end.

Definition consolidateStep (downloadStepIds : list string) : WorkflowClientStep :=
  clientStep "consolidateFiles" "Consolidate All Files" false
    (Some downloadStepIds) None.

(** Mode 'parallel-prompts'. *)
Definition parallelPrompts (selected : list Session) : list WorkflowClientStep :=
  (selected ≫= λ session,
     [ promptsStep session ["openSessions"];
       downloadStep session [promptsId session] ])
  ++ [ consolidateStep (downloadId <$> selected) ].

(** Mode 'parallel-prompts-seq-downloads': the [forEach] with its
    [previousDownloadStepId], which is [null] at first and a download
    identifier (never the empty string) afterwards. *)
Fixpoint seqDownloads (previousDownloadStepId : option string)
    (selected : list Session) : list WorkflowClientStep :=
  match selected with
  | [] => []
  | session :: rest =>
      [ promptsStep session ["openSessions"];
        downloadStep session
          (promptsId session ::
             match previousDownloadStepId with Some p => [p] | None => [] end) ]
      ++ seqDownloads (Some (downloadId session)) rest
  end.

Definition parallelPromptsSeqDownloads (selected : list Session)
    : list WorkflowClientStep :=
  seqDownloads None selected ++ [ consolidateStep (downloadId <$> selected) ].

Definition buildDynamicWorkflow (sessions : list Session)
    (selectedSessionIds : option (list string)) (mode : PipelineMode)
    : list WorkflowClientStep :=
  let selected := selectSessions sessions selectedSessionIds in
  openSessionsStep ::
    match mode with
    | parallel_phases => parallelPhases selected
    | sequential_session => sequentialSession "openSessions" selected
    | parallel_prompts => parallelPrompts selected
    | parallel_prompts_seq_downloads => parallelPromptsSeqDownloads selected
    end.

(** Every dependency of a step is in [seen] or names a step listed before
    it. *)
Fixpoint listedAfter (seen : list string) (steps : list WorkflowClientStep) : Prop :=
  match steps with
  | [] => True
  | step :: rest =>
      (∀ d, d ∈ default [] (Client.dependsOn step) → d ∈ seen) ∧
      listedAfter (Client.id step :: seen) rest
  end.

Lemma listedAfter_mono seen seen' steps :
  (∀ d, d ∈ seen → d ∈ seen') → listedAfter seen steps → listedAfter seen' steps.
Proof.
  revert seen seen'. induction steps as [|x steps IH]; intros seen seen' Hsub H; [done|].
  destruct H as [H1 H2]. split; [by auto|].
  apply (IH (Client.id x :: seen)); [|done].
  intros d Hd. apply elem_of_cons in Hd as [->|Hd]; [left|right; by auto].
Qed.

Lemma listedAfter_app seen a b :
  listedAfter seen a → listedAfter ((Client.id <$> a) ++ seen) b →
  listedAfter seen (a ++ b).
Proof.
  revert seen. induction a as [|x a IH]; intros seen Ha Hb; [done|].
  destruct Ha as [H1 H2]. split; [done|]. apply IH; [done|].
  eapply listedAfter_mono; [|exact Hb]. intros d Hd.
  rewrite fmap_cons in Hd. simpl in Hd.
  apply elem_of_cons in Hd as [->|Hd]; [apply elem_of_app; right; left|].
  apply elem_of_app in Hd as [Hd|Hd]; apply elem_of_app; [by left|right; by right].
Qed.

(** Steps that wait only on identifiers already seen. *)
Lemma listedAfter_flat seen steps :
  (∀ step d, step ∈ steps → d ∈ default [] (Client.dependsOn step) → d ∈ seen) →
  listedAfter seen steps.
Proof.
  revert seen. induction steps as [|x steps IH]; intros seen H; [done|].
  split; [intros d Hd; apply (H x); [left|done]|].
  apply IH. intros step d Hs Hd. right. apply (H step); [by right|done].
Qed.

Lemma listedAfter_lookup seen steps i step d :
  listedAfter seen steps → steps !! i = Some step →
  d ∈ default [] (Client.dependsOn step) →
  d ∈ seen ∨ ∃ j dep, j < i ∧ steps !! j = Some dep ∧ Client.id dep = d.
Proof.
  revert seen i. induction steps as [|x steps IH]; intros seen i H Hi Hd; [done|].
  destruct H as [H1 H2]. destruct i as [|i]; simpl in Hi.
  - injection Hi as ->. left. by apply H1.
  - destruct (IH _ _ H2 Hi Hd) as [Hin|(j & dep & Hj & Hdep & Hid)].
    + apply elem_of_cons in Hin as [->|Hin]; [|by left].
      right. exists 0, x. split_and!; [lia|done|done].
    + right. exists (S j), dep. split_and!; [lia|done|done].
Qed.

Lemma sequentialSession_listed seen prev selected :
  prev ∈ seen → listedAfter seen (sequentialSession prev selected).
Proof.
  revert seen prev. induction selected as [|session rest IH]; intros seen prev Hp; [done|].
  cbn [sequentialSession app listedAfter]. split_and!.
  - intros d Hd. simpl in Hd. by apply list_elem_of_singleton in Hd as ->.
  - intros d Hd. simpl in Hd. apply list_elem_of_singleton in Hd as ->. left.
  - intros d Hd. simpl in Hd. apply list_elem_of_singleton in Hd as ->. left.
  - apply IH. left.
Qed.

Lemma seqDownloads_listed seen prev selected :
  "openSessions" ∈ seen → (∀ p, prev = Some p → p ∈ seen) →
  listedAfter seen (seqDownloads prev selected).
Proof.
  revert seen prev.
  induction selected as [|session rest IH]; intros seen prev Ho Hp; [done|].
  cbn [seqDownloads app listedAfter]. split_and!.
  - intros d Hd. simpl in Hd. by apply list_elem_of_singleton in Hd as ->.
  - intros d Hd. simpl in Hd. apply elem_of_cons in Hd as [->|Hd]; [left|].
    right. destruct prev as [p|]; [|by apply elem_of_nil in Hd].
    apply list_elem_of_singleton in Hd as ->. by apply Hp.
  - apply IH; [by do 2 right|]. intros p [= <-]. left.
Qed.

Lemma parallelPrompts_listed seen selected :
  "openSessions" ∈ seen →
  listedAfter seen
    (selected ≫= λ session,
       [ promptsStep session ["openSessions"];
         downloadStep session [promptsId session] ]).
Proof.
  revert seen. induction selected as [|session rest IH]; intros seen Ho; [done|].
  cbn [mbind list_bind app listedAfter]. split_and!.
  - intros d Hd. simpl in Hd. by apply list_elem_of_singleton in Hd as ->.
  - intros d Hd. simpl in Hd. apply list_elem_of_singleton in Hd as ->. left.
  - apply IH. by do 2 right.
Qed.

Lemma seqDownloads_ids prev selected session :
  session ∈ selected → downloadId session ∈ Client.id <$> seqDownloads prev selected.
Proof.
  revert prev. induction selected as [|x rest IH]; intros prev Hs.
  { by apply elem_of_nil in Hs. }
  cbn [seqDownloads app]. rewrite !fmap_cons. right.
  apply elem_of_cons in Hs as [->|Hs]; [left|right; by apply IH].
Qed.

Lemma parallelPrompts_ids selected session :
  session ∈ selected →
  downloadId session ∈ Client.id <$>
    (selected ≫= λ session,
       [ promptsStep session ["openSessions"];
         downloadStep session [promptsId session] ]).
Proof.
  intros Hs. apply list_elem_of_fmap. exists (downloadStep session [promptsId session]).
  split; [done|]. apply list_elem_of_bind. exists session. split; [|done].
  right. left.
Qed.

Lemma buildDynamicWorkflow_listed sessions selectedSessionIds mode :
  listedAfter [] (buildDynamicWorkflow sessions selectedSessionIds mode).
Proof.
  unfold buildDynamicWorkflow. split; [intros d Hd; by apply elem_of_nil in Hd|].
  change (Client.id openSessionsStep) with "openSessions".
  generalize (selectSessions sessions selectedSessionIds). intros selected.
  destruct mode.
  - unfold parallelPhases. apply listedAfter_app.
    + apply listedAfter_flat. intros step d Hs Hd.
      apply elem_of_lookup_imap_1 in Hs as (i & y & -> & _). exact Hd.
    + split; [|split; [|done]].
      * intros d Hd. simpl in Hd. apply elem_of_app. by left.
      * intros d Hd. simpl in Hd. apply list_elem_of_singleton in Hd as ->. left.
  - apply sequentialSession_listed. left.
  - unfold parallelPrompts. apply listedAfter_app.
    + apply parallelPrompts_listed. left.
    + split; [|done]. intros d Hd. simpl in Hd.
      apply list_elem_of_fmap_1 in Hd as (session & -> & Hs).
      apply elem_of_app. left. by apply parallelPrompts_ids.
  - unfold parallelPromptsSeqDownloads. apply listedAfter_app.
    + apply seqDownloads_listed; [left|done].
    + split; [|done]. intros d Hd. simpl in Hd.
      apply list_elem_of_fmap_1 in Hd as (session & -> & Hs).
      apply elem_of_app. left. by apply seqDownloads_ids.
Qed.

(** The session a step names is one of the selected sessions. *)
Lemma buildDynamicWorkflow_sessions sessions selectedSessionIds mode step sid :
  step ∈ buildDynamicWorkflow sessions selectedSessionIds mode →
  Client.sessionId step = Some sid →
  ∃ session, session ∈ selectSessions sessions selectedSessionIds ∧ id session = sid.
Proof.
  unfold buildDynamicWorkflow.
  generalize (selectSessions sessions selectedSessionIds). intros selected Hs Hsid.
  apply elem_of_cons in Hs as [->|Hs]; [done|].
  destruct mode.
  - unfold parallelPhases in Hs. apply elem_of_app in Hs as [Hs|Hs].
    + apply elem_of_lookup_imap_1 in Hs as (i & y & -> & Hy). simpl in Hsid.
      injection Hsid as <-. exists y. split; [|done]. by eapply list_elem_of_lookup_2.
    + apply elem_of_cons in Hs as [->|Hs]; [done|].
      by apply list_elem_of_singleton in Hs as ->.
  - revert Hs. generalize "openSessions". induction selected as [|x rest IH]; intros prev Hs.
    { by apply elem_of_nil in Hs. }
    cbn [sequentialSession app] in Hs.
    repeat (apply elem_of_cons in Hs as [->|Hs];
            [simpl in Hsid; injection Hsid as <-; exists x; split; [left|done]|]).
    destruct (IH _ Hs) as (session & ? & ?). exists session. split; [by right|done].
  - unfold parallelPrompts in Hs. apply elem_of_app in Hs as [Hs|Hs].
    + apply list_elem_of_bind in Hs as (x & Hs & Hx).
      repeat (apply elem_of_cons in Hs as [->|Hs];
              [simpl in Hsid; injection Hsid as <-; by exists x|]).
      by apply elem_of_nil in Hs.
    + by apply list_elem_of_singleton in Hs as ->.
  - unfold parallelPromptsSeqDownloads in Hs. apply elem_of_app in Hs as [Hs|Hs].
    + revert Hs. generalize (@None string).
      induction selected as [|x rest IH]; intros prev Hs.
      { by apply elem_of_nil in Hs. }
      cbn [seqDownloads app] in Hs.
      repeat (apply elem_of_cons in Hs as [->|Hs];
              [simpl in Hsid; injection Hsid as <-; exists x; split; [left|done]|]).
      destruct (IH _ Hs) as (session & ? & ?). exists session. split; [by right|done].
    + by apply list_elem_of_singleton in Hs as ->.
Qed.

(** X8.  Whatever the sessions, the selection and the mode, the workflow
    built by [buildDynamicWorkflow] starts with the enabled step
    'openSessions', which waits on nothing; every identifier in a step's
    [dependsOn] is the identifier of a step listed before it; and a step
    that names a session names one of the selected sessions. *)
Theorem buildDynamicWorkflow_dependencies_listed_first (sessions : list Session)
    (selectedSessionIds : option (list string)) (mode : PipelineMode) :
  buildDynamicWorkflow sessions selectedSessionIds mode !! 0 = Some openSessionsStep ∧
  (∀ i step d,
     buildDynamicWorkflow sessions selectedSessionIds mode !! i = Some step →
     d ∈ default [] (Client.dependsOn step) →
     ∃ j dep, j < i ∧
       buildDynamicWorkflow sessions selectedSessionIds mode !! j = Some dep ∧
       Client.id dep = d) ∧
  (∀ step sid,
     step ∈ buildDynamicWorkflow sessions selectedSessionIds mode →
     Client.sessionId step = Some sid →
     ∃ session, session ∈ selectSessions sessions selectedSessionIds ∧
                id session = sid).
Proof.
  split_and!.
  - done.
  - intros i step d Hi Hd.
    destruct (listedAfter_lookup [] _ i step d
                (buildDynamicWorkflow_listed _ _ _) Hi Hd) as [Hin|?]; [|done].
    by apply elem_of_nil in Hin.
  - apply buildDynamicWorkflow_sessions.
Qed.

(** Identifiers made of a prefix and a session suffix: they are pairwise
    distinct exactly when the suffixes are. *)
Definition tagged (kinds : list string) (selected : list Session) : list string :=
  selected ≫= λ session, (λ k, k +:+ sIdSuffix session) <$> kinds.

Definition separate (kinds : list string) : Prop :=
  ∀ k1 k2 a b, k1 ∈ kinds → k2 ∈ kinds → k1 +:+ a = k2 +:+ b → k1 = k2 ∧ a = b.

Lemma tagged_elem kinds selected x :
  x ∈ tagged kinds selected ↔
  ∃ session k, session ∈ selected ∧ k ∈ kinds ∧ x = k +:+ sIdSuffix session.
Proof.
  unfold tagged. rewrite list_elem_of_bind. split.
  - intros (session & Hx & Hs). apply list_elem_of_fmap_1 in Hx as (k & -> & Hk).
    by exists session, k.
  - intros (session & k & Hs & Hk & ->). exists session. split; [|done].
    by apply (list_elem_of_fmap_2 (λ k, k +:+ sIdSuffix session)).
Qed.

Lemma tagged_NoDup kinds selected k0 :
  NoDup kinds → separate kinds → k0 ∈ kinds →
  NoDup (tagged kinds selected) ↔ NoDup (sIdSuffix <$> selected).
Proof.
  intros Hk Hsep Hk0. induction selected as [|x rest IH].
  { split; intros _; constructor. }
  change (tagged kinds (x :: rest))
    with (((λ k, k +:+ sIdSuffix x) <$> kinds) ++ tagged kinds rest).
  rewrite fmap_cons, NoDup_app, NoDup_cons, IH. split.
  - intros (_ & Hdis & Hrest). split; [|done]. intros Hin.
    apply list_elem_of_fmap_1 in Hin as (y & Heq & Hy).
    apply (Hdis (k0 +:+ sIdSuffix x));
      [by apply (list_elem_of_fmap_2 (λ k, k +:+ sIdSuffix x))|].
    apply tagged_elem. exists y, k0. by rewrite Heq.
  - intros [Hx Hrest]. split_and!; [|intros y Hy Hin|done].
    + apply NoDup_fmap_2_strong; [|done]. intros k1 k2 H1 H2 Heq.
      by destruct (Hsep k1 k2 _ _ H1 H2 Heq).
    + apply list_elem_of_fmap_1 in Hy as (k1 & -> & H1).
      apply tagged_elem in Hin as (session & k2 & Hs & H2 & Heq).
      destruct (Hsep k1 k2 _ _ H1 H2 Heq) as [_ Hsuf].
      apply Hx. rewrite Hsuf. by apply list_elem_of_fmap_2.
Qed.

Ltac separate_kinds :=
  intros k1 k2 a b H1 H2 Heq;
  repeat (apply elem_of_cons in H1 as [->|H1]);
  try (by apply elem_of_nil in H1);
  repeat (apply elem_of_cons in H2 as [->|H2]);
  try (by apply elem_of_nil in H2);
  simpl in Heq; simplify_eq; done.

Lemma separate3 : separate ["promptsSession"; "downloadSession"; "processSession"].
Proof. separate_kinds. Qed.

Lemma separate2 : separate ["promptsSession"; "downloadSession"].
Proof. separate_kinds. Qed.

Lemma sequentialSession_ids prev selected :
  Client.id <$> sequentialSession prev selected =
  tagged ["promptsSession"; "downloadSession"; "processSession"] selected.
Proof.
  revert prev. induction selected as [|x rest IH]; intros prev; [done|].
  cbn [sequentialSession app]. rewrite !fmap_cons, IH. done.
Qed.

Lemma seqDownloads_tagged prev selected :
  Client.id <$> seqDownloads prev selected =
  tagged ["promptsSession"; "downloadSession"] selected.
Proof.
  revert prev. induction selected as [|x rest IH]; intros prev; [done|].
  cbn [seqDownloads app]. rewrite !fmap_cons, IH. done.
Qed.

Lemma parallelPrompts_tagged selected :
  Client.id <$>
    (selected ≫= λ session,
       [ promptsStep session ["openSessions"];
         downloadStep session [promptsId session] ]) =
  tagged ["promptsSession"; "downloadSession"] selected.
Proof.
  induction selected as [|x rest IH]; [done|].
  cbn [mbind list_bind app]. rewrite !fmap_cons, IH. done.
Qed.

Lemma phaseDownload_ids selected :
  Client.id <$> imap phaseDownload selected =
  (λ i, "downloadSession" +:+ pretty (i + 1)) <$> seq 0 (length selected).
Proof.
  rewrite fmap_imap.
  apply (imap_seq_0 selected (λ i, "downloadSession" +:+ pretty (i + 1))).
Qed.

(** An identifier outside the tagged ones, put in front and behind. *)
Lemma framed_NoDup (first last : string) (mid : list string) :
  first ≠ last → first ∉ mid → last ∉ mid →
  NoDup (first :: mid ++ [last]) ↔ NoDup mid.
Proof.
  intros Hne Hf Hl. rewrite NoDup_cons, NoDup_app. split.
  - by intros (_ & ? & _).
  - intros Hmid. split_and!; [|done| |apply NoDup_singleton].
    + intros Hin. apply elem_of_app in Hin as [?|Hin]; [done|].
      by apply list_elem_of_singleton in Hin.
    + intros y Hy Hin. by apply list_elem_of_singleton in Hin as ->.
Qed.

Lemma tagged_not_plain kinds selected (x : string) :
  (∀ k a, k ∈ kinds → x ≠ k +:+ a) → x ∉ tagged kinds selected.
Proof.
  intros H Hin. apply tagged_elem in Hin as (session & k & _ & Hk & Heq).
  by apply (H k (sIdSuffix session)).
Qed.

Ltac plain_id :=
  intros k a Hk Heq;
  repeat (apply elem_of_cons in Hk as [->|Hk]);
  try (by apply elem_of_nil in Hk);
  simpl in Heq; simplify_eq.

Lemma parallelPhases_NoDup selected :
  NoDup (Client.id <$> openSessionsStep :: parallelPhases selected).
Proof.
  unfold parallelPhases. rewrite fmap_cons, fmap_app, phaseDownload_ids.
  pose proof (NoDup_seq 0 (length selected)) as Hl. revert Hl.
  generalize (seq 0 (length selected)). intros l Hl. simpl.
  apply NoDup_cons. split.
  { intros Hin. apply elem_of_app in Hin as [Hin|Hin].
    - apply list_elem_of_fmap_1 in Hin as (i & Heq & _). simpl in Heq. simplify_eq.
    - repeat (apply elem_of_cons in Hin as [Heq|Hin]; [simplify_eq|]).
      by apply elem_of_nil in Hin. }
  apply NoDup_app. split_and!.
  - apply NoDup_fmap_2_strong; [|done].
    intros i j _ _ Heq. simpl in Heq. simplify_eq. lia.
  - intros y Hy Hin. apply list_elem_of_fmap_1 in Hy as (i & -> & _).
    repeat (apply elem_of_cons in Hin as [Heq|Hin]; [simpl in Heq; simplify_eq|]).
    by apply elem_of_nil in Hin.
  - apply NoDup_cons. split; [|apply NoDup_singleton].
    intros Hin. apply list_elem_of_singleton in Hin. simplify_eq.
Qed.

Lemma buildDynamicWorkflow_NoDup sessions selectedSessionIds mode :
  NoDup (Client.id <$> buildDynamicWorkflow sessions selectedSessionIds mode) ↔
  (mode = parallel_phases ∨
   NoDup (sIdSuffix <$> selectSessions sessions selectedSessionIds)).
Proof.
  unfold buildDynamicWorkflow.
  generalize (selectSessions sessions selectedSessionIds). intros selected.
  destruct mode.
  - split; [by left|]. intros _. apply parallelPhases_NoDup.
  - rewrite fmap_cons, sequentialSession_ids, NoDup_cons.
    rewrite (tagged_NoDup _ _ "promptsSession");
      [|by apply NoDup_ListNoDup; repeat constructor; simpl; intuition congruence
       |apply separate3|left].
    split; [intros [_ ?]; by right|]. intros [?|?]; [done|]. split; [|done].
    apply tagged_not_plain. plain_id.
  - unfold parallelPrompts. rewrite fmap_cons, fmap_app, parallelPrompts_tagged.
    change (Client.id openSessionsStep) with "openSessions".
    change (Client.id <$> [consolidateStep (downloadId <$> selected)])
      with ["consolidateFiles"].
    rewrite framed_NoDup;
      [|done|apply tagged_not_plain; plain_id|apply tagged_not_plain; plain_id].
    rewrite (tagged_NoDup _ _ "promptsSession");
      [|by apply NoDup_ListNoDup; repeat constructor; simpl; intuition congruence
       |apply separate2|left].
    split; [by right|]. by intros [?|?].
  - unfold parallelPromptsSeqDownloads.
    rewrite fmap_cons, fmap_app, seqDownloads_tagged.
    change (Client.id openSessionsStep) with "openSessions".
    change (Client.id <$> [consolidateStep (downloadId <$> selected)])
      with ["consolidateFiles"].
    rewrite framed_NoDup;
      [|done|apply tagged_not_plain; plain_id|apply tagged_not_plain; plain_id].
    rewrite (tagged_NoDup _ _ "promptsSession");
      [|by apply NoDup_ListNoDup; repeat constructor; simpl; intuition congruence
       |apply separate2|left].
    split; [by right|]. by intros [?|?].
Qed.

(** X9.  The identifiers of the steps built by [buildDynamicWorkflow] are
    pairwise distinct in the mode 'parallel-phases'; in each of the other
    three modes they are pairwise distinct exactly when the selected
    sessions have pairwise distinct suffixes (the first eight characters of
    the session identifier once its dashes are removed). *)
Theorem buildDynamicWorkflow_unique_ids (sessions : list Session)
    (selectedSessionIds : option (list string)) (mode : PipelineMode) :
  NoDup (Client.id <$> buildDynamicWorkflow sessions selectedSessionIds mode) ↔
  (mode = parallel_phases ∨
   NoDup (sIdSuffix <$> selectSessions sessions selectedSessionIds)).
Proof. apply buildDynamicWorkflow_NoDup. Qed.

(** *** [buildWorkflowSteps] *)

(** The step executors ([runOpenSessions], [runDownloadForSession], ...) are
    [async] functions: a call returns a promise, and how that promise
    settles is the environment's.  [runOpenSessions] and
    [runConsolidateFiles] receive the values of the session map;
    [runDownloadForSession] receives, besides the session, what is left of
    the scenario download limit when the body runs, which is part of the
    environment's answer here. *)
Record Executors := {
  runGenericWrapper : WorkflowClientStep → Session → Workflow.Settlement;
  runOpenSessions : gmap string Session → Workflow.Settlement;
  runConsolidateFiles : gmap string Session → Workflow.Settlement;
  runOpenSession : Session → Workflow.Settlement;
  runPromptsForSession : Session → WorkflowClientStep → Workflow.Settlement;
  runDownloadForSession : Session → Workflow.Settlement;
  runBlurForSession : Session → option string → Workflow.Settlement;
  runCleanMetadataForSession : Session → Workflow.Settlement;
  runMergeForSession : Session → option Z → Workflow.Settlement
}.

(** The promise [p] is fulfilled, or rejected with a value that is neither
    [null] nor [undefined]. *)
Definition settled (p : Workflow.Settlement) : Prop :=
  Workflow.settles (Workflow.Returns p) = true.

(** Every promise that an executor returns is [settled]. *)
Record settlingExecutors (exec : Executors) : Prop := {
  generic_settled : ∀ step session, settled (runGenericWrapper exec step session);
  openSessions_settled : ∀ sessionLookup, settled (runOpenSessions exec sessionLookup);
  consolidate_settled : ∀ sessionLookup, settled (runConsolidateFiles exec sessionLookup);
  open_settled : ∀ session, settled (runOpenSession exec session);
  prompts_settled : ∀ session step, settled (runPromptsForSession exec session step);
  download_settled : ∀ session, settled (runDownloadForSession exec session);
  blur_settled : ∀ session profile, settled (runBlurForSession exec session profile);
  clean_settled : ∀ session, settled (runCleanMetadataForSession exec session);
  merge_settled : ∀ session batch, settled (runMergeForSession exec session batch)
}.

(** [resolveSession]: [None] stands for the thrown error.  An empty
    [sessionId] is falsy. *)
Definition resolveSession (sessionLookup : gmap string Session)
    (step : WorkflowClientStep) : option Session :=
  match Client.sessionId step with
  | Some sid => if decide (sid = EmptyString) then None else sessionLookup !! sid
  | None => None
  end.

Definition sessionNotFound (step : WorkflowClientStep) : string :=
  "Session not found for step " +:+ Client.id step.

Definition justMessage (m : string) : option Workflow.RunValue :=
  Some {| Workflow.message := Some m; Workflow.downloadedCount := None |}.

(** [() => isDry ? Promise.resolve(dry) : executor(resolveSession(step))]: the
    arrow function is not [async], so the error of [resolveSession] is thrown
    before any promise exists. *)
Definition inlineBody (isDry : bool) (dry : option Workflow.RunValue)
    (sessionLookup : gmap string Session) (step : WorkflowClientStep)
    (executor : Session → Workflow.Settlement) : Workflow.Body :=
  if isDry then Workflow.Returns (Workflow.Fulfilled dry)
  else
    match resolveSession sessionLookup step with
    | Some session => Workflow.Returns (executor session)
    | None => Workflow.Throws (Some (sessionNotFound step))
    end.

(** The body of a download step is an [async] function: it resolves the
    session first, also in a dry run, and the error of [resolveSession]
    rejects its promise. *)
Definition downloadBody (isDry : bool) (exec : Executors)
    (sessionLookup : gmap string Session) (step : WorkflowClientStep)
    : Workflow.Body :=
  Workflow.Returns
    match resolveSession sessionLookup step with
    | None => Workflow.Rejected (Some (sessionNotFound step))
    | Some session =>
        if isDry
        then Workflow.Fulfilled
               (Some {| Workflow.message := Some "Dry download";
                        Workflow.downloadedCount := Some 0%Z |})
        else runDownloadForSession exec session
    end.

Definition sessionStep (step : WorkflowClientStep) (body : Workflow.Body)
    : Workflow.WorkflowStep :=
  {| Workflow.id := Client.id step; Workflow.label := Client.label step;
     Workflow.enabled := Client.enabled step; Workflow.run := body;
     Workflow.dependsOn := Client.dependsOn step;
     Workflow.sessionId := Client.sessionId step |}.

Definition startsWith := ChromeManager.startsWith.

(** The callback of [selection.map]. *)
Definition buildStep (sessionLookup : gmap string Session) (isDry : bool)
    (exec : Executors) (step : WorkflowClientStep) : Workflow.WorkflowStep :=
  let sid := Client.id step in
  if decide (Client.type step = Some "generic") then
    sessionStep step
      (inlineBody isDry
         (justMessage ("Dry run " +:+ default "undefined" (Client.action step)))
         sessionLookup step (runGenericWrapper exec step))
  else if decide (sid = "openSessions") then
    {| Workflow.id := sid; Workflow.label := Client.label step;
       Workflow.enabled := Client.enabled step;
       Workflow.run :=
         Workflow.Returns
           (if isDry then Workflow.Fulfilled None
            else runOpenSessions exec sessionLookup);
       Workflow.dependsOn := None; Workflow.sessionId := None |}
  else if decide (sid = "consolidateFiles") then
    {| Workflow.id := sid; Workflow.label := Client.label step;
       Workflow.enabled := Client.enabled step;
       Workflow.run :=
         Workflow.Returns
           (if isDry then Workflow.Fulfilled (justMessage "Dry run consolidate")
            else runConsolidateFiles exec sessionLookup);
       Workflow.dependsOn := Client.dependsOn step; Workflow.sessionId := None |}
  else if startsWith "openSession" sid then
    sessionStep step
      (inlineBody isDry (justMessage "Dry open") sessionLookup step
         (runOpenSession exec))
  else if startsWith "promptsSession" sid then
    sessionStep step
      (inlineBody isDry None sessionLookup step
         (λ session, runPromptsForSession exec session step))
  else if startsWith "downloadSession" sid then
    sessionStep step (downloadBody isDry exec sessionLookup step)
  else if startsWith "processSession" sid || startsWith "blurSession" sid then
    sessionStep step
      (inlineBody isDry None sessionLookup step
         (λ session, runBlurForSession exec session (Client.blurProfileId step)))
  else if startsWith "cleanMetadataSession" sid then
    sessionStep step
      (inlineBody isDry None sessionLookup step (runCleanMetadataForSession exec))
  else if startsWith "mergeSession" sid then
    sessionStep step
      (inlineBody isDry None sessionLookup step
         (λ session, runMergeForSession exec session (Client.mergeBatchSize step)))
  else
    {| Workflow.id := sid; Workflow.label := Client.label step;
       Workflow.enabled := Client.enabled step;
       Workflow.run := Workflow.Returns (Workflow.Fulfilled (justMessage "Unknown step"));
       Workflow.dependsOn := None; Workflow.sessionId := None |}.

Definition buildWorkflowSteps (selection : list WorkflowClientStep)
    (sessionLookup : gmap string Session) (isDry : bool) (exec : Executors)
    : list Workflow.WorkflowStep :=
  buildStep sessionLookup isDry exec <$> selection.

(** *** [runPipeline] *)

(** [new Map(sessionsWithPorts.map((session) => [session.id, session]))]: a
    later session with the same identifier replaces an earlier one. *)
Definition sessionMap (sessions : list Session) : gmap string Session :=
  foldl (λ m session, <[id session := session]> m) ∅ sessions.

(** [normalizeClientSteps]: anything but an array ([None]) gives the default
    workflow over all sessions. *)
Definition normalizeClientSteps (steps : option (list WorkflowClientStep))
    (availableSessions : list Session) : list WorkflowClientStep :=
  match steps with
  | Some l => l
  | None => buildDynamicWorkflow availableSessions None parallel_phases
  end.

(** The filter that gives [validSteps]. *)
Definition isValidStep (sessionLookup : gmap string Session)
    (step : WorkflowClientStep) : bool :=
  match Client.sessionId step with
  | None => true
  | Some sid =>
      if decide (sid = EmptyString) then true
      else bool_decide (is_Some (sessionLookup !! sid))
  end.

(** What [runPipeline] reads besides its arguments: the executors, the
    environment of [runWorkflow], and the module variable [cancelled], which
    [cancelPipeline] may set at any time: [cancelledAt n] is its value when the
    workflow loop polls it for the n-th time, [cancelledAfter] its value once
    [runWorkflow] has returned. *)
Record PipelineWorld := {
  executors : Executors;
  workflowWorld : Workflow.World;
  cancelledAt : nat → bool;
  cancelledAfter : bool
}.

Definition worldOf (pw : PipelineWorld) : Workflow.World :=
  {| Workflow.shouldCancel := Some (cancelledAt pw);
     Workflow.raceWinner := Workflow.raceWinner (workflowWorld pw);
     Workflow.raceAlso := Workflow.raceAlso (workflowWorld pw);
     Workflow.elapsedMs := Workflow.elapsedMs (workflowWorld pw);
     Workflow.dateNow := Workflow.dateNow (workflowWorld pw) |}.

(** The results of the workflow (none when [runWorkflow] threw) and the
    final 'workflow' progress event. *)
Record PipelineRun := {
  results : list Workflow.WorkflowRunResult;
  finalStatus : Workflow.WorkflowRunStatus;
  finalMessage : string
}.

Definition hadError (rs : list Workflow.WorkflowRunResult) : bool :=
  existsb (λ r, bool_decide (Workflow.status r = Workflow.error)) rs.

(** [managedSessions] is what [listSessions] returned and [dryRun] the
    configuration flag; [None] means that the call has not returned within
    [fuel] iterations of its loops.  An exception of [runWorkflow] is caught
    and its message reported in the final event. *)
Definition runPipeline (fuel : nat) (pw : PipelineWorld)
    (managedSessions : list Session) (dryRun : bool)
    (steps : option (list WorkflowClientStep)) : option PipelineRun :=
  sessionsWithPorts ← assignRuntimePorts fuel managedSessions;
  let sessionLookup := sessionMap sessionsWithPorts in
  let normalized := normalizeClientSteps steps managedSessions in
  let validSteps := filter (λ step, isValidStep sessionLookup step) normalized in
  let workflowSteps :=
    buildWorkflowSteps validSteps sessionLookup dryRun (executors pw) in
  c ← Workflow.runWorkflow fuel workflowSteps (worldOf pw);
  Some
    match c with
    | Workflow.Returned rs =>
        {| results := rs;
           finalStatus :=
             if cancelledAfter pw || hadError rs then Workflow.error
             else Workflow.success;
           finalMessage :=
             if cancelledAfter pw then "Workflow cancelled"
             else if hadError rs then "Workflow finished with errors"
             else "Workflow complete" |}
    | Workflow.Crashed m =>
        {| results := []; finalStatus := Workflow.error; finalMessage := m |}
    end.

Ltac buildStep_cases :=
  unfold buildStep;
  repeat match goal with
         | |- context [decide ?P] => destruct (decide P)
         | |- context [startsWith ?a ?b] => destruct (startsWith a b)
         end;
  simpl.

Lemma buildStep_id sessionLookup isDry exec step :
  Workflow.id (buildStep sessionLookup isDry exec step) = Client.id step.
Proof. buildStep_cases; done. Qed.

Lemma buildStep_enabled sessionLookup isDry exec step :
  Workflow.enabled (buildStep sessionLookup isDry exec step) = Client.enabled step.
Proof. buildStep_cases; done. Qed.

Lemma buildStep_deps sessionLookup isDry exec step d :
  d ∈ default [] (Workflow.dependsOn (buildStep sessionLookup isDry exec step)) →
  d ∈ default [] (Client.dependsOn step).
Proof. buildStep_cases; try done; intros H; by apply elem_of_nil in H. Qed.

Lemma buildWorkflowSteps_ids selection sessionLookup isDry exec :
  Workflow.id <$> buildWorkflowSteps selection sessionLookup isDry exec =
  Client.id <$> selection.
Proof.
  unfold buildWorkflowSteps. rewrite <- list_fmap_compose.
  apply list_fmap_ext. intros i step _. apply buildStep_id.
Qed.

(** In a dry run no body throws, and every promise settles. *)
Lemma buildStep_dry_async sessionLookup exec step :
  Workflow.settles
    (Workflow.run (buildStep sessionLookup true exec step)) = true.
Proof.
  buildStep_cases; try done.
  unfold downloadBody. by destruct (resolveSession sessionLookup step).
Qed.

(** Outside a dry run a body throws only when its session is not found. *)
Lemma buildStep_resolved_async sessionLookup isDry exec step :
  (isDry = false → settlingExecutors exec) →
  is_Some (resolveSession sessionLookup step) →
  Workflow.settles
    (Workflow.run (buildStep sessionLookup isDry exec step)) = true.
Proof.
  intros Hexec [session Hs].
  destruct isDry; [apply buildStep_dry_async|].
  specialize (Hexec eq_refl).
  destruct Hexec as [H1 H2 H3 H4 H5 H6 H7 H8 H9].
  buildStep_cases; try done; unfold inlineBody, downloadBody; rewrite ?Hs;
    first [apply H1|apply H2|apply H3|apply H4|apply H5|apply H6|apply H7
          |apply H8|apply H9].
Qed.

(** The order of the client steps carries over to the workflow steps. *)
Lemma buildWorkflowSteps_ordered seen seen' selection sessionLookup isDry exec :
  (∀ d, d ∈ seen → d ∈ seen') → listedAfter seen selection →
  Workflow.depsFirst seen' (buildWorkflowSteps selection sessionLookup isDry exec)
  = true.
Proof.
  revert seen seen'.
  induction selection as [|x rest IH]; intros seen seen' Hsub H; [done|].
  destruct H as [H1 H2]. unfold buildWorkflowSteps. rewrite fmap_cons.
  cbn [Workflow.depsFirst]. apply andb_true_iff. split.
  - rewrite <- Is_true_true, forallb_True, Forall_forall. intros d Hd.
    apply bool_decide_pack, Hsub, H1. by eapply buildStep_deps.
  - apply (IH (Client.id x :: seen)); [|done]. intros d Hd.
    rewrite buildStep_id. apply elem_of_app.
    apply elem_of_cons in Hd as [->|Hd]; [right; left|left; by apply Hsub].
Qed.

Lemma sessionMap_keys sessions k :
  is_Some (sessionMap sessions !! k) ↔ k ∈ id <$> sessions.
Proof.
  unfold sessionMap.
  assert (∀ m : gmap string Session,
            is_Some (foldl (λ m session, <[id session := session]> m) m sessions !! k)
            ↔ is_Some (m !! k) ∨ k ∈ id <$> sessions) as H.
  { induction sessions as [|x rest IH]; intros m.
    - simpl. split; [by left|]. intros [?|H]; [done|]. by apply elem_of_nil in H.
    - cbn [foldl]. rewrite IH, fmap_cons, elem_of_cons.
      destruct (decide (k = id x)) as [->|Hne].
      + rewrite lookup_insert_eq. split; [intros _; right; by left|].
        intros _. left. by eexists.
      + rewrite lookup_insert_ne by done. split; [|intros [?|[?|?]]]; tauto. }
  rewrite H, lookup_empty. split; [intros [[? ?]|?]; done|by right].
Qed.

Lemma assignRuntimePorts_ids fuel sessions out :
  assignRuntimePorts fuel sessions = Some out → id <$> out = id <$> sessions.
Proof.
  unfold assignRuntimePorts. generalize (foldl reservePort ∅ sessions) 9222%Z.
  revert out. induction sessions as [|s rest IH]; intros out used next H.
  { by injection H as <-. }
  simpl in H. destruct (hasFixedPort s).
  - destruct (assignFrom fuel used next rest) as [out'|] eqn:E; [|done].
    injection H as <-. rewrite !fmap_cons. f_equal. by eapply IH.
  - destruct (findFree fuel used next) as [q|]; [|done].
    destruct (assignFrom fuel ({[q]} ∪ used) q rest) as [out'|] eqn:E; [|done].
    injection H as <-. rewrite !fmap_cons. f_equal. by eapply IH.
Qed.

Lemma assignRuntimePorts_total fuel sessions :
  length sessions ≤ fuel → is_Some (assignRuntimePorts fuel sessions).
Proof.
  intros Hfuel. unfold assignRuntimePorts.
  destruct (assignFrom_total fuel sessions (foldl reservePort ∅ sessions) 9222)
    as (out & Hout & _); [|lia|by eexists].
  pose proof (reserve_size sessions ∅) as Hs. rewrite size_empty in Hs.
  pose proof (counts_split sessions). lia.
Qed.

(** In a dry run the body of a step whose session is found is fulfilled. *)
Lemma buildStep_dry_fulfils sessionLookup exec step :
  is_Some (resolveSession sessionLookup step) →
  Workflow.fulfils (Workflow.run (buildStep sessionLookup true exec step)) = true.
Proof.
  intros [session Hs]. buildStep_cases; try done. unfold downloadBody. by rewrite Hs.
Qed.

Lemma resolveSession_known sessionLookup step sid :
  Client.sessionId step = Some sid → sid ≠ EmptyString →
  is_Some (sessionLookup !! sid) → is_Some (resolveSession sessionLookup step).
Proof.
  intros Hsid Hne Hin. unfold resolveSession. rewrite Hsid.
  by destruct (decide (sid = EmptyString)).
Qed.

Lemma cancelRequested_worldOf pw t :
  Workflow.cancelRequested (worldOf pw) t = cancelledAt pw t.
Proof. done. Qed.

Lemma hadError_false rs :
  (∀ r, r ∈ rs → Workflow.status r = Workflow.success) → hadError rs = false.
Proof.
  intros H. unfold hadError. apply not_true_iff_false. intros Hex.
  apply Is_true_true in Hex. apply existb_True, Exists_exists in Hex as (r & Hr & Hb).
  apply bool_decide_unpack in Hb. rewrite (H r Hr) in Hb. done.
Qed.

(** The steps of the default workflow, as built for a dry run. *)
Lemma default_dry_steps_good sessionLookup exec sessions :
  (∀ session, session ∈ sessions →
     id session ≠ EmptyString ∧ is_Some (sessionLookup !! id session)) →
  Forall (λ s, Workflow.enabled s = true ∧ Workflow.fulfils (Workflow.run s) = true)
    (buildWorkflowSteps (buildDynamicWorkflow sessions None parallel_phases)
       sessionLookup true exec).
Proof.
  intros Hknown. apply Forall_forall. intros s Hs.
  apply list_elem_of_fmap_1 in Hs as (step & -> & Hstep).
  rewrite buildStep_enabled. unfold buildDynamicWorkflow in Hstep. simpl in Hstep.
  apply elem_of_cons in Hstep as [->|Hstep]; [done|].
  unfold parallelPhases in Hstep. apply elem_of_app in Hstep as [Hstep|Hstep].
  - apply elem_of_lookup_imap_1 in Hstep as (i & y & -> & Hy).
    split; [done|]. apply buildStep_dry_fulfils.
    destruct (Hknown y) as [Hne Hin]; [by eapply list_elem_of_lookup_2|].
    by apply (resolveSession_known _ _ (id y)).
  - apply elem_of_cons in Hstep as [->|Hstep]; [done|].
    by apply list_elem_of_singleton in Hstep as ->.
Qed.

(** X10.  A dry run of the default workflow (the steps argument is not an
    array) over sessions with non-empty identifiers, during which
    cancellation is never requested, returns: every step of the default
    workflow has exactly one result, every result is [success] without error
    text, and the final 'workflow' event is [success] with the message
    'Workflow complete'. *)
Theorem dry_run_of_default_workflow_succeeds (pw : PipelineWorld)
    (managedSessions : list Session) (fuel : nat) :
  (∀ session, session ∈ managedSessions → id session ≠ EmptyString) →
  (∀ t, cancelledAt pw t = false) → cancelledAfter pw = false →
  length managedSessions + 3 < fuel →
  ∃ out, runPipeline fuel pw managedSessions true None = Some out ∧
    Workflow.stepId <$> results out ≡ₚ
      Client.id <$> buildDynamicWorkflow managedSessions None parallel_phases ∧
    Forall (λ r, Workflow.status r = Workflow.success ∧ Workflow.r_error r = None)
      (results out) ∧
    finalStatus out = Workflow.success ∧
    finalMessage out = "Workflow complete".
Proof.
  intros Hids Hnc Hafter Hfuel. unfold runPipeline.
  destruct (assignRuntimePorts_total fuel managedSessions) as [ported Hported]; [lia|].
  rewrite Hported. cbn [mbind option_bind]. unfold normalizeClientSteps.
  set (lookup := sessionMap ported).
  set (client := buildDynamicWorkflow managedSessions None parallel_phases).
  assert (∀ session, session ∈ managedSessions →
            id session ≠ EmptyString ∧ is_Some (lookup !! id session)) as Hknown.
  { intros session Hs. split; [by apply Hids|]. apply sessionMap_keys.
    rewrite (assignRuntimePorts_ids _ _ _ Hported). by apply list_elem_of_fmap_2. }
  assert (filter (λ step, isValidStep lookup step) client = client) as ->.
  { apply Workflow.filter_all. intros step Hstep. unfold isValidStep.
    destruct (Client.sessionId step) as [sid|] eqn:Hsid; [|done].
    destruct (decide (sid = EmptyString)); [done|].
    destruct (buildDynamicWorkflow_sessions managedSessions None parallel_phases
                step sid Hstep Hsid) as (session & Hs & <-).
    apply bool_decide_pack. by apply Hknown. }
  set (steps := buildWorkflowSteps client lookup true (executors pw)).
  assert (NoDup (Workflow.id <$> steps)) as Hnd.
  { unfold steps. rewrite buildWorkflowSteps_ids. apply parallelPhases_NoDup. }
  assert (Forall (λ s, Workflow.enabled s = true ∧
                       Workflow.fulfils (Workflow.run s) = true) steps) as Hgood
    by (by apply default_dry_steps_good).
  assert (Workflow.settlingBodies steps) as Hasync.
  { unfold Workflow.settlingBodies. eapply Forall_impl; [exact Hgood|].
    intros s [_ Hf] _. by destruct (Workflow.run s) as [?|?|[?|?|?|]]. }
  assert (Workflow.dependenciesFirst steps = true) as Hord.
  { apply (buildWorkflowSteps_ordered [] []); [done|].
    apply buildDynamicWorkflow_listed. }
  assert (length steps < fuel) as Hlen.
  { unfold steps, buildWorkflowSteps, client, buildDynamicWorkflow, parallelPhases.
    rewrite length_fmap. simpl. rewrite length_app, length_imap. simpl. lia. }
  destruct (Workflow.runWorkflowState_total (worldOf pw) steps Hnd Hasync fuel Hlen)
    as (st & Hrun & HF).
  destruct (Workflow.all_well_run (worldOf pw) steps fuel st Hnd Hgood Hord Hnc Hrun)
    as [_ Hall].
  unfold Workflow.runWorkflow. rewrite Hrun.
  cbn [fmap option_fmap option_map mbind option_bind Workflow.mapReturned].
  eexists. split; [reflexivity|]. cbn [results finalStatus finalMessage].
  rewrite Hafter, (hadError_false (Workflow.results st)) by (intros r Hr; by apply Hall).
  split_and!; [|by apply Forall_forall|done|done].
  rewrite (Workflow.final_results_perm steps st HF). unfold steps.
  by rewrite buildWorkflowSteps_ids.
Qed.

Definition quietExecutors : Executors :=
  {| runGenericWrapper := λ _ _, Workflow.Fulfilled None;
     runOpenSessions := λ _, Workflow.Fulfilled None;
     runConsolidateFiles := λ _, Workflow.Fulfilled None;
     runOpenSession := λ _, Workflow.Fulfilled None;
     runPromptsForSession := λ _ _, Workflow.Fulfilled None;
     runDownloadForSession := λ _, Workflow.Fulfilled None;
     runBlurForSession := λ _ _, Workflow.Fulfilled None;
     runCleanMetadataForSession := λ _, Workflow.Fulfilled None;
     runMergeForSession := λ _ _, Workflow.Fulfilled None |}.

Lemma quietExecutors_settle (isDry : bool) :
  isDry = false → settlingExecutors quietExecutors.
Proof. intros _. by split. Qed.

Definition quietPipelineWorld : PipelineWorld :=
  {| executors := quietExecutors; workflowWorld := Workflow.quietWorld;
     cancelledAt := λ _, false; cancelledAfter := false |}.

Lemma sampleSessions_ids session :
  session ∈ sampleSessions → id session ≠ EmptyString.
Proof.
  intros H. repeat (apply elem_of_cons in H as [->|H]; [done|]).
  by apply elem_of_nil in H.
Qed.

Lemma dry_run_of_default_workflow_succeeds_witness :
  (∀ session, session ∈ sampleSessions → id session ≠ EmptyString) ∧
  (∀ t, cancelledAt quietPipelineWorld t = false) ∧
  cancelledAfter quietPipelineWorld = false ∧
  length sampleSessions + 3 < 9 ∧
  ∃ out, runPipeline 9 quietPipelineWorld sampleSessions true None = Some out ∧
    Workflow.stepId <$> results out ≡ₚ
      Client.id <$> buildDynamicWorkflow sampleSessions None parallel_phases ∧
    Forall (λ r, Workflow.status r = Workflow.success ∧ Workflow.r_error r = None)
      (results out) ∧
    finalStatus out = Workflow.success ∧
    finalMessage out = "Workflow complete".
Proof.
  assert (length sampleSessions + 3 < 9) as Hfuel by (simpl; lia).
  split_and!; [exact sampleSessions_ids|reflexivity|reflexivity|exact Hfuel|].
  exact (dry_run_of_default_workflow_succeeds quietPipelineWorld sampleSessions 9
           sampleSessions_ids (λ _, eq_refl) eq_refl Hfuel).
Defined.

Lemma sequentialSession_named prev selected step :
  step ∈ sequentialSession prev selected →
  Client.type step = None ∧ is_Some (Client.sessionId step).
Proof.
  revert prev. induction selected as [|x rest IH]; intros prev Hs.
  { by apply elem_of_nil in Hs. }
  cbn [sequentialSession app] in Hs.
  repeat (apply elem_of_cons in Hs as [->|Hs]; [done|]).
  by eapply IH.
Qed.

Lemma seqDownloads_named prev selected step :
  step ∈ seqDownloads prev selected →
  Client.type step = None ∧ is_Some (Client.sessionId step).
Proof.
  revert prev. induction selected as [|x rest IH]; intros prev Hs.
  { by apply elem_of_nil in Hs. }
  cbn [seqDownloads app] in Hs.
  repeat (apply elem_of_cons in Hs as [->|Hs]; [done|]).
  by eapply IH.
Qed.

(** The steps that name no session. *)
Lemma buildDynamicWorkflow_plain sessions selectedSessionIds mode step :
  step ∈ buildDynamicWorkflow sessions selectedSessionIds mode →
  Client.type step = None ∧
  (is_Some (Client.sessionId step) ∨
   Client.id step ∈ ["openSessions"; "consolidateFiles"; "blurVideos"; "mergeVideos"]).
Proof.
  unfold buildDynamicWorkflow.
  generalize (selectSessions sessions selectedSessionIds). intros selected Hs.
  apply elem_of_cons in Hs as [->|Hs]; [split; [done|right; left]|].
  destruct mode.
  - unfold parallelPhases in Hs. apply elem_of_app in Hs as [Hs|Hs].
    + apply elem_of_lookup_imap_1 in Hs as (i & y & -> & _). split; [done|by left].
    + apply elem_of_cons in Hs as [->|Hs]; [split; [done|right; do 2 right; left]|].
      apply list_elem_of_singleton in Hs as ->. split; [done|right; do 3 right; left].
  - destruct (sequentialSession_named _ _ _ Hs). split; [done|by left].
  - unfold parallelPrompts in Hs. apply elem_of_app in Hs as [Hs|Hs].
    + apply list_elem_of_bind in Hs as (x & Hs & Hx).
      repeat (apply elem_of_cons in Hs as [->|Hs]; [split; [done|by left]|]).
      by apply elem_of_nil in Hs.
    + apply list_elem_of_singleton in Hs as ->. split; [done|right; right; left].
  - unfold parallelPromptsSeqDownloads in Hs. apply elem_of_app in Hs as [Hs|Hs].
    + destruct (seqDownloads_named _ _ _ Hs). split; [done|by left].
    + apply list_elem_of_singleton in Hs as ->. split; [done|right; right; left].
Qed.

(** The bodies of the steps that need no session never throw. *)
Lemma buildStep_plain_async sessionLookup isDry exec step :
  (isDry = false → settlingExecutors exec) →
  Client.type step = None →
  Client.id step ∈ ["openSessions"; "consolidateFiles"; "blurVideos"; "mergeVideos"] →
  Workflow.settles
    (Workflow.run (buildStep sessionLookup isDry exec step)) = true.
Proof.
  intros Hexec Hty Hid.
  destruct isDry; [apply buildStep_dry_async|].
  destruct (Hexec eq_refl) as [_ H2 H3 _ _ _ _ _ _].
  unfold buildStep. rewrite Hty.
  destruct (decide (None = Some "generic")) as [?|_]; [done|].
  repeat (apply elem_of_cons in Hid as [->|Hid];
          [first [apply H2|apply H3|done]|]).
  by apply elem_of_nil in Hid.
Qed.

(** Every body of a workflow built by [buildDynamicWorkflow] returns a
    promise that settles when the selected sessions are known and the
    executors settle. *)
Lemma built_workflow_async sessions selectedSessionIds mode sessionLookup isDry exec :
  (isDry = false → settlingExecutors exec) →
  (∀ session, session ∈ selectSessions sessions selectedSessionIds →
     id session ≠ EmptyString ∧ is_Some (sessionLookup !! id session)) →
  Workflow.settlingBodies
    (buildWorkflowSteps (buildDynamicWorkflow sessions selectedSessionIds mode)
       sessionLookup isDry exec).
Proof.
  intros Hexec Hknown. apply Forall_forall. intros s Hs _.
  apply list_elem_of_fmap_1 in Hs as (step & -> & Hstep).
  destruct (buildDynamicWorkflow_plain _ _ _ _ Hstep) as [Hty [[sid Hsid]|Hid]].
  - apply buildStep_resolved_async; [done|].
    destruct (buildDynamicWorkflow_sessions _ _ _ _ _ Hstep Hsid) as (session & Hin & <-).
    destruct (Hknown session Hin). by apply (resolveSession_known _ _ (id session)).
  - by apply buildStep_plain_async.
Qed.

(** Outside the mode 'parallel-phases' every selected session has a prompts
    step and a download step that waits on it. *)
Lemma prompts_download_listed sessions selectedSessionIds mode session :
  mode ≠ parallel_phases →
  session ∈ selectSessions sessions selectedSessionIds →
  ∃ deps deps',
    promptsStep session deps ∈ buildDynamicWorkflow sessions selectedSessionIds mode ∧
    downloadStep session (promptsId session :: deps')
      ∈ buildDynamicWorkflow sessions selectedSessionIds mode.
Proof.
  unfold buildDynamicWorkflow.
  generalize (selectSessions sessions selectedSessionIds). intros selected Hmode Hs.
  destruct mode; [done| | |].
  - assert (∀ prev, ∃ deps,
              promptsStep session deps ∈ sequentialSession prev selected ∧
              downloadStep session [promptsId session]
                ∈ sequentialSession prev selected) as H.
    { induction selected as [|x rest IH]; intros prev.
      { by apply elem_of_nil in Hs. }
      cbn [sequentialSession app]. apply elem_of_cons in Hs as [->|Hs].
      - exists [prev]. split; [left|right; left].
      - destruct (IH Hs (processId x)) as (deps & ? & ?). exists deps.
        split; by do 3 right. }
    destruct (H "openSessions") as (deps & ? & ?). exists deps, [].
    split; by right.
  - exists ["openSessions"], []. unfold parallelPrompts.
    split; right; apply elem_of_app; left; apply list_elem_of_bind; exists session;
      (split; [|done]); [left|right; left].
  - assert (∀ prev, ∃ deps',
              promptsStep session ["openSessions"] ∈ seqDownloads prev selected ∧
              downloadStep session (promptsId session :: deps')
                ∈ seqDownloads prev selected) as H.
    { induction selected as [|x rest IH]; intros prev.
      { by apply elem_of_nil in Hs. }
      cbn [seqDownloads app]. apply elem_of_cons in Hs as [->|Hs].
      - eexists. split; [left|right; left].
      - destruct (IH Hs (Some (downloadId x))) as (deps' & ? & ?). exists deps'.
        split; by do 2 right. }
    destruct (H None) as (deps' & ? & ?). exists ["openSessions"], deps'.
    unfold parallelPromptsSeqDownloads. split; right; apply elem_of_app; by left.
Qed.

(** A download step keeps its [dependsOn] when it is turned into a workflow
    step. *)
Lemma buildStep_download_deps sessionLookup isDry exec session deps :
  Workflow.dependsOn (buildStep sessionLookup isDry exec (downloadStep session deps))
  = Some deps.
Proof.
  unfold buildStep, startsWith. simpl.
  destruct (decide (None = Some "generic")) as [?|_]; [done|].
  destruct (decide (downloadId session = "openSessions")) as [?|_]; [done|].
  destruct (decide (downloadId session = "consolidateFiles")) as [?|_]; [done|].
  unfold downloadId. simpl. done.
Qed.

Lemma workflow_step_elem sessionLookup isDry exec step selection :
  step ∈ selection →
  buildStep sessionLookup isDry exec step
    ∈ buildWorkflowSteps selection sessionLookup isDry exec.
Proof. intros H. by apply list_elem_of_fmap_2. Qed.

(** X11.  In the three modes other than 'parallel-phases', when the selected
    sessions have pairwise distinct identifier suffixes and non-empty
    identifiers that the lookup knows, and (outside a dry run) every promise
    of an executor is fulfilled or rejected with a value other than [null]
    and [undefined], the workflow built by [buildDynamicWorkflow], turned
    into workflow steps and run, returns, and the download step of every
    selected session whose [enableAutoPrompts] is not [true] is never
    started: its prompts step is disabled, so the download step ends
    [skipped]. *)
Theorem auto_prompts_off_blocks_download (w : Workflow.World)
    (sessions : list Session) (selectedSessionIds : option (list string))
    (mode : PipelineMode) (sessionLookup : gmap string Session) (isDry : bool)
    (exec : Executors) (fuel : nat) :
  mode ≠ parallel_phases →
  NoDup (sIdSuffix <$> selectSessions sessions selectedSessionIds) →
  (∀ session, session ∈ selectSessions sessions selectedSessionIds →
     id session ≠ EmptyString ∧ is_Some (sessionLookup !! id session)) →
  (isDry = false → settlingExecutors exec) →
  length (buildDynamicWorkflow sessions selectedSessionIds mode) < fuel →
  ∃ st,
    Workflow.runWorkflowState fuel
      (buildWorkflowSteps (buildDynamicWorkflow sessions selectedSessionIds mode)
         sessionLookup isDry exec) w = Some (Workflow.Returned st) ∧
    ∀ session, session ∈ selectSessions sessions selectedSessionIds →
      enableAutoPrompts session ≠ Some true →
      ¬ Workflow.started (Workflow.progress st) (downloadId session) ∧
      ∃ r, r ∈ Workflow.results st ∧ Workflow.stepId r = downloadId session ∧
           Workflow.status r = Workflow.skipped.
Proof.
  intros Hmode Hsuf Hknown Hexec Hfuel.
  set (client := buildDynamicWorkflow sessions selectedSessionIds mode) in *.
  set (steps := buildWorkflowSteps client sessionLookup isDry exec).
  assert (NoDup (Workflow.id <$> steps)) as Hnd.
  { unfold steps. rewrite buildWorkflowSteps_ids.
    apply buildDynamicWorkflow_NoDup. by right. }
  assert (Workflow.settlingBodies steps) as Hasync by (by apply built_workflow_async).
  assert (Workflow.dependenciesFirst steps = true) as Hord.
  { apply (buildWorkflowSteps_ordered [] []); [done|].
    apply buildDynamicWorkflow_listed. }
  assert (length steps < fuel) as Hlen.
  { unfold steps, buildWorkflowSteps. by rewrite length_fmap. }
  destruct (Workflow.runWorkflowState_total w steps Hnd Hasync fuel Hlen)
    as (st & Hrun & HF).
  destruct (Workflow.starts_enabled_only w steps fuel st Hnd Hasync Hrun) as [Hen _].
  exists st. split; [done|]. intros session Hs Hauto.
  destruct (prompts_download_listed sessions selectedSessionIds mode session Hmode Hs)
    as (deps & deps' & HP & HD).
  set (P := buildStep sessionLookup isDry exec (promptsStep session deps)).
  set (D := buildStep sessionLookup isDry exec
              (downloadStep session (promptsId session :: deps'))).
  assert (P ∈ steps) as HPin by (by apply workflow_step_elem).
  assert (D ∈ steps) as HDin by (by apply workflow_step_elem).
  assert (Workflow.id P = promptsId session) as HPid by apply buildStep_id.
  assert (Workflow.id D = downloadId session) as HDid by apply buildStep_id.
  assert (Workflow.enabled P = false) as HPoff.
  { unfold P. rewrite buildStep_enabled. simpl.
    destruct (enableAutoPrompts session) as [[|]|]; done. }
  assert (¬ Workflow.started (Workflow.progress st) (promptsId session)) as HPns.
  { intros Hst. destruct (Hen _ Hst) as (s' & Hs' & Hid & Hon).
    assert (s' = P) as -> by (apply (Workflow.step_same_id steps); congruence).
    congruence. }
  assert (¬ Workflow.started (Workflow.progress st) (downloadId session)) as HDns.
  { intros Hst. rewrite <- HDid in Hst.
    destruct (Workflow.final_started_deps steps st HF D (promptsId session) HDin Hst)
      as (r & Hr & Hrid & Hrs).
    { unfold D. rewrite buildStep_download_deps. left. }
    apply HPns. rewrite <- Hrid. by apply (Workflow.final_success_started steps st HF). }
  split; [done|].
  destruct (Workflow.final_unstarted_result steps st HF D HDin) as (r & Hr & Hrid & _).
  { by rewrite HDid. }
  exists r. split_and!; [done|congruence|].
  destruct (Workflow.ordered_unstarted_skipped w steps Hnd Hord Hasync fuel st Hrun r Hr)
    as [Hst|?]; [|done].
  exfalso. apply HDns. congruence.
Qed.

Lemma sampleSessions_known session :
  session ∈ selectSessions sampleSessions None →
  id session ≠ EmptyString ∧ is_Some (sessionMap sampleSessions !! id session).
Proof.
  intros H. simpl in H.
  repeat (apply elem_of_cons in H as [->|H];
          [split; [done|refine (bool_decide_unpack _ _); vm_compute; exact I]|]).
  by apply elem_of_nil in H.
Qed.

Lemma auto_prompts_off_blocks_download_witness :
  sequential_session ≠ parallel_phases ∧
  NoDup (sIdSuffix <$> selectSessions sampleSessions None) ∧
  (∀ session, session ∈ selectSessions sampleSessions None →
     id session ≠ EmptyString ∧ is_Some (sessionMap sampleSessions !! id session)) ∧
  (false = false → settlingExecutors quietExecutors) ∧
  length (buildDynamicWorkflow sampleSessions None sequential_session) < 17 ∧
  ∃ st,
    Workflow.runWorkflowState 17
      (buildWorkflowSteps (buildDynamicWorkflow sampleSessions None sequential_session)
         (sessionMap sampleSessions) false quietExecutors) Workflow.quietWorld
      = Some (Workflow.Returned st) ∧
    ∀ session, session ∈ selectSessions sampleSessions None →
      enableAutoPrompts session ≠ Some true →
      ¬ Workflow.started (Workflow.progress st) (downloadId session) ∧
      ∃ r, r ∈ Workflow.results st ∧ Workflow.stepId r = downloadId session ∧
           Workflow.status r = Workflow.skipped.
Proof.
  assert (sequential_session ≠ parallel_phases) as Hmode by done.
  assert (NoDup (sIdSuffix <$> selectSessions sampleSessions None)) as Hsuf
    by (refine (bool_decide_unpack _ _); vm_compute; exact I).
  assert (length (buildDynamicWorkflow sampleSessions None sequential_session) < 17)
    as Hfuel by (simpl; lia).
  split_and!; [exact Hmode|exact Hsuf|exact sampleSessions_known
              |exact (quietExecutors_settle false)|exact Hfuel|].
  exact (auto_prompts_off_blocks_download Workflow.quietWorld sampleSessions None
           sequential_session (sessionMap sampleSessions) false quietExecutors 17
           Hmode Hsuf sampleSessions_known (quietExecutors_settle false) Hfuel).
Defined.

Lemma filter_NoDup_ids sessionLookup (steps : list WorkflowClientStep) :
  NoDup (Client.id <$> steps) →
  NoDup (Client.id <$> filter (λ step, isValidStep sessionLookup step) steps).
Proof.
  intros H. eapply sublist_NoDup; [exact H|]. apply fmap_sublist, sublist_filter.
Qed.

(** A step that names no session, or a session that exists. *)
Definition namesNoMissingSession (managedSessions : list Session)
    (step : WorkflowClientStep) : bool :=
  match Client.sessionId step with
  | None => true
  | Some sid => bool_decide (sid = EmptyString ∨ sid ∈ id <$> managedSessions)
  end.

Lemma validSteps_spec fuel managedSessions ported (steps : list WorkflowClientStep) :
  assignRuntimePorts fuel managedSessions = Some ported →
  filter (λ step, isValidStep (sessionMap ported) step) steps =
  filter (λ step, namesNoMissingSession managedSessions step) steps.
Proof.
  intros Hported. apply list_filter_iff. intros step.
  unfold isValidStep, namesNoMissingSession.
  destruct (Client.sessionId step) as [sid|]; [|done].
  rewrite !Is_true_true.
  destruct (decide (sid = EmptyString)) as [->|Hne].
  { split; [|done]. intros _. apply bool_decide_eq_true_2. by left. }
  rewrite !bool_decide_eq_true, sessionMap_keys, (assignRuntimePorts_ids _ _ _ Hported).
  split; [by right|]. by intros [?|?].
Qed.

(** X12.  A dry run over any client steps with pairwise distinct identifiers
    returns: in a dry run no step body throws.  The steps that name a session
    which does not exist are dropped, and every other step has exactly one
    result. *)
Theorem dry_run_always_returns (pw : PipelineWorld) (managedSessions : list Session)
    (steps : list WorkflowClientStep) (fuel : nat) :
  NoDup (Client.id <$> steps) →
  length managedSessions ≤ fuel → length steps < fuel →
  ∃ out, runPipeline fuel pw managedSessions true (Some steps) = Some out ∧
    Workflow.stepId <$> results out ≡ₚ
      Client.id <$> filter (λ step, namesNoMissingSession managedSessions step) steps.
Proof.
  intros Hnd Hsessions Hfuel. unfold runPipeline.
  destruct (assignRuntimePorts_total fuel managedSessions) as [ported Hported]; [done|].
  rewrite Hported. cbn [mbind option_bind]. unfold normalizeClientSteps.
  set (lookup := sessionMap ported).
  set (valid := filter (λ step, isValidStep lookup step) steps).
  set (built := buildWorkflowSteps valid lookup true (executors pw)).
  assert (NoDup (Workflow.id <$> built)) as Hbnd.
  { unfold built. rewrite buildWorkflowSteps_ids. by apply filter_NoDup_ids. }
  assert (Workflow.settlingBodies built) as Hasync.
  { apply Forall_forall. intros s Hs _.
    apply list_elem_of_fmap_1 in Hs as (step & -> & _). apply buildStep_dry_async. }
  assert (length built < fuel) as Hlen.
  { unfold built, buildWorkflowSteps, valid. rewrite length_fmap.
    pose proof (length_filter (λ step, isValidStep lookup step) steps). lia. }
  destruct (Workflow.runWorkflowState_total (worldOf pw) built Hbnd Hasync fuel Hlen)
    as (st & Hrun & HF).
  unfold Workflow.runWorkflow. rewrite Hrun.
  cbn [fmap option_fmap option_map mbind option_bind Workflow.mapReturned].
  eexists. split; [reflexivity|]. cbn [results].
  rewrite (Workflow.final_results_perm built st HF). unfold built.
  rewrite buildWorkflowSteps_ids. unfold valid, lookup.
  by rewrite (validSteps_spec _ _ _ _ Hported).
Qed.

(** The kinds of step whose body asks for the session before it returns a
    promise. *)
Definition sessionKinds : list string :=
  ["promptsSession"; "processSession"; "blurSession"; "cleanMetadataSession";
   "mergeSession"].

Lemma startsWith_head p q c s :
  startsWith (String p q) (String c s) = true → c = p.
Proof.
  unfold startsWith. simpl. intros H. apply andb_true_iff in H as [H _].
  apply Ascii.eqb_eq in H. done.
Qed.

Lemma buildStep_throws sessionLookup exec step prefix :
  prefix ∈ sessionKinds → startsWith prefix (Client.id step) = true →
  resolveSession sessionLookup step = None →
  Workflow.returnsPromise
    (Workflow.run (buildStep sessionLookup false exec step)) = false.
Proof.
  intros Hk Hp Hnone. unfold buildStep, inlineBody. rewrite !Hnone.
  destruct (decide (Client.type step = Some "generic")); [done|].
  destruct (decide (Client.id step = "openSessions")) as [e|_].
  { rewrite e in Hp. unfold sessionKinds in Hk.
    repeat (apply elem_of_cons in Hk as [->|Hk]; [done|]). by apply elem_of_nil in Hk. }
  destruct (decide (Client.id step = "consolidateFiles")) as [e|_].
  { rewrite e in Hp. unfold sessionKinds in Hk.
    repeat (apply elem_of_cons in Hk as [->|Hk]; [done|]). by apply elem_of_nil in Hk. }
  destruct (startsWith "openSession" (Client.id step)); [done|].
  destruct (startsWith "promptsSession" (Client.id step)) eqn:E1; [done|].
  destruct (startsWith "downloadSession" (Client.id step)) eqn:E2.
  { exfalso. destruct (Client.id step) as [|c rest]; [done|].
    apply startsWith_head in E2. subst c. unfold sessionKinds in Hk.
    repeat (apply elem_of_cons in Hk as [->|Hk]; [done|]). by apply elem_of_nil in Hk. }
  destruct (startsWith "processSession" (Client.id step)) eqn:E3; [done|].
  destruct (startsWith "blurSession" (Client.id step)) eqn:E4; [done|].
  destruct (startsWith "cleanMetadataSession" (Client.id step)) eqn:E5; [done|].
  destruct (startsWith "mergeSession" (Client.id step)) eqn:E6; [done|].
  exfalso. unfold sessionKinds in Hk.
  repeat (apply elem_of_cons in Hk as [->|Hk]; [congruence|]). by apply elem_of_nil in Hk.
Qed.

Lemma buildStep_deps_none sessionLookup isDry exec step :
  default [] (Client.dependsOn step) = [] →
  default [] (Workflow.dependsOn (buildStep sessionLookup isDry exec step)) = [].
Proof. intros H. buildStep_cases; done. Qed.

(** The error that a body throws is an [Error] object, never [null] or
    [undefined]. *)
Lemma buildStep_plainThrow sessionLookup isDry exec step :
  Workflow.plainThrow (Workflow.run (buildStep sessionLookup isDry exec step)).
Proof.
  intros v. buildStep_cases; try done; unfold inlineBody;
    destruct isDry; try done; by destruct (resolveSession sessionLookup step).
Qed.

(** X13.  Outside a dry run, an enabled client step of a per-session kind
    (prompts, process, blur, clean-metadata or merge) that names no session
    and waits on nothing keeps [runPipeline] from ever returning, as long as
    cancellation is not requested: its body throws before it returns a
    promise, and the workflow loop then spins on the entry left in
    [runningPromises]. *)
Theorem step_without_session_blocks_pipeline (pw : PipelineWorld)
    (managedSessions : list Session) (steps : list WorkflowClientStep)
    (step : WorkflowClientStep) (prefix : string) (fuel : nat) :
  prefix ∈ sessionKinds → startsWith prefix (Client.id step) = true →
  step ∈ steps → NoDup (Client.id <$> steps) →
  Client.enabled step = true → Client.sessionId step = None →
  default [] (Client.dependsOn step) = [] →
  (∀ t, cancelledAt pw t = false) →
  runPipeline fuel pw managedSessions false (Some steps) = None.
Proof.
  intros Hk Hp Hin Hnd Hen Hsid Hdeps Hnc. unfold runPipeline.
  destruct (assignRuntimePorts fuel managedSessions) as [ported|]; [|done].
  cbn [mbind option_bind]. unfold normalizeClientSteps.
  set (lookup := sessionMap ported).
  set (valid := filter (λ step, isValidStep lookup step) steps).
  rewrite (Workflow.sync_throw_never_returns (worldOf pw)
             (buildWorkflowSteps valid lookup false (executors pw))
             (buildStep lookup false (executors pw) step)); [done| | | | | | |done].
  - rewrite buildWorkflowSteps_ids. by apply filter_NoDup_ids.
  - apply workflow_step_elem, list_elem_of_filter. split; [|done].
    unfold isValidStep. by rewrite Hsid.
  - by rewrite buildStep_enabled.
  - by apply buildStep_deps_none.
  - apply (buildStep_throws _ _ _ prefix); [done|done|].
    unfold resolveSession. by rewrite Hsid.
  - intros x Hx. apply list_elem_of_fmap_1 in Hx as (y & -> & _).
    apply buildStep_plainThrow.
Qed.

(** Client steps as a renderer may send them: the last one names a session
    that does not exist. *)
Definition clientSample : list WorkflowClientStep :=
  [ openSessionsStep;
    clientStep "downloadSession1" "Download (A)" true (Some ["openSessions"]) (Some "a");
    clientStep "downloadSession2" "Download (Z)" true (Some ["openSessions"]) (Some "z") ].

(** A prompts step that names no session. *)
Definition orphanSample : list WorkflowClientStep :=
  [ clientStep "promptsSessionX" "Prompts" true None None ].

Lemma dry_run_always_returns_witness :
  NoDup (Client.id <$> clientSample) ∧
  length sampleSessions ≤ 6 ∧ length clientSample < 6 ∧
  ∃ out, runPipeline 6 quietPipelineWorld sampleSessions true (Some clientSample)
         = Some out ∧
    Workflow.stepId <$> results out ≡ₚ
      Client.id <$>
        filter (λ step, namesNoMissingSession sampleSessions step) clientSample.
Proof.
  assert (NoDup (Client.id <$> clientSample)) as Hnd
    by (refine (bool_decide_unpack _ _); vm_compute; exact I).
  assert (length sampleSessions ≤ 6) as H1 by (simpl; lia).
  assert (length clientSample < 6) as H2 by (simpl; lia).
  split_and!; [exact Hnd|exact H1|exact H2|].
  exact (dry_run_always_returns quietPipelineWorld sampleSessions clientSample 6
           Hnd H1 H2).
Defined.

Lemma step_without_session_blocks_pipeline_witness :
  "promptsSession" ∈ sessionKinds ∧
  NoDup (Client.id <$> orphanSample) ∧
  (∀ t, cancelledAt quietPipelineWorld t = false) ∧
  runPipeline 50 quietPipelineWorld sampleSessions false (Some orphanSample) = None.
Proof.
  assert ("promptsSession" ∈ sessionKinds) as Hk by left.
  assert (NoDup (Client.id <$> orphanSample)) as Hnd
    by (refine (bool_decide_unpack _ _); vm_compute; exact I).
  assert (clientStep "promptsSessionX" "Prompts" true None None ∈ orphanSample)
    as Hin by left.
  split_and!; [exact Hk|exact Hnd|reflexivity|].
  exact (step_without_session_blocks_pipeline quietPipelineWorld sampleSessions
           orphanSample (clientStep "promptsSessionX" "Prompts" true None None)
           "promptsSession" 50 Hk eq_refl Hin Hnd eq_refl eq_refl eq_refl
           (λ _, eq_refl)).
Defined.

(** What [buildWorkflowSteps] makes of a step whose identifier it does not
    know: no dependencies, and a body that does nothing. *)
Definition unknownStep (step : WorkflowClientStep) : Workflow.WorkflowStep :=
  {| Workflow.id := Client.id step; Workflow.label := Client.label step;
     Workflow.enabled := Client.enabled step;
     Workflow.run := Workflow.Returns (Workflow.Fulfilled (justMessage "Unknown step"));
     Workflow.dependsOn := None; Workflow.sessionId := None |}.

Lemma default_blur_merge_unknown sessionLookup isDry exec sessions step :
  step ∈ buildDynamicWorkflow sessions None parallel_phases →
  Client.id step = "blurVideos" ∨ Client.id step = "mergeVideos" →
  Client.enabled step = true ∧
  buildStep sessionLookup isDry exec step = unknownStep step.
Proof.
  intros Hstep Hid. destruct (buildDynamicWorkflow_plain _ _ _ _ Hstep) as [Hty _].
  split.
  - unfold buildDynamicWorkflow in Hstep. simpl in Hstep.
    apply elem_of_cons in Hstep as [->|Hstep]; [done|].
    unfold parallelPhases in Hstep. apply elem_of_app in Hstep as [Hstep|Hstep].
    + by apply elem_of_lookup_imap_1 in Hstep as (i & y & -> & _).
    + apply elem_of_cons in Hstep as [->|Hstep]; [done|].
      by apply list_elem_of_singleton in Hstep as ->.
  - unfold buildStep, unknownStep. rewrite Hty.
    destruct (decide (None = Some "generic")) as [?|_]; [done|].
    by destruct Hid as [-> | ->].
Qed.

(** X25.  In the default workflow ('parallel-phases') the steps 'blurVideos'
    and 'mergeVideos' are not known to [buildWorkflowSteps]: each becomes a
    step without dependencies whose body only resolves with the message
    'Unknown step'.  So in every run over known sessions that is not
    cancelled at its first poll, a dry run or a run whose executors return
    promises that are fulfilled or rejected with a value other than [null]
    and [undefined], both are started in the first iteration and end
    [success], whatever the download steps do. *)
Theorem default_blur_and_merge_steps_do_nothing (w : Workflow.World)
    (sessions : list Session) (sessionLookup : gmap string Session)
    (isDry : bool) (exec : Executors) (fuel : nat) :
  (∀ session, session ∈ sessions →
     id session ≠ EmptyString ∧ is_Some (sessionLookup !! id session)) →
  (isDry = false → settlingExecutors exec) →
  Workflow.cancelRequested w 0 = false →
  length sessions + 3 < fuel →
  ∃ st,
    Workflow.runWorkflowState fuel
      (buildWorkflowSteps (buildDynamicWorkflow sessions None parallel_phases)
         sessionLookup isDry exec) w = Some (Workflow.Returned st) ∧
    ∀ step, step ∈ buildDynamicWorkflow sessions None parallel_phases →
      Client.id step = "blurVideos" ∨ Client.id step = "mergeVideos" →
      buildStep sessionLookup isDry exec step = unknownStep step ∧
      Workflow.started (Workflow.progress st) (Client.id step) ∧
      Workflow.mkResult (unknownStep step) Workflow.success
        (Workflow.elapsedMs w (Client.id step)) None ∈ Workflow.results st.
Proof.
  intros Hknown Hexec Hnc Hfuel.
  set (client := buildDynamicWorkflow sessions None parallel_phases).
  set (steps := buildWorkflowSteps client sessionLookup isDry exec).
  assert (NoDup (Workflow.id <$> steps)) as Hnd.
  { unfold steps. rewrite buildWorkflowSteps_ids. apply parallelPhases_NoDup. }
  assert (Workflow.settlingBodies steps) as Hasync by (by apply built_workflow_async).
  assert (length steps < fuel) as Hlen.
  { unfold steps, buildWorkflowSteps, client, buildDynamicWorkflow, parallelPhases.
    rewrite length_fmap. simpl. rewrite length_app, length_imap. simpl. lia. }
  destruct (Workflow.runWorkflowState_total w steps Hnd Hasync fuel Hlen)
    as (st & Hrun & HF).
  exists st. split; [done|]. intros step Hstep Hid.
  destruct (default_blur_merge_unknown sessionLookup isDry exec sessions step Hstep Hid)
    as [Hen Hbuilt].
  assert (unknownStep step ∈ steps) as Hin.
  { rewrite <- Hbuilt. by apply workflow_step_elem. }
  assert (Workflow.started (Workflow.progress st) (Client.id step)) as Hst
    by (by apply (Workflow.free_step_started w steps (unknownStep step) fuel st)).
  split_and!; [done|done|].
  destruct (Workflow.final_result_exists steps st HF _ Hin) as (r & Hr & Hrid).
  pose proof (Workflow.reported_run w steps Hnd fuel st Hasync Hrun r
                (unknownStep step) Hr Hin (eq_sym Hrid) Hst) as Heq.
  injection Heq as <-. exact Hr.
Qed.

Lemma default_blur_and_merge_steps_do_nothing_witness :
  (∀ session, session ∈ sampleSessions →
     id session ≠ EmptyString ∧ is_Some (sessionMap sampleSessions !! id session)) ∧
  (false = false → settlingExecutors quietExecutors) ∧
  Workflow.cancelRequested Workflow.quietWorld 0 = false ∧
  length sampleSessions + 3 < 9 ∧
  ∃ st,
    Workflow.runWorkflowState 9
      (buildWorkflowSteps (buildDynamicWorkflow sampleSessions None parallel_phases)
         (sessionMap sampleSessions) false quietExecutors) Workflow.quietWorld
      = Some (Workflow.Returned st) ∧
    ∀ step, step ∈ buildDynamicWorkflow sampleSessions None parallel_phases →
      Client.id step = "blurVideos" ∨ Client.id step = "mergeVideos" →
      buildStep (sessionMap sampleSessions) false quietExecutors step
        = unknownStep step ∧
      Workflow.started (Workflow.progress st) (Client.id step) ∧
      Workflow.mkResult (unknownStep step) Workflow.success
        (Workflow.elapsedMs Workflow.quietWorld (Client.id step)) None
        ∈ Workflow.results st.
Proof.
  assert (length sampleSessions + 3 < 9) as Hfuel by (simpl; lia).
  split_and!; [exact sampleSessions_known|exact (quietExecutors_settle false)
              |reflexivity|exact Hfuel|].
  exact (default_blur_and_merge_steps_do_nothing Workflow.quietWorld sampleSessions
           (sessionMap sampleSessions) false quietExecutors 9
           sampleSessions_known (quietExecutors_settle false) eq_refl Hfuel).
Defined.

End Pipeline.

(** ** Session browser ([resolvePort]) *)
Module SessionChrome.






End SessionChrome.

(** ** Blur profiles ([saveBlurProfile], [deleteBlurProfile]) *)
Module BlurProfiles.

Inductive BlurMode := blur | delogo | hybrid.

Record BlurZone := {
  x : Z; y : Z; w : Z; h : Z;
  mode : option BlurMode;
  blur_strength : option Z;
  band : option Z
}.

Record BlurProfile := {
  id : string;
  name : string;
  zones : list BlurZone
}.

(** [readProfiles]: the parsed file, or the empty list when the file cannot
    be read or parsed ([None]). *)
Definition readProfiles (file : option (list BlurProfile)) : list BlurProfile :=
  default [] file.

(** [profiles.find((p) => p.id === profileId)], as in
    [blurVideoWithProfile]. *)
Definition findProfile (profileId : string) (profiles : list BlurProfile)
    : option BlurProfile :=
  snd <$> list_find (λ p, id p = profileId) profiles.

(** [saveBlurProfile]: the list written to the file and the profile
    returned; [uuid] is what [randomUUID()] gives. *)
Definition saveBlurProfile (uuid : string) (profile : BlurProfile)
    (file : option (list BlurProfile)) : list BlurProfile * BlurProfile :=
  let profiles := readProfiles file in
  let i := if decide (id profile = EmptyString) then uuid else id profile in
  let next := {| id := i; name := name profile; zones := zones profile |} in
  match list_find (λ p, id p = i) profiles with
  | Some (idx, _) => (<[idx := next]> profiles, next)
  | None => (profiles ++ [next], next)
  end.

(** [deleteBlurProfile]: the list written to the file. *)
Definition deleteBlurProfile (profileId : string) (file : option (list BlurProfile))
    : list BlurProfile :=
  filter (λ p, id p ≠ profileId) (readProfiles file).

Lemma findProfile_cons i p l :
  findProfile i (p :: l) = if decide (id p = i) then Some p else findProfile i l.
Proof.
  unfold findProfile. simpl. destruct (decide (id p = i)); [done|].
  by destruct (list_find _ l) as [[? ?]|].
Qed.

Lemma findProfile_None i l : findProfile i l = None ↔ i ∉ id <$> l.
Proof.
  induction l as [|p l IH]; [split; [intros _; apply not_elem_of_nil|done]|].
  rewrite findProfile_cons, fmap_cons, not_elem_of_cons.
  destruct (decide (id p = i)) as [->|Hne]; [split; [done|intros [? _]; done]|].
  rewrite IH. split; [by split|by intros [_ ?]].
Qed.

Lemma findProfile_app_r i l p :
  findProfile i l = None → findProfile i (l ++ [p]) = if decide (id p = i) then Some p else None.
Proof.
  induction l as [|q l IH]; intros H.
  { simpl. by rewrite findProfile_cons. }
  rewrite findProfile_cons in H. simpl. rewrite findProfile_cons.
  destruct (decide (id q = i)); [done|]. by apply IH.
Qed.

Lemma findProfile_app_other i l p :
  id p ≠ i → findProfile i (l ++ [p]) = findProfile i l.
Proof.
  intros Hne. induction l as [|q l IH].
  { simpl. rewrite findProfile_cons. by destruct (decide (id p = i)). }
  simpl. rewrite !findProfile_cons. by destruct (decide (id q = i)).
Qed.

(** Replacing the first profile that has identifier [i] by [next]. *)
Lemma replace_first i next l idx old :
  list_find (λ p, id p = i) l = Some (idx, old) → id next = i →
  findProfile i (<[idx := next]> l) = Some next ∧
  (∀ j, j ≠ i → findProfile j (<[idx := next]> l) = findProfile j l) ∧
  id <$> <[idx := next]> l = id <$> l.
Proof.
  revert idx. induction l as [|q l IH]; intros idx Hfind Hid; [done|].
  simpl in Hfind. destruct (decide (id q = i)) as [Hq|Hq].
  - injection Hfind as <- <-. simpl. split_and!.
    + rewrite findProfile_cons. by destruct (decide (id next = i)).
    + intros j Hj. rewrite !findProfile_cons.
      destruct (decide (id next = j)), (decide (id q = j)); congruence.
    + by rewrite Hid, Hq.
  - destruct (list_find _ l) as [[k o]|] eqn:E; [|done]. simpl in Hfind.
    injection Hfind as <- <-. destruct (IH k eq_refl Hid) as (H1 & H2 & H3).
    simpl. split_and!.
    + rewrite findProfile_cons. by destruct (decide (id q = i)).
    + intros j Hj. rewrite !findProfile_cons.
      destruct (decide (id q = j)); [done|]. by apply H2.
    + f_equal. exact H3.
Qed.

(** X20.  [saveBlurProfile] stores the profile under its own identifier, or
    under a fresh one when it has none, and returns it: looking that
    identifier up afterwards finds the returned profile; a profile stored
    under the same identifier is replaced where it stands, and a new one is
    appended; lookups of other identifiers are not affected; and
    identifiers that were pairwise distinct stay so. *)
Theorem save_blur_profile_round_trip (uuid : string) (profile : BlurProfile)
    (file : option (list BlurProfile)) :
  id (saveBlurProfile uuid profile file).2 =
    (if decide (id profile = EmptyString) then uuid else id profile) ∧
  name (saveBlurProfile uuid profile file).2 = name profile ∧
  zones (saveBlurProfile uuid profile file).2 = zones profile ∧
  findProfile (id (saveBlurProfile uuid profile file).2)
    (saveBlurProfile uuid profile file).1
    = Some (saveBlurProfile uuid profile file).2 ∧
  (∀ j, j ≠ id (saveBlurProfile uuid profile file).2 →
     findProfile j (saveBlurProfile uuid profile file).1 =
     findProfile j (readProfiles file)) ∧
  (id <$> (saveBlurProfile uuid profile file).1 =
     if bool_decide (id (saveBlurProfile uuid profile file).2
                       ∈ id <$> readProfiles file)
     then id <$> readProfiles file
     else (id <$> readProfiles file) ++ [id (saveBlurProfile uuid profile file).2]) ∧
  (NoDup (id <$> readProfiles file) →
   NoDup (id <$> (saveBlurProfile uuid profile file).1)).
Proof.
  unfold saveBlurProfile.
  set (i := if decide (id profile = EmptyString) then uuid else id profile).
  set (next := {| id := i; name := name profile; zones := zones profile |}).
  set (profiles := readProfiles file).
  destruct (list_find (λ p, id p = i) profiles) as [[idx old]|] eqn:E.
  - destruct (replace_first i next profiles idx old E eq_refl) as (H1 & H2 & H3).
    assert (i ∈ id <$> profiles) as Hin.
    { apply list_find_Some in E as (Hl & Ho & _). rewrite <- Ho.
      apply list_elem_of_fmap_2. by eapply list_elem_of_lookup_2. }
    cbn [fst snd]. change (id next) with i. split_and!; try done.
    + by rewrite bool_decide_eq_true_2.
    + by rewrite H3.
  - assert (findProfile i profiles = None) as Hnone by (unfold findProfile; by rewrite E).
    pose proof (proj1 (findProfile_None i profiles) Hnone) as Hnin.
    cbn [fst snd]. change (id next) with i. split_and!; try done.
    + rewrite (findProfile_app_r i profiles next Hnone).
      change (id next) with i. by destruct (decide (i = i)).
    + intros j Hj. by apply findProfile_app_other.
    + rewrite bool_decide_eq_false_2 by done. by rewrite fmap_app.
    + intros Hnd. rewrite fmap_app. apply NoDup_app. split_and!; [done| |].
      * intros k Hk Hk'. apply list_elem_of_singleton in Hk'. simpl in Hk'. by subst k.
      * apply NoDup_singleton.
Qed.

(** X21.  [deleteBlurProfile] removes every profile stored under the
    identifier and nothing else: the identifier is no longer found, every
    other lookup is unchanged, the remaining profiles keep their order, and
    deleting an identifier that is not stored leaves the list as it was. *)
Theorem delete_blur_profile_removes_only_it (profileId : string)
    (file : option (list BlurProfile)) :
  findProfile profileId (deleteBlurProfile profileId file) = None ∧
  (∀ j, j ≠ profileId →
     findProfile j (deleteBlurProfile profileId file) =
     findProfile j (readProfiles file)) ∧
  deleteBlurProfile profileId file `sublist_of` readProfiles file ∧
  (findProfile profileId (readProfiles file) = None →
   deleteBlurProfile profileId file = readProfiles file).
Proof.
  unfold deleteBlurProfile. generalize (readProfiles file). intros l. split_and!.
  - apply findProfile_None. intros Hin.
    apply list_elem_of_fmap_1 in Hin as (p & -> & Hp).
    by apply list_elem_of_filter in Hp as [? _].
  - intros j Hj. induction l as [|p l IH]; [done|].
    destruct (decide (id p = profileId)) as [Hp|Hp].
    + rewrite filter_cons_False by (intros ?; done). rewrite findProfile_cons.
      destruct (decide (id p = j)); [congruence|done].
    + rewrite filter_cons_True by done. rewrite !findProfile_cons.
      by destruct (decide (id p = j)).
  - apply sublist_filter.
  - intros Hnone. apply findProfile_None in Hnone. apply Workflow.filter_all.
    intros p Hp Heq. apply Hnone. rewrite <- Heq. by apply list_elem_of_fmap_2.
Qed.

End BlurProfiles.

(** ** Downloader ([safeFileName]) *)
Module Downloader.

(** A JavaScript string is a sequence of UTF-16 code units (numbers below
    65536); [length], [slice] and a regular expression without the [u] flag
    all count and cut in code units. *)
Abbreviation JsString := (list N) (only parsing).

(** The code units of a text of ASCII characters. *)
Definition units (s : string) : JsString :=
  Ascii.N_of_ascii <$> String.list_ascii_of_string s.

(** The code units of the class in the regular expression of
    [safeFileName]: backslash, slash, colon, star, question mark, double
    quote, less-than, greater-than and bar. *)
Definition forbiddenCodes : list N := [92; 47; 58; 42; 63; 34; 60; 62; 124]%N.

Definition isForbidden (c : N) : bool := bool_decide (c ∈ forbiddenCodes).

(** What the replacement puts for one code unit; 95 is the code of the
    underscore. *)
Definition replaceUnit (c : N) : N := if isForbidden c then 95%N else c.

(** [title.replace(..., '_')] over that class, with the [g] flag. *)
Definition replaceForbidden (title : JsString) : JsString := replaceUnit <$> title.

Definition safeFileName (title : JsString) : JsString :=
  let sanitized := replaceForbidden title in
  if bool_decide (80 < length sanitized) then take 80 sanitized
  else sanitized.

Lemma replaceUnit_clean c : isForbidden (replaceUnit c) = false.
Proof. unfold replaceUnit. destruct (isForbidden c) eqn:E; [by vm_compute|done]. Qed.

Lemma replaceForbidden_clean title :
  Forall (λ c, isForbidden c = false) (replaceForbidden title).
Proof.
  unfold replaceForbidden. apply Forall_fmap, Forall_forall. intros c _.
  apply replaceUnit_clean.
Qed.

Lemma replaceForbidden_fixed s :
  Forall (λ c, isForbidden c = false) s → replaceForbidden s = s.
Proof.
  induction s as [|c rest IH]; intros H; [done|].
  apply Forall_cons in H as [Hc H]. unfold replaceForbidden in *.
  rewrite fmap_cons, IH by done. unfold replaceUnit. by rewrite Hc.
Qed.

Lemma safeFileName_take title : safeFileName title = take 80 (replaceForbidden title).
Proof.
  unfold safeFileName. case_bool_decide; [done|]. rewrite take_ge; [done|lia].
Qed.

Lemma safeFileName_clean title :
  Forall (λ c, isForbidden c = false) (safeFileName title).
Proof. rewrite safeFileName_take. apply Forall_take, replaceForbidden_clean. Qed.

Lemma safeFileName_length title :
  length (safeFileName title) = 80 `min` length title.
Proof.
  rewrite safeFileName_take, length_take. unfold replaceForbidden.
  by rewrite length_fmap.
Qed.

(** Separators and a quote are replaced in a short title. *)
Example safeFileName_replaces :
  safeFileName (units "a/b:c?.mp4") = units "a_b_c_.mp4".
Proof. vm_compute. reflexivity. Qed.

(** Fifty Cyrillic letters (code unit 1078 each) are fifty code units: the
    title is returned as it is. *)
Example safeFileName_keeps_fifty_letters :
  safeFileName (replicate 50 1078%N) = replicate 50 1078%N.
Proof. vm_compute. reflexivity. Qed.

(** The cut is made in code units: of 41 characters outside the basic
    plane (a surrogate pair each, here 55357 and 56832), the 41st is
    dropped. *)
Example safeFileName_cuts_code_units :
  safeFileName (mjoin (replicate 41 [55357; 56832]%N))
  = mjoin (replicate 40 [55357; 56832]%N).
Proof. vm_compute. reflexivity. Qed.

(** X22.  [safeFileName] gives a name of at most 80 UTF-16 code units (the
    length of the title when that is at most 80): the first 80 code units
    of the title, each unit that is a backslash, slash, colon, star,
    question mark, double quote, less-than, greater-than or bar replaced by
    an underscore and every other unit kept.  None of those nine characters
    occurs in the name, and a name it has produced is left as it is. *)
Theorem safeFileName_is_safe (title : JsString) :
  length (safeFileName title) = 80 `min` length title ∧
  Forall (λ c, isForbidden c = false) (safeFileName title) ∧
  safeFileName title = take 80 (replaceForbidden title) ∧
  (∀ i, i < 80 →
     safeFileName title !! i =
       (λ c, if isForbidden c then 95%N else c) <$> title !! i) ∧
  safeFileName (safeFileName title) = safeFileName title.
Proof.
  split_and!.
  - apply safeFileName_length.
  - apply safeFileName_clean.
  - apply safeFileName_take.
  - intros i Hi. rewrite safeFileName_take, lookup_take_lt by done.
    unfold replaceForbidden. by rewrite list_lookup_fmap.
  - pose proof (safeFileName_length title) as Hlen.
    pose proof (safeFileName_clean title) as Hclean.
    unfold safeFileName at 1. rewrite (replaceForbidden_fixed _ Hclean).
    rewrite bool_decide_eq_false_2; [done|lia].
Qed.

End Downloader.

(** ** Generic prompt loop ([runGenericPromptLoop]) *)
Module GenericLoop.

Import ChromeManager(Outcome, Ok, Throw).

(** What one call meets: the clock; the configuration ([getConfig] may
    fail; otherwise whether both selectors are found in it); whether a page
    is registered for the session and what reconnecting gives (whether the
    browser has a first page); [getSessionPaths]; the trimmed lines of the
    prompts file (none when it cannot be read); whether the awaited page
    actions of the n-th iteration succeed; the final [writeFile]; and the
    calls the rest of the application makes on the task registry while the
    function is suspended: during [getConfig], during the awaits of the
    [try] block before the loop, during the n-th iteration, and during
    [writeFile]. *)
Record World := {
  now : Z;
  selectorsFound : Outcome bool;
  pageRegistered : bool;
  reconnect : Outcome bool;
  getSessionPaths : Outcome unit;
  trimmedLines : list string;
  iteration : nat → Outcome unit;
  writeFile : Outcome unit;
  duringConfig : list TaskRegistry.Call;
  duringSetup : list TaskRegistry.Call;
  duringIteration : nat → list TaskRegistry.Call;
  duringWrite : list TaskRegistry.Call
}.

Record LoopResult := {
  ok : bool;
  message : string;
  submittedCount : option nat
}.

(** How the call ends, the task registry it leaves, and the lines written
    to the prompts file, if it was written. *)
Record Run := {
  outcome : Outcome LoopResult;
  registry : TaskRegistry.State;
  written : option (list string)
}.

(** The calls of the rest of the application, run on the shared registry. *)
Definition callOn (st : TaskRegistry.State) (c : TaskRegistry.Call) : TaskRegistry.State :=
  (TaskRegistry.call (st, []) c).1.

Definition others (calls : list TaskRegistry.Call) (st : TaskRegistry.State)
    : TaskRegistry.State :=
  foldl callOn st calls.

(** [readLines]: the trimmed lines that are not empty. *)
Definition readLines (w : World) : list string :=
  filter (λ l, l ≠ EmptyString) (trimmedLines w).

(** The [for] loop: [n] is [prompts.length - i]. *)
Fixpoint promptLoop (n : nat) (w : World) (signal : TaskRegistry.Signal) (i : nat)
    (prompts : list string) (count : nat) (st : TaskRegistry.State)
    : Outcome (list string * nat) * TaskRegistry.State :=
  match n with
  | O => (Ok (prompts, count), st)
  | S n' =>
      if TaskRegistry.aborted signal st then (Ok (prompts, count), st)
      else
        let st' := others (duringIteration w i) st in
        match iteration w i with
        | Throw m => (Throw m, st')
        | Ok _ =>
            promptLoop n' w signal (S i) (<[i := EmptyString]> prompts) (S count) st'
        end
  end.

(** The [try] block. *)
Definition attempt (w : World) (signal : TaskRegistry.Signal) (st : TaskRegistry.State)
    : Outcome (LoopResult * option (list string)) * TaskRegistry.State :=
  let st1 := others (duringSetup w) st in
  match (if pageRegistered w then Ok true else reconnect w) with
  | Throw m => (Throw m, st1)
  | Ok false => (Throw "Browser page unavailable", st1)
  | Ok true =>
      match getSessionPaths w with
      | Throw m => (Throw m, st1)
      | Ok _ =>
          let prompts := readLines w in
          if bool_decide (length prompts = 0)
          then (Ok ({| ok := true; message := "No prompts found";
                       submittedCount := Some 0 |}, None), st1)
          else
            match promptLoop (length prompts) w signal 0 prompts 0 st1 with
            | (Throw m, st2) => (Throw m, st2)
            | (Ok (prompts', count), st2) =>
                let remaining := filter (λ p, p ≠ EmptyString) prompts' in
                let st3 := others (duringWrite w) st2 in
                match writeFile w with
                | Throw m => (Throw m, st3)
                | Ok _ =>
                    (Ok ({| ok := true;
                            message := "Generic loop finished. Submitted: " +:+ pretty count;
                            submittedCount := Some count |}, Some remaining), st3)
                end
            end
      end
  end.

Definition runGenericPromptLoop (w : World) (sessionId : string)
    (reg : TaskRegistry.State) : Run :=
  let started := TaskRegistry.startTask sessionId TaskRegistry.prompts (now w) reg in
  let st0 := others (duringConfig w) started.1 in
  match selectorsFound w with
  | Throw m => {| outcome := Throw m; registry := st0; written := None |}
  | Ok false =>
      {| outcome := Ok {| ok := false; message := "Invalid selector configuration";
                          submittedCount := None |};
         registry := st0; written := None |}
  | Ok true =>
      match attempt w started.2 st0 with
      | (Ok (r, lines), st) =>
          {| outcome := Ok r; registry := TaskRegistry.stopTask sessionId st;
             written := lines |}
      | (Throw m, st) =>
          {| outcome := Ok {| ok := false; message := m; submittedCount := None |};
             registry := TaskRegistry.stopTask sessionId st; written := None |}
      end
  end.

(** The calls made by the others before the check at the top of iteration
    [i]. *)
Definition othersBefore (w : World) (i : nat) : list TaskRegistry.Call :=
  duringConfig w ++ duringSetup w ++ concat (duringIteration w <$> seq 0 i).

Lemma take_S_insert {A} (l : list A) i x :
  i < length l → take (S i) (<[i := x]> l) = take i l ++ [x].
Proof.
  intros Hi. rewrite (take_S_r (<[i := x]> l) i x) by (by apply list_lookup_insert_eq).
  by rewrite take_insert_ge.
Qed.

Lemma others_app a b st : others (a ++ b) st = others b (others a st).
Proof. apply foldl_app. Qed.

(** What the loop leaves when it ends normally: the first [k] prompts
    blanked, [k] being the number of completed iterations. *)
Lemma promptLoop_Ok n w signal i prompts count st prompts' count' st' :
  i + n = length prompts →
  promptLoop n w signal i prompts count st = (Ok (prompts', count'), st') →
  ∃ k, count' = count + k ∧ k ≤ n ∧
       prompts' = take i prompts ++ replicate k EmptyString ++ drop (i + k) prompts ∧
       (∀ j, j < k → iteration w (i + j) = Ok tt) ∧
       st' = others (concat (duringIteration w <$> seq i k)) st ∧
       (k < n → TaskRegistry.aborted signal st' = true).
Proof.
  revert i prompts count st.
  induction n as [|n IH]; intros i prompts count st Hlen Hloop.
  { injection Hloop as <- <- <-. exists 0. rewrite !Nat.add_0_r. simpl.
    split_and!; [done|done|by rewrite take_drop|intros j Hj; lia|done|lia]. }
  simpl in Hloop. destruct (TaskRegistry.aborted signal st) eqn:Hab.
  { injection Hloop as <- <- <-. exists 0. rewrite !Nat.add_0_r. simpl.
    split_and!; [done|lia|by rewrite take_drop|intros j Hj; lia|done|done]. }
  destruct (iteration w i) as [[]|m] eqn:Hit; [|done].
  apply IH in Hloop as (k & -> & Hk & -> & Hdone & -> & Hstop);
    [|rewrite length_insert; lia].
  exists (S k). split_and!; [lia|lia| | | |].
  - rewrite take_S_insert by lia. rewrite drop_insert_lt by lia.
    rewrite <- app_assoc. simpl. by replace (i + S k) with (S (i + k)) by lia.
  - intros [|j] Hj; [by rewrite Nat.add_0_r|].
    replace (i + S j) with (S i + j) by lia. apply Hdone. lia.
  - simpl. by rewrite others_app.
  - intros Hlt. apply Hstop. lia.
Qed.

Lemma filter_blank k (l : list string) :
  Forall (λ p, p ≠ EmptyString) l →
  filter (λ p, p ≠ EmptyString) (replicate k EmptyString ++ l) = l.
Proof.
  intros Hl. rewrite filter_app.
  replace (filter (λ p, p ≠ EmptyString) (replicate k EmptyString)) with (@nil string).
  - simpl. apply Workflow.filter_all. by apply Forall_forall.
  - induction k as [|k IH]; [done|]. simpl.
    by rewrite filter_cons_False by (intros H; by apply H).
Qed.

Lemma readLines_nonempty w : Forall (λ p, p ≠ EmptyString) (readLines w).
Proof.
  apply Forall_forall. intros p Hp. by apply list_elem_of_filter in Hp as [? _].
Qed.

(** What the [try] block gives when it returns. *)
Lemma attempt_Ok w signal st r lines st' :
  attempt w signal st = (Ok (r, lines), st') →
  ok r = true ∧
  ∃ k, submittedCount r = Some k ∧ k ≤ length (readLines w) ∧
       (∀ j, j < k → iteration w j = Ok tt) ∧
       (k < length (readLines w) →
        TaskRegistry.aborted signal
          (others (duringSetup w ++ concat (duringIteration w <$> seq 0 k)) st) = true) ∧
       lines = if bool_decide (length (readLines w) = 0) then None
               else Some (drop k (readLines w)).
Proof.
  unfold attempt.
  destruct (if pageRegistered w then Ok true else reconnect w) as [[|]|]; try done.
  destruct (getSessionPaths w); [|done]. case_bool_decide as Hlen.
  { intros [= <- <- <-]. split; [done|]. exists 0.
    split_and!; [done|lia|intros j Hj; lia|lia|done]. }
  destruct (promptLoop _ w signal 0 _ 0 _) as [[[prompts' count]|] st2] eqn:Hloop;
    [|done].
  destruct (writeFile w); [|done]. intros [= <- <- <-]. split; [done|].
  destruct (promptLoop_Ok _ _ _ 0 _ 0 _ _ _ _ eq_refl Hloop)
    as (k & -> & Hk & -> & Hdone & -> & Hend).
  exists k. simpl. split_and!; [done|done|exact Hdone| |].
  - rewrite others_app. exact Hend.
  - f_equal. apply filter_blank.
    pose proof (readLines_nonempty w) as Hne.
    rewrite <- (take_drop k (readLines w)) in Hne.
    by apply Forall_app in Hne as [_ ?].
Qed.

(** The registry the [try] block leaves is the one it met, changed by the
    calls of the others only. *)
Lemma promptLoop_state n w signal i prompts count st :
  ∃ calls, (promptLoop n w signal i prompts count st).2 = others calls st.
Proof.
  revert i prompts count st. induction n as [|n IH]; intros i prompts count st.
  { by exists []. }
  simpl. destruct (TaskRegistry.aborted signal st); [by exists []|].
  destruct (iteration w i).
  - destruct (IH (S i) (<[i := EmptyString]> prompts) (S count)
                (others (duringIteration w i) st)) as [calls ->].
    exists (duringIteration w i ++ calls). by rewrite others_app.
  - by exists (duringIteration w i).
Qed.

Lemma attempt_state w signal st :
  ∃ calls, (attempt w signal st).2 = others calls st.
Proof.
  unfold attempt.
  destruct (if pageRegistered w then Ok true else reconnect w) as [[|]|];
    [|by eexists|by eexists].
  destruct (getSessionPaths w); [|by eexists]. case_bool_decide; [by eexists|].
  destruct (promptLoop_state (length (readLines w)) w signal 0 (readLines w) 0
              (others (duringSetup w) st)) as [calls Hcalls].
  destruct (promptLoop _ w signal 0 _ 0 _) as [[[prompts' count]|] st2];
    simpl in Hcalls; subst st2.
  - exists (duringSetup w ++ calls ++ duringWrite w).
    rewrite !others_app. by destruct (writeFile w).
  - exists (duringSetup w ++ calls). by rewrite others_app.
Qed.

Lemma others_inv calls st issued :
  TaskRegistry.Inv st issued →
  ∃ issued', TaskRegistry.Inv (others calls st) issued' ∧ ∀ x, x ∈ issued → x ∈ issued'.
Proof.
  revert st issued. induction calls as [|c calls IH]; intros st issued HI.
  { by exists issued. }
  cbn [others foldl]. fold (others calls (callOn st c)).
  destruct c as [sid ty t|sid|]; unfold callOn; simpl.
  - destruct (IH _ _ (TaskRegistry.startTask_inv _ _ sid ty t HI)) as (iss & H1 & H2).
    exists iss. split; [done|]. intros x Hx. apply H2. apply elem_of_app. by left.
  - by apply IH, TaskRegistry.stopTask_inv.
  - by apply IH, TaskRegistry.cancelAllTasks_inv.
Qed.

Lemma stopTask_not_running sid st :
  TaskRegistry.isTaskRunning sid (TaskRegistry.stopTask sid st) = false.
Proof.
  unfold TaskRegistry.isTaskRunning, TaskRegistry.stopTask.
  apply bool_decide_eq_false_2.
  destruct (TaskRegistry.registry st !! sid) eqn:E; simpl.
  - rewrite lookup_delete_eq. by intros [? ?].
  - rewrite E. by intros [? ?].
Qed.

Lemma stopTask_aborts sid c st issued :
  TaskRegistry.Inv st issued → (sid, c) ∈ issued →
  TaskRegistry.aborted c (TaskRegistry.stopTask sid st) = true.
Proof.
  intros HI Hc. destruct (TaskRegistry.inv_issued _ _ HI _ _ Hc) as [Hlt Hlive].
  unfold TaskRegistry.aborted.
  destruct (TaskRegistry.controllers st !! c) as [[|]|] eqn:E.
  - exact (f_equal (default false) (TaskRegistry.stopTask_kept sid st c E)).
  - destruct (Hlive E) as (task & Htask & Hctl).
    unfold TaskRegistry.stopTask. rewrite Htask. simpl. unfold TaskRegistry.abort.
    rewrite Hctl.
    exact (f_equal (default false) (list_lookup_insert_eq _ _ true Hlt)).
  - apply lookup_ge_None_1 in E. lia.
Qed.

(** The run with valid selectors: what the [try] block gave, then
    [stopTask]. *)
Lemma run_valid w sessionId reg :
  selectorsFound w = Ok true →
  let started := TaskRegistry.startTask sessionId TaskRegistry.prompts (now w) reg in
  let st0 := others (duringConfig w) started.1 in
  registry (runGenericPromptLoop w sessionId reg) =
    TaskRegistry.stopTask sessionId (attempt w started.2 st0).2.
Proof.
  intros Hsel started st0. unfold runGenericPromptLoop. rewrite Hsel.
  fold started. fold st0. by destruct (attempt w started.2 st0) as [[[r lines]|m] st].
Qed.

(** X26.  When [runGenericPromptLoop], with both selectors configured,
    reports [ok] with [submittedCount] [k], the page actions of the first
    [k] prompts succeeded, the prompts file was rewritten with exactly the
    prompts after the first [k] (it is left alone when it held no prompt),
    and the loop stopped before the end of the list only because the signal
    of the task had been aborted by then.  When it reports a failure, it
    reports no count and the file is not rewritten, whatever was submitted
    before the failure. *)
Theorem generic_loop_rewrites_remaining_prompts (w : World) (sessionId : string)
    (reg : TaskRegistry.State) :
  selectorsFound w = Ok true →
  (∃ r, outcome (runGenericPromptLoop w sessionId reg) = Ok r) ∧
  (∀ r k, outcome (runGenericPromptLoop w sessionId reg) = Ok r →
     ok r = true → submittedCount r = Some k →
     k ≤ length (readLines w) ∧
     (∀ j, j < k → iteration w j = Ok tt) ∧
     (k < length (readLines w) →
      TaskRegistry.aborted
        (TaskRegistry.startTask sessionId TaskRegistry.prompts (now w) reg).2
        (others (othersBefore w k)
           (TaskRegistry.startTask sessionId TaskRegistry.prompts (now w) reg).1) = true) ∧
     written (runGenericPromptLoop w sessionId reg) =
       if bool_decide (length (readLines w) = 0) then None
       else Some (drop k (readLines w))) ∧
  (∀ r, outcome (runGenericPromptLoop w sessionId reg) = Ok r → ok r = false →
     submittedCount r = None ∧ written (runGenericPromptLoop w sessionId reg) = None).
Proof.
  intros Hsel. unfold runGenericPromptLoop. rewrite Hsel.
  set (started := TaskRegistry.startTask sessionId TaskRegistry.prompts (now w) reg).
  destruct (attempt w started.2 _) as [[[r lines]|m] st] eqn:E;
    cbn [outcome registry written].
  - destruct (attempt_Ok _ _ _ _ _ _ E) as (Hok & k & Hcount & Hk & Hdone & Hend & Hw).
    split_and!; [by eexists| |].
    + intros r' k' [= <-] _ Hk'. rewrite Hcount in Hk'. injection Hk' as <-.
      split_and!; [done|done| |done].
      intros Hlt. unfold othersBefore. rewrite others_app. by apply Hend.
    + intros r' [= <-] Hbad. congruence.
  - split_and!; [by eexists| |].
    + by intros r' k' [= <-] Hok.
    + by intros r' [= <-] _.
Qed.

(** X27.  Started on a registry reached by calls of the registry's own
    functions, [runGenericPromptLoop] with both selectors configured leaves,
    however it ends and whatever calls the rest of the application makes on
    the registry meanwhile, no task registered for the session and the
    signal it was handed aborted. *)
Theorem generic_loop_always_stops_its_task (w : World) (sessionId : string)
    (reg : TaskRegistry.State) (issued : list (string * TaskRegistry.Signal)) :
  TaskRegistry.Inv reg issued →
  selectorsFound w = Ok true →
  TaskRegistry.isTaskRunning sessionId (registry (runGenericPromptLoop w sessionId reg))
    = false ∧
  TaskRegistry.aborted
    (TaskRegistry.startTask sessionId TaskRegistry.prompts (now w) reg).2
    (registry (runGenericPromptLoop w sessionId reg)) = true.
Proof.
  intros HI Hsel. rewrite (run_valid _ _ _ Hsel).
  split; [apply stopTask_not_running|].
  set (started := TaskRegistry.startTask sessionId TaskRegistry.prompts (now w) reg).
  destruct (attempt_state w started.2 (others (duringConfig w) started.1)) as [calls ->].
  rewrite <- others_app.
  pose proof (TaskRegistry.startTask_inv _ _ sessionId TaskRegistry.prompts (now w) HI)
    as HI1. fold started in HI1.
  destruct (others_inv (duringConfig w ++ calls) _ _ HI1) as (iss & HI2 & Hsub).
  apply (stopTask_aborts _ _ _ iss HI2). apply Hsub, elem_of_app. right.
  by apply list_elem_of_singleton.
Qed.

(** X28.  When one of the two selectors is missing from the configuration,
    [runGenericPromptLoop] returns 'Invalid selector configuration' without
    touching the prompts file, and unless somebody else stops it while the
    configuration is read the task it has just registered stays in the
    registry with a signal that is not aborted: that return is outside the
    [try] block whose [finally] calls [stopTask]. *)
Theorem invalid_selectors_leave_task_registered (w : World) (sessionId : string)
    (reg : TaskRegistry.State) :
  selectorsFound w = Ok false →
  duringConfig w = [] →
  outcome (runGenericPromptLoop w sessionId reg) =
    Ok {| ok := false; message := "Invalid selector configuration";
          submittedCount := None |} ∧
  written (runGenericPromptLoop w sessionId reg) = None ∧
  TaskRegistry.isTaskRunning sessionId (registry (runGenericPromptLoop w sessionId reg))
    = true ∧
  TaskRegistry.getRunningTaskType sessionId
    (registry (runGenericPromptLoop w sessionId reg)) = Some TaskRegistry.prompts ∧
  TaskRegistry.aborted
    (TaskRegistry.startTask sessionId TaskRegistry.prompts (now w) reg).2
    (registry (runGenericPromptLoop w sessionId reg)) = false.
Proof.
  intros Hsel Hnone. unfold runGenericPromptLoop. rewrite Hsel, Hnone.
  cbn [outcome registry written others foldl].
  unfold TaskRegistry.isTaskRunning, TaskRegistry.getRunningTaskType,
    TaskRegistry.aborted, TaskRegistry.startTask. simpl.
  rewrite lookup_insert_eq. split_and!; [done|done| |done|].
  - apply bool_decide_eq_true_2. by eexists.
  - by rewrite lookup_app_r, Nat.sub_diag.
Qed.

(** Four lines, one of them blank; the task is stopped from outside during
    the second iteration. *)
Definition threePrompts : World :=
  {| now := 0; selectorsFound := Ok true; pageRegistered := true;
     reconnect := Ok true; getSessionPaths := Ok tt;
     trimmedLines := ["a cat"; EmptyString; "a dog"; "a bird"];
     iteration := λ _, Ok tt; writeFile := Ok tt;
     duringConfig := []; duringSetup := [];
     duringIteration := λ i, if bool_decide (i = 1)
                             then [TaskRegistry.StopTask "s1"] else [];
     duringWrite := [] |}.

Definition badSelectors : World :=
  {| now := 0; selectorsFound := Ok false; pageRegistered := true;
     reconnect := Ok true; getSessionPaths := Ok tt;
     trimmedLines := ["a cat"];
     iteration := λ _, Ok tt; writeFile := Ok tt;
     duringConfig := []; duringSetup := [];
     duringIteration := λ _, []; duringWrite := [] |}.

Lemma generic_loop_rewrites_remaining_prompts_witness :
  selectorsFound threePrompts = Ok true ∧
  outcome (runGenericPromptLoop threePrompts "s1" TaskRegistry.empty) =
    Ok {| ok := true; message := "Generic loop finished. Submitted: 2";
          submittedCount := Some 2 |} ∧
  written (runGenericPromptLoop threePrompts "s1" TaskRegistry.empty) = Some ["a bird"] ∧
  ∃ r, outcome (runGenericPromptLoop threePrompts "s1" TaskRegistry.empty) = Ok r.
Proof.
  split_and!; [reflexivity|vm_compute; reflexivity|vm_compute; reflexivity|].
  exact (proj1 (generic_loop_rewrites_remaining_prompts threePrompts "s1"
                  TaskRegistry.empty eq_refl)).
Defined.

Lemma generic_loop_always_stops_its_task_witness :
  TaskRegistry.Inv TaskRegistry.empty [] ∧
  selectorsFound threePrompts = Ok true ∧
  TaskRegistry.isTaskRunning "s1"
    (registry (runGenericPromptLoop threePrompts "s1" TaskRegistry.empty)) = false.
Proof.
  split_and!; [exact TaskRegistry.inv_empty|reflexivity|].
  exact (proj1 (generic_loop_always_stops_its_task threePrompts "s1"
                  TaskRegistry.empty [] TaskRegistry.inv_empty eq_refl)).
Defined.

Lemma invalid_selectors_leave_task_registered_witness :
  selectorsFound badSelectors = Ok false ∧
  duringConfig badSelectors = [] ∧
  TaskRegistry.isTaskRunning "s1"
    (registry (runGenericPromptLoop badSelectors "s1" TaskRegistry.empty)) = true.
Proof.
  split_and!; [reflexivity|reflexivity|].
  exact (proj1 (proj2 (proj2
    (invalid_selectors_leave_task_registered badSelectors "s1" TaskRegistry.empty
       eq_refl eq_refl)))).
Defined.

End GenericLoop.
